(** * Streaming operators of the Bodo execution core: a shallow embedding

    The development follows the C++ sources:
    - [bodo/libs/_storage_manager.h]       (module [StorageManager])
    - [bodo/libs/_array_build_buffer.h]    (modules [Bitmap], [BuildBuffer])
    - [bodo/libs/_groupby_mpi_exscan.cpp]  (module [Exscan])
    - [bodo/libs/_groupby_common.cpp]      (module [GroupbyCommon])
    - [bodo/libs/_stream_groupby.cpp]      (module [StreamGroupby])
    - [bodo/pandas/physical/join.h]        (module [PhysicalJoin])

    Part I holds the definitions, Part II the lemmas and theorems. *)

From Stdlib Require Import ZArith NArith Lia Bool.
From stdpp Require Import base numbers list strings gmap.

(** printing of the file is ASCII only; stdpp brings [!!] and [<[_:=_]>]. *)

(* ===================================================================== *)
(** * Part I: definitions                                                 *)
(* ===================================================================== *)

(** ** Shared enumerations ([_bodo_common.h], [_groupby_ftypes.h]) *)

(** Modelled from the spec: the declaration of [bodo_array_type::arr_type_enum]
    is not among the sources; the constructors are the array kinds the sources
    name. *)
Inductive arr_type_enum :=
| NUMPY | STRING | NULLABLE_INT_BOOL | LIST_STRING | CATEGORICAL | DICT
| ARRAY_ITEM | STRUCT | MAP | TIMESTAMPTZ.

(** Modelled from the spec: the declaration of [Bodo_CTypes::CTypeEnum] is not
    among the sources; the constructors are the dtypes the sources name. *)
Inductive CTypeEnum :=
| INT8 | UINT8 | INT16 | UINT16 | INT32 | UINT32 | INT64 | UINT64
| FLOAT32 | FLOAT64 | BOOL_ | DATE | DATETIME | TIMEDELTA | TIME | DECIMAL
| CT_STRING | BINARY | CT_LIST_STRING | CT_TIMESTAMPTZ.

(** Modelled from the spec: the declaration of [Bodo_FTypes] is not among the
    sources; the constructors are the function tags the sources name. *)
Inductive Bodo_FTypes :=
| cumsum | cumprod | cummin | cummax
| ft_sum | ft_prod | ft_min | ft_max | ft_count | ft_first | ft_last
| ft_mean | ft_median | ft_var | ft_std | ft_nunique | ft_size | ft_ngroup
| boolor_agg | row_number | min_row_number_filter.

#[global] Instance arr_type_enum_eq_dec : EqDecision arr_type_enum.
Proof. solve_decision. Defined.
#[global] Instance CTypeEnum_eq_dec : EqDecision CTypeEnum.
Proof. solve_decision. Defined.
#[global] Instance Bodo_FTypes_eq_dec : EqDecision Bodo_FTypes.
Proof. solve_decision. Defined.

(** [for (i = 0; i < n; i++)] ranges over [Zseq n]. *)
Definition Zseq (n : Z) : list Z := Z.of_nat <$> seq 0 (Z.to_nat n).

(** A C++ call that may [throw]: the object as it is when the call returns, or
    the message of the exception with the object as it is at the [throw]. *)
Inductive outcome (A : Type) :=
| Returns (a : A)
| Throws (msg : string) (a : A).
Arguments Returns {A} a.
Arguments Throws {A} msg a.

(* --------------------------------------------------------------------- *)
(** ** [StorageManager] ([_storage_manager.h])                            *)
(* --------------------------------------------------------------------- *)
Module StorageManager.
Local Open Scope Z_scope.

(** [uint64_t] arithmetic wraps modulo [2^64]. *)
Definition uint64 (z : Z) : Z := z mod 2 ^ 64.

Record t := mk {
  usable_size : Z;          (* options->usable_size, int64_t *)
  block_id_counter : Z;     (* uint64_t block_id_counter = 0 *)
  curr_spilled_bytes : Z    (* uint64_t curr_spilled_bytes = 0 *)
}.

(** A manager as its constructor leaves it. *)
Definition create (usable : Z) : t := mk usable 0 0.

Definition CanSpillTo (m : t) (amount : Z) : bool :=
  (usable_size m <? 0) ||
  (uint64 (curr_spilled_bytes m + amount) <=? uint64 (usable_size m)).

Definition UpdateSpilledBytes (m : t) (diff : Z) : t :=
  mk (usable_size m) (block_id_counter m)
     (uint64 (curr_spilled_bytes m + diff)).

(** [return this->block_id_counter++;] *)
Definition GetNewBlockID (m : t) : Z * t :=
  (block_id_counter m,
   mk (usable_size m) (uint64 (block_id_counter m + 1))
      (curr_spilled_bytes m)).

(** The manager after [k] calls of [GetNewBlockID]. *)
Definition after_calls (k : N) (m : t) : t :=
  N.iter k (fun s => snd (GetNewBlockID s)) m.

(** The id that call number [k] (counted from 0) returns on a manager
    created with [usable]. *)
Definition nth_block_id (usable : Z) (k : N) : Z :=
  fst (GetNewBlockID (after_calls k (create usable))).

(** The non-virtual members that change a manager. *)
Inductive call :=
| CallGetNewBlockID
| CallUpdateSpilledBytes (diff : Z).

(** Runs the calls in order; the block ids are collected as returned. *)
Fixpoint run (cs : list call) (m : t) : list Z * t :=
  match cs with
  | [] => ([], m)
  | CallGetNewBlockID :: cs' =>
      let '(id, m1) := GetNewBlockID m in
      let '(ids, m2) := run cs' m1 in
      (id :: ids, m2)
  | CallUpdateSpilledBytes diff :: cs' => run cs' (UpdateSpilledBytes m diff)
  end.

(** Number of [GetNewBlockID] calls in a run. *)
Fixpoint id_calls (cs : list call) : nat :=
  match cs with
  | [] => 0
  | CallGetNewBlockID :: cs' => S (id_calls cs')
  | CallUpdateSpilledBytes _ :: cs' => id_calls cs'
  end.

(** Sum of the [diff] arguments of the [UpdateSpilledBytes] calls in a
    run. *)
Fixpoint spilled_diffs (cs : list call) : Z :=
  match cs with
  | [] => 0
  | CallGetNewBlockID :: cs' => spilled_diffs cs'
  | CallUpdateSpilledBytes diff :: cs' => diff + spilled_diffs cs'
  end.
End StorageManager.

(* --------------------------------------------------------------------- *)
(** ** Bit-packed bitmaps ([GetBit], [SetBitTo], [memcpy])                *)
(* --------------------------------------------------------------------- *)
Module Bitmap.
Local Open Scope Z_scope.

(** A buffer is the list of its bytes, each in [0, 256). A read outside the
    list is undefined in C++; the model reads 0 there, and every theorem
    that depends on such a read assumes the buffer is long enough. *)
Definition byte_at (bits : list Z) (k : Z) : Z :=
  default 0 (bits !! Z.to_nat k).

(** Modelled from the spec: [GetBit] of [_bodo_common.h] is not among the
    sources; the bit-packed null bitmap of the spec, least significant bit
    first as in Arrow: [(bits[i >> 3] >> (i & 0x07)) & 1]. *)
Definition GetBit (bits : list Z) (i : Z) : bool :=
  Z.testbit (byte_at bits (Z.shiftr i 3)) (Z.land i 7).

Definition kBitmask (k : Z) : Z := Z.shiftl 1 k.

(** Modelled from the spec: [SetBitTo] of [_bodo_common.h] is not among the
    sources; as in Arrow,
    [bits[i / 8] ^= (-(uint8_t)bit ^ bits[i / 8]) & kBitmask[i % 8]]. *)
Definition SetBitTo (bits : list Z) (i : Z) (bit_is_set : bool) : list Z :=
  let old := byte_at bits (i / 8) in
  <[Z.to_nat (i / 8) :=
      Z.lxor old (Z.land (Z.lxor (if bit_is_set then 255 else 0) old)
                         (kBitmask (i mod 8)))]> bits.

(** [arrow::bit_util::BytesForBits]. *)
Definition BytesForBits (bits : Z) : Z := Z.shiftr (bits + 7) 3.

(** [memcpy(dest + off, src, n)] on byte lists. *)
Definition memcpy (dest : list Z) (off : Z) (src : list Z) (n : Z) : list Z :=
  take (Z.to_nat off) dest ++ take (Z.to_nat n) src
    ++ drop (Z.to_nat (off + n)) dest.

Definition is_byte (b : Z) : Prop := 0 <= b < 256.
End Bitmap.

(* --------------------------------------------------------------------- *)
(** ** [ArrayBuildBuffer] ([_array_build_buffer.h])                       *)
(* --------------------------------------------------------------------- *)
Module BuildBuffer.
Import Bitmap.
Local Open Scope Z_scope.

(** Modelled from the spec: the table [numpy_item_size] is not among the
    sources; the byte width of each fixed-width dtype. *)
Definition numpy_item_size (d : CTypeEnum) : Z :=
  match d with
  | INT8 | UINT8 | BOOL_ => 1
  | INT16 | UINT16 => 2
  | INT32 | UINT32 | FLOAT32 => 4
  | INT64 | UINT64 | FLOAT64 | DATE | DATETIME | TIMEDELTA | TIME
  | CT_TIMESTAMPTZ => 8
  | DECIMAL => 16
  | CT_STRING | BINARY | CT_LIST_STRING => 1
  end.

(** A fixed-width array: [array_info] with its [length], the bytes of
    [data1] and the bytes of [null_bitmask]. *)
Record array_info := mk_array {
  arr_type : arr_type_enum;
  dtype : CTypeEnum;
  arr_length : Z;               (* array_info::length, uint64_t *)
  data1 : list Z;
  null_bitmask : list Z
}.

(** [ArrayBuildBuffer]: [size] is an alias of [data_array->length]. *)
Record ArrayBuildBuffer := mk_buffer {
  data_array : array_info;
  capacity : Z
}.

Definition size (b : ArrayBuildBuffer) : Z := arr_length (data_array b).

Definition with_array (b : ArrayBuildBuffer) (a : array_info) :=
  mk_buffer a (capacity b).

Definition set_data1 (a : array_info) (d : list Z) : array_info :=
  mk_array (arr_type a) (dtype a) (arr_length a) d (null_bitmask a).
Definition set_null_bitmask (a : array_info) (bm : list Z) : array_info :=
  mk_array (arr_type a) (dtype a) (arr_length a) (data1 a) bm.
Definition set_length (a : array_info) (n : Z) : array_info :=
  mk_array (arr_type a) (dtype a) n (data1 a) (null_bitmask a).

(** [_copy_bitmap(dest + off, src, length)]:
    [memcpy(dest, src, (length + 7) >> 3)]. *)
Definition _copy_bitmap (dest : list Z) (off : Z) (src : list Z) (len : Z)
  : list Z :=
  memcpy dest off src (Z.shiftr (len + 7) 3).

(** The byte-aligned branch of the null-bitmap copy
    ([_array_build_buffer.h], lines 548-552). *)
Definition append_null_bitmap_fast (a in_arr : array_info) : array_info :=
  let out_bitmask :=
    _copy_bitmap (null_bitmask a) (Z.shiftr (arr_length a) 3)
                 (null_bitmask in_arr) (arr_length in_arr) in
  set_length (set_null_bitmask a out_bitmask)
             (arr_length a + arr_length in_arr).

(** The bit-by-bit branch (lines 553-559):
    [SetBitTo(out_bitmask, this->data_array->length++, bit)]. *)
Definition append_null_bitmap_slow (a in_arr : array_info) : array_info :=
  fold_left
    (fun acc i =>
       let bit := GetBit (null_bitmask in_arr) i in
       set_length (set_null_bitmask acc
                     (SetBitTo (null_bitmask acc) (arr_length acc) bit))
                  (arr_length acc + 1))
    (Zseq (arr_length in_arr)) a.

(** [UnsafeAppendBatch<NULLABLE_INT_BOOL, DType != _BOOL>(in_arr)]
    (lines 526-560). The [SetSize] calls only move the end mark of buffers
    whose room was reserved beforehand and are left out. *)
Definition UnsafeAppendBatch_NULLABLE (b : ArrayBuildBuffer)
    (in_arr : array_info) : ArrayBuildBuffer :=
  let size_type := numpy_item_size (dtype in_arr) in
  let a := data_array b in
  let a1 :=
    set_data1 a (memcpy (data1 a) (size_type * size b) (data1 in_arr)
                        (size_type * arr_length in_arr)) in
  if decide (Z.land (size b) 7 = 0)
  then with_array b (append_null_bitmap_fast a1 in_arr)
  else with_array b (append_null_bitmap_slow a1 in_arr).

(** [UnsafeAppendBatch<NULLABLE_INT_BOOL, DType != _BOOL>(in_arr,
    append_rows, append_rows_sum)] (lines 111-148): the selected values are
    copied one element of [sizeof(T)] bytes at a time, then the selected
    null bits. The two [SetSize] calls (lines 120-127), which ask for the
    room of [size + append_rows_sum] rows and are the only use of
    [append_rows_sum], are left out as above: this is the function when
    that room was reserved, which [has_room] below says. *)
Definition UnsafeAppendBatch_NULLABLE_rows (b : ArrayBuildBuffer)
    (in_arr : array_info) (append_rows : list bool) (append_rows_sum : Z)
  : ArrayBuildBuffer :=
  let sz := numpy_item_size (dtype (data_array b)) in
  let a := data_array b in
  let '(out_data, _) :=
    fold_left
      (fun (acc : list Z * Z) row_ind =>
         let '(d, data_size) := acc in
         if default false (append_rows !! Z.to_nat row_ind)
         then (memcpy d (sz * data_size)
                      (drop (Z.to_nat (sz * row_ind)) (data1 in_arr)) sz,
               data_size + 1)
         else acc)
      (Zseq (arr_length in_arr)) (data1 a, size b) in
  let a1 := set_data1 a out_data in
  with_array b
    (fold_left
       (fun acc row_ind =>
          if default false (append_rows !! Z.to_nat row_ind)
          then
            let bit := GetBit (null_bitmask in_arr) row_ind in
            set_length (set_null_bitmask acc
                          (SetBitTo (null_bitmask acc) (arr_length acc) bit))
                       (arr_length acc + 1)
          else acc)
       (Zseq (arr_length in_arr)) a1).

(** [UnsafeAppendRow], case [NULLABLE_INT_BOOL] with a dtype other than
    [_BOOL], followed by the [++this->data_array->length] that ends the
    function. *)
Definition UnsafeAppendRow_NULLABLE (b : ArrayBuildBuffer)
    (in_arr : array_info) (row_ind : Z) : ArrayBuildBuffer :=
  let size_type := numpy_item_size (dtype in_arr) in
  let a := data_array b in
  let d := memcpy (data1 a) (size_type * size b)
                  (drop (Z.to_nat (size_type * row_ind)) (data1 in_arr))
                  size_type in
  let bit := GetBit (null_bitmask in_arr) row_ind in
  let bm := SetBitTo (null_bitmask a) (size b) bit in
  with_array b
    (set_length (set_null_bitmask (set_data1 a d) bm) (arr_length a + 1)).

(** A dictionary is held through a [shared_ptr]: [dict_ptr] is the address
    of the [array_info] it points to, [dict_strings] its contents. *)
Record dictionary := mk_dictionary {
  dict_ptr : Z;
  dict_strings : list string
}.

(** Modelled from the spec: [is_matching_dictionary] of [_array_utils.h] is
    not among the sources; by the spec a dictionary is unified when it is
    "an exact shared reference to the canonical dictionary", so two
    dictionaries match when they are the same object. The contents are not
    compared. *)
Definition is_matching_dictionary (d1 d2 : dictionary) : bool :=
  bool_decide (dict_ptr d1 = dict_ptr d2).

(** A dictionary-encoded array: [child_arrays[0]] is the dictionary,
    [child_arrays[1]] the nullable INT32 indices. *)
Record dict_array_info := mk_dict_array {
  dict_length : Z;
  child_dictionary : dictionary;
  child_indices : array_info
}.

(** The build buffer of a dictionary-encoded column. [dict_indices] is the
    builder of [data_array->child_arrays[1]]: both names denote one array,
    which the model keeps once, in [dict_indices]. *)
Record DictBuildBuffer := mk_dict_buffer {
  dict_data_length : Z;                 (* data_array->length *)
  dict_data_dictionary : dictionary;    (* data_array->child_arrays[0] *)
  dict_indices : ArrayBuildBuffer
}.

(** [UnsafeAppendBatch<DICT>(in_arr, append_rows, append_rows_sum)]
    (lines 233-249). *)
Definition UnsafeAppendBatch_DICT_rows (b : DictBuildBuffer)
    (in_arr : dict_array_info) (append_rows : list bool)
    (append_rows_sum : Z) : outcome DictBuildBuffer :=
  if negb (is_matching_dictionary (dict_data_dictionary b)
                                  (child_dictionary in_arr))
  then Throws "dictionary not unified in UnsafeAppendBatch" b
  else
    let idx := UnsafeAppendBatch_NULLABLE_rows (dict_indices b)
                 (child_indices in_arr) append_rows append_rows_sum in
    Returns (mk_dict_buffer (dict_data_length b + append_rows_sum)
                            (dict_data_dictionary b) idx).

(** [UnsafeAppendBatch<DICT>(in_arr)] (lines 639-652). *)
Definition UnsafeAppendBatch_DICT (b : DictBuildBuffer)
    (in_arr : dict_array_info) : outcome DictBuildBuffer :=
  if negb (is_matching_dictionary (dict_data_dictionary b)
                                  (child_dictionary in_arr))
  then Throws "dictionary not unified in UnsafeAppendBatch" b
  else
    let idx := UnsafeAppendBatch_NULLABLE (dict_indices b)
                 (child_indices in_arr) in
    Returns (mk_dict_buffer (dict_data_length b + dict_length in_arr)
                            (dict_data_dictionary b) idx).

(** [UnsafeAppendRow], case [DICT] (lines 996-1004), followed by the
    [++this->data_array->length] that ends the function; the [throw] leaves
    the function before that increment. *)
Definition UnsafeAppendRow_DICT (b : DictBuildBuffer)
    (in_arr : dict_array_info) (row_ind : Z) : outcome DictBuildBuffer :=
  if negb (is_matching_dictionary (dict_data_dictionary b)
                                  (child_dictionary in_arr))
  then Throws "dictionary not unified in AppendRow" b
  else
    let idx := UnsafeAppendRow_NULLABLE (dict_indices b)
                 (child_indices in_arr) row_ind in
    Returns (mk_dict_buffer (dict_data_length b + 1)
                            (dict_data_dictionary b) idx).

(** The general path of [UnsafeAppendBatch<NULLABLE_INT_BOOL, DType !=
    _BOOL>]: the same function with the bit-by-bit branch run whatever the
    alignment of [size]. *)
Definition UnsafeAppendBatch_NULLABLE_general (b : ArrayBuildBuffer)
    (in_arr : array_info) : ArrayBuildBuffer :=
  let size_type := numpy_item_size (dtype in_arr) in
  let a := data_array b in
  let a1 :=
    set_data1 a (memcpy (data1 a) (size_type * size b) (data1 in_arr)
                        (size_type * arr_length in_arr)) in
  with_array b (append_null_bitmap_slow a1 in_arr).

(** A caller that appends the rows [rows] of [in_arr] one at a time with
    [UnsafeAppendRow]. *)
Definition UnsafeAppendRows_NULLABLE (b : ArrayBuildBuffer)
    (in_arr : array_info) (rows : list Z) : ArrayBuildBuffer :=
  fold_left (fun acc row_ind => UnsafeAppendRow_NULLABLE acc in_arr row_ind)
            rows b.

(** The rows of [in_arr] that [append_rows] selects, in row order. *)
Definition selected_rows (in_arr : array_info) (append_rows : list bool)
  : list Z :=
  filter (fun row_ind => default false (append_rows !! Z.to_nat row_ind) = true)
         (Zseq (arr_length in_arr)).

(** The room the two [SetSize] calls of an append of [n] rows to a nullable
    fixed-width buffer ask for, [sz * (size + n)] bytes of values and
    [BytesForBits(size + n)] bytes of null bits, lies within what was
    reserved; the lists of the model are the reserved bytes. *)
Definition has_room (b : ArrayBuildBuffer) (sz n : Z) : Prop :=
  sz * (size b + n) <= Z.of_nat (length (data1 (data_array b)))
  /\ BytesForBits (size b + n)
     <= Z.of_nat (length (null_bitmask (data_array b))).

(** [UnsafeAppendBatch<NULLABLE_INT_BOOL, _BOOL>(in_arr)] (lines 482-516):
    the values of a boolean column are bits, packed like the null bitmap.
    With the size a multiple of 8 both bitmaps are copied byte by byte;
    otherwise each row writes its value bit and its null bit at
    [this->size], which is [data_array->length], and moves the length. *)
Definition UnsafeAppendBatch_BOOL (b : ArrayBuildBuffer)
    (in_arr : array_info) : ArrayBuildBuffer :=
  let a := data_array b in
  if decide (Z.land (size b) 7 = 0)
  then
    let out_data :=
      _copy_bitmap (data1 a) (Z.shiftr (size b) 3) (data1 in_arr)
                   (arr_length in_arr) in
    let out_bitmask :=
      _copy_bitmap (null_bitmask a) (Z.shiftr (size b) 3)
                   (null_bitmask in_arr) (arr_length in_arr) in
    with_array b
      (set_length (set_null_bitmask (set_data1 a out_data) out_bitmask)
                  (arr_length a + arr_length in_arr))
  else
    with_array b
      (fold_left
         (fun acc row_ind =>
            let d := SetBitTo (data1 acc) (arr_length acc)
                              (GetBit (data1 in_arr) row_ind) in
            let bit := GetBit (null_bitmask in_arr) row_ind in
            set_length
              (set_null_bitmask (set_data1 acc d)
                 (SetBitTo (null_bitmask acc) (arr_length acc) bit))
              (arr_length acc + 1))
         (Zseq (arr_length in_arr)) a).

(** A boolean buffer holding 3 rows with room for 16, and a batch of 3
    rows. *)
Definition example_bool_buffer : ArrayBuildBuffer :=
  mk_buffer (mk_array NULLABLE_INT_BOOL BOOL_ 3 [5; 0] [7; 0]) 16.
Definition example_bool_batch : array_info :=
  mk_array NULLABLE_INT_BOOL BOOL_ 3 [6] [3].

(** *** STRING columns *)

(** A STRING column: the fields of [array_info] kept above, with [data1]
    the characters, and [data2], the array of [length + 1] offsets into
    [data1]. *)
Record string_array_info := mk_string_array {
  str_fields : array_info;
  data2 : list Z                 (* offset_t[] *)
}.

(** Modelled from the spec: the type [offset_t] of [_bodo_common.h] is not
    among the sources; the entries of the "offset array" of the spec, here
    unsigned and 64 bits wide. *)
Definition offset_wrap (z : Z) : Z := z mod 2 ^ 64.
Definition to_int64 (z : Z) : Z := (z + 2 ^ 63) mod 2 ^ 64 - 2 ^ 63.

(** [offsets[i]]; as for [byte_at] a read outside the list reads 0, and
    every theorem that depends on such a read assumes the list is long
    enough. *)
Definition offset_at (offsets : list Z) (i : Z) : Z :=
  default 0 (offsets !! Z.to_nat i).

(** [int64_t str_len = in_offsets[row_ind + 1] - in_offsets[row_ind]]. *)
Definition str_len (in_offsets : list Z) (row_ind : Z) : Z :=
  to_int64 (offset_wrap (offset_at in_offsets (row_ind + 1)
                         - offset_at in_offsets row_ind)).

(** [UnsafeAppendBatch<STRING>(in_arr, append_rows, append_rows_sum)]
    (lines 160-221): three loops over the rows of the batch, for the
    offsets, the characters and the null bits of the selected rows. The
    three [SetSize] calls (lines 167-170, 185-190 and 206-210), two of
    which ask for the room of [size + append_rows_sum] rows and are the
    only use of [append_rows_sum], are left out as above: this is the
    function when that room was reserved. A negative [str_len], which
    [memcpy] would take for a huge count, copies nothing here; it does not
    occur when the offsets of the batch increase. *)
Definition UnsafeAppendBatch_STRING_rows (b in_arr : string_array_info)
    (append_rows : list bool) (append_rows_sum : Z) : string_array_info :=
  let a := str_fields b in
  let in_offsets := data2 in_arr in
  let n := arr_length (str_fields in_arr) in
  let '(curr_offsets, _) :=
    fold_left
      (fun (acc : list Z * Z) row_ind =>
         let '(offs, offset_size) := acc in
         if default false (append_rows !! Z.to_nat row_ind)
         then (<[Z.to_nat (offset_size + 1) :=
                   offset_wrap (offset_at offs offset_size
                                + str_len in_offsets row_ind)]> offs,
               offset_size + 1)
         else acc)
      (Zseq n) (data2 b, arr_length a) in
  let '(out_data, _) :=
    fold_left
      (fun (acc : list Z * Z) row_ind =>
         let '(d, character_size) := acc in
         if default false (append_rows !! Z.to_nat row_ind)
         then (memcpy d (offset_at curr_offsets character_size)
                      (drop (Z.to_nat (offset_at in_offsets row_ind))
                            (data1 (str_fields in_arr)))
                      (str_len in_offsets row_ind),
               character_size + 1)
         else acc)
      (Zseq n) (data1 a, arr_length a) in
  mk_string_array
    (fold_left
       (fun acc row_ind =>
          if default false (append_rows !! Z.to_nat row_ind)
          then
            let bit := GetBit (null_bitmask (str_fields in_arr)) row_ind in
            set_length (set_null_bitmask acc
                          (SetBitTo (null_bitmask acc) (arr_length acc) bit))
                       (arr_length acc + 1)
          else acc)
       (Zseq n) (set_data1 a out_data))
    curr_offsets.

(** The bit-by-bit branch of the STRING batch append (lines 618-623):
    [SetBitTo(out_bitmask, this->size + i, bit)], the length moved once at
    the end of the function (line 625). *)
Definition append_null_bitmap_slow_STRING (a in_arr : array_info)
  : array_info :=
  set_length
    (set_null_bitmask a
       (fold_left
          (fun bm i =>
             SetBitTo bm (arr_length a + i) (GetBit (null_bitmask in_arr) i))
          (Zseq (arr_length in_arr)) (null_bitmask a)))
    (arr_length a + arr_length in_arr).

(** [UnsafeAppendBatch<STRING>(in_arr)] (lines 570-626): the characters in
    one [memcpy] of [in_offsets[in_arr->length]] bytes from the start of
    the batch's [data1], then the offsets
    [curr_offsets[size] + in_offsets[row_ind]], then the null bits. *)
Definition UnsafeAppendBatch_STRING (b in_arr : string_array_info)
  : string_array_info :=
  let a := str_fields b in
  let in_a := str_fields in_arr in
  let size := arr_length a in
  let curr_offsets := data2 b in
  let in_offsets := data2 in_arr in
  let added_data_size := offset_at in_offsets (arr_length in_a) in
  let old_data_size := offset_at curr_offsets size in
  let out_data :=
    memcpy (data1 a) old_data_size (data1 in_a) added_data_size in
  let offsets :=
    fold_left
      (fun offs row_ind =>
         <[Z.to_nat (size + row_ind) :=
             offset_wrap (offset_at offs size
                          + offset_at in_offsets row_ind)]> offs)
      ((fun i => i + 1) <$> Zseq (arr_length in_a)) curr_offsets in
  let a1 := set_data1 a out_data in
  mk_string_array
    (if decide (Z.land size 7 = 0)
     then append_null_bitmap_fast a1 in_a
     else append_null_bitmap_slow_STRING a1 in_a)
    offsets.

(** [UnsafeAppendRow], case [STRING] (lines 957-995), followed by the
    [++this->data_array->length] that ends the function. *)
Definition UnsafeAppendRow_STRING (b in_arr : string_array_info)
    (row_ind : Z) : string_array_info :=
  let a := str_fields b in
  let size := arr_length a in
  let in_offsets := data2 in_arr in
  let len := str_len in_offsets row_ind in
  let curr_offsets :=
    <[Z.to_nat (size + 1) :=
        offset_wrap (offset_at (data2 b) size + len)]> (data2 b) in
  let d :=
    memcpy (data1 a) (offset_at curr_offsets size)
           (drop (Z.to_nat (offset_at in_offsets row_ind))
                 (data1 (str_fields in_arr)))
           len in
  let bit := GetBit (null_bitmask (str_fields in_arr)) row_ind in
  let bm := SetBitTo (null_bitmask a) size bit in
  mk_string_array
    (set_length (set_null_bitmask (set_data1 a d) bm) (arr_length a + 1))
    curr_offsets.

(** A caller that appends the rows [rows] of [in_arr] one at a time. *)
Definition UnsafeAppendRows_STRING (b in_arr : string_array_info)
    (rows : list Z) : string_array_info :=
  fold_left (fun acc row_ind => UnsafeAppendRow_STRING acc in_arr row_ind)
            rows b.

(** Row [i] of a STRING column as its readers take it: the characters
    [data1[offsets[i] .. offsets[i + 1])]. *)
Definition string_at (a : string_array_info) (i : Z) : list Z :=
  take (Z.to_nat (offset_at (data2 a) (i + 1) - offset_at (data2 a) i))
       (drop (Z.to_nat (offset_at (data2 a) i)) (data1 (str_fields a))).

(** The first [n + 1] offsets start at or above 0 and never decrease. *)
Definition offsets_increase (offsets : list Z) (n : Z) : Prop :=
  0 <= offset_at offsets 0
  /\ forall i, 0 <= i < n -> offset_at offsets i <= offset_at offsets (i + 1).

(** A row of [in_arr] that can be read: its two offsets are in the offset
    array, ordered, below [2^63] and inside [data1]. *)
Definition readable_row (in_arr : string_array_info) (row_ind : Z) : Prop :=
  0 <= row_ind
  /\ row_ind + 1 < Z.of_nat (length (data2 in_arr))
  /\ 0 <= offset_at (data2 in_arr) row_ind
       <= offset_at (data2 in_arr) (row_ind + 1)
  /\ offset_at (data2 in_arr) (row_ind + 1)
     <= Z.of_nat (length (data1 (str_fields in_arr)))
  /\ offset_at (data2 in_arr) (row_ind + 1) < 2 ^ 63.

(** The number of characters of the rows [rows] of [in_arr]. *)
Definition rows_chars (in_arr : string_array_info) (rows : list Z) : Z :=
  foldr (fun row_ind acc => str_len (data2 in_arr) row_ind + acc) 0 rows.

(** A STRING buffer holding ["ab"] and [""] with room for more, and a
    batch with the rows ["xyz"], a null and ["q"]. *)
Definition example_string_buffer : string_array_info :=
  mk_string_array
    (mk_array STRING CT_STRING 2 [97; 98; 0; 0; 0; 0; 0; 0] [3])
    [0; 2; 2; 0; 0; 0].
Definition example_string_batch : string_array_info :=
  mk_string_array
    (mk_array STRING CT_STRING 3 [120; 121; 122; 113] [5])
    [0; 3; 3; 4].

(** Inputs used to exercise the theorems: a nullable INT8 buffer holding 8
    rows with room for 16, a batch of 3 rows, and a dictionary buffer with a
    batch whose dictionary has the same strings at another address. *)
Definition example_buffer : ArrayBuildBuffer :=
  mk_buffer (mk_array NULLABLE_INT_BOOL INT8 8
               [1; 2; 3; 4; 5; 6; 7; 8; 0; 0; 0; 0; 0; 0; 0; 0]
               [171; 255]) 16.
Definition example_batch : array_info :=
  mk_array NULLABLE_INT_BOOL INT8 3 [10; 20; 30] [5].
Definition example_dict_buffer : DictBuildBuffer :=
  mk_dict_buffer 0 (mk_dictionary 4096 ["a"; "b"])
    (mk_buffer (mk_array NULLABLE_INT_BOOL INT32 0 (replicate 16 0) [0]) 4).
Definition example_dict_batch : dict_array_info :=
  mk_dict_array 2 (mk_dictionary 8192 ["a"; "b"])
    (mk_array NULLABLE_INT_BOOL INT32 2 [0; 0; 0; 0; 1; 0; 0; 0] [3]).
(** A nullable INT8 buffer holding 3 rows with room for 16, and a batch with
    the same dictionary object as [example_dict_buffer]. *)
Definition example_buffer_unaligned : ArrayBuildBuffer :=
  mk_buffer (mk_array NULLABLE_INT_BOOL INT8 3
               [1; 2; 3; 0; 0; 0; 0; 0; 0; 0; 0; 0; 0; 0; 0; 0]
               [5; 0]) 16.
Definition example_dict_batch_unified : dict_array_info :=
  mk_dict_array 2 (mk_dictionary 4096 ["a"; "b"])
    (mk_array NULLABLE_INT_BOOL INT32 2 [0; 0; 0; 0; 1; 0; 0; 0] [3]).
End BuildBuffer.

(* --------------------------------------------------------------------- *)
(** ** Scalars of the numeric dtypes                                      *)
(* --------------------------------------------------------------------- *)

(** A value of a fixed-width dtype. Floats are not computed with: the model
    only names the constants the sources store, a finite float as the dyadic
    [m * 2^e] and the quiet NaN. *)
Inductive scalar :=
| IntVal (z : Z)
| BoolVal (b : bool)
| FloatVal (m e : Z)
| FloatNaN.

#[global] Instance scalar_eq_dec : EqDecision scalar.
Proof. solve_decision. Defined.

Module Numeric.
Local Open Scope Z_scope.

(** The dtypes [mpi_exscan_computation_Tkey] dispatches on, which are the
    numeric dtypes of the operand columns. *)
Definition integer_dtypes : list CTypeEnum :=
  [INT8; UINT8; INT16; UINT16; INT32; UINT32; INT64; UINT64].
Definition float_dtypes : list CTypeEnum := [FLOAT32; FLOAT64].
Definition numeric_dtypes : list CTypeEnum := integer_dtypes ++ float_dtypes.

(** [std::numeric_limits<T>::min()] of the C++ standard library: the least
    value of an integer type, but the least POSITIVE normal value of a
    floating type. Dtypes without a C++ arithmetic type read 0. *)
Definition numeric_limits_min (d : CTypeEnum) : scalar :=
  match d with
  | INT8 => IntVal (- 2 ^ 7) | INT16 => IntVal (- 2 ^ 15)
  | INT32 => IntVal (- 2 ^ 31) | INT64 => IntVal (- 2 ^ 63)
  | UINT8 | UINT16 | UINT32 | UINT64 => IntVal 0
  | FLOAT32 => FloatVal 1 (-126)
  | FLOAT64 => FloatVal 1 (-1022)
  | BOOL_ => BoolVal false
  | _ => IntVal 0
  end.

(** [std::numeric_limits<T>::max()]: the greatest finite value. *)
Definition numeric_limits_max (d : CTypeEnum) : scalar :=
  match d with
  | INT8 => IntVal (2 ^ 7 - 1) | INT16 => IntVal (2 ^ 15 - 1)
  | INT32 => IntVal (2 ^ 31 - 1) | INT64 => IntVal (2 ^ 63 - 1)
  | UINT8 => IntVal (2 ^ 8 - 1) | UINT16 => IntVal (2 ^ 16 - 1)
  | UINT32 => IntVal (2 ^ 32 - 1) | UINT64 => IntVal (2 ^ 64 - 1)
  | FLOAT32 => FloatVal (2 ^ 24 - 1) 104
  | FLOAT64 => FloatVal (2 ^ 53 - 1) 971
  | BOOL_ => BoolVal true
  | _ => IntVal 0
  end.

(** The integer literal [n] converted to the dtype ([T x = n;]): unsigned
    types wrap, floats hold it exactly. *)
Definition of_literal (d : CTypeEnum) (n : Z) : scalar :=
  match d with
  | UINT8 => IntVal (n mod 2 ^ 8) | UINT16 => IntVal (n mod 2 ^ 16)
  | UINT32 => IntVal (n mod 2 ^ 32) | UINT64 => IntVal (n mod 2 ^ 64)
  | FLOAT32 | FLOAT64 => FloatVal n 0
  | BOOL_ => BoolVal (negb (n =? 0))
  | _ => IntVal n
  end.

(** The value the specification calls the minimum, respectively the maximum, of a
    dtype: the least and the greatest finite value it can hold (for a float
    the least is [lowest() = -max()]). *)
Definition dtype_minimum (d : CTypeEnum) : scalar :=
  match d with
  | FLOAT32 => FloatVal (- (2 ^ 24 - 1)) 104
  | FLOAT64 => FloatVal (- (2 ^ 53 - 1)) 971
  | _ => numeric_limits_min d
  end.
Definition dtype_maximum (d : CTypeEnum) : scalar := numeric_limits_max d.
End Numeric.

(* --------------------------------------------------------------------- *)
(** ** [aggfunc_output_initialize_kernel] ([_groupby_common.cpp])         *)
(* --------------------------------------------------------------------- *)
Module GroupbyCommon.
Import Numeric.
Local Open Scope Z_scope.

(** An output column: [data1] as the list of its slots, the null bitmap as
    the list of its bits. *)
Record array_info := mk_array {
  arr_type : arr_type_enum;
  dtype : CTypeEnum;
  arr_length : Z;
  num_categories : Z;
  data1 : list scalar;
  null_bitmask : list bool
}.

(** [std::fill(p, p + n, v)]. *)
Definition fill (data : list scalar) (n : Z) (v : scalar) : list scalar :=
  replicate (Z.to_nat n) v ++ drop (Z.to_nat n) data.

Definition set_data1 (a : array_info) (d : list scalar) : array_info :=
  mk_array (arr_type a) (dtype a) (arr_length a) (num_categories a) d
           (null_bitmask a).

(** Modelled from the spec: [InitializeBitMask] is not among the sources;
    it sets the first [length] bits of the null bitmap to [init_val]. What
    it does to the bits from [length] on (a fill byte by byte would also
    write the rest of the last byte) is not decided by the sources; the
    model keeps them, and what is stated of [aggfunc_output_initialize]
    below is about the rows of the column only. *)
Definition InitializeBitMask (a : array_info) (init_val : bool) : array_info :=
  mk_array (arr_type a) (dtype a) (arr_length a) (num_categories a) (data1 a)
           (replicate (Z.to_nat (arr_length a)) init_val
              ++ drop (Z.to_nat (arr_length a)) (null_bitmask a)).

(** An [int] stored into a signed integer of [w] bits. *)
Definition to_signed (w : Z) (z : Z) : Z :=
  (z + 2 ^ (w - 1)) mod 2 ^ w - 2 ^ (w - 1).

Definition fill_all (a : array_info) (v : scalar) : array_info :=
  set_data1 a (fill (data1 a) (arr_length a) v).

(** The data part of the kernel for [prod]. The boolean of a result says
    whether [Bodo_PyErr_SetString] was called. *)
Definition init_prod (a : array_info) : array_info * bool :=
  match dtype a with
  | BOOL_ => (fill_all a (BoolVal true), false)
  | INT8 | UINT8 | INT16 | UINT16 | INT32 | UINT32 | INT64 | UINT64 =>
      (fill_all a (IntVal 1), false)
  | FLOAT32 | FLOAT64 => (fill_all a (FloatVal 1 0), false)
  | _ => (a, true)
  end.

Definition init_min (a : array_info) : array_info * bool :=
  match dtype a with
  | BOOL_ => (fill_all a (BoolVal true), false)
  | INT8 | UINT8 | INT16 | UINT16 | INT32 | UINT32 | INT64 | UINT64 =>
      (fill_all a (numeric_limits_max (dtype a)), false)
  | DATE | DATETIME | TIMEDELTA | TIME =>
      (fill_all a (numeric_limits_max INT64), false)
  | FLOAT32 | FLOAT64 => (fill_all a FloatNaN, false)
  | DECIMAL =>
      (set_data1 a (fill (data1 a) (2 * arr_length a)
                         (numeric_limits_max INT64)), false)
  | CT_STRING | BINARY | CT_LIST_STRING => (a, false)
  | _ => (a, true)
  end.

Definition init_max (a : array_info) : array_info * bool :=
  match dtype a with
  | BOOL_ => (fill_all a (BoolVal false), false)
  | INT8 | UINT8 | INT16 | UINT16 | INT32 | UINT32 | INT64 | UINT64 =>
      (fill_all a (numeric_limits_min (dtype a)), false)
  | DATE | DATETIME | TIMEDELTA | TIME =>
      (fill_all a (numeric_limits_min INT64), false)
  | FLOAT32 | FLOAT64 => (fill_all a FloatNaN, false)
  | DECIMAL =>
      (set_data1 a (fill (data1 a) (2 * arr_length a)
                         (numeric_limits_min INT64)), false)
  | CT_STRING | BINARY | CT_LIST_STRING => (a, false)
  | _ => (a, true)
  end.

Definition init_first_last (a : array_info) : array_info * bool :=
  match dtype a with
  | DATE | DATETIME | TIMEDELTA | TIME =>
      (fill_all a (numeric_limits_min INT64), false)
  | FLOAT32 | FLOAT64 => (fill_all a FloatNaN, false)
  | _ => (a, false)
  end.

(** [memset(data1, 0, numpy_item_size[dtype] * length)]: the bytes of
    [length] rows are cleared, so every slot of these rows holds the all-zero
    pattern of its dtype. A slot of [data1] is what one [std::fill] of the
    kernel writes: a row, except for DECIMAL, whose rows of 16 bytes are two
    64-bit slots each (the [min] and [max] branches fill [2 * length] of
    them). *)
Definition zero_of (d : CTypeEnum) : scalar :=
  match d with
  | FLOAT32 | FLOAT64 => FloatVal 0 0
  | BOOL_ => BoolVal false
  | _ => IntVal 0
  end.
Definition slots_per_row (d : CTypeEnum) : Z :=
  match d with
  | DECIMAL => 2
  | _ => 1
  end.

Definition is_min_max_first_last (ftype : Bodo_FTypes) : bool :=
  match ftype with
  | ft_min | ft_max | ft_first | ft_last => true
  | _ => false
  end.

Definition aggfunc_output_initialize_kernel (out_col : array_info)
    (ftype : Bodo_FTypes) (use_sql_rules : bool) : array_info * bool :=
  let c1 :=
    if decide (arr_type out_col = NULLABLE_INT_BOOL) then
      let init_val :=
        if use_sql_rules then bool_decide (ftype = ft_count)
        else
          match ftype with
          | ft_min | ft_max | ft_first | ft_last | boolor_agg | ft_mean
          | ft_var | ft_std | ft_median => false
          | _ => true
          end in
      InitializeBitMask out_col init_val
    else out_col in
  let c2 :=
    if decide (arr_type c1 = STRING \/ arr_type c1 = LIST_STRING)
    then InitializeBitMask c1 false else c1 in
  if bool_decide (arr_type c2 = CATEGORICAL) && is_min_max_first_last ftype then
    (* [int init_val]: the number of categories is stored into an [int] of
       32 bits before it is converted to the type of the slots *)
    let init_val :=
      if decide (ftype = ft_min) then to_signed 32 (num_categories c2)
      else -1 in
    match dtype c2 with
    | INT8 => (fill_all c2 (IntVal (to_signed 8 init_val)), false)
    | INT16 => (fill_all c2 (IntVal (to_signed 16 init_val)), false)
    | INT32 => (fill_all c2 (IntVal (to_signed 32 init_val)), false)
    | INT64 => (fill_all c2 (IntVal (to_signed 64 init_val)), false)
    | _ => (c2, true)
    end
  else
    match ftype with
    | ft_prod => init_prod c2
    | ft_min => init_min c2
    | ft_max => init_max c2
    | ft_first | ft_last => init_first_last c2
    | min_row_number_filter => (fill_all c2 (BoolVal false), false)
    | _ =>
        (set_data1 c2
           (fill (data1 c2) (slots_per_row (dtype c2) * arr_length c2)
                 (zero_of (dtype c2))), false)
    end.

Definition aggfunc_output_initialize (out_col : array_info)
    (ftype : Bodo_FTypes) (use_sql_rules : bool) : array_info * bool :=
  aggfunc_output_initialize_kernel out_col ftype use_sql_rules.

Section OutputDtype.
(** [get_combine_func] of [_groupby_update.h] is not among the sources; it
    is a parameter here. *)
Variable get_combine_func : Bodo_FTypes -> Bodo_FTypes.

(** [get_groupby_output_dtype] (lines 392-441): the array type and dtype the
    two reference arguments hold when the function returns. *)
Definition get_groupby_output_dtype (ftype : Bodo_FTypes)
    (array_type : arr_type_enum) (dtype : CTypeEnum)
    (is_key is_combine : bool) : arr_type_enum * CTypeEnum :=
  let ftype := if is_combine then get_combine_func ftype else ftype in
  if is_key then (array_type, dtype)
  else
    match ftype with
    | ft_nunique | ft_count | ft_size | ft_ngroup => (NUMPY, INT64)
    | ft_median | ft_mean | ft_var | ft_std => (NULLABLE_INT_BOOL, FLOAT64)
    | cumsum | ft_sum =>
        let '(array_type1, dtype1) :=
          if decide (dtype = BOOL_) then (NULLABLE_INT_BOOL, INT64)
          else (array_type, dtype) in
        if decide (dtype1 = CT_STRING) then (STRING, dtype1)
        else (array_type1, dtype1)
    | boolor_agg => (NULLABLE_INT_BOOL, BOOL_)
    | row_number => (NUMPY, UINT64)
    | min_row_number_filter => (NUMPY, BOOL_)
    | _ => (array_type, dtype)
    end.
End OutputDtype.

(** A nullable FLOAT64 output column of 3 rows. *)
Definition example_out_col : array_info :=
  mk_array NULLABLE_INT_BOOL FLOAT64 3 0
    [FloatVal 0 0; FloatVal 0 0; FloatVal 0 0; FloatVal 0 0]
    [true; true; true; true].
End GroupbyCommon.

(* --------------------------------------------------------------------- *)
(** ** The exscan strategy ([_groupby_mpi_exscan.cpp])                    *)
(* --------------------------------------------------------------------- *)
Module Exscan.
Local Open Scope Z_scope.

(** What [determine_groupby_strategy] reads of a column. *)
Record array_info := mk_array {
  arr_type : arr_type_enum;
  dtype : CTypeEnum;
  num_categories : Z
}.

(** [table_info]: the vector [columns]. *)
Abbreviation table_info := (list array_info).
Definition ncols (t : table_info) : Z := Z.of_nat (length t).

Definition is_cumulative (ftype : Bodo_FTypes) : bool :=
  match ftype with
  | cumsum | cummin | cumprod | cummax => true
  | _ => false
  end.

Definition is_arithmetic (c : array_info) : bool :=
  bool_decide (arr_type c = NUMPY)
  || bool_decide (arr_type c = NULLABLE_INT_BOOL).

Definition index_i (input_has_index : bool) : Z :=
  if input_has_index then 1 else 0.

(** The functions the first loop visits:
    [ftypes[0 .. func_offsets[ncols - num_keys - index_i])]. *)
Definition requested_functions (in_table : table_info) (num_keys : Z)
    (ftypes : list Bodo_FTypes) (func_offsets : list Z)
    (input_has_index : bool) : list Bodo_FTypes :=
  let n :=
    default 0
      (func_offsets
         !! Z.to_nat (ncols in_table - num_keys - index_i input_has_index)) in
  take (Z.to_nat n) ftypes.

(** The columns the second loop visits:
    [columns[num_keys .. ncols - index_i)]. *)
Definition operand_columns (in_table : table_info) (num_keys : Z)
    (input_has_index : bool) : list array_info :=
  drop (Z.to_nat num_keys)
       (take (Z.to_nat (ncols in_table - index_i input_has_index)) in_table).

Section Strategy.
(** The constant [max_global_number_groups_exscan] is declared in a
    header that is not among the sources; it is a parameter here. *)
Variable max_global_number_groups_exscan : Z.

Definition determine_groupby_strategy (in_table : table_info)
    (num_keys : Z) (ftypes : list Bodo_FTypes) (func_offsets : list Z)
    (input_has_index : bool) : Z :=
  let '(has_non_cumulative_op, has_cumulative_op) :=
    fold_left
      (fun (flags : bool * bool) ftype =>
         if is_cumulative ftype then (flags.1, true) else (true, flags.2))
      (requested_functions in_table num_keys ftypes func_offsets
         input_has_index)
      (false, false) in
  if has_non_cumulative_op then 0
  else if negb has_cumulative_op then 0
  else
    let has_non_arithmetic_type :=
      fold_left
        (fun (flag : bool) oper_col =>
           if negb (bool_decide (arr_type oper_col = NUMPY))
              && negb (bool_decide (arr_type oper_col = NULLABLE_INT_BOOL))
           then true else flag)
        (operand_columns in_table num_keys input_has_index) false in
    if has_non_arithmetic_type then 0
    else if 1 <? num_keys then 2
    else
      match in_table with
      | [] => 2        (* columns[0] does not exist: not reached *)
      | key :: _ =>
          if negb (bool_decide (arr_type key = CATEGORICAL)) then 2
          else if max_global_number_groups_exscan <? num_categories key
               then 0
               else 1
      end.

(** [compute_categorical_index], lines 100-106: with [n_rows_full] the
    global number of distinct key rows, the function gives up (returns
    [nullptr]) when that number is above the ceiling. *)
Definition compute_categorical_index_gives_up (n_rows_full : Z) : bool :=
  max_global_number_groups_exscan <? n_rows_full.

(** Modelled from the spec: the caller of the two functions is not among
    the sources. The fast path runs when the strategy is 1, or when it is
    2 and [compute_categorical_index] returns an index. *)
Definition exscan_fast_path_chosen (in_table : table_info)
    (num_keys : Z) (ftypes : list Bodo_FTypes) (func_offsets : list Z)
    (input_has_index : bool) (n_rows_full : Z) : bool :=
  let strategy :=
    determine_groupby_strategy in_table num_keys ftypes func_offsets
      input_has_index in
  if decide (strategy = 0) then false
  else if decide (strategy = 2)
       then negb (compute_categorical_index_gives_up n_rows_full)
       else true.

(** The rule in the words of the spec, in priority order: a
    non-cumulative function, then a non-numeric operand column, then more
    key-groups than the ceiling make the query ineligible. *)
Definition spec_eligible (funcs : list Bodo_FTypes)
    (operands : list array_info) (n_groups : Z) : bool :=
  if existsb (fun f => negb (is_cumulative f)) funcs then false
  else if existsb (fun c => negb (is_arithmetic c)) operands then false
  else if max_global_number_groups_exscan <? n_groups then false
  else true.

(** The number of key-groups the code compares with the ceiling: the
    number of categories of a single categorical key, else the global
    number of distinct key rows. *)
Definition key_groups_compared (in_table : table_info) (num_keys : Z)
    (n_rows_full : Z) : Z :=
  match in_table with
  | key :: _ =>
      if (num_keys <=? 1) && bool_decide (arr_type key = CATEGORICAL)
      then num_categories key else n_rows_full
  | [] => n_rows_full
  end.
End Strategy.

(** A query with one NUMPY key, one NUMPY operand column and no function. *)
Definition example_no_function_table : table_info :=
  [mk_array NUMPY INT64 0; mk_array NUMPY INT64 0].
(** A query with one NUMPY key and [cumsum], [cummax] on one nullable
    operand column. *)
Definition example_cumulative_table : table_info :=
  [mk_array NUMPY INT64 0; mk_array NULLABLE_INT_BOOL INT32 0].

(** [value_init] of [mpi_exscan_computation_numpy_T] (lines 191-202) and of
    [mpi_exscan_computation_nullable_T] (lines 329-340), for [T] the C++
    type of [dtype]. *)
Definition value_init (dtype : CTypeEnum) (ftype : Bodo_FTypes) : scalar :=
  match ftype with
  | cumsum => Numeric.of_literal dtype 0
  | cumprod => Numeric.of_literal dtype 1
  | cummax => Numeric.numeric_limits_min dtype
  | cummin => Numeric.numeric_limits_max dtype
  | _ => Numeric.of_literal dtype (-1)
  end.

(** *** The computation on a nullable operand column *)
Section Computation.
Context {T : Type}.
(** The value read where the C++ code would read outside a vector. *)
Variable T_zero : T.
(** [value_init] by function, and the lambda [apply_oper] is called with. *)
Variable T_value_init : Bodo_FTypes -> T.
Variable oper : Bodo_FTypes -> T -> T -> T.

(** Row [i_row] as the loops read it: [cat_column->at<Tkey>(i_row)],
    [in_col->at<T>(i_row)] and [in_col->get_null_bit(i_row)]. *)
Record row := mk_row { idx : Z; val : T; bit : bool }.

(** [work_col = out_arrs[j]]: values and null bits. *)
Record work_col := mk_work { w_vals : list T; w_bits : list bool }.

Definition miss_idx : Z := -1.

(** [cumulative], filled with [value_init] block by block (lines
    328-344). *)
Definition init_cumulative (max_row_idx : Z) (fts : list Bodo_FTypes)
  : list T :=
  fts ≫= (fun ftype => replicate (Z.to_nat max_row_idx) (T_value_init ftype)).

Record pass_state := mk_pass {
  cumulative : list T;
  cumulative_mask : list Z;       (* std::vector<uint8_t> *)
  work : work_col
}.

(** The body of the first [apply_oper] loop (lines 359-383), for the
    function at offset [off = max_row_idx * (j - start)]. *)
Definition local_step (skipdropna : bool) (ftype : Bodo_FTypes) (off : Z)
    (st : pass_state) (i_row : nat) (r : row) : pass_state :=
  let w := work st in
  if decide (idx r = miss_idx) then
    mk_pass (cumulative st) (cumulative_mask st)
            (mk_work (w_vals w) (<[i_row := false]> (w_bits w)))
  else
    let pos := Z.to_nat (idx r + off) in
    let new_val :=
      oper ftype (val r) (default T_zero (cumulative st !! pos)) in
    let vals := <[i_row := new_val]> (w_vals w) in
    if skipdropna then
      mk_pass (if bit r then <[pos := new_val]> (cumulative st)
               else cumulative st)
              (cumulative_mask st)
              (mk_work vals (<[i_row := bit r]> (w_bits w)))
    else if bit r then
      if decide (default 0 (cumulative_mask st !! pos) = 1) then
        mk_pass (cumulative st) (cumulative_mask st)
                (mk_work vals (<[i_row := false]> (w_bits w)))
      else
        mk_pass (<[pos := new_val]> (cumulative st)) (cumulative_mask st)
                (mk_work vals (<[i_row := true]> (w_bits w)))
    else
      mk_pass (cumulative st) (<[pos := 1]> (cumulative_mask st))
              (mk_work vals (<[i_row := false]> (w_bits w))).

(** [for (i_row = 0; i_row < n_rows; i_row++)], from row [i_row] on. *)
Fixpoint local_loop (skipdropna : bool) (ftype : Bodo_FTypes) (off : Z)
    (i_row : nat) (rows : list row) (st : pass_state) : pass_state :=
  match rows with
  | [] => st
  | r :: rows' =>
      local_loop skipdropna ftype off (S i_row) rows'
                 (local_step skipdropna ftype off st i_row r)
  end.

(** The first loop over [j] (lines 355-396): function number [j] (counted
    from [start]) works on [out_arrs[j]]; [apply_oper] is only called for
    the four cumulative tags. *)
Fixpoint local_pass (skipdropna : bool) (max_row_idx : Z) (rows : list row)
    (j : nat) (fts : list Bodo_FTypes) (out_arrs : list work_col)
    (cum : list T) (mask : list Z)
  : list work_col * list T * list Z :=
  match fts, out_arrs with
  | ftype :: fts', w :: out_arrs' =>
      let st :=
        if is_cumulative ftype
        then local_loop skipdropna ftype (max_row_idx * Z.of_nat j) 0 rows
                        (mk_pass cum mask w)
        else mk_pass cum mask w in
      let '(outs, cum', mask') :=
        local_pass skipdropna max_row_idx rows (S j) fts' out_arrs'
                   (cumulative st) (cumulative_mask st) in
      (work st :: outs, cum', mask')
  | _, _ => (out_arrs, cum, mask)
  end.

(** [MPI_Exscan(send, recv, count, type, op, MPI_COMM_WORLD)] seen from
    rank [r], with [sends] the send buffers of all ranks in rank order:
    the receive buffer gets the combination of the send buffers of the
    ranks below [r]. On rank 0 the receive buffer is left as it is. *)
Definition MPI_Exscan {A : Type} (op : A -> A -> A) (sends : list (list A))
    (r : nat) (recvbuf : list A) : list A :=
  match take r sends with
  | [] => recvbuf
  | s0 :: rest => fold_left (zip_with op) rest s0
  end.

Definition slice {A : Type} (off len : nat) (l : list A) : list A :=
  take len (drop off l).
Definition splice {A : Type} (l : list A) (off : nat) (new : list A)
  : list A :=
  take off l ++ new ++ drop (off + length new) l.

(** The loop of [MPI_Exscan] calls on the values (lines 401-418): one
    call per cumulative function, on its block of [max_row_idx] slots. *)
Fixpoint exscan_values (max_row_idx : Z) (sends : list (list T)) (r : nat)
    (j : nat) (fts : list Bodo_FTypes) (recv : list T) : list T :=
  match fts with
  | [] => recv
  | ftype :: fts' =>
      let off := Z.to_nat (max_row_idx * Z.of_nat j) in
      let len := Z.to_nat max_row_idx in
      let recv' :=
        if is_cumulative ftype
        then splice recv off
               (MPI_Exscan (oper ftype) (slice off len <$> sends) r
                           (slice off len recv))
        else recv in
      exscan_values max_row_idx sends r (S j) fts' recv'
  end.

(** The body of the last [apply_oper] loop (lines 428-438). *)
Definition final_step (skipdropna : bool) (ftype : Bodo_FTypes) (off : Z)
    (cumulative_recv : list T) (cumulative_mask_recv : list Z)
    (w : work_col) (i_row : nat) (r : row) : work_col :=
  if decide (idx r <> miss_idx) then
    let pos := Z.to_nat (idx r + off) in
    let v := default T_zero (w_vals w !! i_row) in
    let new_val :=
      oper ftype v (default T_zero (cumulative_recv !! pos)) in
    let vals := <[i_row := new_val]> (w_vals w) in
    if negb skipdropna
       && bool_decide (default 0 (cumulative_mask_recv !! pos) = 1)
    then mk_work vals (<[i_row := false]> (w_bits w))
    else mk_work vals (w_bits w)
  else w.

Fixpoint final_loop (skipdropna : bool) (ftype : Bodo_FTypes) (off : Z)
    (cumulative_recv : list T) (cumulative_mask_recv : list Z)
    (i_row : nat) (rows : list row) (w : work_col) : work_col :=
  match rows with
  | [] => w
  | r :: rows' =>
      final_loop skipdropna ftype off cumulative_recv cumulative_mask_recv
        (S i_row) rows'
        (final_step skipdropna ftype off cumulative_recv
                    cumulative_mask_recv w i_row r)
  end.

(** The last loop over [j] (lines 424-451). *)
Fixpoint final_pass (skipdropna : bool) (max_row_idx : Z) (rows : list row)
    (cumulative_recv : list T) (cumulative_mask_recv : list Z)
    (j : nat) (fts : list Bodo_FTypes) (out_arrs : list work_col)
  : list work_col :=
  match fts, out_arrs with
  | ftype :: fts', w :: out_arrs' =>
      (if is_cumulative ftype
       then final_loop skipdropna ftype (max_row_idx * Z.of_nat j)
              cumulative_recv cumulative_mask_recv 0 rows w
       else w)
      :: final_pass skipdropna max_row_idx rows cumulative_recv
           cumulative_mask_recv (S j) fts' out_arrs'
  | _, _ => out_arrs
  end.

(** What one rank brings to the call: its rows and its [out_arrs] for the
    functions [ftypes[start .. end)] of the column. *)
Record rank_input := mk_rank {
  rows : list row;
  out_arrs : list work_col
}.

(** The state of a rank after its local pass. *)
Definition local_result (skipdropna : bool) (max_row_idx : Z)
    (fts : list Bodo_FTypes) (p : rank_input)
  : list work_col * list T * list Z :=
  local_pass skipdropna max_row_idx (rows p) 0 fts (out_arrs p)
    (init_cumulative max_row_idx fts)
    (if skipdropna then []
     else replicate (Z.to_nat (max_row_idx * Z.of_nat (length fts))) 0).

(** [mpi_exscan_computation_nullable_T] (lines 316-452) run by all ranks
    of the group, [ranks] in rank order: the [out_arrs] each rank ends
    with. Without [is_parallel] every rank returns after its local
    pass. *)
Definition mpi_exscan_computation_nullable_T (max_row_idx : Z)
    (fts : list Bodo_FTypes) (is_parallel skipdropna : bool)
    (ranks : list rank_input) : list (list work_col) :=
  let locals := local_result skipdropna max_row_idx fts <$> ranks in
  if negb is_parallel then (fun l => l.1.1) <$> locals
  else
    let cums := (fun l => l.1.2) <$> locals in
    let masks := (fun l => l.2) <$> locals in
    imap
      (fun r '(outs, _, _) =>
         let cumulative_recv :=
           exscan_values max_row_idx cums r 0 fts
             (init_cumulative max_row_idx fts) in
         let cumulative_mask_recv :=
           if skipdropna then []
           else MPI_Exscan Z.max masks r
                  (replicate
                     (Z.to_nat (max_row_idx * Z.of_nat (length fts))) 0) in
         final_pass skipdropna max_row_idx
           (default [] (rows <$> ranks !! r))
           cumulative_recv cumulative_mask_recv 0 fts outs)
      locals.

(** Whether a row of group [g] with a null value is among [rs]. *)
Definition saw_null (g : Z) (rs : list row) : bool :=
  existsb (fun r => bool_decide (idx r = g) && negb (bit r)) rs.

(** Whether a null row among [rs] marks slot [p] of the mask when the
    block of the function starts at [off]. *)
Definition null_hits (off : Z) (p : nat) (rs : list row) : bool :=
  existsb (fun r => negb (bool_decide (idx r = miss_idx)) && negb (bit r)
                    && bool_decide (Z.to_nat (idx r + off) = p)) rs.

(** The null bit the first loop gives a row, from the mask slot of its
    group at that moment. *)
Definition local_bit (skipdropna : bool) (off : Z) (mask : list Z)
    (r : row) : bool :=
  if decide (idx r = miss_idx) then false
  else if skipdropna then bit r
  else bit r
       && negb (bool_decide
                  (default 0 (mask !! Z.to_nat (idx r + off)) = 1)).

(** What the call assumes of a rank: the group index of every row is
    [-1] or below [max_row_idx], there is one output column per function,
    and every output column has a null bit per row. *)
Definition wf_rank (max_row_idx : Z) (n_oper : nat) (p : rank_input)
  : Prop :=
  Forall (fun x => idx x = miss_idx \/ 0 <= idx x < max_row_idx) (rows p)
  /\ length (out_arrs p) = n_oper
  /\ Forall (fun w => length (w_bits w) = length (rows p)) (out_arrs p).

(** Whether a valid row updates slot [p] of [cumulative] when the block of
    the function starts at [off]. *)
Definition val_hits (off : Z) (p : nat) (r : row) : bool :=
  negb (bool_decide (idx r = miss_idx)) && bit r
  && bool_decide (Z.to_nat (idx r + off) = p).

(** The values of the valid rows of group [g] among [rs], in row order. *)
Definition group_values (g : Z) (rs : list row) : list T :=
  val <$> filter (fun r => idx r = g /\ bit r = true) rs.

(** The running value of a function after the values [vs], taken one by
    one as the first loop does: [cumulative[pos] = oper(val,
    cumulative[pos])], from the value [a]. *)
Definition running_from (ftype : Bodo_FTypes) (a : T) (vs : list T) : T :=
  fold_left (fun acc v => oper ftype v acc) vs a.
Definition running (ftype : Bodo_FTypes) (vs : list T) : T :=
  running_from ftype (T_value_init ftype) vs.
End Computation.

(** Two ranks with one [cumsum] on an integer column and groups 0 and 1:
    rank 0 holds a valid and then a null row of group 0, rank 1 a valid row
    of group 0 and a valid row of group 1. *)
Definition example_oper (ftype : Bodo_FTypes) (a b : Z) : Z :=
  match ftype with
  | cumsum => a + b
  | cumprod => a * b
  | cummax => Z.max a b
  | cummin => Z.min a b
  | _ => a
  end.
Definition example_value_init (ftype : Bodo_FTypes) : Z :=
  match ftype with cumprod => 1 | _ => 0 end.
Definition example_rank0 : rank_input :=
  mk_rank [mk_row 0 5 true; mk_row 0 9 false]
          [mk_work [0; 0] [true; true]].
Definition example_rank1 : rank_input :=
  mk_rank [mk_row 0 3 true; mk_row 1 4 true]
          [mk_work [0; 0] [true; true]].
End Exscan.

(* --------------------------------------------------------------------- *)
(** ** The streaming groupby ([_stream_groupby.cpp])                      *)
(* --------------------------------------------------------------------- *)
Module StreamGroupby.
Local Open Scope Z_scope.

(** One entry of a column; [CNull] is an entry whose validity bit is off. *)
Inductive cell := CNull | CInt (z : Z) | CStr (s : string).
#[global] Instance cell_eq_dec : EqDecision cell.
Proof. solve_decision. Defined.

(** [table_info]: the vector [columns], each column the list of its
    entries. *)
Abbreviation table_info := (list (list cell)).

Definition nrows (t : table_info) : nat :=
  match t with [] => 0%nat | c :: _ => length c end.

(** [t->columns[c]] at row [r]. *)
Definition cell_at (t : table_info) (c r : nat) : cell :=
  default CNull (t !! c ≫= (fun col => col !! r)).

(** The key columns of row [r]. *)
Definition row_keys (t : table_info) (n_keys r : nat) : list cell :=
  (fun c => cell_at t c r) <$> seq 0 n_keys.

(** Modelled from the spec: [TestEqualJoin] of [_array_utils.h] is not
    among the sources; "equality is by full key-column comparison (nulls
    compare equal)", here with [is_na_equal = true]. *)
Definition TestEqualJoin (table_A table_B : table_info) (jRowA jRowB : nat)
    (n_keys : nat) : bool :=
  forallb (fun c => bool_decide (cell_at table_A c jRowA
                                 = cell_at table_B c jRowB))
          (seq 0 n_keys).

(** One of the two build states of [GroupbyState]: with [is_local] the
    fields [local_table_buffer], [local_table_groupby_hashes],
    [local_next_group], [local_build_table], otherwise the [shuffle_]
    ones. The hash map [bodo::unord_map_container<int64_t, int64_t, ...>]
    is the list of its entries in insertion order. *)
Record build_state := mk_build {
  table_buffer : table_info;          (* ..._table_buffer.data_table *)
  groupby_hashes : list Z;            (* ..._table_groupby_hashes *)
  next_group : Z;                     (* ..._next_group *)
  build_table : list (Z * Z)          (* ..._build_table *)
}.

(** A function set of the operator: the function tag and the input
    column. *)
Record ColSet := mk_colset {
  cs_ftype : Bodo_FTypes;
  cs_in_col : nat
}.

(** An [int64_t] result wraps modulo [2^64]. *)
Definition int64_wrap (z : Z) : Z := (z + 2 ^ 63) mod 2 ^ 64 - 2 ^ 63.

Definition arith (f : Z -> Z -> Z) (acc v : cell) : cell :=
  match acc, v with
  | CInt a, CInt b => CInt (int64_wrap (f a b))
  | _, _ => acc
  end.

(** Modelled from the spec: the function sets ([BasicColSet], its [update]
    and [combine]) are not among the sources. By the spec a function set
    gives the identity a running value starts from, the rule that folds a
    raw input into the update value of a group and the rule that combines
    an update value into the running value ("sum: add; min/max:
    compare-and-replace"). The identities are those
    [aggfunc_output_initialize] writes into an INT64 column; a null input
    is passed over; tags other than sum, min and max leave the value. *)
Definition cs_identity (cs : ColSet) : cell :=
  match cs_ftype cs with
  | ft_min => CInt (2 ^ 63 - 1)
  | ft_max => CInt (- 2 ^ 63)
  | _ => CInt 0
  end.
Definition cs_update (cs : ColSet) (acc v : cell) : cell :=
  match cs_ftype cs with
  | ft_sum => arith Z.add acc v
  | ft_min => arith Z.min acc v
  | ft_max => arith Z.max acc v
  | _ => acc
  end.
Definition cs_combine (cs : ColSet) (acc v : cell) : cell :=
  cs_update cs acc v.

Record GroupbyState := mk_state {
  n_keys : nat;
  parallel : bool;
  col_sets : list ColSet;
  local_state : build_state;
  shuffle_state : build_state;
  in_table : table_info;
  in_table_hashes : list Z;
  build_iter : Z
}.

Definition side (is_local : bool) (st : GroupbyState) : build_state :=
  if is_local then local_state st else shuffle_state st.

Definition set_side (is_local : bool) (st : GroupbyState) (b : build_state)
  : GroupbyState :=
  if is_local
  then mk_state (n_keys st) (parallel st) (col_sets st) b (shuffle_state st)
                (in_table st) (in_table_hashes st) (build_iter st)
  else mk_state (n_keys st) (parallel st) (col_sets st) (local_state st) b
                (in_table st) (in_table_hashes st) (build_iter st).

Definition set_batch (st : GroupbyState) (t : table_info) (hashes : list Z)
  : GroupbyState :=
  mk_state (n_keys st) (parallel st) (col_sets st) (local_state st)
           (shuffle_state st) t hashes (build_iter st).

(** [HashGroupbyTable<is_local>::operator()]. *)
Definition HashGroupbyTable (is_local : bool) (st : GroupbyState) (iRow : Z)
  : Z :=
  if 0 <=? iRow
  then default 0 (groupby_hashes (side is_local st) !! Z.to_nat iRow)
  else default 0 (in_table_hashes st !! Z.to_nat (- iRow - 1)).

(** [KeyEqualGroupbyTable<is_local>::operator()]. *)
Definition KeyEqualGroupbyTable (is_local : bool) (st : GroupbyState)
    (iRowA iRowB : Z) : bool :=
  let build_table := table_buffer (side is_local st) in
  let is_build_A := 0 <=? iRowA in
  let is_build_B := 0 <=? iRowB in
  let jRowA := Z.to_nat (if is_build_A then iRowA else - iRowA - 1) in
  let jRowB := Z.to_nat (if is_build_B then iRowB else - iRowB - 1) in
  let table_A := if is_build_A then build_table else in_table st in
  let table_B := if is_build_B then build_table else in_table st in
  TestEqualJoin table_A table_B jRowA jRowB (n_keys st).

(** The hash map finds an entry for a key when the entry's key has the
    same hash and the equality functor accepts the pair. *)
Definition key_matches (is_local : bool) (st : GroupbyState) (k e : Z)
  : bool :=
  (HashGroupbyTable is_local st e =? HashGroupbyTable is_local st k)
  && KeyEqualGroupbyTable is_local st e k.

(** [build_table.find(k)]: the value of the entry found. *)
Definition map_find (is_local : bool) (st : GroupbyState) (k : Z)
  : option Z :=
  snd <$> find (fun e => key_matches is_local st k (fst e))
               (build_table (side is_local st)).

(** [build_table.contains(k)]. *)
Definition map_contains (is_local : bool) (st : GroupbyState) (k : Z)
  : bool :=
  bool_decide (is_Some (map_find is_local st k)).

(** [build_table[k] = v]: the entry found gets the value, else a new entry
    is added. *)
Definition map_assign (is_local : bool) (st : GroupbyState) (k v : Z)
  : list (Z * Z) :=
  let entries := build_table (side is_local st) in
  if map_contains is_local st k
  then (fun e => if key_matches is_local st k (fst e) then (fst e, v) else e)
         <$> entries
  else entries ++ [(k, v)].

(** Modelled from the spec: [TableBuildBuffer] is not among the sources.
    [AppendRowKeys(in_table, i_row, n_keys)] appends the key entries of the
    row to the key columns. *)
Definition AppendRowKeys (buf : table_info) (in_table : table_info)
    (i_row n_keys : nat) : table_info :=
  imap (fun c col => if decide (c < n_keys)%nat
                     then col ++ [cell_at in_table c i_row] else col) buf.

(** Modelled from the spec: [IncrementSizeDataColumns(n_keys)] gives every
    data column one more row; the row is not initialised, the model writes
    [CNull] there. *)
Definition IncrementSizeDataColumns (buf : table_info) (n_keys : nat)
  : table_info :=
  imap (fun c col => if decide (c < n_keys)%nat then col else col ++ [CNull])
       buf.

(** [update_groups<is_local>] (lines 58-93): the state after the call and
    [row_to_group] with the group of [i_row] written. *)
Definition update_groups (is_local : bool) (st : GroupbyState)
    (row_to_group : list Z) (in_table : table_info)
    (batch_hashes_groupby : list Z) (i_row : nat)
  : GroupbyState * list Z :=
  let key := - Z.of_nat i_row - 1 in
  if map_contains is_local st key then
    let group := default 0 (map_find is_local st key) in
    (st, <[i_row := group]> row_to_group)
  else
    let b := side is_local st in
    let buf :=
      IncrementSizeDataColumns
        (AppendRowKeys (table_buffer b) in_table i_row (n_keys st))
        (n_keys st) in
    let hashes :=
      groupby_hashes b ++ [default 0 (batch_hashes_groupby !! i_row)] in
    let group := next_group b in
    let st1 :=
      set_side is_local st (mk_build buf hashes (group + 1) (build_table b)) in
    let st2 :=
      set_side is_local st1
        (mk_build buf hashes (group + 1)
                  (map_assign is_local st1 group group)) in
    (st2, <[i_row := group]> row_to_group).

Section Operator.
(** Modelled from the spec: [hash_keys_table] is not among the sources;
    "hash precomputed per key-set", one function of the key entries of a
    row for each of the two seeds. *)
Variable hash_groupby : list cell -> Z.      (* SEED_HASH_GROUPBY_SHUFFLE *)
Variable hash_partition : list cell -> Z.    (* SEED_HASH_PARTITION *)
(** Modelled from the spec: [shuffle_this_iter] is not among the sources;
    "a heuristic (buffer byte/row threshold, or is this the final local
    batch) decides when to trigger an actual shuffle". *)
Variable shuffle_this_iter : bool -> bool -> table_info -> Z -> bool.

Definition hash_keys_table (hash : list cell -> Z) (t : table_info)
    (n_keys : nat) : list Z :=
  (fun r => hash (row_keys t n_keys r)) <$> seq 0 (nrows t).

(** The state a batch is looked up in: [groupby_state->in_table] and
    [groupby_state->in_table_hashes] set (lines 228-229). *)
Definition with_batch (st : GroupbyState) (t : table_info) : GroupbyState :=
  set_batch st t (hash_keys_table hash_groupby t (n_keys st)).

(** Modelled from the spec: [get_group_info] is not among the sources.
    The rows of a batch are grouped by key, the groups numbered in the
    order of their first row: the first row of each group so far, and the
    group of each row. *)
Definition batch_groups (t : table_info) (n_keys : nat)
  : list nat * list nat :=
  fold_left
    (fun (acc : list nat * list nat) r =>
       let '(firsts, row_to_group) := acc in
       match list_find (fun f => row_keys t n_keys f = row_keys t n_keys r)
                       firsts with
       | Some (g, _) => (firsts, row_to_group ++ [g])
       | None => (firsts ++ [r], row_to_group ++ [length firsts])
       end)
    (seq 0 (nrows t)) ([], []).

(** Modelled from the spec: [alloc_init_keys] and the [update] of a
    function set are not among the sources. [get_update_table] (lines
    103-144) returns one row per group of the batch: its key entries,
    then for each function set the identity folded with the inputs of
    the rows of the group ("update transforms raw input into one
    intermediate value per new group"). *)
Definition get_update_table (st : GroupbyState) (t : table_info)
  : table_info :=
  let '(firsts, row_to_group) := batch_groups t (n_keys st) in
  let key_cols :=
    (fun c => (fun f => cell_at t c f) <$> firsts) <$> seq 0 (n_keys st) in
  let update_cols :=
    (fun cs =>
       (fun g =>
          fold_left
            (fun acc r =>
               if decide (row_to_group !! r = Some g)
               then cs_update cs acc (cell_at t (cs_in_col cs) r)
               else acc)
            (seq 0 (nrows t)) (cs_identity cs))
         <$> seq 0 (length firsts))
      <$> col_sets st in
  key_cols ++ update_cols.

(** Modelled from the spec: the [combine] of a function set is not among
    the sources. [combine_input_table] (lines 157-182): for each function
    set, the rows of the build column from [init_start_row] on are set to
    the identity, then every row of the update table that has a group in
    this build table is combined into the running value of its group. *)
Definition combine_input_table (st : GroupbyState) (build : table_info)
    (init_start_row : Z) (update_table : table_info)
    (row_to_group : list Z) : table_info :=
  imap
    (fun c col =>
       match col_sets st !! (c - n_keys st)%nat with
       | Some cs =>
           if decide (n_keys st <= c)%nat then
             let initialised :=
               imap (fun g v => if decide (init_start_row <= Z.of_nat g)
                                then cs_identity cs else v) col in
             fold_left
               (fun out r =>
                  let g := default (-1) (row_to_group !! r) in
                  if decide (0 <= g) then
                    <[Z.to_nat g :=
                        cs_combine cs
                          (default CNull (out !! Z.to_nat g))
                          (cell_at update_table c r)]> out
                  else out)
               (seq 0 (nrows update_table)) initialised
           else col
       | None => col
       end)
    build.

(** Modelled from the spec: [hash_to_rank] is not among the sources; the
    partition assignment maps a hash and the number of processes to a
    rank. *)
Definition hash_to_rank (h n_pes : Z) : Z := h mod n_pes.

(** The loop over the rows of a batch (lines 260-273, 323-327). *)
Definition update_all_groups (route : nat -> bool) (st : GroupbyState)
    (t : table_info) (batch_hashes : list Z)
    (local_grp shuffle_grp : list Z)
  : GroupbyState * list Z * list Z :=
  fold_left
    (fun (acc : GroupbyState * list Z * list Z) i_row =>
       let '(s, lg, sg) := acc in
       if route i_row then
         let '(s', lg') := update_groups true s lg t batch_hashes i_row in
         (s', lg', sg)
       else
         let '(s', sg') := update_groups false s sg t batch_hashes i_row in
         (s', lg, sg'))
    (seq 0 (nrows t)) (st, local_grp, shuffle_grp).

Definition set_buffer (b : build_state) (buf : table_info) : build_state :=
  mk_build buf (groupby_hashes b) (next_group b) (build_table b).

(** [groupby_build_consume_batch] (lines 192-335) on a group of one
    process: [MPI_Comm_size] gives 1 and [MPI_Comm_rank] gives 0, and the
    all-to-all exchange of [shuffle_table_kernel] hands the process its
    own shuffle table back. The [Reserve...] calls only make room and are
    left out; [Reset] empties the columns of the shuffle buffer. *)
Definition groupby_build_consume_batch (st : GroupbyState)
    (in_batch : table_info) (is_last : bool) : GroupbyState :=
  let n_pes := 1 in
  let myrank := 0 in
  (* in_table = get_update_table(groupby_state, in_table) *)
  let t := get_update_table st in_batch in
  let batch_hashes_groupby := hash_keys_table hash_groupby t (n_keys st) in
  let batch_hashes_partition :=
    hash_keys_table hash_partition t (n_keys st) in
  let st0 := set_batch st t batch_hashes_groupby in
  let local_init_start_row := next_group (local_state st0) in
  let shuffle_init_start_row := next_group (shuffle_state st0) in
  let route i_row :=
    negb (parallel st0)
    || bool_decide
         (hash_to_rank (default 0 (batch_hashes_partition !! i_row)) n_pes
          = myrank) in
  let '(st1, local_grp, shuffle_grp) :=
    update_all_groups route st0 t batch_hashes_groupby
      (replicate (nrows t) (-1)) (replicate (nrows t) (-1)) in
  let st2 :=
    set_side true st1
      (set_buffer (local_state st1)
         (combine_input_table st1 (table_buffer (local_state st1))
            local_init_start_row t local_grp)) in
  let st3 :=
    set_side false st2
      (set_buffer (shuffle_state st2)
         (combine_input_table st2 (table_buffer (shuffle_state st2))
            shuffle_init_start_row t shuffle_grp)) in
  let st_end :=
    if shuffle_this_iter (parallel st3) is_last
         (table_buffer (shuffle_state st3)) (build_iter st3)
    then
      let new_data := table_buffer (shuffle_state st3) in
      let st4 :=
        set_side false st3
          (set_buffer (shuffle_state st3)
             ((fun _ => []) <$> table_buffer (shuffle_state st3))) in
      let hashes := hash_keys_table hash_groupby new_data (n_keys st4) in
      let st5 := set_batch st4 new_data hashes in
      let init_start := next_group (local_state st5) in
      let '(st6, grp, _) :=
        update_all_groups (fun _ => true) st5 new_data hashes
          (replicate (nrows new_data) 0) [] in
      set_side true st6
        (set_buffer (local_state st6)
           (combine_input_table st6 (table_buffer (local_state st6))
              init_start new_data grp))
    else st3 in
  mk_state (n_keys st_end) (parallel st_end) (col_sets st_end)
           (local_state st_end) (shuffle_state st_end) (in_table st_end)
           (in_table_hashes st_end) (build_iter st_end + 1).

(** [groupby_produce_output_batch] (lines 344-350). *)
Definition groupby_produce_output_batch (st : GroupbyState)
  : table_info * bool :=
  let is_last := true in
  (table_buffer (local_state st), is_last).

(** The state the constructor leaves: empty buffers with the columns of
    the schema ([n_keys] key columns and one column per function set),
    empty hash maps. *)
Definition empty_build (ncols : nat) : build_state :=
  mk_build (replicate ncols []) [] 0 [].
Definition groupby_state_init (n_keys : nat) (col_sets : list ColSet)
    (parallel : bool) : GroupbyState :=
  let ncols := (n_keys + length col_sets)%nat in
  mk_state n_keys parallel col_sets (empty_build ncols)
           (empty_build ncols) [] [] 0.

(** What the callers of [update_groups] do to one build table: a new
    batch becomes the current input, or a row of the current input is
    looked up and inserted. *)
Inductive table_op :=
| NewBatch (t : table_info)
| UpdateRow (i_row : nat).

Definition run_op (is_local : bool) (st : GroupbyState) (o : table_op)
  : GroupbyState :=
  match o with
  | NewBatch t => with_batch st t
  | UpdateRow i_row =>
      if decide (i_row < nrows (in_table st))%nat
      then (update_groups is_local st [] (in_table st)
                          (in_table_hashes st) i_row).1
      else st
  end.

Definition run_ops (is_local : bool) (st : GroupbyState)
    (ops : list table_op) : GroupbyState :=
  fold_left (run_op is_local) ops st.






End Operator.

(** The keys a build table holds, in the order of their group ids. *)
Definition build_keys (n_keys : nat) (b : build_state) : list (list cell) :=
  (fun g => row_keys (table_buffer b) n_keys g)
    <$> seq 0 (Z.to_nat (next_group b)).

(** The group id a key has in a build table, if it has one: the first row
    of the buffer that holds the key. *)
Definition find_group (n_keys : nat) (b : build_state) (k : list cell)
  : option Z :=
  Z.of_nat
    <$> find (fun g => bool_decide (row_keys (table_buffer b) n_keys g = k))
             (seq 0 (Z.to_nat (next_group b))).

(** What holds of a build table between two calls of [update_groups]: the
    key columns have one row per group, the stored hashes are the hashes
    of the stored keys, and the hash map sends the row of group [g] to
    [g]. *)
Definition build_inv (hash : list cell -> Z) (n_keys : nat)
    (b : build_state) : Prop :=
  0 <= next_group b
  /\ (n_keys <= length (table_buffer b))%nat
  /\ Forall (fun col => length col = Z.to_nat (next_group b))
            (take n_keys (table_buffer b))
  /\ groupby_hashes b = hash <$> build_keys n_keys b
  /\ build_table b = (fun g => (g, g)) <$> Zseq (next_group b).

(** The build state [update_groups] leaves when the key of row [i] of [t]
    is new: the key row appended, its hash stored, [next_group] moved on
    and the entry of the new group added to the hash map. *)
Definition with_new_key (hash : list cell -> Z) (n : nat) (b : build_state)
    (t : table_info) (i : nat) : build_state :=
  mk_build (IncrementSizeDataColumns (AppendRowKeys (table_buffer b) t i n) n)
           (groupby_hashes b ++ [hash (row_keys t n i)])
           (next_group b + 1)
           (build_table b ++ [(next_group b, next_group b)]).

(** The loop over the rows of a batch that all belong to this process,
    with the lookup in the hash map replaced by the search of the key in
    the buffer. *)
Definition insert_row_ref (hash : list cell -> Z)
    (acc : GroupbyState * list Z) (i : nat) : GroupbyState * list Z :=
  let '(s, lg) := acc in
  match find_group (n_keys s) (local_state s)
          (row_keys (in_table s) (n_keys s) i) with
  | Some g => (s, <[i := g]> lg)
  | None =>
      (set_side true s
         (with_new_key hash (n_keys s) (local_state s) (in_table s) i),
       <[i := next_group (local_state s)]> lg)
  end.
Definition insert_rows_ref (hash : list cell -> Z) (st : GroupbyState)
    (lg : list Z) : GroupbyState * list Z :=
  fold_left (insert_row_ref hash) (seq 0 (nrows (in_table st))) (st, lg).

(** The current input batch carries the hashes of its keys. *)
Definition batch_inv (hash : list cell -> Z) (st : GroupbyState) : Prop :=
  in_table_hashes st = hash_keys_table hash (in_table st) (n_keys st).

(** The function set of [sum] on the column [in_col]. *)
Definition sum_colset (in_col : nat) : ColSet := mk_colset ft_sum in_col.

(** The state of a one-key [sum] operator on one process that holds the
    groups [keys] with the running values [sums] after [iter] calls; the
    shuffle table is empty. *)
Definition state_with (hash_groupby : list cell -> Z) (par : bool)
    (keys : list cell) (sums : list cell) (iter : Z) : GroupbyState :=
  mk_state 1 par [sum_colset 1]
    (mk_build [keys; sums] ((fun k => hash_groupby [k]) <$> keys)
       (Z.of_nat (length keys))
       ((fun g => (g, g)) <$> Zseq (Z.of_nat (length keys))))
    (mk_build [[]; []] [] 0 []) [] [] iter.

(** The keys of the rows a run of calls looks up, in call order; [t] is the
    current input batch. *)
Fixpoint looked_up_keys (n_keys : nat) (t : table_info)
    (ops : list table_op) : list (list cell) :=
  match ops with
  | [] => []
  | NewBatch t' :: ops' => looked_up_keys n_keys t' ops'
  | UpdateRow i_row :: ops' =>
      if decide (i_row < nrows t)%nat
      then row_keys t n_keys i_row :: looked_up_keys n_keys t ops'
      else looked_up_keys n_keys t ops'
  end.

(** A list of keys with the repetitions of a key after its first occurrence
    left out. *)
Definition add_key (ks : list (list cell)) (k : list cell)
  : list (list cell) :=
  if decide (k ∈ ks) then ks else ks ++ [k].
Definition first_occurrences (ks : list (list cell)) : list (list cell) :=
  fold_left add_key ks [].

(** The keys of the rows of a batch, in row order. *)
Definition batch_keys (n_keys : nat) (t : table_info) : list (list cell) :=
  row_keys t n_keys <$> seq 0 (nrows t).


(** The rows [(A,1), (B,2), (A,3)] as one batch and as three. *)
Definition example_batch : table_info :=
  [[CStr "A"; CStr "B"; CStr "A"]; [CInt 1; CInt 2; CInt 3]].
Definition example_batch_1 : table_info := [[CStr "A"]; [CInt 1]].
Definition example_batch_2 : table_info := [[CStr "B"]; [CInt 2]].
Definition example_batch_3 : table_info := [[CStr "A"]; [CInt 3]].
End StreamGroupby.

(* --------------------------------------------------------------------- *)
(** ** The join operator ([pandas/physical/join.h])                       *)
(* --------------------------------------------------------------------- *)
Module PhysicalJoin.
Local Open Scope Z_scope.

Inductive OperatorResult := NEED_MORE_INPUT | HAVE_MORE_OUTPUT | FINISHED.
#[global] Instance OperatorResult_eq_dec : EqDecision OperatorResult.
Proof. solve_decision. Defined.

(** Modelled from the spec: the streaming join runtime
    ([libs/streaming/_join.h]: [HashJoinState], [NestedLoopJoinState], the
    chunked output buffer and the four [..._consume_batch] functions) is
    not among the sources. The operator uses it through these entry points;
    [table] is the batch type and [state] the join state the operator
    holds in [join_state_]. The consume functions return the state they
    leave and their [bool] result. *)
Record Runtime := mk_runtime {
  table : Type;
  state : Type;
  IsNestedLoopJoin : state -> bool;
  has_global_bloom_filter : state -> bool;   (* global_bloom_filter != nullptr *)
  build_table_outer : state -> bool;
  probe_table_outer : state -> bool;
  ProjectTable : table -> list Z -> table;
  nested_loop_join_build_consume_batch :
    state -> table -> bool -> state * bool;
  join_build_consume_batch :
    state -> table -> bool -> bool -> state * bool;
  nested_loop_join_probe_consume_batch :
    state -> table -> list Z -> list Z -> bool -> state * bool;
  (* join_probe_consume_batch<build_table_outer, probe_table_outer,
                              has_non_equi_cond, use_bloom_filter> *)
  join_probe_consume_batch :
    bool -> bool -> bool -> bool ->
    state -> table -> list Z -> list Z -> bool -> state * bool;
  build_BuffersFull : state -> bool;   (* build_shuffle_state.BuffersFull() *)
  probe_BuffersFull : state -> bool;   (* probe_shuffle_state.BuffersFull() *)
  total_remaining : state -> Z;        (* output_buffer->total_remaining *)
  active_chunk_capacity : state -> Z;  (* output_buffer->active_chunk_capacity *)
  PopChunk : state -> bool -> state * table
}.

Section Operator.
Variable R : Runtime.

(** The members of [PhysicalJoin] the two entry points read. *)
Record PhysicalJoin := mk_join {
  build_kept_cols : list Z;
  probe_kept_cols : list Z;
  build_col_inds : list Z;
  probe_col_inds : list Z;
  has_non_equi_cond : bool
}.


(** The sixteen expansions of the macro [CONSUME_PROBE_BATCH], in the
    order of the source: the expected values of [build_table_outer],
    [probe_table_outer], [has_non_equi_cond] and [use_bloom_filter]. *)
Definition probe_instances : list (bool * bool * bool * bool) :=
  [(true, true, true, true); (true, true, true, false);
   (true, true, false, true); (true, true, false, false);
   (true, false, true, true); (true, false, true, false);
   (true, false, false, true); (true, false, false, false);
   (false, true, true, true); (false, true, true, false);
   (false, true, false, true); (false, true, false, false);
   (false, false, true, true); (false, false, true, false);
   (false, false, false, true); (false, false, false, false)].

Definition instance_matches (op : PhysicalJoin) (has_bloom_filter : bool)
    (st : state R) (e : bool * bool * bool * bool) : bool :=
  let '(e1, e2, e3, e4) := e in
  bool_decide (build_table_outer R st = e1)
  && bool_decide (probe_table_outer R st = e2)
  && bool_decide (has_non_equi_cond op = e3)
  && bool_decide (has_bloom_filter = e4).

(** One expansion of [CONSUME_PROBE_BATCH]: an [if] whose body assigns
    [is_last]. The macro hands the batch on with
    [std::move(input_batch_reordered)], so an expansion that matched after
    another had matched would hand on a moved-from pointer; the model
    hands on the batch itself, and is the code where at most one expansion
    matches, which is the case when the consume call leaves the outer-join
    flags of the state alone. *)
Definition CONSUME_PROBE_BATCH (op : PhysicalJoin)
    (has_bloom_filter : bool) (input_batch_reordered : table R)
    (acc : state R * bool) (e : bool * bool * bool * bool)
  : state R * bool :=
  let '(st, is_last) := acc in
  if instance_matches op has_bloom_filter st e then
    let '(e1, e2, e3, e4) := e in
    join_probe_consume_batch R e1 e2 e3 e4 st input_batch_reordered
      (build_kept_cols op) (probe_kept_cols op) is_last
  else acc.



End Operator.

(** Modelled from the spec: the join state and the consume functions of
    [libs/streaming/_join.h], which are not among the sources, for one
    process of a process group (sections 3, 4.2, 4.3 and 5 of the
    specification). A row is kept as its key. The partition assignment, the
    shuffle heuristic and the rows a probe produces are left open. *)
Section SpecRuntime.
(** "a pure function mapping a row's partition-key hash and the number of
    cooperating processes to an owning process rank" *)
Variable hash_to_rank : Z -> Z -> Z.
(** "A heuristic (buffer byte/row threshold, or is this the final local
    batch) decides when to trigger an actual shuffle": a function of
    [is_last] and of the rows waiting in the shuffle buffer. *)
Variable shuffle_this_iter : bool -> list Z -> bool.
(** The rows the probe of some rows against the build table produces, for
    each of the sixteen instances of the hash join and for the nested-loop
    join. *)
Variable probe_rows :
  bool -> bool -> bool -> bool -> list Z -> list Z -> list Z.
Variable nested_loop_rows : list Z -> list Z -> list Z.

















End SpecRuntime.

(** [uint64_t] arithmetic wraps modulo [2^64]; a [uint64_t] looked up in a
    [std::set<int64_t>] is converted to [int64_t]. *)
Definition uint64 (z : Z) : Z := z mod 2 ^ 64.
Definition to_int64 (z : Z) : Z := (z + 2 ^ 63) mod 2 ^ 64 - 2 ^ 63.

(** The first loop of [initOutputColumnMapping] (lines 490-493):
    [key_positions[keys[i]] = i]. *)
Definition key_positions (keys : list Z) : gmap Z Z :=
  fold_left (fun (m : gmap Z Z) (ik : nat * Z) => <[ik.2 := Z.of_nat ik.1]> m)
            (imap (fun i k => (i, k)) keys) ∅.

(** The body of the second loop (lines 496-505) for column [i]. *)
Definition output_column_step (key_pos : gmap Z Z) (bound_inds : gset Z)
    (acc : list Z * Z) (i : Z) : list Z * Z :=
  let '(col_inds, data_offset) := acc in
  if bool_decide (to_int64 i ∉ bound_inds) then acc
  else
    match key_pos !! i with
    | Some p => (col_inds ++ [p], data_offset)
    | None => (col_inds ++ [data_offset], uint64 (data_offset + 1))
    end.

(** [initOutputColumnMapping] (lines 485-505): the entries pushed to
    [col_inds]. *)
Definition initOutputColumnMapping (col_inds : list Z) (keys : list Z)
    (ncols : Z) (bound_inds : gset Z) : list Z :=
  (fold_left (output_column_step (key_positions keys) bound_inds)
             (Zseq ncols) (col_inds, Z.of_nat (length keys))).1.

(** The inverse mappings [build_col_inds_rev] and [probe_col_inds_rev] of
    the constructor (lines 118-125): a vector of the size of [col_inds],
    then [rev[col_inds[i]] = i]. A write outside the vector is undefined in
    C++; the model leaves the vector as it is there. *)
Definition col_inds_rev (col_inds : list Z) : list Z :=
  fold_left
    (fun rev i => <[Z.to_nat (default 0 (col_inds !! i)) := Z.of_nat i]> rev)
    (seq 0 (length col_inds)) (replicate (length col_inds) 0).

(** The bound columns when the projection map of the logical join is empty
    (lines 59-64 and 75-80): every column of the child. *)
Definition all_bound_inds (ncols : Z) : gset Z := list_to_set (Zseq ncols).

(** A table with the columns 0..4, the keys in columns 3 and 1 and every
    column but column 2 bound. *)
Definition example_keys : list Z := [3; 1].
Definition example_bound_inds : gset Z := {[0; 1; 3; 4]}.

(** A runtime for one process: the state is the number of rows waiting in
    the shuffle buffer and the number of rows waiting in the output buffer,
    a batch is its number of rows. A consume call that is not told
    [is_last] keeps the rows of the batch in the shuffle buffer and answers
    [false]; one that is told [is_last] empties the shuffle buffer (on the
    probe side, into the output buffer) and answers [true]. [PopChunk]
    takes up to 4 rows out of the output buffer. *)
Definition example_runtime : Runtime :=
  mk_runtime Z (Z * Z)
    (fun _ => false) (fun _ => false) (fun _ => false) (fun _ => false)
    (fun b _ => b)
    (fun st b l =>
       if l then ((0, st.2), true) else ((st.1 + b, st.2), false))
    (fun st b bf l =>
       if l then ((0, st.2), true) else ((st.1 + b, st.2), false))
    (fun st b bk pk l =>
       if l then ((0, st.2 + st.1 + b), true)
       else ((st.1 + b, st.2), false))
    (fun e1 e2 e3 e4 st b bk pk l =>
       if l then ((0, st.2 + st.1 + b), true)
       else ((st.1 + b, st.2), false))
    (fun _ => false) (fun _ => false)
    (fun st => st.2) (fun _ => 4)
    (fun st force => ((st.1, st.2 - Z.min st.2 4), Z.min st.2 4)).
Definition example_join : PhysicalJoin := mk_join [0] [0] [0] [0] false.



End PhysicalJoin.

(* ===================================================================== *)
(** * Part II: lemmas and theorems                                        *)
(* ===================================================================== *)

(* --------------------------------------------------------------------- *)
(** ** Block ids of a [StorageManager]                                    *)
(* --------------------------------------------------------------------- *)
Section StorageManagerFacts.
Import StorageManager.
Local Open Scope Z_scope.

Lemma after_calls_succ k m :
  after_calls (N.succ k) m = snd (GetNewBlockID (after_calls k m)).
Proof. unfold after_calls. now rewrite N.iter_succ. Qed.

(** The counter after [k] calls is the start value plus [k], wrapped. *)
Lemma after_calls_counter k m :
  0 <= block_id_counter m < 2 ^ 64 ->
  block_id_counter (after_calls k m)
  = uint64 (block_id_counter m + Z.of_N k).
Proof.
  intros Hr. induction k as [|k IH] using N.peano_ind.
  - unfold after_calls, uint64. cbn. rewrite Z.add_0_r, Z.mod_small; lia.
  - rewrite after_calls_succ. cbn. rewrite IH. unfold uint64.
    rewrite N2Z.inj_succ. rewrite Zplus_mod_idemp_l. f_equal. lia.
Qed.

Lemma nth_block_id_eq usable k :
  nth_block_id usable k = uint64 (Z.of_N k).
Proof.
  unfold nth_block_id. cbn. rewrite after_calls_counter; cbn; [|lia].
  reflexivity.
Qed.

(** [UpdateSpilledBytes] leaves the counter alone. *)
Lemma UpdateSpilledBytes_counter m diff :
  block_id_counter (UpdateSpilledBytes m diff) = block_id_counter m.
Proof. reflexivity. Qed.

(** In a run that interleaves both members, the ids come out as the
    consecutive values of the counter, as long as it does not wrap. *)
Lemma run_block_ids cs : forall m,
  0 <= block_id_counter m ->
  block_id_counter m + Z.of_nat (id_calls cs) <= 2 ^ 64 ->
  fst (run cs m)
  = (fun i => block_id_counter m + i) <$> Zseq (Z.of_nat (id_calls cs)).
Proof.
  induction cs as [|c cs IH]; intros m H0 Hle; [reflexivity|].
  destruct c as [|diff]; cbn [run id_calls] in *.
  - unfold GetNewBlockID.
    pose proof (Z.mod_pos_bound (block_id_counter m + 1) (2 ^ 64)
                  ltac:(lia)) as Hb.
    specialize (IH (mk (usable_size m) (uint64 (block_id_counter m + 1))
                       (curr_spilled_bytes m))).
    cbn [block_id_counter] in IH.
    destruct (run cs _) as [ids m2] eqn:Hr. cbn [fst] in *.
    unfold Zseq. rewrite Nat2Z.id. cbn [seq fmap list_fmap].
    rewrite Z.add_0_r. f_equal.
    destruct (id_calls cs) as [|n] eqn:Hn.
    + rewrite IH by (unfold uint64; lia). reflexivity.
    + assert (Hu : uint64 (block_id_counter m + 1) = block_id_counter m + 1)
        by (unfold uint64; apply Z.mod_small; lia).
      rewrite IH by (rewrite Hu; lia).
      unfold Zseq. rewrite Nat2Z.id, Hu.
      rewrite <- seq_shift, <- !list_fmap_compose.
      apply list_fmap_ext. intros k x _. cbn. lia.
  - rewrite IH by (cbn; assumption). reflexivity.
Qed.
End StorageManagerFacts.

(** C9, as stated, fails on the code: the counter is a [uint64_t], so the call
    numbered [2^64] returns the id 0 again, the id the first call returned. *)
Lemma block_id_reused_after_wrap :
  StorageManager.nth_block_id 1073741824 (2 ^ 64)
  = StorageManager.nth_block_id 1073741824 0
  /\ (StorageManager.nth_block_id 1073741824 (2 ^ 64)
      < StorageManager.nth_block_id 1073741824 (2 ^ 64 - 1))%Z.
Proof. rewrite !nth_block_id_eq. vm_compute. split; reflexivity. Qed.

(** C9, amended: on every manager the first call of [GetNewBlockID] returns 0,
    call number [i] returns [i], and among the first [2^64] calls a later call
    returns a strictly greater id, so no id is reused before the counter
    wraps. *)
Theorem block_ids_increasing_below_wrap (usable : Z) (i j : N) :
  (i < j)%N -> (j < 2 ^ 64)%N ->
  StorageManager.nth_block_id usable 0 = 0%Z
  /\ StorageManager.nth_block_id usable i = Z.of_N i
  /\ StorageManager.nth_block_id usable j = Z.of_N j
  /\ (StorageManager.nth_block_id usable i
      < StorageManager.nth_block_id usable j)%Z.
Proof.
  intros Hij Hj. rewrite !nth_block_id_eq. unfold StorageManager.uint64.
  assert (Hb : (Z.of_N (2 ^ 64) = 2 ^ 64)%Z) by reflexivity.
  rewrite !Z.mod_small by lia. repeat split; lia.
Qed.

Lemma block_ids_increasing_below_wrap_witness :
  StorageManager.nth_block_id 1073741824 0 = 0%Z
  /\ StorageManager.nth_block_id 1073741824 3 = 3%Z
  /\ StorageManager.nth_block_id 1073741824 5 = 5%Z
  /\ (StorageManager.nth_block_id 1073741824 3
      < StorageManager.nth_block_id 1073741824 5)%Z.
Proof. apply (block_ids_increasing_below_wrap 1073741824 3 5); reflexivity. Defined.

(* --------------------------------------------------------------------- *)
(** ** Bitmaps and byte copies                                            *)
(* --------------------------------------------------------------------- *)
Section BitmapFacts.
Import Bitmap.
Local Open Scope Z_scope.

Lemma testbit_set_byte (old : Z) (b : bool) (k t : Z) :
  0 <= k < 8 -> 0 <= t ->
  Z.testbit (Z.lxor old (Z.land (Z.lxor (if b then 255 else 0) old)
                                (kBitmask k))) t
  = if decide (t = k) then b else Z.testbit old t.
Proof.
  intros Hk Ht. unfold kBitmask.
  rewrite Z.lxor_spec, Z.land_spec, Z.lxor_spec, Z.shiftl_1_l.
  rewrite Z.pow2_bits_eqb by lia.
  destruct (decide (t = k)) as [->|Hne].
  - rewrite Z.eqb_refl, andb_true_r.
    assert (Hm : Z.testbit (if b then 255 else 0) k = b).
    { destruct b; [|apply Z.bits_0].
      change 255 with (Z.ones 8). apply Z.ones_spec_low. lia. }
    rewrite Hm. destruct b, (Z.testbit old k); reflexivity.
  - assert (Hf : (k =? t) = false) by (apply Z.eqb_neq; lia).
    rewrite Hf, andb_false_r, xorb_false_r. reflexivity.
Qed.

Lemma bit_index_split i :
  Z.shiftr i 3 = i / 8 /\ Z.land i 7 = i mod 8.
Proof.
  split.
  - now rewrite Z.shiftr_div_pow2 by lia.
  - change 7 with (Z.ones 3). now rewrite Z.land_ones by lia.
Qed.

Lemma byte_at_insert (bits : list Z) (k j v : Z) :
  0 <= k -> 0 <= j -> (Z.to_nat k < length bits)%nat ->
  byte_at (<[Z.to_nat k := v]> bits) j
  = if decide (j = k) then v else byte_at bits j.
Proof.
  intros Hk Hj Hlen. unfold byte_at.
  destruct (decide (j = k)) as [->|Hne].
  - now rewrite list_lookup_insert_eq.
  - rewrite list_lookup_insert_ne by lia. reflexivity.
Qed.

Lemma length_SetBitTo bits i b : length (SetBitTo bits i b) = length bits.
Proof. unfold SetBitTo. apply length_insert. Qed.

(** Writing bit [i] changes bit [i] and no other. *)
Lemma GetBit_SetBitTo bits i b j :
  0 <= i -> 0 <= j -> i / 8 < Z.of_nat (length bits) ->
  GetBit (SetBitTo bits i b) j = if decide (j = i) then b else GetBit bits j.
Proof.
  intros Hi Hj Hlen. unfold GetBit, SetBitTo.
  destruct (bit_index_split j) as [-> ->].
  assert (0 <= i / 8) by (apply Z.div_pos; lia).
  assert (0 <= j / 8) by (apply Z.div_pos; lia).
  pose proof (Z.mod_pos_bound i 8 ltac:(lia)).
  pose proof (Z.mod_pos_bound j 8 ltac:(lia)).
  rewrite byte_at_insert by lia.
  destruct (decide (j / 8 = i / 8)) as [Hq|Hq].
  - rewrite testbit_set_byte by lia. rewrite Hq.
    destruct (decide (j mod 8 = i mod 8)) as [Hr|Hr].
    + assert (j = i) by (rewrite (Z.div_mod j 8), (Z.div_mod i 8); lia).
      now rewrite decide_True.
    + rewrite decide_False by congruence. reflexivity.
  - rewrite decide_False by congruence. reflexivity.
Qed.

Lemma length_memcpy dest off src n :
  0 <= off -> 0 <= n -> n <= Z.of_nat (length src) ->
  off + n <= Z.of_nat (length dest) ->
  length (memcpy dest off src n) = length dest.
Proof.
  intros. unfold memcpy. rewrite !length_app, !length_take, length_drop. lia.
Qed.

Lemma byte_at_memcpy dest off src n k :
  0 <= off -> 0 <= n -> n <= Z.of_nat (length src) ->
  off + n <= Z.of_nat (length dest) -> 0 <= k ->
  byte_at (memcpy dest off src n) k
  = if decide (off <= k < off + n) then byte_at src (k - off)
    else byte_at dest k.
Proof.
  intros Hoff Hn Hsrc Hdest Hk. unfold byte_at, memcpy.
  destruct (decide (off <= k < off + n)) as [Hin|Hout].
  - rewrite lookup_app_r by (rewrite length_take; lia).
    rewrite length_take.
    rewrite lookup_app_l by (rewrite length_take; lia).
    rewrite lookup_take_lt by lia. do 2 f_equal. lia.
  - destruct (decide (k < off)).
    + rewrite lookup_app_l by (rewrite length_take; lia).
      rewrite lookup_take_lt by lia. reflexivity.
    + rewrite lookup_app_r by (rewrite length_take; lia).
      rewrite lookup_app_r by (rewrite !length_take; lia).
      rewrite lookup_drop, !length_take. do 2 f_equal. lia.
Qed.
End BitmapFacts.

(* --------------------------------------------------------------------- *)
(** ** The nullable fixed-width batch append                              *)
(* --------------------------------------------------------------------- *)
Lemma Zseq_succ (m : nat) :
  Zseq (Z.of_nat (S m)) = Zseq (Z.of_nat m) ++ [Z.of_nat m].
Proof.
  unfold Zseq. rewrite !Nat2Z.id. rewrite seq_S, fmap_app. reflexivity.
Qed.

Lemma Zseq_0 : Zseq 0 = [].
Proof. reflexivity. Qed.

Section BuildBufferFacts.
Import Bitmap BuildBuffer.
Local Open Scope Z_scope.

Lemma BytesForBits_le n len :
  0 <= n -> BytesForBits n <= len -> forall j, 0 <= j < n -> j / 8 < len.
Proof.
  unfold BytesForBits. intros Hn Hle j Hj.
  rewrite Z.shiftr_div_pow2 in Hle by lia. change (2 ^ 3) with 8 in Hle.
  assert (j / 8 <= (n - 1) / 8) by (apply Z.div_le_mono; lia).
  assert ((n - 1) / 8 < (n + 7) / 8).
  { replace (n + 7) with ((n - 1) + 1 * 8) by lia.
    rewrite Z.div_add by lia. lia. }
  lia.
Qed.

Lemma BytesForBits_mono n m : n <= m -> BytesForBits n <= BytesForBits m.
Proof.
  intros. unfold BytesForBits. rewrite !Z.shiftr_div_pow2 by lia.
  apply Z.div_le_mono; lia.
Qed.

(** The bit-by-bit loop after [m] rounds. *)
Lemma append_null_bitmap_slow_prefix (a : array_info) (in_bm : list Z)
      (m : nat) :
  0 <= arr_length a ->
  BytesForBits (arr_length a + Z.of_nat m) <= Z.of_nat (length (null_bitmask a)) ->
  let r := fold_left
    (fun acc i =>
       let bit := GetBit in_bm i in
       set_length (set_null_bitmask acc
                     (SetBitTo (null_bitmask acc) (arr_length acc) bit))
                  (arr_length acc + 1))
    (Zseq (Z.of_nat m)) a in
  arr_length r = arr_length a + Z.of_nat m
  /\ data1 r = data1 a
  /\ arr_type r = arr_type a /\ dtype r = dtype a
  /\ length (null_bitmask r) = length (null_bitmask a)
  /\ forall j, 0 <= j ->
       GetBit (null_bitmask r) j
       = if decide (arr_length a <= j < arr_length a + Z.of_nat m)
         then GetBit in_bm (j - arr_length a)
         else GetBit (null_bitmask a) j.
Proof.
  intros Ha. induction m as [|m IH]; intros Hcap r.
  - subst r. change (Zseq (Z.of_nat 0)) with (@nil Z). cbn. split_and!; try reflexivity; [lia|].
    intros j Hj. rewrite decide_False by lia. reflexivity.
  - subst r. rewrite Zseq_succ, fold_left_app. cbn [fold_left].
    destruct IH as (Hlen & Hd & Hty & Hdt & Hbl & Hbits).
    { etransitivity; [|exact Hcap]. apply BytesForBits_mono. lia. }
    set (r0 := fold_left _ (Zseq (Z.of_nat m)) a) in *.
    cbn. rewrite length_SetBitTo.
    split_and!; try assumption; try lia.
    intros j Hj. rewrite Hlen.
    rewrite GetBit_SetBitTo; [| lia | lia |].
    + destruct (decide (j = arr_length a + Z.of_nat m)) as [->|Hne].
      * rewrite decide_True by lia. f_equal. lia.
      * rewrite Hbits by lia.
        destruct (decide (arr_length a <= j < arr_length a + Z.of_nat m)).
        -- rewrite decide_True by lia. reflexivity.
        -- rewrite decide_False by lia. reflexivity.
    + rewrite Hbl.
      apply (BytesForBits_le (arr_length a + Z.of_nat (S m))); lia.
Qed.

Lemma append_null_bitmap_slow_spec (a in_arr : array_info) :
  0 <= arr_length a -> 0 <= arr_length in_arr ->
  BytesForBits (arr_length a + arr_length in_arr)
    <= Z.of_nat (length (null_bitmask a)) ->
  let r := append_null_bitmap_slow a in_arr in
  arr_length r = arr_length a + arr_length in_arr
  /\ data1 r = data1 a
  /\ forall j, 0 <= j ->
       GetBit (null_bitmask r) j
       = if decide (arr_length a <= j < arr_length a + arr_length in_arr)
         then GetBit (null_bitmask in_arr) (j - arr_length a)
         else GetBit (null_bitmask a) j.
Proof.
  intros Ha Hn Hcap r. subst r. unfold append_null_bitmap_slow.
  pose proof (append_null_bitmap_slow_prefix a (null_bitmask in_arr)
                (Z.to_nat (arr_length in_arr)) Ha) as H.
  rewrite Z2Nat.id in H by lia.
  destruct (H Hcap) as (H1 & H2 & _ & _ & _ & H3).
  split_and!; assumption.
Qed.

Lemma append_null_bitmap_fast_spec (a in_arr : array_info) :
  0 <= arr_length a -> 0 <= arr_length in_arr ->
  Z.land (arr_length a) 7 = 0 ->
  BytesForBits (arr_length a + arr_length in_arr)
    <= Z.of_nat (length (null_bitmask a)) ->
  BytesForBits (arr_length in_arr) <= Z.of_nat (length (null_bitmask in_arr)) ->
  let r := append_null_bitmap_fast a in_arr in
  arr_length r = arr_length a + arr_length in_arr
  /\ data1 r = data1 a
  /\ forall j, 0 <= j < arr_length a + arr_length in_arr ->
       GetBit (null_bitmask r) j
       = if decide (arr_length a <= j)
         then GetBit (null_bitmask in_arr) (j - arr_length a)
         else GetBit (null_bitmask a) j.
Proof.
  intros Ha Hn Hal Hcap Hin r. subst r. unfold append_null_bitmap_fast.
  cbn. split_and!; try reflexivity.
  intros j Hj. unfold GetBit, _copy_bitmap.
  set (s := arr_length a) in *. set (n := arr_length in_arr) in *.
  unfold BytesForBits in *.
  destruct (bit_index_split s) as [Hs3 Hs7]. rewrite Hal in Hs7.
  destruct (bit_index_split j) as [-> ->].
  rewrite !Z.shiftr_div_pow2 in * by lia. change (2 ^ 3) with 8 in *.
  assert (Hs : s = 8 * (s / 8)) by (rewrite (Z.div_mod s 8) at 1; lia).
  assert (Hq : 0 <= s / 8) by (apply Z.div_pos; lia).
  assert (Hnb : 0 <= (n + 7) / 8) by (apply Z.div_pos; lia).
  assert (Hsum : (s + n + 7) / 8 = s / 8 + (n + 7) / 8).
  { rewrite Hs at 1. replace (8 * (s / 8) + n + 7) with ((n + 7) + (s / 8) * 8) by lia.
    rewrite Z.div_add by lia. lia. }
  assert (Hj8 : 0 <= j / 8) by (apply Z.div_pos; lia).
  rewrite byte_at_memcpy by lia.
  destruct (decide (s <= j)) as [Hge|Hlt].
  - assert (Hjs : j = (j - s) + (s / 8) * 8) by lia.
    assert (Hd : j / 8 = (j - s) / 8 + s / 8).
    { rewrite Hjs at 1. rewrite Z.div_add by lia. reflexivity. }
    assert (Hm : j mod 8 = (j - s) mod 8).
    { rewrite Hjs at 1. rewrite Z.mod_add by lia. reflexivity. }
    assert (Hlt8 : (j - s) / 8 < (n + 7) / 8).
    { apply (BytesForBits_le n); unfold BytesForBits;
        rewrite ?Z.shiftr_div_pow2 by lia; change (2 ^ 3) with 8; lia. }
    assert (0 <= (j - s) / 8) by (apply Z.div_pos; lia).
    rewrite decide_True by lia.
    destruct (bit_index_split (j - s)) as [_ ->].
    rewrite Hm. do 2 f_equal. lia.
  - assert (j / 8 < s / 8).
    { apply Z.div_lt_upper_bound; lia. }
    rewrite decide_False by lia. reflexivity.
Qed.
End BuildBufferFacts.

(** C8: when the size of the destination buffer is a multiple of 8, the
    nullable fixed-width batch append copies the null bitmap by whole bytes,
    and the buffer it leaves has the length, the values and the null bit of
    every row that the general bit-by-bit path leaves on the same input. *)
Theorem nullable_append_aligned_branches_agree
    (b : BuildBuffer.ArrayBuildBuffer) (in_arr : BuildBuffer.array_info) :
  let bm a := BuildBuffer.null_bitmask (BuildBuffer.data_array a) in
  (0 <= BuildBuffer.size b)%Z ->
  (0 <= BuildBuffer.arr_length in_arr)%Z ->
  Z.land (BuildBuffer.size b) 7 = 0%Z ->
  (Bitmap.BytesForBits (BuildBuffer.size b + BuildBuffer.arr_length in_arr)
   <= Z.of_nat (length (bm b)))%Z ->
  (Bitmap.BytesForBits (BuildBuffer.arr_length in_arr)
   <= Z.of_nat (length (BuildBuffer.null_bitmask in_arr)))%Z ->
  let fast := BuildBuffer.UnsafeAppendBatch_NULLABLE b in_arr in
  let general := BuildBuffer.UnsafeAppendBatch_NULLABLE_general b in_arr in
  bm fast
  = BuildBuffer._copy_bitmap (bm b) (Z.shiftr (BuildBuffer.size b) 3)
      (BuildBuffer.null_bitmask in_arr) (BuildBuffer.arr_length in_arr)
  /\ BuildBuffer.size fast
     = (BuildBuffer.size b + BuildBuffer.arr_length in_arr)%Z
  /\ BuildBuffer.size fast = BuildBuffer.size general
  /\ BuildBuffer.data1 (BuildBuffer.data_array fast)
     = BuildBuffer.data1 (BuildBuffer.data_array general)
  /\ forall i, (0 <= i < BuildBuffer.size fast)%Z ->
       Bitmap.GetBit (bm fast) i = Bitmap.GetBit (bm general) i.
Proof.
  intros bm H0 Hn Hal Hcap Hin fast general.
  subst fast general bm. cbv beta.
  unfold BuildBuffer.UnsafeAppendBatch_NULLABLE,
    BuildBuffer.UnsafeAppendBatch_NULLABLE_general.
  rewrite decide_True by exact Hal. cbn [BuildBuffer.data_array BuildBuffer.with_array].
  set (a1 := BuildBuffer.set_data1 _ _).
  assert (Ha1 : BuildBuffer.arr_length a1 = BuildBuffer.size b) by reflexivity.
  assert (Hb1 : BuildBuffer.null_bitmask a1
                = BuildBuffer.null_bitmask (BuildBuffer.data_array b))
    by reflexivity.
  destruct (append_null_bitmap_fast_spec a1 in_arr) as (Hf1 & Hf2 & Hf3);
    rewrite ?Ha1, ?Hb1; try assumption.
  destruct (append_null_bitmap_slow_spec a1 in_arr) as (Hs1 & Hs2 & Hs3);
    rewrite ?Ha1, ?Hb1; try assumption.
  unfold BuildBuffer.size, BuildBuffer.with_array in *.
  cbn [BuildBuffer.data_array] in *.
  split_and!.
  - reflexivity.
  - rewrite Hf1, Ha1. reflexivity.
  - rewrite Hf1, Hs1. reflexivity.
  - rewrite Hf2, Hs2. reflexivity.
  - intros i Hi. clearbody a1. rewrite Hf1 in Hi.
    rewrite Hf3 by exact Hi. rewrite Hs3 by lia.
    destruct (decide (BuildBuffer.arr_length a1 <= i)%Z).
    + rewrite decide_True by lia. reflexivity.
    + rewrite decide_False by lia. reflexivity.
Qed.

Lemma nullable_append_aligned_branches_agree_witness :
  let fast := BuildBuffer.UnsafeAppendBatch_NULLABLE
                BuildBuffer.example_buffer BuildBuffer.example_batch in
  let general := BuildBuffer.UnsafeAppendBatch_NULLABLE_general
                   BuildBuffer.example_buffer BuildBuffer.example_batch in
  BuildBuffer.null_bitmask (BuildBuffer.data_array fast)
  = BuildBuffer._copy_bitmap [171; 255]%Z 1 [5]%Z 3
  /\ BuildBuffer.size fast = 11%Z
  /\ BuildBuffer.size fast = BuildBuffer.size general
  /\ BuildBuffer.data1 (BuildBuffer.data_array fast)
     = BuildBuffer.data1 (BuildBuffer.data_array general)
  /\ forall i, (0 <= i < BuildBuffer.size fast)%Z ->
       Bitmap.GetBit (BuildBuffer.null_bitmask (BuildBuffer.data_array fast)) i
       = Bitmap.GetBit
           (BuildBuffer.null_bitmask (BuildBuffer.data_array general)) i.
Proof.
  apply (nullable_append_aligned_branches_agree
           BuildBuffer.example_buffer BuildBuffer.example_batch);
    vm_compute; congruence.
Defined.

(** The two branches agree on the rows only: the whole-byte copy also
    overwrites the bits of the last byte that lie past the new length, which
    the bit-by-bit branch leaves as they were. *)
Remark nullable_append_padding_bits_differ :
  BuildBuffer.null_bitmask (BuildBuffer.data_array
    (BuildBuffer.UnsafeAppendBatch_NULLABLE
       BuildBuffer.example_buffer BuildBuffer.example_batch))
  = [171; 5]%Z
  /\ BuildBuffer.null_bitmask (BuildBuffer.data_array
       (BuildBuffer.UnsafeAppendBatch_NULLABLE_general
          BuildBuffer.example_buffer BuildBuffer.example_batch))
     = [171; 253]%Z.
Proof. split; reflexivity. Qed.

(* --------------------------------------------------------------------- *)
(** ** Appending a dictionary-encoded column                              *)
(* --------------------------------------------------------------------- *)

(** With the same dictionary object on both sides the appends go through. *)
Lemma dict_append_unified_returns (b : BuildBuffer.DictBuildBuffer)
    (in_arr : BuildBuffer.dict_array_info) (row_ind : Z) :
  BuildBuffer.dict_ptr (BuildBuffer.dict_data_dictionary b)
  = BuildBuffer.dict_ptr (BuildBuffer.child_dictionary in_arr) ->
  (exists b', BuildBuffer.UnsafeAppendBatch_DICT b in_arr = Returns b')
  /\ (exists b', BuildBuffer.UnsafeAppendRow_DICT b in_arr row_ind = Returns b').
Proof.
  intros Heq.
  unfold BuildBuffer.UnsafeAppendBatch_DICT, BuildBuffer.UnsafeAppendRow_DICT,
    BuildBuffer.is_matching_dictionary.
  rewrite bool_decide_eq_true_2 by exact Heq. cbn. eauto.
Qed.

(** C4: appending a dictionary-encoded column (a batch, a batch filtered by
    [append_rows], or a single row) whose dictionary is not the dictionary
    object of the destination buffer throws a runtime error, and the buffer is
    at the throw what it was before the call: nothing is appended and no index
    is re-encoded. *)
Theorem dict_append_not_unified_throws (b : BuildBuffer.DictBuildBuffer)
    (in_arr : BuildBuffer.dict_array_info) (append_rows : list bool)
    (append_rows_sum row_ind : Z) :
  BuildBuffer.dict_ptr (BuildBuffer.dict_data_dictionary b)
  <> BuildBuffer.dict_ptr (BuildBuffer.child_dictionary in_arr) ->
  BuildBuffer.UnsafeAppendBatch_DICT b in_arr
  = Throws "dictionary not unified in UnsafeAppendBatch" b
  /\ BuildBuffer.UnsafeAppendBatch_DICT_rows b in_arr append_rows append_rows_sum
     = Throws "dictionary not unified in UnsafeAppendBatch" b
  /\ BuildBuffer.UnsafeAppendRow_DICT b in_arr row_ind
     = Throws "dictionary not unified in AppendRow" b.
Proof.
  intros Hne.
  unfold BuildBuffer.UnsafeAppendBatch_DICT,
    BuildBuffer.UnsafeAppendBatch_DICT_rows, BuildBuffer.UnsafeAppendRow_DICT,
    BuildBuffer.is_matching_dictionary.
  rewrite bool_decide_eq_false_2 by exact Hne. cbn. auto.
Qed.

Lemma dict_append_not_unified_throws_witness :
  BuildBuffer.UnsafeAppendBatch_DICT
    BuildBuffer.example_dict_buffer BuildBuffer.example_dict_batch
  = Throws "dictionary not unified in UnsafeAppendBatch"
      BuildBuffer.example_dict_buffer
  /\ BuildBuffer.UnsafeAppendBatch_DICT_rows
       BuildBuffer.example_dict_buffer BuildBuffer.example_dict_batch
       [true; false] 1
     = Throws "dictionary not unified in UnsafeAppendBatch"
         BuildBuffer.example_dict_buffer
  /\ BuildBuffer.UnsafeAppendRow_DICT
       BuildBuffer.example_dict_buffer BuildBuffer.example_dict_batch 1
     = Throws "dictionary not unified in AppendRow"
         BuildBuffer.example_dict_buffer.
Proof.
  apply (dict_append_not_unified_throws
           BuildBuffer.example_dict_buffer BuildBuffer.example_dict_batch
           [true; false] 1 1).
  vm_compute. discriminate.
Defined.

(* --------------------------------------------------------------------- *)
(** ** The strategy rule                                                  *)
(* --------------------------------------------------------------------- *)
Section StrategyFacts.
Import Exscan.
Local Open Scope Z_scope.
Variable ceiling : Z.

Lemma cumulative_flags_fold (funcs : list Bodo_FTypes) (a b : bool) :
  fold_left
    (fun (flags : bool * bool) ftype =>
       if is_cumulative ftype then (flags.1, true) else (true, flags.2))
    funcs (a, b)
  = (a || existsb (fun f => negb (is_cumulative f)) funcs,
     b || existsb is_cumulative funcs).
Proof.
  revert a b. induction funcs as [|f funcs IH]; intros a b; cbn.
  - now rewrite !orb_false_r.
  - destruct (is_cumulative f); cbn; rewrite IH; cbn.
    + now rewrite orb_true_r.
    + now rewrite orb_true_r.
Qed.

Lemma arithmetic_flag_fold (cols : list array_info) (flag : bool) :
  fold_left
    (fun (flag : bool) oper_col =>
       if negb (bool_decide (arr_type oper_col = NUMPY))
          && negb (bool_decide (arr_type oper_col = NULLABLE_INT_BOOL))
       then true else flag)
    cols flag
  = flag || existsb (fun c => negb (is_arithmetic c)) cols.
Proof.
  revert flag. induction cols as [|c cols IH]; intros flag; cbn.
  - now rewrite orb_false_r.
  - rewrite IH. unfold is_arithmetic. rewrite negb_orb.
    destruct (negb _ && negb _); cbn.
    + now rewrite orb_true_r.
    + reflexivity.
Qed.

Lemma all_cumulative_nonempty (funcs : list Bodo_FTypes) :
  funcs <> [] ->
  existsb (fun f => negb (is_cumulative f)) funcs = false ->
  existsb is_cumulative funcs = true.
Proof.
  destruct funcs as [|f funcs]; [congruence|]. cbn. intros _ H.
  apply orb_false_elim in H as [H _].
  apply negb_false_iff in H. now rewrite H.
Qed.

(** The return value of [determine_groupby_strategy], case by case. *)
Lemma determine_groupby_strategy_cases in_table num_keys ftypes func_offsets
      input_has_index :
  let funcs := requested_functions in_table num_keys ftypes func_offsets
                 input_has_index in
  let operands := operand_columns in_table num_keys input_has_index in
  determine_groupby_strategy ceiling in_table num_keys ftypes func_offsets
    input_has_index
  = if existsb (fun f => negb (is_cumulative f)) funcs then 0
    else if negb (existsb is_cumulative funcs) then 0
    else if existsb (fun c => negb (is_arithmetic c)) operands then 0
    else if 1 <? num_keys then 2
    else match in_table with
         | [] => 2
         | key :: _ =>
             if negb (bool_decide (arr_type key = CATEGORICAL)) then 2
             else if ceiling <? num_categories key then 0 else 1
         end.
Proof.
  intros funcs operands. unfold determine_groupby_strategy.
  fold funcs. fold operands.
  rewrite cumulative_flags_fold, arithmetic_flag_fold. cbn [orb].
  reflexivity.
Qed.
End StrategyFacts.

(** C1, as stated, fails on the code: a query that requests no function has
    no non-cumulative function, no non-numeric operand and one key-group, so
    the rule of the spec makes it eligible, but [determine_groupby_strategy]
    returns 0 for it. *)
Lemma exscan_rule_fails_without_function :
  Exscan.exscan_fast_path_chosen 1000 Exscan.example_no_function_table 1 []
    [0; 0]%Z false 1 = false
  /\ Exscan.spec_eligible 1000
       (Exscan.requested_functions Exscan.example_no_function_table 1 []
          [0; 0]%Z false)
       (Exscan.operand_columns Exscan.example_no_function_table 1 false) 1
     = true.
Proof. split; reflexivity. Qed.

(** C1, amended: for every groupby query that requests at least one function,
    the fast path is chosen exactly by the rule of the spec in its priority
    order, where the number of key-groups compared with the ceiling is the
    number of categories of the key when the key is a single categorical
    column (tested by [determine_groupby_strategy]) and the global number of
    distinct key rows otherwise (tested by [compute_categorical_index]). *)
Theorem exscan_strategy_rule (ceiling : Z) (in_table : Exscan.table_info)
    (num_keys : Z) (ftypes : list Bodo_FTypes) (func_offsets : list Z)
    (input_has_index : bool) (n_rows_full : Z) :
  Exscan.requested_functions in_table num_keys ftypes func_offsets
    input_has_index <> [] ->
  Exscan.exscan_fast_path_chosen ceiling in_table num_keys ftypes func_offsets
    input_has_index n_rows_full
  = Exscan.spec_eligible ceiling
      (Exscan.requested_functions in_table num_keys ftypes func_offsets
         input_has_index)
      (Exscan.operand_columns in_table num_keys input_has_index)
      (Exscan.key_groups_compared in_table num_keys n_rows_full).
Proof.
  intros Hne. unfold Exscan.exscan_fast_path_chosen.
  rewrite determine_groupby_strategy_cases. cbv zeta.
  unfold Exscan.spec_eligible, Exscan.key_groups_compared,
    Exscan.compute_categorical_index_gives_up.
  destruct (existsb (fun f => negb (Exscan.is_cumulative f)) _) eqn:Hnc;
    [reflexivity|].
  rewrite (all_cumulative_nonempty _ Hne Hnc). cbn [negb].
  destruct (existsb (fun c => negb (Exscan.is_arithmetic c)) _);
    [reflexivity|].
  destruct (Z.ltb_spec 1 num_keys) as [Hk|Hk].
  - assert (Hle : (num_keys <=? 1)%Z = false) by (apply Z.leb_gt; lia).
    destruct in_table as [|key rest]; cbn.
    + now destruct (ceiling <? n_rows_full)%Z.
    + rewrite Hle. cbn. now destruct (ceiling <? n_rows_full)%Z.
  - assert (Hle : (num_keys <=? 1)%Z = true) by (apply Z.leb_le; lia).
    destruct in_table as [|key rest]; cbn.
    + now destruct (ceiling <? n_rows_full)%Z.
    + rewrite Hle. cbn [andb].
      destruct (bool_decide (Exscan.arr_type key = CATEGORICAL)); cbn.
      * now destruct (ceiling <? Exscan.num_categories key)%Z.
      * now destruct (ceiling <? n_rows_full)%Z.
Qed.

Lemma exscan_strategy_rule_witness :
  Exscan.exscan_fast_path_chosen 1000 Exscan.example_cumulative_table 1
    [cumsum; cummax] [0; 2]%Z false 7
  = Exscan.spec_eligible 1000
      (Exscan.requested_functions Exscan.example_cumulative_table 1
         [cumsum; cummax] [0; 2]%Z false)
      (Exscan.operand_columns Exscan.example_cumulative_table 1 false)
      (Exscan.key_groups_compared Exscan.example_cumulative_table 1 7).
Proof.
  apply (exscan_strategy_rule 1000 Exscan.example_cumulative_table 1
           [cumsum; cummax] [0; 2]%Z false 7).
  vm_compute. discriminate.
Defined.

(* --------------------------------------------------------------------- *)
(** ** Start values of the aggregates                                     *)
(* --------------------------------------------------------------------- *)
Section IdentityFacts.
Import Exscan.

(** Block [j] of the fresh [cumulative] vector holds the start value of
    function [j] in every slot. *)
Lemma init_cumulative_block {T : Type} (vi : Bodo_FTypes -> T) (M : nat)
      (pre : list Bodo_FTypes) (ft : Bodo_FTypes) (post : list Bodo_FTypes) :
  slice (M * length pre) M
    (init_cumulative vi (Z.of_nat M) (pre ++ ft :: post))
  = replicate M (vi ft).
Proof.
  unfold slice, init_cumulative. rewrite Nat2Z.id.
  rewrite bind_app, bind_cons.
  assert (Hlen : length (pre ≫= (fun f => replicate M (vi f)))
                 = (M * length pre)%nat).
  { induction pre as [|p pre IH]; cbn; [lia|].
    rewrite length_app, length_replicate, IH. lia. }
  rewrite drop_app_length' by (symmetry; exact Hlen).
  rewrite take_app_length' by (symmetry; apply length_replicate). reflexivity.
Qed.
End IdentityFacts.

(** C3, as stated, fails on the code: for a float dtype the aggregate output
    of [min] is initialised to the quiet NaN, not to the maximum of the
    dtype. *)
Lemma aggregate_min_float_starts_at_nan :
  GroupbyCommon.data1
    (GroupbyCommon.aggfunc_output_initialize_kernel
       (GroupbyCommon.mk_array NUMPY FLOAT64 2 0
          [FloatVal 0 0; FloatVal 0 0] [])
       ft_min false).1
  = [FloatNaN; FloatNaN]
  /\ FloatNaN <> Numeric.dtype_maximum FLOAT64.
Proof. split; [reflexivity | discriminate]. Qed.

(** In the exscan path the running value of [cummax] on a float column starts
    at [numeric_limits<T>::min()], the least positive normal float, which is
    not the least value of the dtype. *)
Remark cummax_float_starts_at_least_positive :
  Exscan.value_init FLOAT32 cummax = FloatVal 1 (-126)
  /\ Exscan.value_init FLOAT64 cummax = FloatVal 1 (-1022)
  /\ Exscan.value_init FLOAT32 cummax <> Numeric.dtype_minimum FLOAT32
  /\ Exscan.value_init FLOAT64 cummax <> Numeric.dtype_minimum FLOAT64.
Proof. split_and!; (reflexivity || discriminate). Qed.

(** C3, amended: in the exscan path the running value starts at 0 for cumsum
    and at 1 for cumprod on each of the ten numeric dtypes, at the maximum of
    the dtype for cummin on each of them, and at the minimum of the dtype for
    cummax on the eight integer dtypes; every slot of the block of a function
    in the fresh [cumulative] vector holds that start value. The aggregate
    output initialisation of a NUMPY or nullable column fills 1 for prod on
    each numeric dtype; for min and max it fills the maximum, respectively
    the minimum, of the dtype on the integer dtypes and the quiet NaN on the
    float dtypes. *)
Theorem identity_initialization :
  Forall (fun d =>
            Exscan.value_init d cumsum = IntVal 0
            /\ Exscan.value_init d cumprod = IntVal 1
            /\ Exscan.value_init d cummax = Numeric.dtype_minimum d
            /\ Exscan.value_init d cummin = Numeric.dtype_maximum d)
         Numeric.integer_dtypes
  /\ Forall (fun d =>
               Exscan.value_init d cumsum = FloatVal 0 0
               /\ Exscan.value_init d cumprod = FloatVal 1 0
               /\ Exscan.value_init d cummin = Numeric.dtype_maximum d)
            Numeric.float_dtypes
  /\ (forall (d : CTypeEnum) (M : nat) (pre : list Bodo_FTypes)
             (ft : Bodo_FTypes) (post : list Bodo_FTypes),
        Exscan.slice (M * length pre) M
          (Exscan.init_cumulative (Exscan.value_init d) (Z.of_nat M)
             (pre ++ ft :: post))
        = replicate M (Exscan.value_init d ft))
  /\ Forall (fun t =>
       Forall (fun d => forall n nc data bm sql,
           let out_col := GroupbyCommon.mk_array t d n nc data bm in
           let filled ftype :=
             GroupbyCommon.data1
               (GroupbyCommon.aggfunc_output_initialize_kernel
                  out_col ftype sql).1 in
           filled ft_prod = GroupbyCommon.fill data n (Numeric.of_literal d 1)
           /\ filled ft_min
              = GroupbyCommon.fill data n
                  (if bool_decide (d ∈ Numeric.float_dtypes) then FloatNaN
                   else Numeric.dtype_maximum d)
           /\ filled ft_max
              = GroupbyCommon.fill data n
                  (if bool_decide (d ∈ Numeric.float_dtypes) then FloatNaN
                   else Numeric.dtype_minimum d))
         Numeric.numeric_dtypes)
     [NUMPY; NULLABLE_INT_BOOL].
Proof.
  split_and!.
  - repeat constructor.
  - repeat constructor.
  - intros d M pre ft post. apply init_cumulative_block.
  - cbv [Numeric.numeric_dtypes Numeric.integer_dtypes Numeric.float_dtypes
           app].
    repeat (apply List.Forall_cons; [|]); try apply List.Forall_nil;
      intros n nc data bm sql; cbv zeta; split_and!; destruct sql; reflexivity.
Qed.

(* --------------------------------------------------------------------- *)
(** ** Null propagation in the nullable exscan path                       *)
(* --------------------------------------------------------------------- *)
Section ExscanNullFacts.
Import Exscan.
Local Open Scope Z_scope.
Context {T : Type}.
Variable T_zero : T.
Variable oper : Bodo_FTypes -> T -> T -> T.

Local Abbreviation row := (@Exscan.row T).
Local Abbreviation local_step := (@local_step T T_zero oper).
Local Abbreviation local_loop := (@local_loop T T_zero oper).
Local Abbreviation local_pass := (@local_pass T T_zero oper).
Local Abbreviation final_step := (@final_step T T_zero oper).
Local Abbreviation final_loop := (@final_loop T T_zero oper).
Local Abbreviation final_pass := (@final_pass T T_zero oper).

(** A mask slot, read as the code reads it. *)
Local Abbreviation mget m p := (default 0 (m !! p)).

Lemma mget_insert (m : list Z) (q p : nat) (v : Z) :
  mget (<[q := v]> m) p
  = if decide (q = p /\ (q < length m)%nat) then v else mget m p.
Proof.
  destruct (decide (q = p /\ (q < length m)%nat)) as [[-> Hlt]|Hn].
  - now rewrite list_lookup_insert_eq.
  - destruct (decide (q = p)) as [->|Hne].
    + rewrite list_insert_ge by lia. reflexivity.
    + now rewrite list_lookup_insert_ne.
Qed.

(** *** One step of the first loop *)

Lemma local_step_bits_length sk ft off st i r :
  length (w_bits (work (local_step sk ft off st i r)))
  = length (w_bits (work st)).
Proof.
  unfold Exscan.local_step.
  repeat (case_decide || case_match); cbn; now rewrite ?length_insert.
Qed.

Lemma local_step_bits_other sk ft off st i r k :
  k <> i ->
  w_bits (work (local_step sk ft off st i r)) !! k = w_bits (work st) !! k.
Proof.
  intros Hne. unfold Exscan.local_step.
  repeat (case_decide || case_match); cbn;
    now rewrite ?list_lookup_insert_ne by congruence.
Qed.

Lemma local_step_bit sk ft off st i r :
  (i < length (w_bits (work st)))%nat ->
  w_bits (work (local_step sk ft off st i r)) !! i
  = Some (local_bit sk off (cumulative_mask st) r).
Proof.
  intros Hlt. unfold Exscan.local_step, local_bit.
  destruct (decide (idx r = miss_idx)); cbn.
  - now rewrite list_lookup_insert_eq.
  - destruct sk; cbn.
    + now rewrite list_lookup_insert_eq.
    + destruct (bit r); cbn.
      * destruct (decide (mget (cumulative_mask st) _ = 1)) as [He|He]; cbn;
          rewrite list_lookup_insert_eq by assumption.
        -- now rewrite bool_decide_eq_true_2.
        -- now rewrite bool_decide_eq_false_2.
      * now rewrite list_lookup_insert_eq.
Qed.

Lemma local_step_mask ft off st i r :
  cumulative_mask (local_step false ft off st i r)
  = if negb (bool_decide (idx r = miss_idx)) && negb (bit r)
    then <[Z.to_nat (idx r + off) := 1]> (cumulative_mask st)
    else cumulative_mask st.
Proof.
  unfold Exscan.local_step.
  destruct (decide (idx r = miss_idx)) as [He|He]; cbn.
  - now rewrite bool_decide_eq_true_2.
  - rewrite bool_decide_eq_false_2 by assumption. cbn.
    destruct (bit r); cbn; [|reflexivity].
    now destruct (decide _).
Qed.

(** With nulls skipped a null row leaves the running values and the mask
    alone. *)
Lemma local_step_skip_null ft off st i r :
  bit r = false ->
  cumulative (local_step true ft off st i r) = cumulative st
  /\ cumulative_mask (local_step true ft off st i r) = cumulative_mask st.
Proof.
  intros Hb. unfold Exscan.local_step.
  destruct (decide (idx r = miss_idx)); cbn; [auto|].
  rewrite Hb. auto.
Qed.

(** *** The first loop over the rows *)

Lemma local_loop_app sk ft off i rs1 rs2 st :
  local_loop sk ft off i (rs1 ++ rs2) st
  = local_loop sk ft off (i + length rs1) rs2 (local_loop sk ft off i rs1 st).
Proof.
  revert i st. induction rs1 as [|r rs1 IH]; intros i st; cbn.
  - now rewrite Nat.add_0_r.
  - rewrite IH. f_equal. lia.
Qed.

Lemma local_loop_bits_length sk ft off rs : forall i st,
  length (w_bits (work (local_loop sk ft off i rs st)))
  = length (w_bits (work st)).
Proof.
  induction rs as [|r rs IH]; intros i st; cbn; [reflexivity|].
  rewrite IH. apply local_step_bits_length.
Qed.

Lemma local_loop_bits_below sk ft off rs : forall i st k,
  (k < i)%nat ->
  w_bits (work (local_loop sk ft off i rs st)) !! k
  = w_bits (work st) !! k.
Proof.
  induction rs as [|r rs IH]; intros i st k Hk; cbn; [reflexivity|].
  rewrite IH by lia. apply local_step_bits_other. lia.
Qed.

Lemma local_loop_mask_length ft off rs : forall i st,
  length (cumulative_mask (local_loop false ft off i rs st))
  = length (cumulative_mask st).
Proof.
  induction rs as [|r rs IH]; intros i st; cbn; [reflexivity|].
  rewrite IH, local_step_mask. destruct (_ && _); now rewrite ?length_insert.
Qed.

(** The mask after the loop: a slot is 1 when a null row hit it. *)
Lemma local_loop_mask ft off rs : forall i st p,
  (p < length (cumulative_mask st))%nat ->
  mget (cumulative_mask (local_loop false ft off i rs st)) p
  = if null_hits off p rs then 1 else mget (cumulative_mask st) p.
Proof.
  induction rs as [|r rs IH]; intros i st p Hp; cbn; [reflexivity|].
  rewrite IH.
  2:{ rewrite local_step_mask. destruct (_ && _); now rewrite ?length_insert. }
  rewrite local_step_mask.
  change (existsb _ rs) with (null_hits off p rs).
  destruct (null_hits off p rs); [now rewrite orb_true_r|].
  rewrite orb_false_r.
  destruct (negb (bool_decide (idx r = miss_idx)) && negb (bit r)); cbn;
    [|reflexivity].
  rewrite mget_insert.
  destruct (decide (Z.to_nat (idx r + off) = p)) as [He|He].
  - rewrite bool_decide_eq_true_2 by assumption.
    rewrite decide_True by (split; [assumption|lia]). reflexivity.
  - rewrite bool_decide_eq_false_2 by assumption.
    rewrite decide_False by tauto. reflexivity.
Qed.

(** The null bit of the row at position [length pre] after the loop. *)
Lemma local_loop_bit sk ft off pre r post st :
  (length pre < length (w_bits (work st)))%nat ->
  w_bits (work (local_loop sk ft off 0 (pre ++ r :: post) st))
    !! length pre
  = Some (local_bit sk off
            (cumulative_mask (local_loop sk ft off 0 pre st)) r).
Proof.
  intros Hlt. rewrite local_loop_app. cbn [Exscan.local_loop Nat.add].
  rewrite local_loop_bits_below by lia.
  apply local_step_bit. now rewrite local_loop_bits_length.
Qed.

(** *** The first loop over the functions *)

Lemma null_hits_block (M : Z) (rs : list row) (jj jj' : nat) (g : Z) :
  Forall (fun x => idx x = miss_idx \/ 0 <= idx x < M) rs ->
  0 <= g < M ->
  null_hits (M * Z.of_nat jj) (Z.to_nat (g + M * Z.of_nat jj')) rs
  = if decide (jj = jj') then saw_null g rs else false.
Proof.
  intros Hwf Hg. unfold null_hits, saw_null, miss_idx.
  induction Hwf as [|r rs Hr _ IH]; cbn [existsb].
  - now destruct (decide _).
  - rewrite IH. unfold miss_idx in Hr.
    destruct (decide (jj = jj')) as [->|Hne].
    + f_equal.
      destruct (decide (idx r = g)) as [He|He].
      * rewrite (bool_decide_eq_true_2 _ He).
        rewrite bool_decide_eq_false_2 by lia.
        rewrite bool_decide_eq_true_2 by (f_equal; lia).
        cbn. now rewrite andb_true_r.
      * rewrite (bool_decide_eq_false_2 _ He). cbn.
        destruct Hr as [Hr|Hr].
        -- rewrite bool_decide_eq_true_2 by assumption. reflexivity.
        -- rewrite (bool_decide_eq_false_2 (Z.to_nat _ = _)) by nia.
           now rewrite andb_false_r.
    + rewrite orb_false_r.
      destruct Hr as [Hr|Hr].
      * rewrite bool_decide_eq_true_2 by assumption. reflexivity.
      * rewrite (bool_decide_eq_false_2 (Z.to_nat _ = _)) by nia.
        now rewrite andb_false_r.
Qed.

Lemma local_pass_lengths sk M rs fts : forall j outs cum mask,
  sk = false ->
  length (local_pass sk M rs j fts outs cum mask).2 = length mask
  /\ length (local_pass sk M rs j fts outs cum mask).1.1 = length outs.
Proof.
  induction fts as [|ft fts IH]; intros j outs cum mask ->; cbn;
    [auto|].
  destruct outs as [|w outs]; cbn; [auto|].
  match goal with |- context [local_pass false M rs (S j) fts outs ?c ?m] =>
    specialize (IH (S j) outs c m eq_refl);
    destruct (local_pass false M rs (S j) fts outs c m) as [[o c'] m']
  end.
  cbn in *. destruct IH as [-> ->]. split; [|reflexivity].
  destruct (is_cumulative ft); cbn; [|reflexivity].
  apply local_loop_mask_length.
Qed.

(** The mask a rank sends: the slot of group [g] in the block of function
    [jj] is 1 when the function is cumulative and a row of the group is
    null. *)
Lemma local_pass_mask M rs fts : forall j outs cum mask jj g,
  Forall (fun x => idx x = miss_idx \/ 0 <= idx x < M) rs ->
  length outs = length fts ->
  0 <= g < M ->
  (Z.to_nat (g + M * Z.of_nat jj) < length mask)%nat ->
  mget (local_pass false M rs j fts outs cum mask).2
       (Z.to_nat (g + M * Z.of_nat jj))
  = if match fts !! (jj - j)%nat with
       | Some ft => bool_decide (j <= jj)%nat && is_cumulative ft
                    && saw_null g rs
       | None => false
       end
    then 1 else mget mask (Z.to_nat (g + M * Z.of_nat jj)).
Proof.
  intros j outs cum mask jj g Hwf. revert j outs cum mask.
  induction fts as [|ft fts IH]; intros j outs cum mask Hlen Hg Hp; cbn.
  - rewrite lookup_nil. reflexivity.
  - destruct outs as [|w outs]; [discriminate|]. cbn in Hlen.
    match goal with |- context [local_pass false M rs (S j) fts outs ?c ?m] =>
      specialize (IH (S j) outs c m ltac:(lia) Hg);
      pose proof (local_pass_lengths false M rs fts (S j) outs c m eq_refl)
        as [Hl _];
      destruct (local_pass false M rs (S j) fts outs c m) as [[o c'] m']
    end.
    cbn [snd] in *.
    assert (Hml : length (cumulative_mask
              (if is_cumulative ft
               then local_loop false ft (M * Z.of_nat j) 0 rs
                      (mk_pass cum mask w)
               else mk_pass cum mask w)) = length mask).
    { destruct (is_cumulative ft); [|reflexivity].
      apply local_loop_mask_length. }
    rewrite IH by (rewrite Hml; exact Hp). clear IH.
    assert (Hst : mget (cumulative_mask
              (if is_cumulative ft
               then local_loop false ft (M * Z.of_nat j) 0 rs
                      (mk_pass cum mask w)
               else mk_pass cum mask w)) (Z.to_nat (g + M * Z.of_nat jj))
            = if is_cumulative ft && bool_decide (j = jj) && saw_null g rs
              then 1 else mget mask (Z.to_nat (g + M * Z.of_nat jj))).
    { destruct (is_cumulative ft); cbn; [|reflexivity].
      rewrite local_loop_mask by exact Hp.
      rewrite (null_hits_block M rs j jj g Hwf Hg).
      destruct (decide (j = jj)) as [He|He].
      - now rewrite bool_decide_eq_true_2.
      - now rewrite bool_decide_eq_false_2. }
    rewrite Hst. clear Hst.
    destruct (decide (jj = j)) as [->|Hne].
    + rewrite Nat.sub_diag. cbn [lookup list_lookup].
      replace (j - S j)%nat with 0%nat by lia.
      rewrite (bool_decide_eq_true_2 (j = j)) by reflexivity.
      rewrite (bool_decide_eq_true_2 (j <= j)%nat) by lia.
      rewrite andb_true_r. cbn [andb].
      destruct fts as [|ft' fts']; cbn.
      * reflexivity.
      * rewrite (bool_decide_eq_false_2 (S j <= j)%nat) by lia. reflexivity.
    + rewrite (bool_decide_eq_false_2 (j = jj)) by congruence.
      rewrite andb_false_r. cbn [andb].
      destruct (decide (j <= jj)%nat) as [Hle|Hgt].
      * replace (jj - j)%nat with (S (jj - S j)) by lia. cbn.
        destruct (fts !! (jj - S j)%nat); [|reflexivity].
        rewrite (bool_decide_eq_true_2 (S j <= jj)%nat) by lia.
        rewrite (bool_decide_eq_true_2 (j <= jj)%nat) by lia. reflexivity.
      * replace (jj - S j)%nat with 0%nat by lia.
        replace (jj - j)%nat with 0%nat by lia. cbn.
        rewrite (bool_decide_eq_false_2 (j <= jj)%nat) by lia. cbn.
        destruct fts as [|ft' fts']; cbn; [reflexivity|].
        rewrite (bool_decide_eq_false_2 (S j <= jj)%nat) by lia. reflexivity.
Qed.

Lemma local_pass_out sk M rs fts : forall j outs cum mask k ft w,
  Forall (fun x => idx x = miss_idx \/ 0 <= idx x < M) rs ->
  length outs = length fts ->
  fts !! k = Some ft -> outs !! k = Some w ->
  exists cum_k mask_k,
    (local_pass sk M rs j fts outs cum mask).1.1 !! k
    = Some (if is_cumulative ft
            then work (local_loop sk ft (M * Z.of_nat (j + k)) 0 rs
                         (mk_pass cum_k mask_k w))
            else w)
    /\ (sk = false ->
        length mask_k = length mask
        /\ forall g, 0 <= g < M ->
             (Z.to_nat (g + M * Z.of_nat (j + k)) < length mask)%nat ->
             mget mask_k (Z.to_nat (g + M * Z.of_nat (j + k)))
             = mget mask (Z.to_nat (g + M * Z.of_nat (j + k)))).
Proof.
  induction fts as [|f fts IH]; intros j outs cum mask k ft w Hwf Hlen Hf Hw.
  { now rewrite lookup_nil in Hf. }
  destruct outs as [|w0 outs]; [discriminate|]. cbn in Hlen.
  cbn [Exscan.local_pass].
  set (st := if is_cumulative f
             then local_loop sk f (M * Z.of_nat j) 0 rs (mk_pass cum mask w0)
             else mk_pass cum mask w0).
  destruct k as [|k].
  - cbn in Hf, Hw. injection Hf as ->. injection Hw as ->.
    exists cum, mask.
    destruct (local_pass sk M rs (S j) fts outs _ _) as [[o c'] m'].
    cbn. rewrite Nat.add_0_r. subst st.
    split; [now destruct (is_cumulative ft)|auto].
  - cbn in Hf, Hw.
    destruct (IH (S j) outs (cumulative st) (cumulative_mask st) k ft w Hwf
                ltac:(lia) Hf Hw) as (ck & mk & Hout & Hfr).
    exists ck, mk.
    destruct (local_pass sk M rs (S j) fts outs _ _) as [[o c'] m'].
    cbn in *. replace (j + S k)%nat with (S (j + k)) by lia.
    split; [exact Hout|].
    intros ->. destruct (Hfr eq_refl) as [Hl Hg]. clear Hfr.
    assert (Hml : length (cumulative_mask st) = length mask).
    { subst st. destruct (is_cumulative f); [|reflexivity].
      apply local_loop_mask_length. }
    split; [congruence|].
    intros g Hgr Hp. rewrite Hg by (rewrite ?Hml; assumption).
    subst st. destruct (is_cumulative f); [|reflexivity].
    rewrite local_loop_mask by exact Hp.
    rewrite (null_hits_block M rs j (S (j + k)) g Hwf Hgr).
    rewrite decide_False by lia. reflexivity.
Qed.

(** *** The exclusive scan of the masks *)

Lemma fold_zip_max_slot (p : nat) (rest : list (list Z)) : forall acc v,
  acc !! p = Some v -> (v = 0 \/ v = 1) ->
  (forall s, s ∈ rest -> exists u, s !! p = Some u /\ (u = 0 \/ u = 1)) ->
  fold_left (zip_with Z.max) rest acc !! p
  = Some (if bool_decide (v = 1)
             || existsb (fun s => bool_decide (mget s p = 1)) rest
          then 1 else 0).
Proof.
  induction rest as [|s rest IH]; intros acc v Hacc Hv Hrest; cbn.
  - rewrite orb_false_r, Hacc. f_equal.
    destruct Hv as [-> | ->]; reflexivity.
  - destruct (Hrest s ltac:(left)) as (u & Hs & Hu).
    rewrite (IH (zip_with Z.max acc s) (Z.max v u)).
    + rewrite Hs. cbn. f_equal.
      destruct Hv as [-> | ->], Hu as [-> | ->]; reflexivity.
    + rewrite lookup_zip_with, Hacc, Hs. reflexivity.
    + destruct Hv as [-> | ->], Hu as [-> | ->]; cbn; auto.
    + intros s' Hs'. apply Hrest. now right.
Qed.

(** The receive buffer of the mask scan: a slot is 1 when the mask of a
    lower rank has it at 1. *)
Lemma MPI_Exscan_max_slot (sends : list (list Z)) (r L p : nat) :
  (p < L)%nat ->
  (forall s, s ∈ take r sends ->
             exists u, s !! p = Some u /\ (u = 0 \/ u = 1)) ->
  mget (MPI_Exscan Z.max sends r (replicate L 0)) p
  = if existsb (fun s => bool_decide (mget s p = 1)) (take r sends)
    then 1 else 0.
Proof.
  intros Hp Hs. unfold MPI_Exscan.
  destruct (take r sends) as [|s0 rest].
  - cbn. now rewrite lookup_replicate_2.
  - destruct (Hs s0 ltac:(left)) as (u & Hs0 & Hu).
    rewrite (fold_zip_max_slot p rest s0 u Hs0 Hu).
    + cbn. rewrite Hs0. cbn. now destruct (_ || _).
    + intros s' Hs'. apply Hs. now right.
Qed.

(** *** The last loop *)

Lemma final_step_bits_length sk ft off cr mr w i r :
  length (w_bits (final_step sk ft off cr mr w i r)) = length (w_bits w).
Proof.
  unfold Exscan.final_step.
  repeat (case_decide || case_match); cbn; now rewrite ?length_insert.
Qed.

Lemma final_step_bits_other sk ft off cr mr w i r k :
  k <> i ->
  w_bits (final_step sk ft off cr mr w i r) !! k = w_bits w !! k.
Proof.
  intros Hne. unfold Exscan.final_step.
  repeat (case_decide || case_match); cbn;
    now rewrite ?list_lookup_insert_ne by congruence.
Qed.

Lemma final_step_bit sk ft off cr mr w i r b :
  w_bits w !! i = Some b ->
  idx r <> miss_idx ->
  w_bits (final_step sk ft off cr mr w i r) !! i
  = Some (b && negb (negb sk
                     && bool_decide (mget mr (Z.to_nat (idx r + off)) = 1))).
Proof.
  intros Hb Hi. unfold Exscan.final_step.
  rewrite decide_True by assumption.
  destruct (negb sk && bool_decide _); cbn.
  - rewrite list_lookup_insert_eq by (eapply lookup_lt_Some; eassumption).
    now rewrite andb_false_r.
  - now rewrite andb_true_r.
Qed.

Lemma final_loop_bits_outside sk ft off cr mr rs : forall i w k,
  (k < i \/ i + length rs <= k)%nat ->
  w_bits (final_loop sk ft off cr mr i rs w) !! k = w_bits w !! k.
Proof.
  induction rs as [|r rs IH]; intros i w k Hk; cbn; [reflexivity|].
  cbn in Hk. rewrite IH by lia. apply final_step_bits_other. lia.
Qed.

Lemma final_loop_app sk ft off cr mr i rs1 rs2 w :
  final_loop sk ft off cr mr i (rs1 ++ rs2) w
  = final_loop sk ft off cr mr (i + length rs1) rs2
      (final_loop sk ft off cr mr i rs1 w).
Proof.
  revert i w. induction rs1 as [|r rs1 IH]; intros i w; cbn.
  - now rewrite Nat.add_0_r.
  - rewrite IH. f_equal. lia.
Qed.

Lemma final_loop_bit sk ft off cr mr pre r post w b :
  w_bits w !! length pre = Some b ->
  idx r <> miss_idx ->
  w_bits (final_loop sk ft off cr mr 0 (pre ++ r :: post) w) !! length pre
  = Some (b && negb (negb sk
                     && bool_decide (mget mr (Z.to_nat (idx r + off)) = 1))).
Proof.
  intros Hb Hi. rewrite final_loop_app. cbn [Exscan.final_loop Nat.add].
  rewrite final_loop_bits_outside by lia.
  apply final_step_bit; [|assumption].
  rewrite final_loop_bits_outside by lia. exact Hb.
Qed.

Lemma final_pass_out sk M rs cr mr fts : forall j outs k ft w,
  fts !! k = Some ft -> outs !! k = Some w ->
  final_pass sk M rs cr mr j fts outs !! k
  = Some (if is_cumulative ft
          then final_loop sk ft (M * Z.of_nat (j + k)) cr mr 0 rs w
          else w).
Proof.
  induction fts as [|f fts IH]; intros j outs k ft w Hf Hw.
  { now rewrite lookup_nil in Hf. }
  destruct outs as [|w0 outs]; [now rewrite lookup_nil in Hw|].
  destruct k as [|k]; cbn [Exscan.final_pass]; cbn in Hf, Hw.
  - injection Hf as ->. injection Hw as ->. now rewrite Nat.add_0_r.
  - change ((?x :: ?l) !! S k) with (l !! k).
    rewrite (IH (S j) outs k ft w Hf Hw).
    now replace (j + S k)%nat with (S (j + k)) by lia.
Qed.
End ExscanNullFacts.

Section ExscanNullMain.
Import Exscan.
Local Open Scope Z_scope.
Context {T : Type}.
Variable T_zero : T.
Variable T_value_init : Bodo_FTypes -> T.
Variable oper : Bodo_FTypes -> T -> T -> T.
Local Abbreviation mget m p := (default 0 (m !! p)).

(** The null bit a rank computes locally for row [i] of function [k]. *)
Lemma local_result_bit sk (M : Z) (fts : list Bodo_FTypes)
      (p : @rank_input T) (k i : nat) (ft : Bodo_FTypes) (x : @row T) :
  wf_rank M (length fts) p ->
  fts !! k = Some ft -> is_cumulative ft = true ->
  rows p !! i = Some x -> idx x <> miss_idx ->
  exists w,
    (local_result T_zero T_value_init oper sk M fts p).1.1 !! k = Some w
    /\ w_bits w !! i
       = Some (if sk then bit x
               else bit x && negb (saw_null (idx x) (take i (rows p)))).
Proof.
  intros (Hrows & Hlen & Hbits) Hf Hc Hx Hi.
  assert (Hk : (k < length fts)%nat) by (eapply lookup_lt_Some; eassumption).
  destruct (lookup_lt_is_Some_2 (out_arrs p) k ltac:(lia)) as [w0 Hw0].
  assert (Hw0l : length (w_bits w0) = length (rows p)).
  { eapply (Forall_lookup_1 _ _ _ _ Hbits Hw0). }
  assert (Hil : (i < length (rows p))%nat)
    by (eapply lookup_lt_Some; eassumption).
  assert (Hg : 0 <= idx x < M).
  { destruct (Forall_lookup_1 _ _ _ _ Hrows Hx); [contradiction|assumption]. }
  unfold local_result.
  destruct (local_pass_out T_zero oper sk M (rows p) fts 0 (out_arrs p)
              (init_cumulative T_value_init M fts)
              (if sk then []
               else replicate (Z.to_nat (M * Z.of_nat (length fts))) 0)
              k ft w0 Hrows Hlen Hf Hw0) as (ck & mk & Hout & Hfr).
  rewrite Hc in Hout. cbn [Nat.add] in *.
  eexists. split; [exact Hout|].
  pose proof (take_drop_middle (rows p) i x Hx) as Hsplit.
  assert (Hpre : length (take i (rows p)) = i)
    by (rewrite length_take; lia).
  rewrite <- Hsplit at 1. rewrite <- Hpre at 1.
  rewrite local_loop_bit by (cbn; rewrite Hpre; lia).
  f_equal. unfold local_bit. rewrite decide_False by assumption.
  destruct sk; [reflexivity|]. f_equal. f_equal.
  destruct (Hfr eq_refl) as [Hml Hframe].
  assert (Hpos : (Z.to_nat (idx x + M * Z.of_nat k)
                  < Z.to_nat (M * Z.of_nat (length fts)))%nat) by nia.
  rewrite local_loop_mask by (cbn; rewrite Hml, length_replicate; exact Hpos).
  cbn [cumulative_mask].
  rewrite (null_hits_block M (take i (rows p)) k k (idx x)).
  - rewrite decide_True by reflexivity.
    rewrite Hframe by (rewrite ?length_replicate; assumption).
    rewrite lookup_replicate_2 by exact Hpos.
    cbn. now destruct (saw_null _ _).
  - apply Forall_take. exact Hrows.
  - exact Hg.
Qed.

(** The mask slot of group [g], function [k], that a rank sends. *)
Lemma local_result_mask (M : Z) (fts : list Bodo_FTypes)
      (p : @rank_input T) (k : nat) (ft : Bodo_FTypes) (g : Z) :
  wf_rank M (length fts) p ->
  fts !! k = Some ft -> is_cumulative ft = true ->
  0 <= g < M ->
  (local_result T_zero T_value_init oper false M fts p).2
    !! Z.to_nat (g + M * Z.of_nat k)
  = Some (if saw_null g (rows p) then 1 else 0).
Proof.
  intros (Hrows & Hlen & Hbits) Hf Hc Hg.
  assert (Hk : (k < length fts)%nat) by (eapply lookup_lt_Some; eassumption).
  assert (Hpos : (Z.to_nat (g + M * Z.of_nat k)
                  < Z.to_nat (M * Z.of_nat (length fts)))%nat) by nia.
  unfold local_result.
  pose proof (local_pass_mask T_zero oper M (rows p) fts 0 (out_arrs p)
                (init_cumulative T_value_init M fts)
                (replicate (Z.to_nat (M * Z.of_nat (length fts))) 0)
                k g Hrows Hlen Hg ltac:(rewrite length_replicate; exact Hpos)) as Hm.
  rewrite Nat.sub_0_r, Hf, Hc in Hm.
  rewrite bool_decide_eq_true_2 in Hm by lia. cbn [andb] in Hm.
  rewrite lookup_replicate_2 in Hm by exact Hpos.
  destruct (local_pass_lengths T_zero oper false M (rows p) fts 0 (out_arrs p)
              (init_cumulative T_value_init M fts)
              (replicate (Z.to_nat (M * Z.of_nat (length fts))) 0) eq_refl)
    as [Hl _].
  destruct (lookup_lt_is_Some_2 _ _ ltac:(rewrite Hl, length_replicate; exact Hpos)) as [v Hv].
  rewrite Hv in *. cbn in Hm. now rewrite Hm.
Qed.
End ExscanNullMain.

Lemma existsb_fmap_ext {A B C : Type} (P : B -> bool) (Q : C -> bool)
      (f : A -> B) (g : A -> C) (l : list A) :
  (forall a, a ∈ l -> P (f a) = Q (g a)) ->
  existsb P (f <$> l) = existsb Q (g <$> l).
Proof.
  induction l as [|a l IH]; intros H; cbn; [reflexivity|].
  rewrite (H a) by left. rewrite IH; [reflexivity|].
  intros b Hb. apply H. now right.
Qed.

(** C6: in the nullable exscan path run in parallel by all ranks, for a row
    of a group (not the missing group) and a cumulative function:
    - the receive buffer of the exclusive scan with MPI_MAX over the
      saw-a-null masks has the slot of the row's (group, function) pair at 1
      exactly when a lower rank has a null row of that group;
    - with nulls not skipped, the output null bit of the row is set only if
      the row is valid, no earlier local row of the group is null and no
      lower rank has a null row of the group: every row downstream of a null
      is marked null;
    - with nulls skipped, the output null bit is the input null bit, and a
      null row leaves the running values as they are. *)
Theorem exscan_nullable_null_propagation {T : Type} (T_zero : T)
    (T_value_init : Bodo_FTypes -> T) (oper : Bodo_FTypes -> T -> T -> T)
    (max_row_idx : Z) (fts : list Bodo_FTypes)
    (ranks : list (@Exscan.rank_input T)) (r k i : nat)
    (p : @Exscan.rank_input T) (ft : Bodo_FTypes) (x : @Exscan.row T) :
  Forall (Exscan.wf_rank max_row_idx (length fts)) ranks ->
  ranks !! r = Some p ->
  fts !! k = Some ft -> Exscan.is_cumulative ft = true ->
  Exscan.rows p !! i = Some x -> Exscan.idx x <> Exscan.miss_idx ->
  let off := (max_row_idx * Z.of_nat k)%Z in
  let pos := Z.to_nat (Exscan.idx x + off) in
  let lower : list (list Exscan.row) := Exscan.rows <$> take r ranks in
  let masks : list (list Z) :=
    (fun q => (Exscan.local_result T_zero T_value_init oper false
                 max_row_idx fts q).2) <$> ranks in
  let out_bit (skipdropna : bool) : option bool :=
    match Exscan.mpi_exscan_computation_nullable_T T_zero T_value_init oper
            max_row_idx fts true skipdropna ranks !! r with
    | Some outs =>
        match outs !! k with
        | Some w => Exscan.w_bits w !! i
        | None => None
        end
    | None => None
    end in
  default 0%Z
    (Exscan.MPI_Exscan Z.max masks r
       (replicate (Z.to_nat (max_row_idx * Z.of_nat (length fts))) 0%Z)
     !! pos)
  = (if existsb (Exscan.saw_null (Exscan.idx x)) lower then 1 else 0)%Z
  /\ out_bit false
     = Some (Exscan.bit x
             && negb (Exscan.saw_null (Exscan.idx x) (take i (Exscan.rows p)))
             && negb (existsb (Exscan.saw_null (Exscan.idx x)) lower))
  /\ out_bit true = Some (Exscan.bit x)
  /\ (Exscan.bit x = false ->
      forall st,
        Exscan.cumulative (Exscan.local_step T_zero oper true ft off st i x)
        = Exscan.cumulative st).
Proof.
  intros Hwf Hr Hf Hc Hx Hi off pos lower masks out_bit.
  pose proof (Forall_lookup_1 _ _ _ _ Hwf Hr) as Hp.
  assert (Hg : (0 <= Exscan.idx x < max_row_idx)%Z).
  { destruct Hp as (Hrows & _).
    destruct (Forall_lookup_1 _ _ _ _ Hrows Hx); [contradiction|assumption]. }
  assert (Hk : (k < length fts)%nat) by (eapply lookup_lt_Some; eassumption).
  assert (Hpos : (pos < Z.to_nat (max_row_idx * Z.of_nat (length fts)))%nat)
    by (subst pos off; nia).
  assert (Hscan :
    default 0%Z
      (Exscan.MPI_Exscan Z.max masks r
         (replicate (Z.to_nat (max_row_idx * Z.of_nat (length fts))) 0%Z)
       !! pos)
    = (if existsb (Exscan.saw_null (Exscan.idx x)) lower then 1 else 0)%Z).
  { rewrite MPI_Exscan_max_slot; [|exact Hpos|].
    - subst masks lower. rewrite <- fmap_take.
      erewrite existsb_fmap_ext; [reflexivity|].
      intros q Hq. cbn beta.
      assert (Hwq : Exscan.wf_rank max_row_idx (length fts) q).
      { apply elem_of_take in Hq as (n & Hn & _).
        exact (Forall_lookup_1 _ _ _ _ Hwf Hn). }
      subst pos off.
      rewrite (local_result_mask T_zero T_value_init oper max_row_idx fts q k
                 ft (Exscan.idx x) Hwq Hf Hc Hg).
      cbn. now destruct (Exscan.saw_null _ _).
    - intros s Hs. subst masks. rewrite <- fmap_take in Hs.
      apply list_elem_of_fmap in Hs as (q & -> & Hq).
      assert (Hwq : Exscan.wf_rank max_row_idx (length fts) q).
      { apply elem_of_take in Hq as (n & Hn & _).
        exact (Forall_lookup_1 _ _ _ _ Hwf Hn). }
      subst pos off.
      rewrite (local_result_mask T_zero T_value_init oper max_row_idx fts q k
                 ft (Exscan.idx x) Hwq Hf Hc Hg).
      eexists. split; [reflexivity|].
      destruct (Exscan.saw_null _ _); auto. }
  assert (Hout : forall sk,
    out_bit sk
    = Some ((if sk then Exscan.bit x
             else Exscan.bit x
                  && negb (Exscan.saw_null (Exscan.idx x)
                             (take i (Exscan.rows p))))
            && negb (negb sk
                     && bool_decide
                          (default 0%Z
                             ((if sk then []
                               else Exscan.MPI_Exscan Z.max
                                      ((fun q => (Exscan.local_result T_zero
                                          T_value_init oper sk max_row_idx
                                          fts q).2) <$> ranks) r
                                      (replicate
                                         (Z.to_nat (max_row_idx
                                                    * Z.of_nat (length fts)))
                                         0%Z)) !! pos) = 1%Z)))).
  { intros sk. subst out_bit. cbv beta.
    unfold Exscan.mpi_exscan_computation_nullable_T. cbn [negb].
    rewrite list_lookup_imap, list_lookup_fmap, Hr. cbn [fmap option_fmap option_map].
    destruct (local_result_bit T_zero T_value_init oper sk max_row_idx fts p
                k i ft x Hp Hf Hc Hx Hi) as (w & Hw & Hwb).
    destruct (Exscan.local_result T_zero T_value_init oper sk max_row_idx fts p)
      as [[outs c] m] eqn:Hloc.
    cbn [fst] in Hw. cbn [default].
    rewrite (final_pass_out T_zero oper sk max_row_idx (Exscan.rows p) _ _ fts
               0 outs k ft w Hf Hw).
    rewrite Hc. cbn [Nat.add].
    pose proof (take_drop_middle (Exscan.rows p) i x Hx) as Hsplit.
    assert (Hpre : length (take i (Exscan.rows p)) = i).
    { rewrite length_take.
      pose proof (lookup_lt_Some _ _ _ Hx). lia. }
    match goal with
    | |- Exscan.w_bits (Exscan.final_loop _ _ _ _ _ ?cr ?mr _ _ _) !! _ = _ =>
        pose proof (final_loop_bit T_zero oper sk ft
                      (max_row_idx * Z.of_nat k)%Z cr mr
                      (take i (Exscan.rows p)) x (drop (S i) (Exscan.rows p))
                      w _ ltac:(rewrite Hpre; exact Hwb) Hi) as Hfin
    end.
    rewrite Hsplit, Hpre in Hfin. rewrite Hfin.
    rewrite <- list_fmap_compose. reflexivity. }
  split_and!.
  - exact Hscan.
  - rewrite (Hout false). cbn [negb andb]. f_equal.
    fold masks. rewrite Hscan.
    destruct (existsb _ lower); cbn; now rewrite ?andb_true_r, ?andb_false_r.
  - rewrite (Hout true). cbn. now rewrite andb_true_r.
  - intros Hb st.
    apply (local_step_skip_null T_zero oper ft off st i x Hb).
Qed.

Lemma exscan_nullable_null_propagation_witness :
  let ranks := [Exscan.example_rank0; Exscan.example_rank1] in
  let x := Exscan.mk_row 0%Z 3%Z true in
  let out_bit (skipdropna : bool) : option bool :=
    match Exscan.mpi_exscan_computation_nullable_T 0%Z
            Exscan.example_value_init Exscan.example_oper 2 [cumsum] true
            skipdropna ranks !! 1%nat with
    | Some outs =>
        match outs !! 0%nat with
        | Some w => Exscan.w_bits w !! 0%nat
        | None => None
        end
    | None => None
    end in
  out_bit false = Some false /\ out_bit true = Some true.
Proof.
  pose proof (exscan_nullable_null_propagation 0%Z Exscan.example_value_init
                Exscan.example_oper 2 [cumsum]
                [Exscan.example_rank0; Exscan.example_rank1] 1 0 0
                Exscan.example_rank1 cumsum (Exscan.mk_row 0%Z 3%Z true)) as H.
  destruct H as (_ & Hns & Hs & _).
  - repeat constructor; cbn; lia.
  - reflexivity.
  - reflexivity.
  - reflexivity.
  - reflexivity.
  - discriminate.
  - split; [exact Hns | exact Hs].
Defined.

(* --------------------------------------------------------------------- *)
(** ** Group ids of the streaming groupby                                 *)
(* --------------------------------------------------------------------- *)

Lemma find_fmap {A B : Type} (P : B -> bool) (f : A -> B) (l : list A) :
  find P (f <$> l) = f <$> find (fun a => P (f a)) l.
Proof.
  induction l as [|a l IH]; cbn; [reflexivity|].
  destruct (P (f a)); [reflexivity|exact IH].
Qed.

Lemma find_ext_in {A : Type} (P Q : A -> bool) (l : list A) :
  (forall a, a ∈ l -> P a = Q a) -> find P l = find Q l.
Proof.
  induction l as [|a l IH]; intros H; cbn; [reflexivity|].
  rewrite (H a) by left. destruct (Q a); [reflexivity|].
  apply IH. intros b Hb. apply H. now right.
Qed.

Lemma find_app {A : Type} (P : A -> bool) (l1 l2 : list A) :
  find P (l1 ++ l2)
  = match find P l1 with Some x => Some x | None => find P l2 end.
Proof.
  induction l1 as [|a l1 IH]; cbn; [reflexivity|].
  destruct (P a); [reflexivity|exact IH].
Qed.

Section GroupbyFacts.
Import StreamGroupby.
Local Open Scope Z_scope.
Variable hash : list cell -> Z.

Lemma TestEqualJoin_spec tA tB jA jB n :
  TestEqualJoin tA tB jA jB n
  = bool_decide (row_keys tA n jA = row_keys tB n jB).
Proof.
  unfold TestEqualJoin, row_keys. generalize (seq 0 n). intros l.
  induction l as [|c l IH]; cbn; [reflexivity|].
  rewrite IH.
  destruct (decide (cell_at tA c jA = cell_at tB c jB)) as [He|He].
  - rewrite (bool_decide_eq_true_2 _ He). cbn.
    apply bool_decide_ext. split; [congruence|].
    intros H. now injection H.
  - rewrite (bool_decide_eq_false_2 _ He). cbn.
    symmetry. apply bool_decide_eq_false_2. intros H. now injection H.
Qed.

Lemma side_set_side is_local st b :
  side is_local (set_side is_local st b) = b.
Proof. now destruct is_local. Qed.

Lemma side_set_side_other is_local st b :
  side (negb is_local) (set_side is_local st b) = side (negb is_local) st.
Proof. now destruct is_local. Qed.

Lemma set_side_fields is_local st b :
  n_keys (set_side is_local st b) = n_keys st
  /\ in_table (set_side is_local st b) = in_table st
  /\ in_table_hashes (set_side is_local st b) = in_table_hashes st
  /\ col_sets (set_side is_local st b) = col_sets st
  /\ parallel (set_side is_local st b) = parallel st.
Proof. now destruct is_local. Qed.

Lemma build_keys_length n b : length (build_keys n b) = Z.to_nat (next_group b).
Proof. unfold build_keys. now rewrite length_fmap, length_seq. Qed.

Lemma build_keys_lookup n b (g : nat) :
  (g < Z.to_nat (next_group b))%nat ->
  build_keys n b !! g = Some (row_keys (table_buffer b) n g).
Proof.
  intros Hg. unfold build_keys.
  rewrite list_lookup_fmap, lookup_seq_lt by exact Hg. reflexivity.
Qed.

(** The hash of a row of the batch, as the hash functor returns it. *)
Lemma hash_of_batch_row is_local st (i : nat) :
  batch_inv hash st -> (i < nrows (in_table st))%nat ->
  HashGroupbyTable is_local st (- Z.of_nat i - 1)
  = hash (row_keys (in_table st) (n_keys st) i).
Proof.
  intros Hb Hi. unfold HashGroupbyTable.
  destruct (Z.leb_spec 0 (- Z.of_nat i - 1)) as [H|_]; [lia|].
  replace (Z.to_nat (- (- Z.of_nat i - 1) - 1)) with i by lia.
  rewrite Hb. unfold hash_keys_table.
  rewrite list_lookup_fmap, lookup_seq_lt by exact Hi. reflexivity.
Qed.

(** The hash of a row of the build table. *)
Lemma hash_of_build_row is_local st (g : nat) :
  build_inv hash (n_keys st) (side is_local st) ->
  (g < Z.to_nat (next_group (side is_local st)))%nat ->
  HashGroupbyTable is_local st (Z.of_nat g)
  = hash (row_keys (table_buffer (side is_local st)) (n_keys st) g).
Proof.
  intros (_ & _ & _ & Hh & _) Hg. unfold HashGroupbyTable.
  destruct (Z.leb_spec 0 (Z.of_nat g)) as [_|H]; [|lia].
  rewrite Nat2Z.id, Hh, list_lookup_fmap, build_keys_lookup by exact Hg.
  reflexivity.
Qed.

(** A stored row matches a row of the batch when the two keys are equal. *)
Lemma key_matches_batch_row is_local st (i g : nat) :
  build_inv hash (n_keys st) (side is_local st) ->
  batch_inv hash st ->
  (i < nrows (in_table st))%nat ->
  (g < Z.to_nat (next_group (side is_local st)))%nat ->
  key_matches is_local st (- Z.of_nat i - 1) (Z.of_nat g)
  = bool_decide (row_keys (table_buffer (side is_local st)) (n_keys st) g
                 = row_keys (in_table st) (n_keys st) i).
Proof.
  intros Hinv Hb Hi Hg. unfold key_matches.
  rewrite hash_of_batch_row, hash_of_build_row by assumption.
  unfold KeyEqualGroupbyTable.
  destruct (Z.leb_spec 0 (Z.of_nat g)) as [_|H]; [|lia].
  destruct (Z.leb_spec 0 (- Z.of_nat i - 1)) as [H|_]; [lia|].
  rewrite Nat2Z.id.
  replace (Z.to_nat (- (- Z.of_nat i - 1) - 1)) with i by lia.
  rewrite TestEqualJoin_spec.
  destruct (decide (row_keys (table_buffer (side is_local st)) (n_keys st) g
                    = row_keys (in_table st) (n_keys st) i)) as [He|He].
  - rewrite (bool_decide_eq_true_2 _ He), He, Z.eqb_refl. reflexivity.
  - rewrite (bool_decide_eq_false_2 _ He). apply andb_false_r.
Qed.

(** The hash map finds for a row of the batch the group of its key. *)
Lemma map_find_batch_row is_local st (i : nat) :
  build_inv hash (n_keys st) (side is_local st) ->
  batch_inv hash st ->
  (i < nrows (in_table st))%nat ->
  map_find is_local st (- Z.of_nat i - 1)
  = find_group (n_keys st) (side is_local st)
      (row_keys (in_table st) (n_keys st) i).
Proof.
  intros Hinv Hb Hi. unfold map_find, find_group.
  destruct Hinv as (H0 & Hn & Hlen & Hh & Hbt).
  rewrite Hbt. unfold Zseq.
  rewrite <- list_fmap_compose, find_fmap.
  rewrite <- option_fmap_compose.
  erewrite find_ext_in; [reflexivity|].
  intros g Hg. cbn.
  apply elem_of_seq in Hg.
  apply key_matches_batch_row; try assumption; [|lia].
  repeat split; assumption.
Qed.

(** *** Appending a key row to the buffer *)

Lemma append_row_buffer (buf t : table_info) (i n N : nat) :
  (n <= length buf)%nat ->
  Forall (fun col => length col = N) (take n buf) ->
  let buf' := IncrementSizeDataColumns (AppendRowKeys buf t i n) n in
  (n <= length buf')%nat
  /\ Forall (fun col => length col = S N) (take n buf')
  /\ forall g, (g <= N)%nat ->
       row_keys buf' n g
       = if decide (g = N) then row_keys t n i else row_keys buf n g.
Proof.
  intros Hn Hlen buf'.
  assert (Hcol : forall c, (c < n)%nat ->
            exists col, buf !! c = Some col /\ length col = N
                        /\ buf' !! c = Some (col ++ [cell_at t c i])).
  { intros c Hc.
    destruct (lookup_lt_is_Some_2 buf c ltac:(lia)) as [col Hcol].
    exists col. split; [exact Hcol|]. split.
    - apply (Forall_lookup_1 _ _ c col Hlen).
      rewrite lookup_take_lt by exact Hc. exact Hcol.
    - subst buf'. unfold IncrementSizeDataColumns, AppendRowKeys.
      rewrite !list_lookup_imap, Hcol. cbn.
      rewrite !decide_True by exact Hc. reflexivity. }
  split_and!.
  - subst buf'. unfold IncrementSizeDataColumns, AppendRowKeys.
    now rewrite !length_imap.
  - apply Forall_lookup. intros c col' Hc'.
    apply lookup_take_Some in Hc' as [Hc' Hcn].
    destruct (Hcol c Hcn) as (col & _ & Hl & Hb).
    rewrite Hb in Hc'. injection Hc' as <-.
    rewrite length_app. cbn. lia.
  - intros g Hg. unfold row_keys.
    destruct (decide (g = N)) as [->|Hne];
      apply list_fmap_ext; intros k c Hk;
      apply lookup_seq in Hk as [-> Hk]; cbn in Hk |- *;
      destruct (Hcol k Hk) as (col & Hb & Hl & Hb').
    + unfold cell_at at 1. rewrite Hb'. cbn.
      rewrite lookup_app_r by lia. rewrite Hl, Nat.sub_diag. reflexivity.
    + unfold cell_at. rewrite Hb', Hb. cbn.
      rewrite lookup_app_l by lia. reflexivity.
Qed.

Lemma find_all_false {A : Type} (P : A -> bool) (l : list A) :
  (forall a, a ∈ l -> P a = false) -> find P l = None.
Proof.
  induction l as [|a l IH]; intros H; cbn; [reflexivity|].
  rewrite (H a) by left. apply IH. intros b Hb. apply H. now right.
Qed.

Lemma find_group_None n b k :
  find_group n b k = None ->
  forall g, (g < Z.to_nat (next_group b))%nat ->
            row_keys (table_buffer b) n g <> k.
Proof.
  unfold find_group. intros H g Hg He.
  destruct (find _ _) as [x|] eqn:Hf; [discriminate|].
  pose proof (find_none _ _ Hf g ltac:(apply in_seq; lia)) as Hn.
  cbn in Hn. rewrite bool_decide_eq_true_2 in Hn by exact He.
  discriminate.
Qed.

Lemma find_group_Some n b k g :
  find_group n b k = Some g ->
  0 <= g < next_group b
  /\ row_keys (table_buffer b) n (Z.to_nat g) = k.
Proof.
  unfold find_group. intros H.
  destruct (find _ _) as [x|] eqn:Hf; [|discriminate].
  injection H as <-. apply find_some in Hf as [Hin Hk].
  apply in_seq in Hin. apply bool_decide_eq_true_1 in Hk.
  rewrite Nat2Z.id. split; [lia|exact Hk].
Qed.

(** *** [update_groups] *)

(** A key the table holds: the state is left as it is and the row gets the
    stored group. *)
Lemma update_groups_found is_local st rtg (i : nat) g :
  build_inv hash (n_keys st) (side is_local st) ->
  batch_inv hash st ->
  (i < nrows (in_table st))%nat ->
  find_group (n_keys st) (side is_local st)
    (row_keys (in_table st) (n_keys st) i) = Some g ->
  update_groups is_local st rtg (in_table st) (in_table_hashes st) i
  = (st, <[i := g]> rtg).
Proof.
  intros Hinv Hb Hi Hf. unfold update_groups, map_contains.
  rewrite (map_find_batch_row is_local st i Hinv Hb Hi), Hf.
  rewrite bool_decide_eq_true_2 by eauto. reflexivity.
Qed.

Lemma with_new_key_inv n b t i :
  build_inv hash n b -> build_inv hash n (with_new_key hash n b t i).
Proof.
  intros (H0 & Hn & Hlen & Hh & Hbt).
  destruct (append_row_buffer (table_buffer b) t i n
              (Z.to_nat (next_group b)) Hn Hlen) as (Hn' & Hlen' & Hrows).
  unfold build_inv, with_new_key. cbn.
  replace (Z.to_nat (next_group b + 1)) with (S (Z.to_nat (next_group b)))
    by lia.
  split_and!; try assumption; try lia.
  - unfold build_keys. cbn.
    replace (Z.to_nat (next_group b + 1)) with (S (Z.to_nat (next_group b)))
      by lia.
    rewrite seq_S, !fmap_app. cbn. rewrite Hrows by lia.
    rewrite decide_True by reflexivity. f_equal.
    rewrite Hh. unfold build_keys. rewrite <- !list_fmap_compose.
    apply list_fmap_ext. intros k g Hk. cbn.
    apply lookup_seq in Hk as [-> Hk]. cbn.
    rewrite Hrows by lia. rewrite decide_False by lia. reflexivity.
  - rewrite Hbt.
    replace (next_group b + 1) with (Z.of_nat (S (Z.to_nat (next_group b))))
      by lia.
    unfold Zseq. rewrite !Nat2Z.id.
    rewrite seq_S, !fmap_app. cbn. rewrite Z2Nat.id by lia. reflexivity.
Qed.

Lemma with_new_key_find n b t i k :
  build_inv hash n b ->
  find_group n (with_new_key hash n b t i) k
  = match find_group n b k with
    | Some g => Some g
    | None => if decide (row_keys t n i = k) then Some (next_group b)
              else None
    end.
Proof.
  intros (H0 & Hn & Hlen & Hh & Hbt).
  destruct (append_row_buffer (table_buffer b) t i n
              (Z.to_nat (next_group b)) Hn Hlen) as (Hn' & Hlen' & Hrows).
  unfold find_group, with_new_key. cbn.
  replace (Z.to_nat (next_group b + 1)) with (S (Z.to_nat (next_group b)))
    by lia.
  rewrite seq_S, find_app. cbn.
  rewrite (find_ext_in _
             (fun g => bool_decide (row_keys (table_buffer b) n g = k))).
  2:{ intros g Hg. apply elem_of_seq in Hg.
      rewrite Hrows by lia. rewrite decide_False by lia. reflexivity. }
  destruct (find _ _) as [g|]; [reflexivity|].
  rewrite Hrows by lia. rewrite decide_True by reflexivity.
  destruct (decide (row_keys t n i = k)) as [He|He].
  - rewrite bool_decide_eq_true_2 by exact He. cbn. f_equal. lia.
  - rewrite bool_decide_eq_false_2 by exact He. reflexivity.
Qed.

Lemma set_side_set_side is_local st b1 b2 :
  set_side is_local (set_side is_local st b1) b2 = set_side is_local st b2.
Proof. now destruct is_local. Qed.

(** A key the table does not hold: the key row is appended, the row gets
    the id [next_group], and [next_group] moves on by one. *)
Lemma update_groups_new is_local st rtg (i : nat) :
  build_inv hash (n_keys st) (side is_local st) ->
  batch_inv hash st ->
  (i < nrows (in_table st))%nat ->
  find_group (n_keys st) (side is_local st)
    (row_keys (in_table st) (n_keys st) i) = None ->
  update_groups is_local st rtg (in_table st) (in_table_hashes st) i
  = (set_side is_local st
       (with_new_key hash (n_keys st) (side is_local st) (in_table st) i),
     <[i := next_group (side is_local st)]> rtg).
Proof.
  intros Hinv Hb Hi Hf. unfold update_groups, map_contains at 1.
  rewrite (map_find_batch_row is_local st i Hinv Hb Hi), Hf.
  rewrite bool_decide_eq_false_2 by (intros [? ?]; discriminate).
  set (b := side is_local st) in *.
  assert (Hh : default 0 (in_table_hashes st !! i)
               = hash (row_keys (in_table st) (n_keys st) i)).
  { rewrite Hb. unfold hash_keys_table.
    rewrite list_lookup_fmap, lookup_seq_lt by exact Hi. reflexivity. }
  rewrite Hh.
  set (buf' := IncrementSizeDataColumns _ _).
  set (hs' := groupby_hashes b ++ _).
  set (st1 := set_side is_local st (mk_build buf' hs' (next_group b + 1)
                                             (build_table b))).
  pose proof (set_side_set_side is_local st
                (mk_build buf' hs' (next_group b + 1) (build_table b)))
    as Hss.
  fold st1 in Hss. rewrite Hss. clear Hss. f_equal. f_equal.
  unfold with_new_key. fold buf' hs'. f_equal.
  (* the assignment [build_table[group] = group] adds an entry *)
  unfold map_assign.
  assert (Hside : side is_local st1
                  = mk_build buf' hs' (next_group b + 1) (build_table b))
    by apply side_set_side.
  assert (Hnk : n_keys st1 = n_keys st) by apply set_side_fields.
  assert (Hnc : map_contains is_local st1 (next_group b) = false).
  { unfold map_contains. apply bool_decide_eq_false_2. intros [v Hv].
    unfold map_find in Hv. rewrite Hside in Hv. cbn in Hv.
    rewrite find_all_false in Hv; [discriminate|].
    intros [e v'] He. cbn.
    destruct Hinv as (H0 & Hn & Hlen & Hhs & Hbt).
    rewrite Hbt in He. apply list_elem_of_fmap in He as (g & Heq & Hg).
    injection Heq as -> ->.
    unfold Zseq in Hg. apply list_elem_of_fmap in Hg as (m & -> & Hm).
    apply elem_of_seq in Hm.
    unfold key_matches. apply andb_false_intro2.
    unfold KeyEqualGroupbyTable. rewrite Hside, Hnk. cbn.
    destruct (Z.leb_spec 0 (Z.of_nat m)) as [_|H]; [|lia].
    destruct (Z.leb_spec 0 (next_group b)) as [_|H]; [|lia].
    rewrite TestEqualJoin_spec. apply bool_decide_eq_false_2.
    destruct (append_row_buffer (table_buffer b) (in_table st) i (n_keys st)
                (Z.to_nat (next_group b)) Hn Hlen) as (_ & _ & Hrows).
    fold buf' in Hrows.
    rewrite !Hrows by lia. rewrite Nat2Z.id.
    rewrite decide_False by lia. rewrite decide_True by reflexivity.
    apply (find_group_None _ _ _ Hf). lia. }
  rewrite Hnc, Hside. reflexivity.
Qed.

(** Both cases at once. *)
Lemma update_groups_spec is_local st rtg (i : nat) :
  build_inv hash (n_keys st) (side is_local st) ->
  batch_inv hash st ->
  (i < nrows (in_table st))%nat ->
  update_groups is_local st rtg (in_table st) (in_table_hashes st) i
  = match find_group (n_keys st) (side is_local st)
            (row_keys (in_table st) (n_keys st) i) with
    | Some g => (st, <[i := g]> rtg)
    | None =>
        (set_side is_local st
           (with_new_key hash (n_keys st) (side is_local st) (in_table st) i),
         <[i := next_group (side is_local st)]> rtg)
    end.
Proof.
  intros Hinv Hb Hi.
  destruct (find_group _ _ _) as [g|] eqn:Hf.
  - now apply update_groups_found.
  - now apply update_groups_new.
Qed.
End GroupbyFacts.

Section GroupbyRuns.
Import StreamGroupby.
Local Open Scope Z_scope.
Variable hash : list cell -> Z.

Lemma init_inv n cs par is_local :
  build_inv hash n (side is_local (groupby_state_init n cs par))
  /\ batch_inv hash (groupby_state_init n cs par).
Proof.
  split.
  - destruct is_local; cbn; unfold build_inv, empty_build; cbn;
      (split_and!; [lia | rewrite length_replicate; lia
                   | apply Forall_take, Forall_replicate; reflexivity
                   | reflexivity | reflexivity]).
  - reflexivity.
Qed.

Lemma with_batch_inv is_local st t :
  build_inv hash (n_keys st) (side is_local st) ->
  build_inv hash (n_keys (with_batch hash st t))
            (side is_local (with_batch hash st t))
  /\ batch_inv hash (with_batch hash st t).
Proof.
  intros H. split; [now destruct is_local|reflexivity].
Qed.

Lemma update_groups_inv is_local st rtg (i : nat) :
  build_inv hash (n_keys st) (side is_local st) ->
  batch_inv hash st ->
  (i < nrows (in_table st))%nat ->
  let st' := (update_groups is_local st rtg (in_table st)
                (in_table_hashes st) i).1 in
  n_keys st' = n_keys st
  /\ build_inv hash (n_keys st') (side is_local st')
  /\ batch_inv hash st'
  /\ next_group (side is_local st) <= next_group (side is_local st')
  /\ forall k g, find_group (n_keys st) (side is_local st) k = Some g ->
                 find_group (n_keys st') (side is_local st') k = Some g.
Proof.
  intros Hinv Hb Hi. cbv zeta.
  rewrite (update_groups_spec hash is_local st rtg i Hinv Hb Hi).
  destruct (find_group _ _ _) as [g|] eqn:Hf; cbn [fst].
  - split_and!; try assumption; try reflexivity; try lia. auto.
  - destruct (set_side_fields is_local st
                (with_new_key hash (n_keys st) (side is_local st)
                              (in_table st) i)) as (Hn & Ht & Hh & _).
    rewrite Hn, side_set_side.
    split_and!.
    + reflexivity.
    + now apply with_new_key_inv.
    + unfold batch_inv. now rewrite Hn, Ht, Hh.
    + cbn. lia.
    + intros k g Hk. rewrite with_new_key_find by assumption.
      now rewrite Hk.
Qed.

Lemma run_op_inv is_local st o :
  build_inv hash (n_keys st) (side is_local st) ->
  batch_inv hash st ->
  let st' := run_op hash is_local st o in
  n_keys st' = n_keys st
  /\ build_inv hash (n_keys st') (side is_local st')
  /\ batch_inv hash st'
  /\ next_group (side is_local st) <= next_group (side is_local st')
  /\ forall k g, find_group (n_keys st) (side is_local st) k = Some g ->
                 find_group (n_keys st') (side is_local st') k = Some g.
Proof.
  intros Hinv Hb. destruct o as [t|i]; cbn [run_op].
  - destruct (with_batch_inv is_local st t Hinv) as [H1 H2].
    split_and!; try assumption; try reflexivity;
      try (now destruct is_local).
  - destruct (decide (i < nrows (in_table st))%nat) as [Hi|Hi].
    + now apply update_groups_inv.
    + split_and!; try assumption; try reflexivity; try lia. auto.
Qed.

Lemma run_ops_inv is_local ops : forall st,
  build_inv hash (n_keys st) (side is_local st) ->
  batch_inv hash st ->
  let st' := run_ops hash is_local st ops in
  n_keys st' = n_keys st
  /\ build_inv hash (n_keys st') (side is_local st')
  /\ batch_inv hash st'
  /\ next_group (side is_local st) <= next_group (side is_local st')
  /\ forall k g, find_group (n_keys st) (side is_local st) k = Some g ->
                 find_group (n_keys st') (side is_local st') k = Some g.
Proof.
  induction ops as [|o ops IH]; intros st Hinv Hb.
  - cbn. split_and!; try assumption; try reflexivity; try lia. auto.
  - change (run_ops hash is_local st (o :: ops))
      with (run_ops hash is_local (run_op hash is_local st o) ops).
    destruct (run_op_inv is_local st o Hinv Hb) as (Hn & Hi1 & Hb1 & Hle & Hf).
    destruct (IH _ Hi1 Hb1) as (Hn' & Hi2 & Hb2 & Hle' & Hf').
    cbv zeta in *.
    split_and!; try assumption.
    + congruence.
    + etransitivity; eassumption.
    + intros k g Hk. apply Hf', Hf, Hk.
Qed.

End GroupbyRuns.

(* --------------------------------------------------------------------- *)
(** ** One process consuming batches                                      *)
(* --------------------------------------------------------------------- *)
Section SingleProcess.
Import StreamGroupby.
Local Open Scope Z_scope.
Variable hash_groupby hash_partition : list cell -> Z.
Variable shuffle_this_iter : bool -> bool -> table_info -> Z -> bool.

(** When every row is routed to the local table, the loop over the rows
    of the batch is the loop that searches the keys in the buffer. *)
Lemma update_all_groups_local (route : nat -> bool) st t hs lg sg :
  in_table st = t -> in_table_hashes st = hs ->
  build_inv hash_groupby (n_keys st) (local_state st) ->
  batch_inv hash_groupby st ->
  (forall i, (i < nrows t)%nat -> route i = true) ->
  update_all_groups route st t hs lg sg
  = (let '(s, lg') := insert_rows_ref hash_groupby st lg in (s, lg', sg)).
Proof.
  intros Ht Hhs Hinv Hb Hroute.
  unfold update_all_groups, insert_rows_ref. rewrite Ht.
  assert (Hall : Forall (fun i => (i < nrows t)%nat) (seq 0 (nrows t))).
  { apply Forall_forall. intros i Hi. apply elem_of_seq in Hi. lia. }
  revert st lg sg Ht Hhs Hinv Hb Hall.
  generalize (seq 0 (nrows t)). intros rows.
  induction rows as [|i rows IH];
    intros st lg sg Ht Hhs Hinv Hb Hall; [reflexivity|].
  apply Forall_cons in Hall as [Hi Hall].
  cbn [fold_left]. rewrite (Hroute i Hi).
  subst t hs.
  pose proof (update_groups_spec hash_groupby true st lg i Hinv Hb Hi) as Hu.
  destruct (update_groups_inv hash_groupby true st lg i Hinv Hb Hi)
    as (Hn & Hinv' & Hb' & _ & _).
  rewrite Hu in *. unfold insert_row_ref at 2. cbn [side] in *.
  destruct (find_group _ _ _) as [g|]; cbn [fst] in *.
  - apply IH; auto.
  - apply IH; auto.
Qed.

Local Abbreviation consume :=
  (groupby_build_consume_batch hash_groupby hash_partition shuffle_this_iter).

(** The batch a state holds from the previous call plays no part in the
    next one. *)
Lemma consume_forgets_batch st b l :
  consume st b l = consume (set_batch st [] []) b l.
Proof. reflexivity. Qed.

(** On a group of one process every row belongs to the process. *)
Lemma route_single_process (par : bool) (h : Z) :
  negb par || bool_decide (hash_to_rank h 1 = 0) = true.
Proof.
  unfold hash_to_rank. rewrite Z.mod_1_r.
  rewrite bool_decide_eq_true_2 by reflexivity. apply orb_true_r.
Qed.

(** Runs one call of [groupby_build_consume_batch] on a state given in
    full: the loop over the rows through [update_all_groups_local], the
    rest by computation, in both outcomes of the shuffle heuristic. *)
Local Ltac run_consume :=
  unfold groupby_build_consume_batch;
  rewrite update_all_groups_local;
  [ match goal with
    | |- context [insert_rows_ref ?h ?s ?l] =>
        let r := fresh "r" in
        let Hr := fresh "Hr" in
        remember (insert_rows_ref h s l) as r eqn:Hr;
        vm_compute in Hr; subst r
    end;
    cbv beta iota zeta;
    destruct (shuffle_this_iter _ _ _ _); vm_compute; reflexivity
  | reflexivity
  | reflexivity
  | vm_compute; split_and!;
      try reflexivity; try discriminate; try lia; repeat constructor
  | reflexivity
  | intros ? _; apply route_single_process ].

Lemma scenario_one_batch (par : bool) :
  set_batch
    (consume (groupby_state_init 1 [sum_colset 1] par) example_batch true)
    [] []
  = state_with hash_groupby par [CStr "A"; CStr "B"] [CInt 4; CInt 2] 1.
Proof. run_consume. Qed.

Lemma scenario_first_of_three (par : bool) :
  set_batch
    (consume (groupby_state_init 1 [sum_colset 1] par) example_batch_1 false)
    [] []
  = state_with hash_groupby par [CStr "A"] [CInt 1] 1.
Proof. run_consume. Qed.

Lemma scenario_second_of_three (par : bool) :
  set_batch
    (consume (state_with hash_groupby par [CStr "A"] [CInt 1] 1) example_batch_2 false)
    [] []
  = state_with hash_groupby par [CStr "A"; CStr "B"] [CInt 1; CInt 2] 2.
Proof. run_consume. Qed.

Lemma scenario_third_of_three (par : bool) :
  set_batch
    (consume (state_with hash_groupby par [CStr "A"; CStr "B"] [CInt 1; CInt 2] 2)
             example_batch_3 true)
    [] []
  = state_with hash_groupby par [CStr "A"; CStr "B"] [CInt 4; CInt 2] 3.
Proof. run_consume. Qed.

Lemma produce_forgets_batch st :
  groupby_produce_output_batch st
  = groupby_produce_output_batch (set_batch st [] []).
Proof. reflexivity. Qed.
End SingleProcess.

(** C5: on one process, grouping the rows [(A,1), (B,2), (A,3)] by the first
    column with [sum] on the second gives the output table with the groups
    [A: 4] and [B: 2] and the last-batch flag, whether the rows come as one
    batch of three or as three batches of one, whatever the two hash
    functions and the shuffle heuristic are. *)
Theorem groupby_sum_scenario
    (hash_groupby hash_partition : list StreamGroupby.cell -> Z)
    (shuffle_this_iter :
       bool -> bool -> StreamGroupby.table_info -> Z -> bool)
    (parallel : bool) :
  let consume :=
    StreamGroupby.groupby_build_consume_batch hash_groupby hash_partition
      shuffle_this_iter in
  let init :=
    StreamGroupby.groupby_state_init 1 [StreamGroupby.sum_colset 1] parallel in
  let expected :=
    ([[StreamGroupby.CStr "A"; StreamGroupby.CStr "B"];
      [StreamGroupby.CInt 4; StreamGroupby.CInt 2]], true) in
  StreamGroupby.groupby_produce_output_batch
    (consume init StreamGroupby.example_batch true) = expected
  /\ StreamGroupby.groupby_produce_output_batch
       (consume
          (consume (consume init StreamGroupby.example_batch_1 false)
                   StreamGroupby.example_batch_2 false)
          StreamGroupby.example_batch_3 true) = expected.
Proof.
  intros consume init expected. subst consume init expected. split.
  - rewrite produce_forgets_batch, scenario_one_batch. reflexivity.
  - rewrite produce_forgets_batch.
    rewrite (consume_forgets_batch _ _ _
               (StreamGroupby.groupby_build_consume_batch _ _ _
                  (StreamGroupby.groupby_build_consume_batch _ _ _ _ _ _) _ _)).
    rewrite (consume_forgets_batch _ _ _
               (StreamGroupby.groupby_build_consume_batch _ _ _
                  (StreamGroupby.groupby_state_init _ _ _) _ _)).
    rewrite scenario_first_of_three, scenario_second_of_three,
      scenario_third_of_three.
    reflexivity.
Qed.

(** C10: [groupby_produce_output_batch] returns the whole buffer of the local
    build table as one batch with the last-batch flag [true], in every state
    and so in every state reached by consuming any batches, however many rows
    the buffer holds; a second call in the same state returns the same batch. *)
Theorem produce_returns_whole_local_table
    (hash_groupby hash_partition : list StreamGroupby.cell -> Z)
    (shuffle_this_iter :
       bool -> bool -> StreamGroupby.table_info -> Z -> bool)
    (st0 : StreamGroupby.GroupbyState)
    (batches : list (StreamGroupby.table_info * bool)) :
  let st :=
    fold_left
      (fun s (b : StreamGroupby.table_info * bool) =>
         StreamGroupby.groupby_build_consume_batch hash_groupby hash_partition
           shuffle_this_iter s b.1 b.2)
      batches st0 in
  StreamGroupby.groupby_produce_output_batch st
  = (StreamGroupby.table_buffer (StreamGroupby.local_state st), true)
  /\ StreamGroupby.nrows (StreamGroupby.groupby_produce_output_batch st).1
     = StreamGroupby.nrows
         (StreamGroupby.table_buffer (StreamGroupby.local_state st))
  /\ (StreamGroupby.groupby_produce_output_batch st).2 = true.
Proof.
  intros st. unfold StreamGroupby.groupby_produce_output_batch.
  split_and!; reflexivity.
Qed.

(* --------------------------------------------------------------------- *)
(** ** Termination of the join operator                                   *)
(* --------------------------------------------------------------------- *)
Section JoinFacts.
Import PhysicalJoin.
Variable R : Runtime.
Variable op : PhysicalJoin.

(** What each consume function of the runtime is known to leave when it
    answers [true]. *)
Variable Q : state R -> Prop.
Hypothesis Hnb : forall st b l st',
  nested_loop_join_build_consume_batch R st b l = (st', true) ->
  l = true /\ Q st'.
Hypothesis Hjb : forall st b bf l st',
  join_build_consume_batch R st b bf l = (st', true) -> l = true /\ Q st'.
Hypothesis Hnp : forall st b bk pk l st',
  nested_loop_join_probe_consume_batch R st b bk pk l = (st', true) ->
  l = true /\ Q st'.
Hypothesis Hjp : forall e1 e2 e3 e4 st b bk pk l st',
  join_probe_consume_batch R e1 e2 e3 e4 st b bk pk l = (st', true) ->
  l = true /\ Q st'.








End JoinFacts.

Section SpecRuntimeFacts.
Import PhysicalJoin.
Variable hash_to_rank : Z -> Z -> Z.
Variable shuffle_this_iter : bool -> list Z -> bool.
Variable probe_rows :
  bool -> bool -> bool -> bool -> list Z -> list Z -> list Z.
Variable nested_loop_rows : list Z -> list Z -> list Z.









End SpecRuntimeFacts.



(* --------------------------------------------------------------------- *)
(** ** The spill accounting of a [StorageManager]                         *)
(* --------------------------------------------------------------------- *)

(** In a run that interleaves [GetNewBlockID] and [UpdateSpilledBytes] the
    two counters do not disturb each other: the spilled bytes end at the start
    value plus the sum of the [diff]s, the block counter at the start value
    plus the number of ids handed out, both modulo [2^64]; one id is returned
    per [GetNewBlockID] call and the limit is left alone. *)
Theorem run_keeps_counters_apart (cs : list StorageManager.call)
    (m : StorageManager.t) :
  (0 <= StorageManager.curr_spilled_bytes m < 2 ^ 64)%Z ->
  (0 <= StorageManager.block_id_counter m < 2 ^ 64)%Z ->
  let m' := (StorageManager.run cs m).2 in
  StorageManager.curr_spilled_bytes m'
  = StorageManager.uint64
      (StorageManager.curr_spilled_bytes m + StorageManager.spilled_diffs cs)
  /\ StorageManager.block_id_counter m'
     = StorageManager.uint64
         (StorageManager.block_id_counter m
          + Z.of_nat (StorageManager.id_calls cs))
  /\ StorageManager.usable_size m' = StorageManager.usable_size m
  /\ length (StorageManager.run cs m).1 = StorageManager.id_calls cs.
Proof.
  revert m. induction cs as [|c cs IH]; intros m Hs Hb; cbn zeta.
  - cbn. unfold StorageManager.uint64.
    rewrite !Z.add_0_r, !Z.mod_small by lia. auto.
  - destruct c as [|diff]; cbn [StorageManager.run StorageManager.id_calls
                                  StorageManager.spilled_diffs].
    + unfold StorageManager.GetNewBlockID.
      set (m1 := StorageManager.mk _ _ _).
      specialize (IH m1). cbn zeta in IH.
      destruct (StorageManager.run cs m1) as [ids m2] eqn:Hr.
      cbn [fst snd] in *.
      destruct IH as (H1 & H2 & H3 & H4).
      { exact Hs. }
      { subst m1. cbn. unfold StorageManager.uint64.
        apply Z.mod_pos_bound. lia. }
      subst m1. cbn in H1, H2, H3.
      split_and!; [exact H1| |exact H3|cbn; lia].
      rewrite H2. unfold StorageManager.uint64.
      rewrite Zplus_mod_idemp_l. f_equal. lia.
    + set (m1 := StorageManager.UpdateSpilledBytes m diff).
      specialize (IH m1). cbn zeta in IH.
      destruct IH as (H1 & H2 & H3 & H4).
      { subst m1. cbn. unfold StorageManager.uint64.
        apply Z.mod_pos_bound. lia. }
      { exact Hb. }
      subst m1. cbn in H1, H2, H3.
      split_and!; [|exact H2|exact H3|exact H4].
      rewrite H1. unfold StorageManager.uint64.
      rewrite Zplus_mod_idemp_l. f_equal. lia.
Qed.

Lemma run_keeps_counters_apart_witness :
  let cs := [StorageManager.CallUpdateSpilledBytes 100;
             StorageManager.CallGetNewBlockID;
             StorageManager.CallUpdateSpilledBytes (-100);
             StorageManager.CallGetNewBlockID] in
  let m' := (StorageManager.run cs (StorageManager.create 1024)).2 in
  StorageManager.curr_spilled_bytes m' = 0%Z
  /\ StorageManager.block_id_counter m' = 2%Z.
Proof.
  pose proof (run_keeps_counters_apart
                [StorageManager.CallUpdateSpilledBytes 100;
                 StorageManager.CallGetNewBlockID;
                 StorageManager.CallUpdateSpilledBytes (-100);
                 StorageManager.CallGetNewBlockID]
                (StorageManager.create 1024)) as H.
  destruct H as (H1 & H2 & _).
  - cbn. lia.
  - cbn. lia.
  - split; [exact H1 | exact H2].
Defined.

(** [CanSpillTo], as long as the sum of the spilled bytes and the amount does
    not wrap around: a negative limit accepts every amount, any other limit
    accepts the amount exactly when the spilled bytes with the amount stay
    within it. *)
Theorem CanSpillTo_within_limit (m : StorageManager.t) (amount : Z) :
  (- 2 ^ 63 <= StorageManager.usable_size m < 2 ^ 63)%Z ->
  (0 <= StorageManager.curr_spilled_bytes m)%Z ->
  (0 <= amount)%Z ->
  (StorageManager.curr_spilled_bytes m + amount < 2 ^ 64)%Z ->
  StorageManager.CanSpillTo m amount
  = bool_decide (StorageManager.usable_size m < 0
                 \/ StorageManager.curr_spilled_bytes m + amount
                    <= StorageManager.usable_size m)%Z.
Proof.
  intros Hu Hc Ha Hsum. unfold StorageManager.CanSpillTo, StorageManager.uint64.
  rewrite (Z.mod_small (_ + _)) by lia.
  destruct (Z.ltb_spec (StorageManager.usable_size m) 0) as [Hneg|Hpos]; cbn.
  - symmetry. apply bool_decide_eq_true_2. left. exact Hneg.
  - rewrite (Z.mod_small (StorageManager.usable_size m)) by lia.
    destruct (Z.leb_spec (StorageManager.curr_spilled_bytes m + amount)
                         (StorageManager.usable_size m)) as [Hle|Hgt].
    + symmetry. apply bool_decide_eq_true_2. right. exact Hle.
    + symmetry. apply bool_decide_eq_false_2. lia.
Qed.

Lemma CanSpillTo_within_limit_witness :
  StorageManager.CanSpillTo
    (StorageManager.UpdateSpilledBytes (StorageManager.create 1024) 1000) 24
  = true
  /\ StorageManager.CanSpillTo
       (StorageManager.UpdateSpilledBytes (StorageManager.create 1024) 1000) 25
     = false.
Proof.
  split.
  - rewrite (CanSpillTo_within_limit
               (StorageManager.UpdateSpilledBytes (StorageManager.create 1024)
                  1000) 24); [reflexivity|vm_compute; intuition congruence..].
  - rewrite (CanSpillTo_within_limit
               (StorageManager.UpdateSpilledBytes (StorageManager.create 1024)
                  1000) 25); [reflexivity|vm_compute; intuition congruence..].
Defined.

(* --------------------------------------------------------------------- *)
(** ** Column mappings of the join operator                               *)
(* --------------------------------------------------------------------- *)
Section JoinColumnFacts.
Import PhysicalJoin.
Local Open Scope Z_scope.

Lemma key_positions_fold (l : list Z) : forall (n : nat) (m : gmap Z Z) k,
  fold_left (fun (m : gmap Z Z) (ik : nat * Z) => <[ik.2 := Z.of_nat ik.1]> m)
            (imap (fun i k => ((n + i)%nat, k)) l) m !! k
  = match list_find (fun x => x = k) (reverse l) with
    | Some (i, _) => Some (Z.of_nat (n + (length l - 1 - i)))
    | None => m !! k
    end.
Proof.
  induction l as [|x l IH]; intros n m k; [reflexivity|].
  rewrite imap_cons. cbn [fold_left fst snd].
  rewrite (imap_ext _ (fun i k => ((S n + i)%nat, k))) by (intros; cbn; f_equal; lia).
  rewrite IH. rewrite reverse_cons.
  destruct (list_find (fun x => x = k) (reverse l)) as [[i y]|] eqn:Hf.
  - rewrite (list_find_app_l _ _ _ _ _ Hf). cbn [length]. f_equal.
    apply list_find_Some in Hf as (Hi & _ & _).
    apply lookup_lt_Some in Hi. rewrite length_reverse in Hi. lia.
  - rewrite list_find_app_r by exact Hf. cbn.
    rewrite Nat.add_0_r.
    destruct (decide (x = k)) as [->|Hne].
    + cbn. rewrite lookup_insert_eq. f_equal. rewrite length_reverse. lia.
    + cbn. rewrite lookup_insert_ne by exact Hne. reflexivity.
Qed.

(** [key_positions] sends a key column to the last position it has in
    [keys], and holds nothing else. *)
Lemma key_positions_Some keys k p :
  key_positions keys !! k = Some p ->
  0 <= p < Z.of_nat (length keys) /\ keys !! Z.to_nat p = Some k.
Proof.
  unfold key_positions.
  rewrite (imap_ext _ (fun i k => ((0 + i)%nat, k))) by reflexivity.
  rewrite key_positions_fold.
  destruct (list_find _ _) as [[i y]|] eqn:Hf; [|rewrite lookup_empty; discriminate].
  intros [= <-]. apply list_find_Some in Hf as (Hi & -> & _).
  pose proof (lookup_lt_Some _ _ _ Hi) as Hlt. rewrite length_reverse in Hlt.
  split; [lia|]. rewrite Nat2Z.id.
  rewrite reverse_lookup in Hi by lia.
  rewrite <- Hi. f_equal. lia.
Qed.

Lemma key_positions_None keys k :
  key_positions keys !! k = None <-> k ∉ keys.
Proof.
  unfold key_positions.
  rewrite (imap_ext _ (fun i k => ((0 + i)%nat, k))) by reflexivity.
  rewrite key_positions_fold.
  destruct (list_find _ _) as [[i y]|] eqn:Hf.
  - split; [discriminate|]. intros Hn. exfalso. apply Hn.
    apply list_find_Some in Hf as (Hi & -> & _).
    apply elem_of_reverse. eapply list_elem_of_lookup_2. exact Hi.
  - split; [|intros _; apply lookup_empty].
    intros _ Hin. apply list_find_None in Hf.
    rewrite Forall_forall in Hf. apply (Hf k); [|reflexivity].
    apply elem_of_reverse. exact Hin.
Qed.

Lemma key_positions_last keys k p q :
  key_positions keys !! k = Some p ->
  keys !! q = Some k -> (q <= Z.to_nat p)%nat.
Proof.
  unfold key_positions.
  rewrite (imap_ext _ (fun i k => ((0 + i)%nat, k))) by reflexivity.
  rewrite key_positions_fold.
  destruct (list_find _ _) as [[i y]|] eqn:Hf; [|rewrite lookup_empty; discriminate].
  intros [= <-] Hq. apply list_find_Some in Hf as (Hi & -> & Hfirst).
  pose proof (lookup_lt_Some _ _ _ Hi) as Hlt. rewrite length_reverse in Hlt.
  pose proof (lookup_lt_Some _ _ _ Hq) as Hqlt.
  rewrite Nat2Z.id.
  destruct (decide (q <= 0 + (length keys - 1 - i))%nat) as [|Hgt]; [assumption|].
  exfalso.
  apply (Hfirst (length keys - 1 - q)%nat k); [|lia|reflexivity].
  rewrite reverse_lookup by lia. rewrite <- Hq. f_equal. lia.
Qed.

Local Abbreviation is_bound bound :=
  (fun i : Z => to_int64 i ∈ (bound : gset Z)).
Local Abbreviation is_data keys := (fun i : Z => i ∉ (keys : list Z)).

Lemma output_column_step_eq kp bound out off c :
  output_column_step kp bound (out, off) c
  = if bool_decide (to_int64 c ∉ (bound : gset Z)) then (out, off)
    else match (kp : gmap Z Z) !! c with
         | Some p => (out ++ [p], off)
         | None => (out ++ [off], uint64 (off + 1))
         end.
Proof. reflexivity. Qed.

(** The second loop of [initOutputColumnMapping] from any point on: one
    entry per bound column, in column order. *)
Lemma output_column_fold keys bound (cols : list Z) :
  forall (out : list Z) (off : Z),
  0 <= off -> off + Z.of_nat (length cols) < 2 ^ 64 ->
  let r := fold_left (output_column_step (key_positions keys) bound) cols
                     (out, off) in
  let kept := filter (is_bound bound) cols in
  exists ents,
    r.1 = out ++ ents
    /\ length ents = length kept
    /\ r.2 = off + Z.of_nat (length (filter (is_data keys) kept))
    /\ forall j i, kept !! j = Some i ->
         ents !! j
         = Some (match key_positions keys !! i with
                 | Some p => p
                 | None =>
                     off + Z.of_nat (length (filter (is_data keys)
                                                    (take j kept)))
                 end).
Proof.
  induction cols as [|c cols IH]; intros out off H0 Hlt; cbn zeta.
  - exists []. cbn. rewrite app_nil_r.
    split_and!; [reflexivity|reflexivity|lia|intros j i Hj; discriminate].
  - cbn [fold_left length] in *. rewrite output_column_step_eq.
    destruct (decide (to_int64 c ∈ bound)) as [Hb|Hb].
    + rewrite bool_decide_eq_false_2 by (intros Hn; apply Hn; exact Hb).
      rewrite filter_cons_True by exact Hb.
      destruct (key_positions keys !! c) as [p|] eqn:Hk.
      * destruct (IH (out ++ [p]) off H0 ltac:(lia))
          as (ents & H1 & H2 & H3 & H4).
        exists (p :: ents). cbn zeta in *.
        assert (Hkey : c ∈ keys).
        { destruct (decide (c ∈ keys)) as [|Hn]; [assumption|].
          apply key_positions_None in Hn. congruence. }
        split_and!.
        -- rewrite H1, <- app_assoc. reflexivity.
        -- cbn. lia.
        -- rewrite H3. rewrite filter_cons_False by (intros Hn; apply Hn; exact Hkey).
           reflexivity.
        -- intros [|j] i Hj; cbn in Hj.
           ++ injection Hj as <-. rewrite Hk. reflexivity.
           ++ change ((p :: ents) !! S j) with (ents !! j).
              rewrite (H4 j i Hj). cbn [take].
              rewrite filter_cons_False by (intros Hn; apply Hn; exact Hkey).
              reflexivity.
      * assert (Hu : uint64 (off + 1) = off + 1)
          by (unfold uint64; apply Z.mod_small; lia).
        rewrite Hu.
        destruct (IH (out ++ [off]) (off + 1) ltac:(lia) ltac:(lia))
          as (ents & H1 & H2 & H3 & H4).
        exists (off :: ents). cbn zeta in *.
        assert (Hdata : c ∉ keys) by (apply key_positions_None; exact Hk).
        split_and!.
        -- rewrite H1, <- app_assoc. reflexivity.
        -- cbn. lia.
        -- rewrite H3. rewrite filter_cons_True by exact Hdata. cbn. lia.
        -- intros [|j] i Hj; cbn in Hj.
           ++ injection Hj as <-. rewrite Hk. cbn. f_equal. lia.
           ++ change ((off :: ents) !! S j) with (ents !! j).
              rewrite (H4 j i Hj). cbn [take].
              rewrite filter_cons_True by exact Hdata.
              destruct (key_positions keys !! i); [reflexivity|].
              cbn. f_equal. lia.
    + rewrite bool_decide_eq_true_2 by exact Hb.
      rewrite filter_cons_False by exact Hb.
      apply (IH out off H0). lia.
Qed.

Lemma to_int64_small i : 0 <= i < 2 ^ 63 -> to_int64 i = i.
Proof. intros H. unfold to_int64. rewrite Z.mod_small; lia. Qed.

Lemma Zseq_range n i : i ∈ Zseq n <-> 0 <= i < n.
Proof.
  unfold Zseq. rewrite list_elem_of_fmap. split.
  - intros (k & -> & Hk). apply elem_of_seq in Hk. lia.
  - intros H. exists (Z.to_nat i). split; [lia|]. apply elem_of_seq. lia.
Qed.

Lemma Zseq_NoDup n : NoDup (Zseq n).
Proof.
  unfold Zseq. apply NoDup_fmap_2; [intros a b H; lia|apply NoDup_seq].
Qed.

Lemma length_Zseq n : length (Zseq n) = Z.to_nat n.
Proof. unfold Zseq. now rewrite length_fmap, length_seq. Qed.

(** A data column further on has a strictly greater entry. *)
Lemma data_count_lt keys (kept : list Z) j1 j2 i1 :
  (j1 < j2)%nat -> kept !! j1 = Some i1 -> i1 ∉ keys ->
  (length (filter (is_data keys) (take j1 kept))
   < length (filter (is_data keys) (take j2 kept)))%nat.
Proof.
  intros Hlt H1 Hd.
  assert (Hsplit : take j2 kept
                   = take j1 kept ++ i1 :: take (j2 - S j1) (drop (S j1) kept)).
  { rewrite <- (take_drop_middle kept j1 i1 H1) at 1.
    rewrite take_app_ge by (rewrite length_take; lia).
    f_equal. rewrite length_take.
    pose proof (lookup_lt_Some _ _ _ H1).
    replace (j2 - j1 `min` length kept)%nat with (S (j2 - S j1)) by lia.
    reflexivity. }
  rewrite Hsplit, filter_app, filter_cons_True by exact Hd.
  rewrite length_app. cbn. lia.
Qed.
End JoinColumnFacts.

Lemma filter_ext_elem {A} (P Q : A -> Prop) `{!forall x, Decision (P x)}
    `{!forall x, Decision (Q x)} (l : list A) :
  (forall x, x ∈ l -> P x <-> Q x) -> filter P l = filter Q l.
Proof.
  induction l as [|x l IH]; intros Hext; [reflexivity|].
  assert (Hl : forall y, y ∈ l -> P y <-> Q y)
    by (intros y Hy; apply Hext; now right).
  assert (Hx : P x <-> Q x) by (apply Hext; left).
  destruct (decide (P x)) as [Hp|Hp].
  - rewrite !filter_cons_True by tauto. now rewrite IH.
  - rewrite !filter_cons_False by tauto. now rewrite IH.
Qed.

Lemma filter_all {A} (P : A -> Prop) `{!forall x, Decision (P x)}
    (l : list A) :
  (forall x, x ∈ l -> P x) -> filter P l = l.
Proof.
  induction l as [|x l IH]; intros Hall; [reflexivity|].
  rewrite filter_cons_True by (apply Hall; left).
  rewrite IH; [reflexivity|]. intros y Hy. apply Hall. now right.
Qed.

Lemma filter_split_length {A} (P : A -> Prop) `{!forall x, Decision (P x)}
    (l : list A) :
  (length (filter P l) + length (filter (fun x => ~ P x) l))%nat = length l.
Proof.
  induction l as [|x l IH]; [reflexivity|].
  destruct (decide (P x)) as [Hp|Hp].
  - rewrite filter_cons_True, filter_cons_False by tauto. cbn. lia.
  - rewrite filter_cons_False, filter_cons_True by tauto. cbn. lia.
Qed.

Section JoinColumnMain.
Import PhysicalJoin.
Local Open Scope Z_scope.

Lemma bound_filter_small ncols (bound : gset Z) :
  0 <= ncols <= 2 ^ 63 ->
  filter (fun i => to_int64 i ∈ bound) (Zseq ncols)
  = filter (fun i => i ∈ bound) (Zseq ncols).
Proof.
  intros Hn. apply filter_ext_elem. intros x Hx.
  apply Zseq_range in Hx. rewrite to_int64_small by lia. reflexivity.
Qed.

(** The mapping in closed form. *)
Lemma initOutputColumnMapping_spec keys ncols (bound : gset Z) :
  0 <= ncols <= 2 ^ 63 ->
  Z.of_nat (length keys) + ncols < 2 ^ 64 ->
  let kept := filter (fun c => c ∈ bound) (Zseq ncols) in
  let out := initOutputColumnMapping [] keys ncols bound in
  length out = length kept
  /\ forall j i, kept !! j = Some i ->
       out !! j
       = Some (match key_positions keys !! i with
               | Some p => p
               | None =>
                   Z.of_nat (length keys)
                   + Z.of_nat (length (filter (fun c => c ∉ keys)
                                              (take j kept)))
               end).
Proof.
  intros Hn Hlt kept out. subst kept out. unfold initOutputColumnMapping.
  destruct (output_column_fold keys bound (Zseq ncols) []
              (Z.of_nat (length keys)) ltac:(lia)
              ltac:(rewrite length_Zseq; lia))
    as (ents & H1 & H2 & _ & H4).
  cbn zeta in *. rewrite bound_filter_small in H2, H4 by exact Hn.
  rewrite H1. cbn [app]. split; [exact H2|exact H4].
Qed.
End JoinColumnMain.

(** [initOutputColumnMapping] pushes one entry per bound column below
    [ncols], in column order. The entry of a key column is the last position
    the column has in [keys]; the entry of any other column is the number of
    keys plus the number of bound non-key columns before it. *)
Theorem output_mapping_entries (keys : list Z) (ncols : Z) (bound : gset Z)
    (j : nat) (i : Z) :
  (0 <= ncols <= 2 ^ 63)%Z ->
  (Z.of_nat (length keys) + ncols < 2 ^ 64)%Z ->
  let kept := filter (fun c => c ∈ bound) (Zseq ncols) in
  let out := PhysicalJoin.initOutputColumnMapping [] keys ncols bound in
  kept !! j = Some i ->
  length out = length kept
  /\ (forall p : nat,
        keys !! p = Some i ->
        (forall q : nat, keys !! q = Some i -> (q <= p)%nat) ->
        out !! j = Some (Z.of_nat p))
  /\ (i ∉ keys ->
      out !! j
      = Some (Z.of_nat (length keys)
              + Z.of_nat (length (filter (fun c => c ∉ keys)
                                         (take j kept))))%Z).
Proof.
  intros Hn Hlt kept out Hj.
  destruct (initOutputColumnMapping_spec keys ncols bound Hn Hlt)
    as [Hlen Hent].
  fold kept in Hlen, Hent. fold out in Hlen, Hent.
  specialize (Hent j i Hj).
  split_and!; [exact Hlen| |].
  - intros p Hp Hlast. rewrite Hent.
    destruct (PhysicalJoin.key_positions keys !! i) as [p'|] eqn:Hk.
    + f_equal. destruct (key_positions_Some _ _ _ Hk) as [Hr Hp'].
      pose proof (key_positions_last _ _ _ _ Hk Hp) as H1.
      specialize (Hlast _ Hp'). lia.
    + apply key_positions_None in Hk. exfalso. apply Hk.
      eapply list_elem_of_lookup_2. exact Hp.
  - intros Hd. rewrite Hent.
    apply key_positions_None in Hd. rewrite Hd. reflexivity.
Qed.

Lemma output_mapping_entries_witness :
  PhysicalJoin.initOutputColumnMapping [] PhysicalJoin.example_keys 5
    PhysicalJoin.example_bound_inds = [2; 1; 0; 3]%Z
  /\ PhysicalJoin.initOutputColumnMapping [] PhysicalJoin.example_keys 5
       PhysicalJoin.example_bound_inds !! 2%nat = Some 0%Z.
Proof.
  split; [reflexivity|].
  pose proof (output_mapping_entries PhysicalJoin.example_keys 5
                PhysicalJoin.example_bound_inds 2 3) as H.
  destruct H as (_ & H & _); [lia|cbn; lia|reflexivity|].
  apply (H 0%nat); [reflexivity|].
  intros [|[|q]] Hq; [lia|discriminate|discriminate].
Defined.

(** The entries [initOutputColumnMapping] pushes are pairwise different and
    lie below the number of keys plus the number of bound non-key columns.
    When every column is bound and the keys are different columns of the
    table, the entries are a permutation of the column numbers. *)
Theorem output_mapping_permutation (keys : list Z) (ncols : Z)
    (bound : gset Z) :
  (0 <= ncols <= 2 ^ 63)%Z ->
  (Z.of_nat (length keys) + ncols < 2 ^ 64)%Z ->
  let kept := filter (fun c => c ∈ bound) (Zseq ncols) in
  let out := PhysicalJoin.initOutputColumnMapping [] keys ncols bound in
  NoDup out
  /\ Forall (fun x =>
               0 <= x < Z.of_nat (length keys)
                        + Z.of_nat (length (filter (fun c => c ∉ keys) kept)))%Z
            out
  /\ (NoDup keys ->
      Forall (fun k => 0 <= k < ncols)%Z keys ->
      (forall c, (0 <= c < ncols)%Z -> c ∈ bound) ->
      out ≡ₚ Zseq ncols).
Proof.
  intros Hn Hlt kept out.
  destruct (initOutputColumnMapping_spec keys ncols bound Hn Hlt)
    as [Hlen Hent].
  fold kept in Hlen, Hent. fold out in Hlen, Hent.
  assert (Hkept : NoDup kept) by (apply NoDup_filter, Zseq_NoDup).
  assert (Hlook : forall j x, out !! j = Some x ->
            exists i, kept !! j = Some i
              /\ x = match PhysicalJoin.key_positions keys !! i with
                     | Some p => p
                     | None =>
                         (Z.of_nat (length keys)
                          + Z.of_nat (length (filter (fun c => c ∉ keys)
                                                     (take j kept))))%Z
                     end).
  { intros j x Hx. pose proof (lookup_lt_Some _ _ _ Hx) as Hj.
    rewrite Hlen in Hj. destruct (lookup_lt_is_Some_2 _ _ Hj) as [i Hi].
    exists i. split; [exact Hi|]. rewrite (Hent j i Hi) in Hx. congruence. }
  assert (Hrange : Forall (fun x =>
               0 <= x < Z.of_nat (length keys)
                        + Z.of_nat (length (filter (fun c => c ∉ keys) kept)))%Z
            out).
  { apply Forall_lookup_2. intros j x Hx.
    destruct (Hlook j x Hx) as (i & Hi & ->).
    destruct (PhysicalJoin.key_positions keys !! i) as [p|] eqn:Hk.
    - apply key_positions_Some in Hk as [Hp _]. lia.
    - apply key_positions_None in Hk.
      pose proof (f_equal (fun l => length (filter (fun c => c ∉ keys) l))
                    (take_drop_middle kept j i Hi)) as Hc.
      cbn beta in Hc.
      rewrite filter_app, filter_cons_True, length_app in Hc by exact Hk.
      cbn [length] in Hc. lia. }
  assert (Hnodup : NoDup out).
  { apply NoDup_alt. intros j1 j2 x H1 H2.
    destruct (Hlook j1 x H1) as (i1 & Hi1 & E1).
    destruct (Hlook j2 x H2) as (i2 & Hi2 & E2).
    destruct (PhysicalJoin.key_positions keys !! i1) as [p1|] eqn:Hk1;
      destruct (PhysicalJoin.key_positions keys !! i2) as [p2|] eqn:Hk2.
    - subst x. subst p2.
      apply key_positions_Some in Hk1 as [_ Hp1].
      apply key_positions_Some in Hk2 as [_ Hp2].
      assert (i1 = i2) by congruence. subst i2.
      eapply NoDup_lookup; eassumption.
    - apply key_positions_Some in Hk1 as [Hp1 _]. lia.
    - apply key_positions_Some in Hk2 as [Hp2 _]. lia.
    - apply key_positions_None in Hk1, Hk2.
      destruct (Nat.lt_trichotomy j1 j2) as [Hl|[He|Hg]]; [|exact He|].
      + pose proof (data_count_lt keys kept j1 j2 i1 Hl Hi1 Hk1). lia.
      + pose proof (data_count_lt keys kept j2 j1 i2 Hg Hi2 Hk2). lia. }
  split_and!; [exact Hnodup|exact Hrange|].
  intros Hkeys Hkr Hall.
  assert (Hk_all : kept = Zseq ncols).
  { subst kept. apply filter_all.
    intros x Hx. apply Hall. apply Zseq_range. exact Hx. }
  assert (Hcount : (length keys
                    + length (filter (fun c => c ∉ keys) (Zseq ncols)))%nat
                   = Z.to_nat ncols).
  { rewrite <- (length_Zseq ncols).
    rewrite <- (filter_split_length (fun c => c ∈ keys) (Zseq ncols)).
    f_equal. symmetry. apply Permutation_length.
    apply NoDup_Permutation; [apply NoDup_filter, Zseq_NoDup|exact Hkeys|].
    intros x. rewrite list_elem_of_filter. split; [tauto|].
    intros Hx. split; [exact Hx|]. apply Zseq_range.
    rewrite Forall_forall in Hkr. apply Hkr. exact Hx. }
  apply submseteq_length_Permutation.
  - apply NoDup_submseteq; [exact Hnodup|].
    intros x Hx. apply Zseq_range.
    rewrite Forall_forall in Hrange. specialize (Hrange x Hx).
    rewrite Hk_all in Hrange. lia.
  - rewrite Hlen, Hk_all. reflexivity.
Qed.

Lemma output_mapping_permutation_witness :
  PhysicalJoin.initOutputColumnMapping [] PhysicalJoin.example_keys 5
    (PhysicalJoin.all_bound_inds 5)
  ≡ₚ Zseq 5.
Proof.
  pose proof (output_mapping_permutation PhysicalJoin.example_keys 5
                (PhysicalJoin.all_bound_inds 5)) as H.
  destruct H as (_ & _ & H); [lia|cbn; lia|].
  apply H.
  - unfold PhysicalJoin.example_keys. apply NoDup_cons. split; [|apply NoDup_singleton].
    intros Hin. apply list_elem_of_singleton in Hin. discriminate.
  - repeat constructor; lia.
  - intros c Hc. unfold PhysicalJoin.all_bound_inds.
    apply elem_of_list_to_set. apply Zseq_range. exact Hc.
Defined.

Section JoinInverseFacts.
Import PhysicalJoin.
Local Open Scope Z_scope.

(** The loop [rev[col_inds[i]] = i] up to index [k]. *)
Lemma col_inds_rev_prefix (col_inds : list Z) (k : nat) :
  NoDup col_inds ->
  Forall (fun c => 0 <= c < Z.of_nat (length col_inds)) col_inds ->
  (k <= length col_inds)%nat ->
  let rev :=
    fold_left
      (fun rev i => <[Z.to_nat (default 0 (col_inds !! i)) := Z.of_nat i]> rev)
      (seq 0 k) (replicate (length col_inds) 0) in
  length rev = length col_inds
  /\ forall i c, (i < k)%nat -> col_inds !! i = Some c ->
       rev !! Z.to_nat c = Some (Z.of_nat i).
Proof.
  intros Hnd Hr. induction k as [|k IH]; intros Hk; cbn zeta.
  - split; [apply length_replicate|]. intros i c Hi. lia.
  - rewrite seq_S, fold_left_app. cbn [fold_left Nat.add].
    destruct (IH ltac:(lia)) as [Hlen Hprev]. cbn zeta in Hlen, Hprev.
    split; [rewrite length_insert; exact Hlen|].
    intros i c Hi Hc.
    destruct (lookup_lt_is_Some_2 col_inds k ltac:(lia)) as [ck Hck].
    rewrite Hck. cbn [default]. change (id ck) with ck.
    assert (Hckr : 0 <= ck < Z.of_nat (length col_inds)).
    { rewrite Forall_forall in Hr. apply Hr.
      eapply list_elem_of_lookup_2. exact Hck. }
    destruct (decide (i = k)) as [->|Hne].
    + assert (c = ck) by congruence. subst c.
      apply list_lookup_insert_eq. rewrite Hlen. lia.
    + assert (Hcr : 0 <= c < Z.of_nat (length col_inds)).
      { rewrite Forall_forall in Hr. apply Hr.
        eapply list_elem_of_lookup_2. exact Hc. }
      rewrite list_lookup_insert_ne.
      * apply Hprev; [lia|exact Hc].
      * intros Heq. assert (ck = c) by lia. subst c.
        apply Hne. eapply NoDup_lookup; eassumption.
Qed.
End JoinInverseFacts.

(** When [col_inds] is a permutation of the column numbers, the vector the
    constructor fills with [rev[col_inds[i]] = i] is its inverse: looking a
    column up in one and the result in the other gives the column back, in
    both orders. *)
Theorem col_inds_rev_inverse (col_inds : list Z) (i : nat) :
  col_inds ≡ₚ Zseq (Z.of_nat (length col_inds)) ->
  (i < length col_inds)%nat ->
  let rev := PhysicalJoin.col_inds_rev col_inds in
  length rev = length col_inds
  /\ (exists c, col_inds !! i = Some c
                /\ rev !! Z.to_nat c = Some (Z.of_nat i))
  /\ (exists r, rev !! i = Some r
                /\ col_inds !! Z.to_nat r = Some (Z.of_nat i)).
Proof.
  intros Hperm Hi rev.
  assert (Hnd : NoDup col_inds).
  { rewrite Hperm. apply Zseq_NoDup. }
  assert (Hr : Forall (fun c => 0 <= c < Z.of_nat (length col_inds))%Z
                      col_inds).
  { apply Forall_forall. intros c Hc. apply Zseq_range.
    rewrite <- Hperm. exact Hc. }
  destruct (col_inds_rev_prefix col_inds (length col_inds) Hnd Hr
              ltac:(lia)) as [Hlen Hinv].
  cbn zeta in Hlen, Hinv.
  fold (PhysicalJoin.col_inds_rev col_inds) in Hlen, Hinv. fold rev in Hlen, Hinv.
  split_and!; [exact Hlen| |].
  - destruct (lookup_lt_is_Some_2 col_inds i Hi) as [c Hc].
    exists c. split; [exact Hc|]. apply (Hinv i c Hi Hc).
  - assert (Hin : Z.of_nat i ∈ col_inds).
    { rewrite Hperm. apply Zseq_range. lia. }
    apply list_elem_of_lookup_1 in Hin as [k Hk].
    pose proof (lookup_lt_Some _ _ _ Hk) as Hklt.
    exists (Z.of_nat k). rewrite Nat2Z.id. split; [|exact Hk].
    pose proof (Hinv k (Z.of_nat i) Hklt Hk) as H. rewrite Nat2Z.id in H.
    exact H.
Qed.

Lemma col_inds_rev_inverse_witness :
  PhysicalJoin.col_inds_rev [2; 0; 3; 1]%Z = [1; 3; 0; 2]%Z
  /\ exists r, PhysicalJoin.col_inds_rev [2; 0; 3; 1]%Z !! 2%nat = Some r
               /\ [2; 0; 3; 1]%Z !! Z.to_nat r = Some 2%Z.
Proof.
  split; [reflexivity|].
  pose proof (col_inds_rev_inverse [2; 0; 3; 1]%Z 2) as H.
  destruct H as (_ & _ & H); [|cbn; lia|exact H].
  change (Zseq (Z.of_nat (length [2; 0; 3; 1]%Z))) with [0; 1; 2; 3]%Z.
  apply NoDup_Permutation.
  - apply (bool_decide_unpack (NoDup _)). vm_compute. exact I.
  - apply (bool_decide_unpack (NoDup _)). vm_compute. exact I.
  - intros x. rewrite !elem_of_cons, !elem_of_nil. lia.
Defined.

(* --------------------------------------------------------------------- *)
(** ** The dispatch of the probe call                                     *)
(* --------------------------------------------------------------------- *)
Section JoinDispatchFacts.
Import PhysicalJoin.
Variable R : Runtime.
Variable op : PhysicalJoin.

(** The instance the flags of a join state select. *)
Local Abbreviation selected bf st :=
  (build_table_outer R st, probe_table_outer R st, has_non_equi_cond op,
   (bf : bool)).

Lemma instance_matches_iff bf st e :
  instance_matches R op bf st e = true <-> e = selected bf st.
Proof.
  destruct e as [[[e1 e2] e3] e4]. unfold instance_matches.
  rewrite !andb_true_iff, !bool_decide_eq_true. split.
  - intros [[[-> ->] ->] ->]. reflexivity.
  - intros [= -> -> -> ->]. auto.
Qed.

Hypothesis flags_stable : forall e1 e2 e3 e4 st b bk pk l,
  let st' := (join_probe_consume_batch R e1 e2 e3 e4 st b bk pk l).1 in
  build_table_outer R st' = build_table_outer R st
  /\ probe_table_outer R st' = probe_table_outer R st.

Lemma probe_chain_single bf b (es : list (bool * bool * bool * bool)) :
  NoDup es -> forall st l,
  fold_left (CONSUME_PROBE_BATCH R op bf b) es (st, l)
  = if decide (selected bf st ∈ es)
    then join_probe_consume_batch R (build_table_outer R st)
           (probe_table_outer R st) (has_non_equi_cond op) bf st b
           (build_kept_cols op) (probe_kept_cols op) l
    else (st, l).
Proof.
  induction es as [|e es IH]; intros Hnd st l.
  - cbn. rewrite decide_False by apply not_elem_of_nil. reflexivity.
  - apply NoDup_cons in Hnd as [Hnot Hnd]. cbn [fold_left].
    unfold CONSUME_PROBE_BATCH at 2.
    destruct (instance_matches R op bf st e) eqn:Hm.
    + apply instance_matches_iff in Hm. subst e.
      rewrite decide_True by left.
      destruct (join_probe_consume_batch R _ _ _ _ st b _ _ l)
        as [st' l'] eqn:Hcall.
      rewrite (IH Hnd).
      pose proof (flags_stable (build_table_outer R st)
                    (probe_table_outer R st) (has_non_equi_cond op) bf st b
                    (build_kept_cols op) (probe_kept_cols op) l) as Hs.
      cbn zeta in Hs. rewrite Hcall in Hs. cbn [fst] in Hs.
      destruct Hs as [-> ->].
      rewrite decide_False by exact Hnot. reflexivity.
    + rewrite (IH Hnd).
      assert (Hne : e <> selected bf st).
      { intros Heq. apply instance_matches_iff in Heq. congruence. }
      destruct (decide (selected bf st ∈ es)) as [Hin|Hin].
      * rewrite decide_True by (now right). reflexivity.
      * rewrite decide_False; [reflexivity|].
        intros Hc. apply elem_of_cons in Hc as [Hc|Hc]; [congruence|tauto].
Qed.

Lemma probe_instances_NoDup : NoDup probe_instances.
Proof.
  unfold probe_instances.
  apply (bool_decide_unpack (NoDup _)). vm_compute. exact I.
Qed.

Lemma probe_instances_all (e : bool * bool * bool * bool) :
  e ∈ probe_instances.
Proof.
  destruct e as [[[[] []] []] []]; unfold probe_instances;
    repeat constructor.
Qed.
End JoinDispatchFacts.

(** In [ProcessBatch] of a hash join whose outer-join flags the probe call
    leaves alone, the sixteen expansions of [CONSUME_PROBE_BATCH] amount to
    one call of [join_probe_consume_batch], the instance the flags of the
    state, [has_non_equi_cond] and the bloom-filter flag select. *)
Theorem probe_dispatch_is_one_call (R : PhysicalJoin.Runtime)
    (op : PhysicalJoin.PhysicalJoin) (has_bloom_filter : bool)
    (input_batch_reordered : PhysicalJoin.table R)
    (st : PhysicalJoin.state R) (is_last : bool) :
  (forall e1 e2 e3 e4 st b bk pk l,
     let st' :=
       (PhysicalJoin.join_probe_consume_batch R e1 e2 e3 e4 st b bk pk l).1 in
     PhysicalJoin.build_table_outer R st' = PhysicalJoin.build_table_outer R st
     /\ PhysicalJoin.probe_table_outer R st'
        = PhysicalJoin.probe_table_outer R st) ->
  fold_left
    (PhysicalJoin.CONSUME_PROBE_BATCH R op has_bloom_filter
       input_batch_reordered)
    PhysicalJoin.probe_instances (st, is_last)
  = PhysicalJoin.join_probe_consume_batch R
      (PhysicalJoin.build_table_outer R st)
      (PhysicalJoin.probe_table_outer R st)
      (PhysicalJoin.has_non_equi_cond op) has_bloom_filter st
      input_batch_reordered (PhysicalJoin.build_kept_cols op)
      (PhysicalJoin.probe_kept_cols op) is_last.
Proof.
  intros Hstable.
  rewrite (probe_chain_single R op Hstable _ _ _ probe_instances_NoDup).
  rewrite decide_True by apply probe_instances_all. reflexivity.
Qed.

Lemma probe_dispatch_is_one_call_witness :
  fold_left
    (PhysicalJoin.CONSUME_PROBE_BATCH PhysicalJoin.example_runtime
       PhysicalJoin.example_join false 6%Z)
    PhysicalJoin.probe_instances ((3, 0)%Z, true)
  = ((0, 9)%Z, true).
Proof.
  etrans.
  - apply (probe_dispatch_is_one_call PhysicalJoin.example_runtime
             PhysicalJoin.example_join).
    intros e1 e2 e3 e4 st b bk pk l. cbn. split; reflexivity.
  - reflexivity.
Defined.

(* --------------------------------------------------------------------- *)
(** ** Reading back what the nullable appends wrote                       *)
(* --------------------------------------------------------------------- *)
Section AppendFacts.
Import Bitmap BuildBuffer.
Local Open Scope Z_scope.

Lemma numpy_item_size_pos d : 0 < numpy_item_size d.
Proof. destruct d; reflexivity. Qed.

Lemma memcpy_nothing dest off src : memcpy dest off src 0 = dest.
Proof.
  unfold memcpy. rewrite Z.add_0_r. cbn [Z.to_nat take app].
  apply take_drop.
Qed.

(** Copying [n] bytes and then the next [k] bytes is copying [n + k]
    bytes. *)
Lemma memcpy_memcpy dest off src n k :
  0 <= off -> 0 <= n -> 0 <= k ->
  n + k <= Z.of_nat (length src) ->
  off + n + k <= Z.of_nat (length dest) ->
  memcpy (memcpy dest off src n) (off + n) (drop (Z.to_nat n) src) k
  = memcpy dest off src (n + k).
Proof.
  intros Hoff Hn Hk Hsrc Hdest. unfold memcpy.
  rewrite take_app_ge by (rewrite length_take; lia).
  rewrite length_take.
  replace (Z.to_nat (off + n) - Z.to_nat off `min` length dest)%nat
    with (Z.to_nat n) by lia.
  rewrite take_app_ge by (rewrite length_take; lia).
  rewrite length_take.
  replace (Z.to_nat n - Z.to_nat n `min` length src)%nat with 0%nat by lia.
  cbn [take]. rewrite app_nil_r.
  rewrite drop_app_ge by (rewrite length_take; lia).
  rewrite length_take.
  rewrite drop_app_ge by (rewrite length_take; lia).
  rewrite length_take, drop_drop.
  rewrite <- !app_assoc. f_equal.
  rewrite app_assoc. f_equal.
  - assert (Hsplit : take (Z.to_nat (n + k)) src
                     = take (Z.to_nat n) src
                       ++ take (Z.to_nat k) (drop (Z.to_nat n) src)).
    { rewrite <- (take_drop (Z.to_nat n) (take (Z.to_nat (n + k)) src)).
      rewrite take_take, take_drop_commute.
      replace (Z.to_nat n `min` Z.to_nat (n + k))%nat with (Z.to_nat n) by lia.
      replace (Z.to_nat n + Z.to_nat k)%nat with (Z.to_nat (n + k)) by lia.
      reflexivity. }
    rewrite Hsplit. reflexivity.
  - f_equal. lia.
Qed.

Abbreviation bit_step in_bm :=
  (fun (acc : array_info) (i : Z) =>
     set_length (set_null_bitmask acc
                   (SetBitTo (null_bitmask acc) (arr_length acc)
                             (GetBit in_bm i)))
                (arr_length acc + 1)).

(** The bit-by-bit loop does not look at the values. *)
Lemma bit_loop_set_data1 in_bm (rows : list Z) : forall (a : array_info) d,
  fold_left (bit_step in_bm) rows (set_data1 a d)
  = set_data1 (fold_left (bit_step in_bm) rows a) d.
Proof.
  induction rows as [|i rows IH]; intros a d; [reflexivity|].
  cbn [fold_left]. rewrite <- IH. reflexivity.
Qed.

Lemma bit_loop_length in_bm (rows : list Z) : forall (a : array_info),
  arr_length (fold_left (bit_step in_bm) rows a)
  = arr_length a + Z.of_nat (length rows).
Proof.
  induction rows as [|i rows IH]; intros a; cbn [fold_left length].
  - lia.
  - rewrite IH. cbn. lia.
Qed.

(** The rows [0 .. m) appended one at a time. *)
Lemma append_rows_prefix (b : ArrayBuildBuffer) (in_arr : array_info)
    (m : nat) :
  let sz := numpy_item_size (dtype in_arr) in
  0 <= size b ->
  sz * Z.of_nat m <= Z.of_nat (length (data1 in_arr)) ->
  sz * (size b + Z.of_nat m) <= Z.of_nat (length (data1 (data_array b))) ->
  UnsafeAppendRows_NULLABLE b in_arr (Zseq (Z.of_nat m))
  = with_array b
      (set_data1
         (fold_left (bit_step (null_bitmask in_arr)) (Zseq (Z.of_nat m))
                    (data_array b))
         (memcpy (data1 (data_array b)) (sz * size b) (data1 in_arr)
                 (sz * Z.of_nat m))).
Proof.
  intros sz Hs. pose proof (numpy_item_size_pos (dtype in_arr)) as Hsz.
  fold sz in Hsz.
  induction m as [|m IH]; intros Hsrc Hdest.
  - change (Zseq (Z.of_nat 0)) with (@nil Z). cbn [fold_left].
    unfold UnsafeAppendRows_NULLABLE. cbn [fold_left].
    rewrite Z.mul_0_r, memcpy_nothing.
    destruct b as [[ty dt len d bm] cap]. reflexivity.
  - unfold UnsafeAppendRows_NULLABLE in *.
    rewrite Zseq_succ, !fold_left_app. cbn [fold_left].
    rewrite IH by lia.
    set (F := fold_left _ (Zseq (Z.of_nat m)) (data_array b)).
    assert (HF : arr_length F = size b + Z.of_nat m).
    { subst F. rewrite bit_loop_length. unfold Zseq.
      rewrite length_fmap, length_seq, Nat2Z.id. reflexivity. }
    unfold UnsafeAppendRow_NULLABLE, with_array, size.
    cbn [data_array capacity arr_length data1 null_bitmask set_data1
         set_null_bitmask set_length arr_type dtype].
    fold sz. rewrite HF.
    replace (sz * (size b + Z.of_nat m)) with (sz * size b + sz * Z.of_nat m)
      by lia.
    rewrite memcpy_memcpy by (unfold size in *; lia).
    replace (sz * Z.of_nat m + sz) with (sz * Z.of_nat (S m)) by lia.
    reflexivity.
Qed.

Lemma fold_left_filter {A B} (f : B -> A -> B) (P : A -> Prop)
    `{!forall x, Decision (P x)} (l : list A) : forall b,
  fold_left f (filter P l) b
  = fold_left (fun acc x => if decide (P x) then f acc x else acc) l b.
Proof.
  induction l as [|x l IH]; intros b; [reflexivity|].
  cbn [fold_left]. destruct (decide (P x)) as [Hp|Hp].
  - rewrite filter_cons_True by exact Hp. cbn [fold_left]. apply IH.
  - rewrite filter_cons_False by exact Hp. apply IH.
Qed.

Lemma append_rows_size (in_arr : array_info) (rows : list Z) : forall b,
  size (UnsafeAppendRows_NULLABLE b in_arr rows)
  = size b + Z.of_nat (length rows)
  /\ dtype (data_array (UnsafeAppendRows_NULLABLE b in_arr rows))
     = dtype (data_array b)
  /\ capacity (UnsafeAppendRows_NULLABLE b in_arr rows) = capacity b.
Proof.
  unfold UnsafeAppendRows_NULLABLE.
  induction rows as [|i rows IH]; intros b; cbn [fold_left length].
  - split_and!; [lia|reflexivity|reflexivity].
  - destruct (IH (UnsafeAppendRow_NULLABLE b in_arr i)) as (H1 & H2 & H3).
    rewrite H1, H2, H3. unfold size. cbn. split_and!; [lia|reflexivity..].
Qed.

(** The filtered append, row by row. *)
Lemma filtered_append_rows (in_arr : array_info) (flags : list bool)
    (sum : Z) (rows : list Z) : forall (b : ArrayBuildBuffer),
  dtype in_arr = dtype (data_array b) ->
  let sz := numpy_item_size (dtype (data_array b)) in
  let a := data_array b in
  with_array b
    (fold_left
       (fun acc row_ind =>
          if default false (flags !! Z.to_nat row_ind)
          then bit_step (null_bitmask in_arr) acc row_ind else acc)
       rows
       (set_data1 a
          (fold_left
             (fun (acc : list Z * Z) row_ind =>
                let '(d, data_size) := acc in
                if default false (flags !! Z.to_nat row_ind)
                then (memcpy d (sz * data_size)
                             (drop (Z.to_nat (sz * row_ind)) (data1 in_arr))
                             sz,
                      data_size + 1)
                else acc)
             rows (data1 a, size b)).1))
  = fold_left
      (fun acc x =>
         if decide (default false (flags !! Z.to_nat x) = true)
         then UnsafeAppendRow_NULLABLE acc in_arr x else acc)
      rows b.
Proof.
  induction rows as [|i rows IH]; intros b Hdt sz a.
  - cbn. destruct b as [[ty dt len d bm] cap]. reflexivity.
  - cbn [fold_left].
    destruct (default false (flags !! Z.to_nat i)) eqn:Hf.
    + rewrite decide_True by reflexivity.
      specialize (IH (UnsafeAppendRow_NULLABLE b in_arr i)).
      cbn zeta in IH. rewrite <- IH by exact Hdt. clear IH.
      unfold UnsafeAppendRow_NULLABLE, with_array, size.
      cbn [data_array capacity arr_length data1 null_bitmask set_data1
           set_null_bitmask set_length arr_type dtype].
      subst sz a. rewrite Hdt. unfold size. reflexivity.
    + rewrite decide_False by discriminate.
      apply (IH b Hdt).
Qed.
End AppendFacts.

(** After [UnsafeAppendBatch] on a nullable fixed-width column, whatever the
    alignment of the old size, the buffer holds the old rows followed by the
    rows of the batch: the size grew by the length of the batch, every byte of
    an old value and the null bit of every old row are what they were, and the
    bytes and the null bit of row [size + r] are those of row [r] of the
    batch. The capacity is left alone. *)
Theorem nullable_append_reads_back (b : BuildBuffer.ArrayBuildBuffer)
    (in_arr : BuildBuffer.array_info) :
  let sz := BuildBuffer.numpy_item_size (BuildBuffer.dtype in_arr) in
  let n := BuildBuffer.arr_length in_arr in
  let old := BuildBuffer.data_array b in
  (0 <= BuildBuffer.size b)%Z -> (0 <= n)%Z ->
  (Bitmap.BytesForBits (BuildBuffer.size b + n)
   <= Z.of_nat (length (BuildBuffer.null_bitmask old)))%Z ->
  (Bitmap.BytesForBits n
   <= Z.of_nat (length (BuildBuffer.null_bitmask in_arr)))%Z ->
  (sz * (BuildBuffer.size b + n)
   <= Z.of_nat (length (BuildBuffer.data1 old)))%Z ->
  (sz * n <= Z.of_nat (length (BuildBuffer.data1 in_arr)))%Z ->
  let r := BuildBuffer.UnsafeAppendBatch_NULLABLE b in_arr in
  let new := BuildBuffer.data_array r in
  BuildBuffer.size r = (BuildBuffer.size b + n)%Z
  /\ BuildBuffer.capacity r = BuildBuffer.capacity b
  /\ (forall j, (0 <= j < BuildBuffer.size b + n)%Z ->
        Bitmap.GetBit (BuildBuffer.null_bitmask new) j
        = if decide (j < BuildBuffer.size b)%Z
          then Bitmap.GetBit (BuildBuffer.null_bitmask old) j
          else Bitmap.GetBit (BuildBuffer.null_bitmask in_arr)
                 (j - BuildBuffer.size b))
  /\ (forall k, (0 <= k < sz * (BuildBuffer.size b + n))%Z ->
        Bitmap.byte_at (BuildBuffer.data1 new) k
        = if decide (k < sz * BuildBuffer.size b)%Z
          then Bitmap.byte_at (BuildBuffer.data1 old) k
          else Bitmap.byte_at (BuildBuffer.data1 in_arr)
                 (k - sz * BuildBuffer.size b)).
Proof.
  intros sz n old H0 Hn Hcap Hin Hdata Hsrc r new.
  pose proof (numpy_item_size_pos (BuildBuffer.dtype in_arr)) as Hsz.
  subst r new old n. unfold BuildBuffer.UnsafeAppendBatch_NULLABLE.
  fold sz in Hsz |- *. clearbody sz.
  unfold BuildBuffer.size in *.
  set (a1 := BuildBuffer.set_data1 (BuildBuffer.data_array b) _).
  assert (Ha1 : BuildBuffer.arr_length a1
                = BuildBuffer.arr_length (BuildBuffer.data_array b))
    by reflexivity.
  assert (Hb1 : BuildBuffer.null_bitmask a1
                = BuildBuffer.null_bitmask (BuildBuffer.data_array b))
    by reflexivity.
  assert (Hbytes : forall k,
            (0 <= k < sz * (BuildBuffer.arr_length (BuildBuffer.data_array b)
                            + BuildBuffer.arr_length in_arr))%Z ->
            Bitmap.byte_at (BuildBuffer.data1 a1) k
            = if decide (k < sz * BuildBuffer.arr_length
                                    (BuildBuffer.data_array b))%Z
              then Bitmap.byte_at (BuildBuffer.data1 (BuildBuffer.data_array b)) k
              else Bitmap.byte_at (BuildBuffer.data1 in_arr)
                     (k - sz * BuildBuffer.arr_length
                                 (BuildBuffer.data_array b))).
  { intros k Hk. subst a1. cbn [BuildBuffer.data1 BuildBuffer.set_data1].
    rewrite byte_at_memcpy by nia.
    destruct (decide (k < sz * BuildBuffer.arr_length
                                 (BuildBuffer.data_array b))%Z).
    - rewrite decide_False by lia. reflexivity.
    - rewrite decide_True by lia. reflexivity. }
  clearbody a1.
  destruct (decide (Z.land (BuildBuffer.arr_length (BuildBuffer.data_array b))
                           7 = 0%Z)) as [Hal|Hal].
  - destruct (append_null_bitmap_fast_spec a1 in_arr) as (Hf1 & Hf2 & Hf3);
      rewrite ?Ha1, ?Hb1; try assumption.
    unfold BuildBuffer.with_array.
    cbn [BuildBuffer.data_array BuildBuffer.capacity].
    rewrite Hf1, Hf2, Ha1. split_and!; [reflexivity|reflexivity| |exact Hbytes].
    intros j Hj. rewrite Hf3 by lia. rewrite Ha1, Hb1.
    destruct (decide (j < BuildBuffer.arr_length (BuildBuffer.data_array b))%Z).
    + rewrite decide_False by lia. reflexivity.
    + rewrite decide_True by lia. reflexivity.
  - destruct (append_null_bitmap_slow_spec a1 in_arr) as (Hs1 & Hs2 & Hs3);
      rewrite ?Ha1, ?Hb1; try assumption.
    unfold BuildBuffer.with_array.
    cbn [BuildBuffer.data_array BuildBuffer.capacity].
    rewrite Hs1, Hs2, Ha1. split_and!; [reflexivity|reflexivity| |exact Hbytes].
    intros j Hj. rewrite Hs3 by lia. rewrite Ha1, Hb1.
    destruct (decide (j < BuildBuffer.arr_length (BuildBuffer.data_array b))%Z).
    + rewrite decide_False by lia. reflexivity.
    + rewrite decide_True by lia. reflexivity.
Qed.

Lemma nullable_append_reads_back_witness :
  let r := BuildBuffer.UnsafeAppendBatch_NULLABLE
             BuildBuffer.example_buffer_unaligned BuildBuffer.example_batch in
  BuildBuffer.size r = 6%Z
  /\ Bitmap.byte_at (BuildBuffer.data1 (BuildBuffer.data_array r)) 4 = 20%Z
  /\ Bitmap.GetBit (BuildBuffer.null_bitmask (BuildBuffer.data_array r)) 4
     = false.
Proof.
  pose proof (nullable_append_reads_back BuildBuffer.example_buffer_unaligned
                BuildBuffer.example_batch) as H.
  cbn zeta in H.
  destruct H as (H1 & _ & H2 & H3); [vm_compute; congruence..|].
  split_and!; [exact H1| |].
  - rewrite (H3 4%Z) by (vm_compute; split; congruence). reflexivity.
  - rewrite (H2 4%Z) by (vm_compute; split; congruence). reflexivity.
Defined.

(** Appending the rows of a batch one at a time with [UnsafeAppendRow] leaves
    the buffer that the bit-by-bit path of [UnsafeAppendBatch] leaves; so it
    agrees with [UnsafeAppendBatch] itself on the size, on the values and on
    the null bit of every row, and is the same buffer when the old size is
    not a multiple of 8. *)
Theorem row_appends_make_the_batch_append
    (b : BuildBuffer.ArrayBuildBuffer) (in_arr : BuildBuffer.array_info) :
  let sz := BuildBuffer.numpy_item_size (BuildBuffer.dtype in_arr) in
  let n := BuildBuffer.arr_length in_arr in
  let old := BuildBuffer.data_array b in
  (0 <= BuildBuffer.size b)%Z -> (0 <= n)%Z ->
  (Bitmap.BytesForBits (BuildBuffer.size b + n)
   <= Z.of_nat (length (BuildBuffer.null_bitmask old)))%Z ->
  (Bitmap.BytesForBits n
   <= Z.of_nat (length (BuildBuffer.null_bitmask in_arr)))%Z ->
  (sz * (BuildBuffer.size b + n)
   <= Z.of_nat (length (BuildBuffer.data1 old)))%Z ->
  (sz * n <= Z.of_nat (length (BuildBuffer.data1 in_arr)))%Z ->
  let by_rows := BuildBuffer.UnsafeAppendRows_NULLABLE b in_arr (Zseq n) in
  let by_batch := BuildBuffer.UnsafeAppendBatch_NULLABLE b in_arr in
  by_rows = BuildBuffer.UnsafeAppendBatch_NULLABLE_general b in_arr
  /\ (Z.land (BuildBuffer.size b) 7 <> 0%Z -> by_rows = by_batch)
  /\ BuildBuffer.size by_rows = BuildBuffer.size by_batch
  /\ BuildBuffer.data1 (BuildBuffer.data_array by_rows)
     = BuildBuffer.data1 (BuildBuffer.data_array by_batch)
  /\ (forall j, (0 <= j < BuildBuffer.size by_batch)%Z ->
        Bitmap.GetBit
          (BuildBuffer.null_bitmask (BuildBuffer.data_array by_rows)) j
        = Bitmap.GetBit
            (BuildBuffer.null_bitmask (BuildBuffer.data_array by_batch)) j).
Proof.
  intros sz n old H0 Hn Hcap Hin Hdata Hsrc by_rows by_batch.
  subst old n. fold sz in Hdata, Hsrc.
  assert (Hgen : by_rows
                 = BuildBuffer.UnsafeAppendBatch_NULLABLE_general b in_arr).
  { subst by_rows.
    pose proof (append_rows_prefix b in_arr
                  (Z.to_nat (BuildBuffer.arr_length in_arr))) as H.
    cbn zeta in H. rewrite Z2Nat.id in H by lia.
    rewrite H by assumption.
    unfold BuildBuffer.UnsafeAppendBatch_NULLABLE_general,
      BuildBuffer.append_null_bitmap_slow.
    rewrite bit_loop_set_data1. reflexivity. }
  assert (Hun : Z.land (BuildBuffer.size b) 7 <> 0%Z -> by_rows = by_batch).
  { intros Hal. rewrite Hgen. subst by_batch.
    unfold BuildBuffer.UnsafeAppendBatch_NULLABLE,
      BuildBuffer.UnsafeAppendBatch_NULLABLE_general.
    rewrite decide_False by exact Hal. reflexivity. }
  split_and!; [exact Hgen|exact Hun|..].
  all: destruct (decide (Z.land (BuildBuffer.size b) 7 = 0%Z)) as [Hal|Hal];
    [|rewrite (Hun Hal); try reflexivity; intros; reflexivity].
  all: rewrite Hgen; subst by_batch;
    unfold BuildBuffer.UnsafeAppendBatch_NULLABLE,
      BuildBuffer.UnsafeAppendBatch_NULLABLE_general;
    rewrite decide_True by exact Hal;
    set (a1 := BuildBuffer.set_data1 (BuildBuffer.data_array b) _);
    assert (Ha1 : BuildBuffer.arr_length a1 = BuildBuffer.size b)
      by reflexivity;
    assert (Hb1 : BuildBuffer.null_bitmask a1
                  = BuildBuffer.null_bitmask (BuildBuffer.data_array b))
      by reflexivity;
    clearbody a1;
    (destruct (append_null_bitmap_fast_spec a1 in_arr) as (Hf1 & Hf2 & Hf3);
       rewrite ?Ha1, ?Hb1; try assumption);
    (destruct (append_null_bitmap_slow_spec a1 in_arr) as (Hs1 & Hs2 & Hs3);
       rewrite ?Ha1, ?Hb1; try assumption);
    unfold BuildBuffer.size, BuildBuffer.with_array in *;
    cbn [BuildBuffer.data_array] in *.
  all: try (rewrite Hf1, Hs1; reflexivity).
  all: try (rewrite Hf2, Hs2; reflexivity).
  intros j Hj. rewrite Hf1 in Hj. rewrite Hf3 by exact Hj.
  rewrite Hs3 by lia.
  destruct (decide (BuildBuffer.arr_length a1 <= j)%Z).
  - rewrite decide_True by lia. reflexivity.
  - rewrite decide_False by lia. reflexivity.
Qed.

Lemma row_appends_make_the_batch_append_witness :
  BuildBuffer.UnsafeAppendRows_NULLABLE BuildBuffer.example_buffer_unaligned
    BuildBuffer.example_batch [0; 1; 2]%Z
  = BuildBuffer.UnsafeAppendBatch_NULLABLE
      BuildBuffer.example_buffer_unaligned BuildBuffer.example_batch.
Proof.
  pose proof (row_appends_make_the_batch_append
                BuildBuffer.example_buffer_unaligned
                BuildBuffer.example_batch) as H.
  cbn zeta in H.
  destruct H as (_ & H & _); [vm_compute; congruence..|].
  apply H. vm_compute. congruence.
Defined.

Lemma filtered_append_is_selected_rows_size
    (b : BuildBuffer.ArrayBuildBuffer) (in_arr : BuildBuffer.array_info)
    (append_rows : list bool) (append_rows_sum : Z) :
  BuildBuffer.dtype in_arr = BuildBuffer.dtype (BuildBuffer.data_array b) ->
  let r := BuildBuffer.UnsafeAppendBatch_NULLABLE_rows b in_arr append_rows
             append_rows_sum in
  let selected := BuildBuffer.selected_rows in_arr append_rows in
  r = BuildBuffer.UnsafeAppendRows_NULLABLE b in_arr selected
  /\ BuildBuffer.size r = (BuildBuffer.size b + Z.of_nat (length selected))%Z.
Proof.
  intros Hdt r selected.
  assert (Hr : r = BuildBuffer.UnsafeAppendRows_NULLABLE b in_arr selected).
  { subst r selected.
    unfold BuildBuffer.UnsafeAppendBatch_NULLABLE_rows,
      BuildBuffer.UnsafeAppendRows_NULLABLE, BuildBuffer.selected_rows.
    rewrite fold_left_filter.
    rewrite <- (filtered_append_rows in_arr append_rows append_rows_sum
                  (Zseq (BuildBuffer.arr_length in_arr)) b Hdt).
    cbn zeta.
    destruct (fold_left _ (Zseq (BuildBuffer.arr_length in_arr))
                (BuildBuffer.data1 (BuildBuffer.data_array b),
                 BuildBuffer.size b)) as [d ds].
    reflexivity. }
  split; [exact Hr|]. rewrite Hr.
  apply (append_rows_size in_arr selected b).
Qed.

(** The filtered [UnsafeAppendBatch] on a nullable fixed-width column of the
    dtype of the buffer, called with [append_rows_sum] the number of rows
    that [append_rows] selects and with the room its two [SetSize] calls ask
    for reserved, leaves the buffer as appending the selected rows one at a
    time, in row order, leaves it; the size grows by [append_rows_sum]. *)
Theorem filtered_append_is_selected_rows
    (b : BuildBuffer.ArrayBuildBuffer) (in_arr : BuildBuffer.array_info)
    (append_rows : list bool) (append_rows_sum : Z) :
  let sz :=
    BuildBuffer.numpy_item_size
      (BuildBuffer.dtype (BuildBuffer.data_array b)) in
  let selected := BuildBuffer.selected_rows in_arr append_rows in
  BuildBuffer.dtype in_arr = BuildBuffer.dtype (BuildBuffer.data_array b) ->
  (0 <= BuildBuffer.size b)%Z ->
  append_rows_sum = Z.of_nat (length selected) ->
  BuildBuffer.has_room b sz append_rows_sum ->
  let r := BuildBuffer.UnsafeAppendBatch_NULLABLE_rows b in_arr append_rows
             append_rows_sum in
  r = BuildBuffer.UnsafeAppendRows_NULLABLE b in_arr selected
  /\ BuildBuffer.size r = (BuildBuffer.size b + append_rows_sum)%Z.
Proof.
  intros sz selected Hdt Hsize Hsum Hroom r.
  destruct (filtered_append_is_selected_rows_size b in_arr append_rows
              append_rows_sum Hdt) as [Hr Hs].
  split; [exact Hr|]. rewrite Hsum. exact Hs.
Qed.

Lemma filtered_append_is_selected_rows_witness :
  BuildBuffer.UnsafeAppendBatch_NULLABLE_rows
    BuildBuffer.example_buffer_unaligned BuildBuffer.example_batch
    [true; false; true] 2
  = BuildBuffer.UnsafeAppendRows_NULLABLE
      BuildBuffer.example_buffer_unaligned BuildBuffer.example_batch
      [0; 2]%Z.
Proof.
  apply (filtered_append_is_selected_rows
           BuildBuffer.example_buffer_unaligned BuildBuffer.example_batch
           [true; false; true] 2).
  - reflexivity.
  - vm_compute. congruence.
  - reflexivity.
  - split; vm_compute; congruence.
Defined.

Lemma nullable_append_size (b : BuildBuffer.ArrayBuildBuffer)
    (in_arr : BuildBuffer.array_info) :
  (0 <= BuildBuffer.arr_length in_arr)%Z ->
  BuildBuffer.size (BuildBuffer.UnsafeAppendBatch_NULLABLE b in_arr)
  = (BuildBuffer.size b + BuildBuffer.arr_length in_arr)%Z.
Proof.
  intros Hn. unfold BuildBuffer.UnsafeAppendBatch_NULLABLE.
  destruct (decide _) as [Hal|Hal]; unfold BuildBuffer.size; cbn.
  - reflexivity.
  - unfold BuildBuffer.append_null_bitmap_slow.
    rewrite (bit_loop_length (BuildBuffer.null_bitmask in_arr)).
    rewrite length_Zseq. cbn. lia.
Qed.

(** The appends to a dictionary-encoded column whose dictionary is the
    dictionary object of the buffer, with the room their [SetSize] calls ask
    for reserved in the index buffer, return, and move the length of the
    column and the size of its index buffer as follows: a batch adds the
    length of the batch to the first and the length of its index array to
    the second; a filtered batch adds [append_rows_sum] to the first and the
    number of selected rows to the second; a row adds one to both. So two
    lengths that were equal are equal after a filtered append exactly when
    [append_rows_sum] is the number of selected rows. *)
Theorem dict_append_length_bookkeeping (b : BuildBuffer.DictBuildBuffer)
    (in_arr : BuildBuffer.dict_array_info) (append_rows : list bool)
    (append_rows_sum row_ind : Z) :
  let idx := BuildBuffer.dict_indices b in
  let in_idx := BuildBuffer.child_indices in_arr in
  let sz := BuildBuffer.numpy_item_size (BuildBuffer.dtype in_idx) in
  let n_selected :=
    Z.of_nat (length (BuildBuffer.selected_rows in_idx append_rows)) in
  BuildBuffer.dict_ptr (BuildBuffer.dict_data_dictionary b)
  = BuildBuffer.dict_ptr (BuildBuffer.child_dictionary in_arr) ->
  BuildBuffer.dtype in_idx = BuildBuffer.dtype (BuildBuffer.data_array idx) ->
  (0 <= BuildBuffer.size idx)%Z ->
  (0 <= BuildBuffer.arr_length in_idx)%Z ->
  (BuildBuffer.has_room idx sz (BuildBuffer.arr_length in_idx) ->
   exists b',
     BuildBuffer.UnsafeAppendBatch_DICT b in_arr = Returns b'
     /\ BuildBuffer.dict_data_length b'
        = (BuildBuffer.dict_data_length b + BuildBuffer.dict_length in_arr)%Z
     /\ BuildBuffer.size (BuildBuffer.dict_indices b')
        = (BuildBuffer.size idx + BuildBuffer.arr_length in_idx)%Z)
  /\ ((0 <= append_rows_sum)%Z ->
      BuildBuffer.has_room idx sz append_rows_sum ->
      BuildBuffer.has_room idx sz n_selected ->
      exists b',
        BuildBuffer.UnsafeAppendBatch_DICT_rows b in_arr append_rows
          append_rows_sum = Returns b'
        /\ BuildBuffer.dict_data_length b'
           = (BuildBuffer.dict_data_length b + append_rows_sum)%Z
        /\ BuildBuffer.size (BuildBuffer.dict_indices b')
           = (BuildBuffer.size idx + n_selected)%Z
        /\ (BuildBuffer.dict_data_length b = BuildBuffer.size idx ->
            (BuildBuffer.dict_data_length b'
             = BuildBuffer.size (BuildBuffer.dict_indices b')
             <-> append_rows_sum = n_selected)))
  /\ (BuildBuffer.has_room idx sz 1 ->
      exists b',
        BuildBuffer.UnsafeAppendRow_DICT b in_arr row_ind = Returns b'
        /\ BuildBuffer.dict_data_length b'
           = (BuildBuffer.dict_data_length b + 1)%Z
        /\ BuildBuffer.size (BuildBuffer.dict_indices b')
           = (BuildBuffer.size idx + 1)%Z).
Proof.
  intros idx in_idx sz n_selected Hptr Hdt Hsize Hn.
  subst idx in_idx sz n_selected.
  unfold BuildBuffer.UnsafeAppendBatch_DICT,
    BuildBuffer.UnsafeAppendBatch_DICT_rows, BuildBuffer.UnsafeAppendRow_DICT,
    BuildBuffer.is_matching_dictionary.
  rewrite bool_decide_eq_true_2 by exact Hptr. cbn [negb].
  split_and!.
  - intros _. eexists. split; [reflexivity|].
    cbn [BuildBuffer.dict_data_length BuildBuffer.dict_indices].
    split; [reflexivity|]. apply nullable_append_size. exact Hn.
  - intros _ _ _. eexists. split; [reflexivity|].
    cbn [BuildBuffer.dict_data_length BuildBuffer.dict_indices].
    destruct (filtered_append_is_selected_rows_size
                (BuildBuffer.dict_indices b)
                (BuildBuffer.child_indices in_arr) append_rows
                append_rows_sum Hdt) as [_ Hs].
    rewrite Hs.
    split_and!; [reflexivity|reflexivity|]. intros Heq. lia.
  - intros _. eexists. split; [reflexivity|].
    cbn [BuildBuffer.dict_data_length BuildBuffer.dict_indices].
    split; reflexivity.
Qed.

Lemma dict_append_length_bookkeeping_witness :
  exists b',
    BuildBuffer.UnsafeAppendBatch_DICT_rows BuildBuffer.example_dict_buffer
      BuildBuffer.example_dict_batch_unified [true; false] 1 = Returns b'
    /\ BuildBuffer.dict_data_length b'
       = (BuildBuffer.dict_data_length BuildBuffer.example_dict_buffer + 1)%Z
    /\ BuildBuffer.size (BuildBuffer.dict_indices b')
       = (BuildBuffer.size
            (BuildBuffer.dict_indices BuildBuffer.example_dict_buffer) + 1)%Z.
Proof.
  pose proof (dict_append_length_bookkeeping BuildBuffer.example_dict_buffer
                BuildBuffer.example_dict_batch_unified [true; false] 1 0) as H.
  cbn zeta in H.
  destruct H as (_ & H & _);
    [reflexivity|reflexivity|vm_compute; congruence..|].
  destruct H as (b' & H1 & H2 & H3 & _);
    [lia|split; vm_compute; congruence..|].
  exists b'. split_and!; [exact H1|exact H2|exact H3].
Defined.

(* --------------------------------------------------------------------- *)
(** ** Output types and null bits of the aggregate columns                *)
(* --------------------------------------------------------------------- *)

(** The type [get_groupby_output_dtype] gives is a fixed point: asking for
    the output type of a column that already has the output type of the
    function changes nothing. A key column keeps its type, and the combine
    variant is the function on the tag [get_combine_func] returns. *)
Theorem output_dtype_is_stable
    (get_combine_func : Bodo_FTypes -> Bodo_FTypes) (ftype : Bodo_FTypes)
    (array_type : arr_type_enum) (dtype : CTypeEnum) (is_key : bool) :
  let out :=
    GroupbyCommon.get_groupby_output_dtype get_combine_func ftype array_type
      dtype is_key false in
  GroupbyCommon.get_groupby_output_dtype get_combine_func ftype out.1 out.2
    is_key false = out
  /\ GroupbyCommon.get_groupby_output_dtype get_combine_func ftype array_type
       dtype true false = (array_type, dtype)
  /\ GroupbyCommon.get_groupby_output_dtype get_combine_func ftype array_type
       dtype is_key true
     = GroupbyCommon.get_groupby_output_dtype get_combine_func
         (get_combine_func ftype) array_type dtype is_key false.
Proof.
  cbn zeta. split_and!; [|reflexivity|reflexivity].
  unfold GroupbyCommon.get_groupby_output_dtype.
  destruct is_key; [reflexivity|].
  destruct ftype; try reflexivity; destruct dtype; reflexivity.
Qed.

Section InitFacts.
Import GroupbyCommon.
Local Open Scope Z_scope.

(** The data part of the kernel leaves the null bitmap alone. *)
Lemma kernel_null_bitmask (out_col : array_info) (ftype : Bodo_FTypes)
    (use_sql_rules : bool) :
  null_bitmask (aggfunc_output_initialize_kernel out_col ftype use_sql_rules).1
  = if decide (arr_type out_col = NULLABLE_INT_BOOL) then
      replicate (Z.to_nat (arr_length out_col))
        (if use_sql_rules then bool_decide (ftype = ft_count)
         else bool_decide
                (ftype ∉ [ft_min; ft_max; ft_first; ft_last; boolor_agg;
                          ft_mean; ft_var; ft_std; ft_median]))
      ++ drop (Z.to_nat (arr_length out_col)) (null_bitmask out_col)
    else if decide (arr_type out_col = STRING
                    \/ arr_type out_col = LIST_STRING) then
      replicate (Z.to_nat (arr_length out_col)) false
      ++ drop (Z.to_nat (arr_length out_col)) (null_bitmask out_col)
    else null_bitmask out_col.
Proof.
  destruct out_col as [ty dt n nc d bm].
  unfold aggfunc_output_initialize_kernel.
  cbn [arr_type dtype arr_length num_categories data1 null_bitmask].
  destruct ty; cbn -[replicate drop Z.to_nat];
    destruct ftype; cbn -[replicate drop Z.to_nat];
    destruct use_sql_rules; cbn -[replicate drop Z.to_nat];
    destruct dt; reflexivity.
Qed.
End InitFacts.

(** [aggfunc_output_initialize] sets the null bit of every row of the output
    column. On a nullable column under the SQL rules every row starts null
    unless the function is [count]; under the Pandas rules every row starts
    null for min, max, first, last, boolor_agg, mean, var, std and median and
    valid for any other function. On a string column every row starts null.
    On any other column the null bit of every row is left as it was. Nothing
    is said of the bits past the length of the column. *)
Theorem aggfunc_initialize_null_bits (out_col : GroupbyCommon.array_info)
    (ftype : Bodo_FTypes) (use_sql_rules : bool) (i : nat) :
  (0 <= GroupbyCommon.arr_length out_col
   <= Z.of_nat (length (GroupbyCommon.null_bitmask out_col)))%Z ->
  let out :=
    (GroupbyCommon.aggfunc_output_initialize out_col ftype use_sql_rules).1 in
  let old := GroupbyCommon.null_bitmask out_col in
  let new := GroupbyCommon.null_bitmask out in
  (Z.of_nat i < GroupbyCommon.arr_length out_col)%Z ->
  new !! i
  = if decide (GroupbyCommon.arr_type out_col = NULLABLE_INT_BOOL) then
      Some (if use_sql_rules then bool_decide (ftype = ft_count)
            else bool_decide
                   (ftype ∉ [ft_min; ft_max; ft_first; ft_last;
                             boolor_agg; ft_mean; ft_var; ft_std;
                             ft_median]))
    else if decide (GroupbyCommon.arr_type out_col = STRING
                    \/ GroupbyCommon.arr_type out_col = LIST_STRING)
         then Some false
         else old !! i.
Proof.
  intros Hlen out old new Hi. subst out old new.
  unfold GroupbyCommon.aggfunc_output_initialize.
  rewrite kernel_null_bitmask.
  set (n := Z.to_nat (GroupbyCommon.arr_length out_col)).
  assert (Hn : (n <= length (GroupbyCommon.null_bitmask out_col))%nat) by lia.
  assert (Hfill : forall v : bool,
            (replicate n v ++ drop n (GroupbyCommon.null_bitmask out_col))
              !! i = Some v).
  { intros v. rewrite lookup_app_l by (rewrite length_replicate; lia).
    apply lookup_replicate_2. lia. }
  destruct (decide (GroupbyCommon.arr_type out_col = NULLABLE_INT_BOOL)).
  - apply Hfill.
  - destruct (decide (GroupbyCommon.arr_type out_col = STRING
                      \/ GroupbyCommon.arr_type out_col = LIST_STRING)).
    + apply Hfill.
    + reflexivity.
Qed.

Lemma aggfunc_initialize_null_bits_witness :
  GroupbyCommon.null_bitmask
    (GroupbyCommon.aggfunc_output_initialize GroupbyCommon.example_out_col
       ft_sum true).1 !! 1%nat = Some false
  /\ GroupbyCommon.null_bitmask
       (GroupbyCommon.aggfunc_output_initialize GroupbyCommon.example_out_col
          ft_sum false).1 !! 1%nat = Some true.
Proof.
  split.
  - pose proof (aggfunc_initialize_null_bits GroupbyCommon.example_out_col
                  ft_sum true 1) as H.
    cbn zeta in H. rewrite H by (cbn; lia). reflexivity.
  - pose proof (aggfunc_initialize_null_bits GroupbyCommon.example_out_col
                  ft_sum false 1) as H.
    cbn zeta in H. rewrite H by (cbn; lia). reflexivity.
Defined.

(* --------------------------------------------------------------------- *)
(** ** The keys a build table holds                                       *)
(* --------------------------------------------------------------------- *)
Section BuildKeysFacts.
Import StreamGroupby.
Local Open Scope Z_scope.
Lemma add_key_NoDup ks k : NoDup ks -> NoDup (add_key ks k).
Proof.
  intros H. unfold add_key. destruct (decide (k ∈ ks)); [exact H|].
  apply NoDup_app. split_and!; [exact H| |apply NoDup_singleton].
  intros x Hx Hk. apply list_elem_of_singleton in Hk. subst x. tauto.
Qed.

Lemma fold_add_key_NoDup l : forall ks,
  NoDup ks -> NoDup (fold_left add_key l ks).
Proof.
  induction l as [|k l IH]; intros ks H; [exact H|].
  cbn [fold_left]. apply IH, add_key_NoDup, H.
Qed.

Variable hash : list cell -> Z.

Lemma find_group_elem n b k g :
  find_group n b k = Some g -> k ∈ build_keys n b.
Proof.
  intros Hf. destruct (find_group_Some _ _ _ _ Hf) as [Hr Hk].
  eapply list_elem_of_lookup_2 with (i := Z.to_nat g).
  rewrite build_keys_lookup by lia. now rewrite Hk.
Qed.

Lemma find_group_not_elem n b k :
  0 <= next_group b ->
  find_group n b k = None -> k ∉ build_keys n b.
Proof.
  intros H0 Hf Hin. apply list_elem_of_lookup_1 in Hin as [g Hg].
  pose proof (lookup_lt_Some _ _ _ Hg) as Hlt.
  rewrite build_keys_length in Hlt.
  rewrite build_keys_lookup in Hg by exact Hlt. injection Hg as Hg.
  exact (find_group_None _ _ _ Hf g Hlt Hg).
Qed.

Lemma with_new_key_keys n b t i :
  build_inv hash n b ->
  build_keys n (with_new_key hash n b t i)
  = build_keys n b ++ [row_keys t n i].
Proof.
  intros (H0 & Hlen & Hcols & _ & _).
  destruct (append_row_buffer (table_buffer b) t i n
              (Z.to_nat (next_group b)) Hlen Hcols) as (_ & _ & Hrows).
  cbn zeta in Hrows.
  unfold build_keys, with_new_key. cbn [next_group table_buffer].
  replace (Z.to_nat (next_group b + 1)) with (S (Z.to_nat (next_group b)))
    by lia.
  rewrite seq_S, fmap_app. cbn [fmap list_fmap Nat.add].
  f_equal.
  - apply list_fmap_ext. intros j g Hg.
    apply lookup_seq in Hg as [-> Hlt]. cbn [Nat.add].
    rewrite Hrows by lia. rewrite decide_False by lia. reflexivity.
  - rewrite Hrows by lia. rewrite decide_True by reflexivity. reflexivity.
Qed.

(** One call of [update_groups] adds the key of the row when the table
    does not hold it. *)
Lemma update_groups_keys is_local st rtg (i : nat) :
  build_inv hash (n_keys st) (side is_local st) ->
  batch_inv hash st ->
  (i < nrows (in_table st))%nat ->
  build_keys (n_keys st)
    (side is_local
       (update_groups is_local st rtg (in_table st) (in_table_hashes st) i).1)
  = add_key (build_keys (n_keys st) (side is_local st))
            (row_keys (in_table st) (n_keys st) i).
Proof.
  intros Hinv Hb Hi.
  rewrite (update_groups_spec hash is_local st rtg i Hinv Hb Hi).
  unfold add_key.
  destruct (find_group _ _ _) as [g|] eqn:Hf; cbn [fst].
  - rewrite decide_True by (eapply find_group_elem; exact Hf). reflexivity.
  - rewrite decide_False
      by (apply find_group_not_elem; [apply Hinv|exact Hf]).
    rewrite side_set_side. apply with_new_key_keys. exact Hinv.
Qed.

Lemma run_ops_keys is_local ops : forall st,
  build_inv hash (n_keys st) (side is_local st) ->
  batch_inv hash st ->
  build_keys (n_keys st) (side is_local (run_ops hash is_local st ops))
  = fold_left add_key (looked_up_keys (n_keys st) (in_table st) ops)
              (build_keys (n_keys st) (side is_local st)).
Proof.
  induction ops as [|o ops IH]; intros st Hinv Hb; [reflexivity|].
  change (run_ops hash is_local st (o :: ops))
    with (run_ops hash is_local (run_op hash is_local st o) ops).
  destruct (run_op_inv hash is_local st o Hinv Hb) as (Hn & Hinv' & Hb' & _).
  cbv zeta in *.
  specialize (IH (run_op hash is_local st o)).
  rewrite Hn in IH, Hinv'. rewrite (IH Hinv' Hb'). clear IH.
  destruct o as [t|i]; cbn [run_op looked_up_keys].
  - assert (Hs : side is_local (with_batch hash st t) = side is_local st)
      by now destruct is_local.
    rewrite Hs. reflexivity.
  - destruct (decide (i < nrows (in_table st))%nat) as [Hi|Hi];
      [|reflexivity].
    cbn [fold_left].
    rewrite (update_groups_keys is_local st [] i Hinv Hb Hi).
    assert (Ht : in_table
                   (update_groups is_local st [] (in_table st)
                      (in_table_hashes st) i).1 = in_table st).
    { rewrite (update_groups_spec hash is_local st [] i Hinv Hb Hi).
      destruct (find_group _ _ _); cbn [fst]; [reflexivity|].
      apply set_side_fields. }
    rewrite Ht. reflexivity.
Qed.
End BuildKeysFacts.

(** On a build table of the streaming groupby reached from the empty table
    by any calls of [update_groups], the key rows of the table are the keys
    of the rows looked up, each once, in the order of their first lookup;
    there is one group per key, the stored hash of a group is the hash of
    its key, and the hash map sends the row of group [g] to [g]. *)
Theorem build_table_holds_first_occurrences
    (hash : list StreamGroupby.cell -> Z) (n_keys : nat)
    (col_sets : list StreamGroupby.ColSet) (parallel is_local : bool)
    (ops : list StreamGroupby.table_op) :
  let st :=
    StreamGroupby.run_ops hash is_local
      (StreamGroupby.groupby_state_init n_keys col_sets parallel) ops in
  let tbl := StreamGroupby.side is_local st in
  let keys := StreamGroupby.build_keys n_keys tbl in
  keys = StreamGroupby.first_occurrences
           (StreamGroupby.looked_up_keys n_keys [] ops)
  /\ NoDup keys
  /\ StreamGroupby.next_group tbl = Z.of_nat (length keys)
  /\ StreamGroupby.groupby_hashes tbl = hash <$> keys
  /\ StreamGroupby.build_table tbl
     = (fun g => (g, g)) <$> Zseq (StreamGroupby.next_group tbl).
Proof.
  intros st tbl keys.
  destruct (init_inv hash n_keys col_sets parallel is_local) as [Hinit Hbinit].
  destruct (run_ops_inv hash is_local ops _ Hinit Hbinit)
    as (Hn & Hinv & _).
  fold st in Hn, Hinv. cbn in Hn. rewrite Hn in Hinv. fold tbl in Hinv.
  pose proof (run_ops_keys hash is_local ops _ Hinit Hbinit) as Hk.
  cbn [StreamGroupby.n_keys StreamGroupby.groupby_state_init
       StreamGroupby.in_table] in Hk.
  fold st in Hk. fold tbl in Hk. fold keys in Hk.
  assert (H0 : StreamGroupby.build_keys n_keys
                 (StreamGroupby.side is_local
                    (StreamGroupby.groupby_state_init n_keys col_sets parallel))
               = []) by (destruct is_local; reflexivity).
  rewrite H0 in Hk.
  destruct Hinv as (Hnn & _ & _ & Hh & Hm).
  split_and!.
  - exact Hk.
  - rewrite Hk. unfold StreamGroupby.first_occurrences.
    apply fold_add_key_NoDup. constructor.
  - subst keys. rewrite build_keys_length. lia.
  - exact Hh.
  - exact Hm.
Qed.

(* --------------------------------------------------------------------- *)
(** ** Group ids over the lifetime of a build table                       *)
(* --------------------------------------------------------------------- *)
Section GroupIdFacts.
Import StreamGroupby.
Local Open Scope Z_scope.
Variable hash : list cell -> Z.




End GroupIdFacts.




(* --------------------------------------------------------------------- *)
(** ** The keys one process collects from its batches                     *)
(* --------------------------------------------------------------------- *)
Section ConsumeKeysFacts.
Import StreamGroupby.
Local Open Scope Z_scope.

Lemma elem_of_add_key ks k x : x ∈ add_key ks k <-> x ∈ ks \/ x = k.
Proof.
  unfold add_key. destruct (decide (k ∈ ks)) as [Hin|Hin].
  - split; [auto|]. intros [H| ->]; assumption.
  - rewrite elem_of_app, list_elem_of_singleton. reflexivity.
Qed.

Lemma elem_of_fold_add_key l : forall ks x,
  x ∈ fold_left add_key l ks <-> x ∈ ks \/ x ∈ l.
Proof.
  induction l as [|k l IH]; intros ks x; cbn [fold_left].
  - rewrite elem_of_nil. tauto.
  - rewrite IH, elem_of_add_key, elem_of_cons. tauto.
Qed.

(** Folding the first occurrences of a list of keys into a table is
    folding the list itself. *)
Lemma fold_add_key_first_occurrences ks : forall pre acc,
  fold_left add_key (fold_left add_key ks pre) acc
  = fold_left add_key ks (fold_left add_key pre acc).
Proof.
  induction ks as [|k ks IH]; intros pre acc; [reflexivity|].
  cbn [fold_left]. rewrite IH. f_equal.
  unfold add_key at 2. destruct (decide (k ∈ pre)) as [Hin|Hin].
  - unfold add_key. rewrite decide_True; [reflexivity|].
    apply elem_of_fold_add_key. now right.
  - rewrite fold_left_app. reflexivity.
Qed.

Lemma fold_first_occurrences ks acc :
  fold_left add_key (first_occurrences ks) acc = fold_left add_key ks acc.
Proof. apply (fold_add_key_first_occurrences ks [] acc). Qed.

Variable hash : list cell -> Z.

(** The loop over the rows of a batch that all stay on the process. *)
Lemma insert_rows_ref_keys (rows : list nat) : forall st lg,
  build_inv hash (n_keys st) (local_state st) ->
  let r := fold_left (insert_row_ref hash) rows (st, lg) in
  n_keys r.1 = n_keys st
  /\ col_sets r.1 = col_sets st
  /\ parallel r.1 = parallel st
  /\ in_table r.1 = in_table st
  /\ in_table_hashes r.1 = in_table_hashes st
  /\ shuffle_state r.1 = shuffle_state st
  /\ build_iter r.1 = build_iter st
  /\ build_inv hash (n_keys st) (local_state r.1)
  /\ build_keys (n_keys st) (local_state r.1)
     = fold_left add_key (row_keys (in_table st) (n_keys st) <$> rows)
                 (build_keys (n_keys st) (local_state st)).
Proof.
  induction rows as [|i rows IH]; intros st lg Hinv; cbn zeta.
  - cbn. split_and!; try reflexivity. exact Hinv.
  - cbn [fold_left fmap list_fmap].
    assert (Hstep : insert_row_ref hash (st, lg) i
                    = match find_group (n_keys st) (local_state st)
                              (row_keys (in_table st) (n_keys st) i) with
                      | Some g => (st, <[i := g]> lg)
                      | None =>
                          (set_side true st
                             (with_new_key hash (n_keys st) (local_state st)
                                (in_table st) i),
                           <[i := next_group (local_state st)]> lg)
                      end) by reflexivity.
    rewrite Hstep. clear Hstep.
    destruct (find_group _ _ _) as [g|] eqn:Hf.
    + destruct (IH st (<[i := g]> lg) Hinv) as (H1&H2&H3&H4&H5&H6&H7&H8&H9).
      cbn zeta in *. split_and!; try assumption.
      rewrite H9. f_equal. unfold add_key.
      rewrite decide_True by (eapply find_group_elem; exact Hf). reflexivity.
    + pose proof (IH (set_side true st
                        (with_new_key hash (n_keys st) (local_state st)
                           (in_table st) i))
                    (<[i := next_group (local_state st)]> lg)) as IH1.
      cbn [set_side n_keys col_sets parallel in_table in_table_hashes
           shuffle_state build_iter local_state] in IH1.
      destruct IH1 as (H1&H2&H3&H4&H5&H6&H7&H8&H9);
        [apply with_new_key_inv; exact Hinv|].
      cbn [set_side].
      split_and!; try assumption.
      rewrite H9. f_equal.
      rewrite with_new_key_keys by exact Hinv.
      unfold add_key.
      rewrite decide_False
        by (apply find_group_not_elem; [apply Hinv|exact Hf]).
      reflexivity.
Qed.

(** [combine_input_table] writes no key column. *)
Lemma combine_input_table_keys st (buf : table_info) s (t : table_info) g :
  length (combine_input_table st buf s t g) = length buf
  /\ take (n_keys st) (combine_input_table st buf s t g)
     = take (n_keys st) buf
  /\ forall r, row_keys (combine_input_table st buf s t g) (n_keys st) r
               = row_keys buf (n_keys st) r.
Proof.
  unfold combine_input_table.
  assert (Hcol : forall c, (c < n_keys st)%nat ->
            imap
              (fun c col =>
                 match col_sets st !! (c - n_keys st)%nat with
                 | Some cs =>
                     if decide (n_keys st <= c)%nat then
                       fold_left
                         (fun out r =>
                            let g0 := default (-1) (g !! r) in
                            if decide (0 <= g0) then
                              <[Z.to_nat g0 :=
                                  cs_combine cs
                                    (default CNull (out !! Z.to_nat g0))
                                    (cell_at t c r)]> out
                            else out)
                         (seq 0 (nrows t))
                         (imap (fun g1 v =>
                                  if decide (s <= Z.of_nat g1)
                                  then cs_identity cs else v) col)
                     else col
                 | None => col
                 end) buf !! c = buf !! c).
  { intros c Hc. rewrite list_lookup_imap.
    destruct (buf !! c) as [col|]; [|reflexivity]. cbn.
    destruct (col_sets st !! (c - n_keys st)%nat); [|reflexivity].
    rewrite decide_False by lia. reflexivity. }
  split_and!.
  - apply length_imap.
  - apply list_eq. intros c. rewrite !lookup_take.
    destruct (decide (c < n_keys st)%nat) as [Hc|Hc]; [|reflexivity].
    apply Hcol. exact Hc.
  - intros r. unfold row_keys. apply list_fmap_ext. intros j c Hc.
    apply lookup_seq in Hc as [-> Hlt]. cbn [Nat.add].
    unfold cell_at. rewrite Hcol by exact Hlt. reflexivity.
Qed.

Lemma set_buffer_combine_inv st b s (t : table_info) g :
  build_inv hash (n_keys st) b ->
  build_inv hash (n_keys st)
    (set_buffer b (combine_input_table st (table_buffer b) s t g))
  /\ build_keys (n_keys st)
       (set_buffer b (combine_input_table st (table_buffer b) s t g))
     = build_keys (n_keys st) b.
Proof.
  intros (H0 & Hlen & Hcols & Hh & Hm).
  destruct (combine_input_table_keys st (table_buffer b) s t g)
    as (Hl & Ht & Hr).
  assert (Hk : build_keys (n_keys st)
                 (set_buffer b (combine_input_table st (table_buffer b) s t g))
               = build_keys (n_keys st) b).
  { unfold build_keys, set_buffer. cbn [next_group table_buffer].
    apply list_fmap_ext. intros j r _. apply Hr. }
  split; [|exact Hk].
  unfold build_inv. rewrite Hk.
  unfold set_buffer. cbn [next_group table_buffer groupby_hashes build_table].
  rewrite Hl, Ht. split_and!; assumption.
Qed.

Lemma nrows_replicate_nil nc : nrows (replicate nc ([] : list cell)) = 0%nat.
Proof. destruct nc; reflexivity. Qed.

(** Rows that belong to no group of the table leave it alone: on a buffer
    with no rows [combine_input_table] changes nothing. *)
Lemma combine_input_table_empty st nc s (t : table_info) m :
  combine_input_table st (replicate nc []) s t (replicate m (-1))
  = replicate nc [].
Proof.
  unfold combine_input_table. apply list_eq. intros c.
  rewrite list_lookup_imap.
  destruct (decide (c < nc)%nat) as [Hc|Hc].
  - rewrite lookup_replicate_2 by exact Hc. cbn.
    destruct (col_sets st !! (c - n_keys st)%nat) as [cs|]; [|reflexivity].
    destruct (decide (n_keys st <= c)%nat); [|reflexivity].
    f_equal. cbn [imap].
    induction (seq 0 (nrows t)) as [|r rows IH]; [reflexivity|].
    cbn [fold_left].
    assert (Hg : default (-1) (replicate m (-1) !! r) = -1).
    { destruct (replicate m (-1) !! r) as [x|] eqn:Hx; [|reflexivity].
      apply lookup_replicate in Hx as [-> _]. reflexivity. }
    rewrite Hg. rewrite decide_False by lia. exact IH.
  - rewrite (lookup_ge_None_2 (replicate nc [])) by (rewrite length_replicate; lia).
    reflexivity.
Qed.

Lemma batch_groups_fold (t : table_info) (n : nat) (rows : list nat) :
  forall firsts rtg,
  row_keys t n
    <$> (fold_left
           (fun (acc : list nat * list nat) r =>
              let '(firsts, row_to_group) := acc in
              match list_find (fun f => row_keys t n f = row_keys t n r)
                              firsts with
              | Some (g, _) => (firsts, row_to_group ++ [g])
              | None => (firsts ++ [r], row_to_group ++ [length firsts])
              end) rows (firsts, rtg)).1
  = fold_left add_key (row_keys t n <$> rows) (row_keys t n <$> firsts).
Proof.
  induction rows as [|r rows IH]; intros firsts rtg; [reflexivity|].
  cbn [fold_left fmap list_fmap].
  destruct (list_find _ firsts) as [[g f]|] eqn:Hf.
  - rewrite IH. f_equal. unfold add_key.
    rewrite decide_True; [reflexivity|].
    apply list_find_Some in Hf as (Hg & Hk & _).
    rewrite <- Hk. apply list_elem_of_fmap. exists f.
    split; [reflexivity|eapply list_elem_of_lookup_2; exact Hg].
  - rewrite IH. f_equal. unfold add_key.
    rewrite decide_False.
    + rewrite fmap_app. reflexivity.
    + intros Hin. apply list_elem_of_fmap in Hin as (f & Hk & Hin).
      apply list_find_None in Hf. rewrite Forall_forall in Hf.
      apply (Hf f Hin). symmetry. exact Hk.
Qed.

(** The update table of a batch has one row per key of the batch, in the
    order of the first rows of the keys. *)
Lemma update_table_keys st (t : table_info) :
  (0 < n_keys st)%nat ->
  batch_keys (n_keys st) (get_update_table st t)
  = first_occurrences (batch_keys (n_keys st) t).
Proof.
  intros Hn. unfold first_occurrences, batch_keys.
  pose proof (batch_groups_fold t (n_keys st) (seq 0 (nrows t)) [] []) as Hb.
  cbn [fmap list_fmap] in Hb. rewrite <- Hb. clear Hb.
  unfold get_update_table.
  fold (batch_groups t (n_keys st)).
  destruct (batch_groups t (n_keys st)) as [firsts rtg]. cbn [fst].
  set (key_cols := (fun c => (fun f => cell_at t c f) <$> firsts)
                     <$> seq 0 (n_keys st)).
  set (update_cols := _ <$> col_sets st).
  assert (Hrows : nrows (key_cols ++ update_cols) = length firsts).
  { subst key_cols. destruct (n_keys st) as [|n'] eqn:E; [lia|].
    cbn. apply length_fmap. }
  rewrite Hrows.
  apply list_eq. intros r. rewrite !list_lookup_fmap.
  destruct (decide (r < length firsts)%nat) as [Hr|Hr].
  - rewrite lookup_seq_lt by exact Hr.
    destruct (lookup_lt_is_Some_2 firsts r Hr) as [f Hf]. rewrite Hf.
    cbn. f_equal. unfold row_keys. apply list_fmap_ext. intros j c Hc.
    apply lookup_seq in Hc as [-> Hlt]. cbn [Nat.add].
    unfold cell_at at 1.
    rewrite lookup_app_l by (subst key_cols; rewrite length_fmap, length_seq; exact Hlt).
    subst key_cols. rewrite list_lookup_fmap, lookup_seq_lt by exact Hlt.
    cbn. rewrite list_lookup_fmap, Hf. reflexivity.
  - rewrite lookup_seq_ge by lia.
    rewrite (lookup_ge_None_2 firsts) by lia. reflexivity.
Qed.

Variable hash_partition : list cell -> Z.
Variable shuffle_this_iter : bool -> bool -> table_info -> Z -> bool.

(** The shuffle step on a process whose shuffle buffer has no rows: the
    local table gets no new group. *)
Lemma shuffle_step_empty st3 nc :
  build_inv hash (n_keys st3) (local_state st3) ->
  shuffle_state st3 = empty_build nc ->
  let st_end :=
    let new_data := table_buffer (shuffle_state st3) in
    let st4 :=
      set_side false st3
        (set_buffer (shuffle_state st3)
           ((fun _ => []) <$> table_buffer (shuffle_state st3))) in
    let hashes := hash_keys_table hash new_data (n_keys st4) in
    let st5 := set_batch st4 new_data hashes in
    let init_start := next_group (local_state st5) in
    let '(st6, grp, _) :=
      update_all_groups (fun _ => true) st5 new_data hashes
        (replicate (nrows new_data) 0) [] in
    set_side true st6
      (set_buffer (local_state st6)
         (combine_input_table st6 (table_buffer (local_state st6))
            init_start new_data grp)) in
  n_keys st_end = n_keys st3
  /\ col_sets st_end = col_sets st3
  /\ parallel st_end = parallel st3
  /\ build_iter st_end = build_iter st3
  /\ shuffle_state st_end = empty_build nc
  /\ build_inv hash (n_keys st3) (local_state st_end)
  /\ build_keys (n_keys st3) (local_state st_end)
     = build_keys (n_keys st3) (local_state st3).
Proof.
  intros Hinv Hsh. cbv zeta. rewrite Hsh.
  cbn [empty_build table_buffer].
  unfold update_all_groups. rewrite nrows_replicate_nil. cbn [seq fold_left].
  cbn [local_state set_batch set_side n_keys col_sets parallel build_iter
       shuffle_state].
  match goal with
  | |- context [combine_input_table ?s0 _ ?i ?t0 ?g] =>
      destruct (set_buffer_combine_inv s0 (local_state st3) i t0 g Hinv)
        as [Hi Hk]
  end.
  cbn [local_state set_batch set_side n_keys] in Hi, Hk.
  split_and!; try reflexivity.
  - rewrite fmap_replicate. reflexivity.
  - exact Hi.
  - exact Hk.
Qed.

(** The end of [groupby_build_consume_batch]: the shuffle step, taken or
    not, and the iteration counter. *)
Lemma consume_tail st3 (is_last : bool) nc :
  build_inv hash (n_keys st3) (local_state st3) ->
  shuffle_state st3 = empty_build nc ->
  let st_end :=
    if shuffle_this_iter (parallel st3) is_last
         (table_buffer (shuffle_state st3)) (build_iter st3)
    then
      let new_data := table_buffer (shuffle_state st3) in
      let st4 :=
        set_side false st3
          (set_buffer (shuffle_state st3)
             ((fun _ => []) <$> table_buffer (shuffle_state st3))) in
      let hashes := hash_keys_table hash new_data (n_keys st4) in
      let st5 := set_batch st4 new_data hashes in
      let init_start := next_group (local_state st5) in
      let '(st6, grp, _) :=
        update_all_groups (fun _ => true) st5 new_data hashes
          (replicate (nrows new_data) 0) [] in
      set_side true st6
        (set_buffer (local_state st6)
           (combine_input_table st6 (table_buffer (local_state st6))
              init_start new_data grp))
    else st3 in
  let st' :=
    mk_state (n_keys st_end) (parallel st_end) (col_sets st_end)
      (local_state st_end) (shuffle_state st_end) (in_table st_end)
      (in_table_hashes st_end) (build_iter st_end + 1) in
  n_keys st' = n_keys st3
  /\ col_sets st' = col_sets st3
  /\ parallel st' = parallel st3
  /\ build_iter st' = build_iter st3 + 1
  /\ shuffle_state st' = empty_build nc
  /\ build_inv hash (n_keys st3) (local_state st')
  /\ build_keys (n_keys st3) (local_state st')
     = build_keys (n_keys st3) (local_state st3).
Proof.
  intros Hinv Hsh.
  pose proof (shuffle_step_empty st3 nc Hinv Hsh) as Hbr.
  cbv zeta in *.
  cbn [n_keys col_sets parallel build_iter shuffle_state local_state].
  destruct (shuffle_this_iter _ _ _ _).
  - destruct Hbr as (B1 & B2 & B3 & B4 & B5 & B6 & B7).
    split_and!; try assumption. congruence.
  - split_and!; try assumption; reflexivity.
Qed.

(** One call of [groupby_build_consume_batch] on one process. *)
Lemma consume_batch_keys st (in_batch : table_info) (is_last : bool) nc :
  build_inv hash (n_keys st) (local_state st) ->
  shuffle_state st = empty_build nc ->
  let st' :=
    groupby_build_consume_batch hash hash_partition shuffle_this_iter st
      in_batch is_last in
  n_keys st' = n_keys st
  /\ col_sets st' = col_sets st
  /\ parallel st' = parallel st
  /\ build_iter st' = build_iter st + 1
  /\ shuffle_state st' = empty_build nc
  /\ build_inv hash (n_keys st) (local_state st')
  /\ build_keys (n_keys st) (local_state st')
     = fold_left add_key
         (batch_keys (n_keys st) (get_update_table st in_batch))
         (build_keys (n_keys st) (local_state st)).
Proof.
  intros Hinv Hsh st'. subst st'. unfold groupby_build_consume_batch.
  cbv zeta.
  set (t := get_update_table st in_batch).
  set (st0 := set_batch st t (hash_keys_table hash t (n_keys st))).
  rewrite (update_all_groups_local hash _ st0 t
             (hash_keys_table hash t (n_keys st)));
    [|reflexivity|reflexivity|exact Hinv|reflexivity
     |intros i _; apply route_single_process].
  unfold insert_rows_ref.
  destruct (insert_rows_ref_keys (seq 0 (nrows (in_table st0))) st0
              (replicate (nrows t) (-1)) Hinv)
    as (H1 & H2 & H3 & H4 & H5 & H6 & H7 & H8 & H9).
  cbv zeta in *.
  destruct (fold_left (insert_row_ref hash) (seq 0 (nrows (in_table st0)))
              (st0, replicate (nrows t) (-1))) as [s lg].
  cbn [fst] in *.
  change (n_keys st0) with (n_keys st) in *.
  change (col_sets st0) with (col_sets st) in *.
  change (parallel st0) with (parallel st) in *.
  change (in_table st0) with t in *.
  change (shuffle_state st0) with (shuffle_state st) in *.
  change (build_iter st0) with (build_iter st) in *.
  change (local_state st0) with (local_state st) in *.
  change (row_keys t (n_keys st) <$> seq 0 (nrows t))
    with (batch_keys (n_keys st) t) in H9.
  match goal with
  | |- context [shuffle_this_iter (parallel ?X) _ _ _] => set (st3 := X)
  end.
  assert (Hn3 : n_keys st3 = n_keys st) by exact H1.
  assert (Hinv3 : build_inv hash (n_keys st3) (local_state st3)).
  { pose proof (proj1 (set_buffer_combine_inv s (local_state s)
                          (next_group (local_state st)) t lg
                          ltac:(rewrite H1; exact H8))) as Hi.
    exact Hi. }
  assert (Hk3 : build_keys (n_keys st) (local_state st3)
                = fold_left add_key (batch_keys (n_keys st) t)
                    (build_keys (n_keys st) (local_state st))).
  { rewrite <- H9, <- H1.
    exact (proj2 (set_buffer_combine_inv s (local_state s) _ t lg
                    ltac:(rewrite H1; exact H8))). }
  assert (Hsh3 : shuffle_state st3 = empty_build nc).
  { subst st3. cbn [set_side shuffle_state]. rewrite H6, Hsh.
    cbn [empty_build table_buffer next_group].
    rewrite combine_input_table_empty. reflexivity. }
  destruct (consume_tail st3 is_last nc Hinv3 Hsh3)
    as (B1 & B2 & B3 & B4 & B5 & B6 & B7).
  rewrite Hn3 in B6, B7.
  split_and!.
  - etrans; [exact B1|exact Hn3].
  - etrans; [exact B2|exact H2].
  - etrans; [exact B3|exact H3].
  - etrans; [exact B4|]. f_equal. exact H7.
  - exact B5.
  - exact B6.
  - etrans; [exact B7|exact Hk3].
Qed.
End ConsumeKeysFacts.

(** Batches consumed one after the other, from any state whose local table
    is well formed and whose shuffle table is empty. *)
Lemma consume_batches_keys (hash hash_partition : list StreamGroupby.cell -> Z)
    (shuffle_this_iter :
       bool -> bool -> StreamGroupby.table_info -> Z -> bool)
    (n : nat) nc (batches : list (StreamGroupby.table_info * bool)) :
  (0 < n)%nat ->
  forall st,
  StreamGroupby.n_keys st = n ->
  StreamGroupby.build_inv hash n (StreamGroupby.local_state st) ->
  StreamGroupby.shuffle_state st = StreamGroupby.empty_build nc ->
  let st' :=
    fold_left
      (fun s (b : StreamGroupby.table_info * bool) =>
         StreamGroupby.groupby_build_consume_batch hash hash_partition
           shuffle_this_iter s b.1 b.2)
      batches st in
  StreamGroupby.n_keys st' = n
  /\ StreamGroupby.col_sets st' = StreamGroupby.col_sets st
  /\ StreamGroupby.parallel st' = StreamGroupby.parallel st
  /\ StreamGroupby.build_iter st'
     = (StreamGroupby.build_iter st + Z.of_nat (length batches))%Z
  /\ StreamGroupby.shuffle_state st' = StreamGroupby.empty_build nc
  /\ StreamGroupby.build_inv hash n (StreamGroupby.local_state st')
  /\ StreamGroupby.build_keys n (StreamGroupby.local_state st')
     = fold_left StreamGroupby.add_key
         (concat ((fun b : StreamGroupby.table_info * bool =>
                     StreamGroupby.batch_keys n b.1) <$> batches))
         (StreamGroupby.build_keys n (StreamGroupby.local_state st)).
Proof.
  intros Hn. induction batches as [|[t l] bs IH]; intros st Hk Hinv Hsh.
  - cbn. split_and!; try reflexivity; try assumption. lia.
  - cbn zeta. cbn [fold_left fmap list_fmap concat fst snd length].
    rewrite <- Hk in Hinv.
    destruct (consume_batch_keys hash hash_partition shuffle_this_iter
                st t l nc Hinv Hsh) as (C1 & C2 & C3 & C4 & C5 & C6 & C7).
    rewrite Hk in C1, C6, C7.
    destruct (IH _ C1 C6 C5) as (D1 & D2 & D3 & D4 & D5 & D6 & D7).
    split_and!; try assumption.
    + congruence.
    + congruence.
    + rewrite D4, C4. lia.
    + rewrite D7, C7, fold_left_app. f_equal.
      rewrite <- Hk at 1 2.
      rewrite update_table_keys by (rewrite Hk; exact Hn).
      rewrite fold_first_occurrences, Hk. reflexivity.
Qed.

(** On one process the streaming groupby collects, over any sequence of
    batches consumed from the initial state, one group per distinct key:
    the key rows of the local build table are the key tuples of all rows
    of all batches, each once, in the order of first occurrence. The
    shuffle table is empty after every call, whatever the shuffle test
    answers, and [build_iter] counts the batches. *)
Theorem consume_collects_distinct_keys
    (hash hash_partition : list StreamGroupby.cell -> Z)
    (shuffle_this_iter :
       bool -> bool -> StreamGroupby.table_info -> Z -> bool)
    (n_keys : nat) (col_sets : list StreamGroupby.ColSet) (parallel : bool)
    (batches : list (StreamGroupby.table_info * bool)) :
  (0 < n_keys)%nat ->
  let st :=
    fold_left
      (fun s (b : StreamGroupby.table_info * bool) =>
         StreamGroupby.groupby_build_consume_batch hash hash_partition
           shuffle_this_iter s b.1 b.2)
      batches (StreamGroupby.groupby_state_init n_keys col_sets parallel) in
  let keys := StreamGroupby.build_keys n_keys (StreamGroupby.local_state st) in
  keys = StreamGroupby.first_occurrences
           (concat ((fun b : StreamGroupby.table_info * bool =>
                       StreamGroupby.batch_keys n_keys b.1) <$> batches))
  /\ NoDup keys
  /\ StreamGroupby.next_group (StreamGroupby.local_state st)
     = Z.of_nat (length keys)
  /\ StreamGroupby.shuffle_state st
     = StreamGroupby.empty_build (n_keys + length col_sets)
  /\ StreamGroupby.build_iter st = Z.of_nat (length batches).
Proof.
  intros Hn st keys.
  destruct (init_inv hash n_keys col_sets parallel true) as [Hinit _].
  destruct (consume_batches_keys hash hash_partition shuffle_this_iter
              n_keys (n_keys + length col_sets) batches Hn
              (StreamGroupby.groupby_state_init n_keys col_sets parallel)
              eq_refl Hinit eq_refl)
    as (D1 & D2 & D3 & D4 & D5 & D6 & D7).
  fold st in D1, D2, D3, D4, D5, D6, D7. fold keys in D7.
  assert (Hkeys : keys = StreamGroupby.first_occurrences
           (concat ((fun b : StreamGroupby.table_info * bool =>
                       StreamGroupby.batch_keys n_keys b.1) <$> batches)))
    by exact D7.
  split_and!.
  - exact Hkeys.
  - rewrite Hkeys. apply fold_add_key_NoDup. constructor.
  - destruct D6 as (H0 & _).
    unfold keys, StreamGroupby.build_keys.
    rewrite length_fmap, length_seq. lia.
  - exact D5.
  - rewrite D4. cbn. lia.
Qed.

Lemma consume_collects_distinct_keys_witness :
  (0 < 1)%nat
  /\ StreamGroupby.build_keys 1
       (StreamGroupby.local_state
          (fold_left
             (fun s (b : StreamGroupby.table_info * bool) =>
                StreamGroupby.groupby_build_consume_batch
                  (fun _ => 0%Z) (fun _ => 0%Z) (fun _ _ _ _ => true) s b.1 b.2)
             [(StreamGroupby.example_batch, false);
              (StreamGroupby.example_batch_2, true)]
             (StreamGroupby.groupby_state_init 1
                [StreamGroupby.sum_colset 1] true)))
     = [[StreamGroupby.CStr "A"]; [StreamGroupby.CStr "B"]].
Proof.
  split; [lia|].
  pose proof (consume_collects_distinct_keys
                (fun _ => 0%Z) (fun _ => 0%Z) (fun _ _ _ _ => true) 1
                [StreamGroupby.sum_colset 1] true
                [(StreamGroupby.example_batch, false);
                 (StreamGroupby.example_batch_2, true)]
                ltac:(lia)) as H.
  cbv zeta in H. destruct H as (H & _).
  etrans; [exact H|]. vm_compute. reflexivity.
Defined.

(* --------------------------------------------------------------------- *)
(** ** The values of the nullable exclusive-scan path                     *)
(* --------------------------------------------------------------------- *)

Section ExscanValueFacts.
Import Exscan.
Local Open Scope Z_scope.
Context {T : Type}.
Variable T_zero : T.
Variable oper : Bodo_FTypes -> T -> T -> T.

Local Abbreviation row := (@Exscan.row T).
Local Abbreviation local_step := (@Exscan.local_step T T_zero oper).
Local Abbreviation local_loop := (@Exscan.local_loop T T_zero oper).
Local Abbreviation local_pass := (@Exscan.local_pass T T_zero oper).
Local Abbreviation final_step := (@Exscan.final_step T T_zero oper).
Local Abbreviation final_loop := (@Exscan.final_loop T T_zero oper).
Local Abbreviation final_pass := (@Exscan.final_pass T T_zero oper).
Local Abbreviation exscan_values := (@Exscan.exscan_values T oper).
Local Abbreviation running_from := (@Exscan.running_from T oper).

(** A slot of [cumulative] and of the mask, read as the code reads it. *)
Local Abbreviation cget c p := (default T_zero (c !! p)).
Local Abbreviation mget m p := (default 0 (m !! p)).
(** The slot of group [g] in the block of function [jj]. *)
Local Abbreviation slot M g jj := (Z.to_nat (g + M * Z.of_nat jj)).

Lemma cget_insert (c : list T) (q p : nat) (v : T) :
  cget (<[q := v]> c) p
  = if decide (q = p /\ (q < length c)%nat) then v else cget c p.
Proof.
  destruct (decide (q = p /\ (q < length c)%nat)) as [[-> Hlt]|Hn].
  - now rewrite list_lookup_insert_eq.
  - destruct (decide (q = p)) as [->|Hne].
    + rewrite list_insert_ge by lia. reflexivity.
    + now rewrite list_lookup_insert_ne.
Qed.

(** *** One step of the first loop *)

Lemma local_step_cum_length sk ft off st i r :
  length (cumulative (local_step sk ft off st i r))
  = length (cumulative st).
Proof.
  unfold Exscan.local_step.
  repeat (case_decide || case_match); cbn; now rewrite ?length_insert.
Qed.

Lemma local_step_vals_length sk ft off st i r :
  length (w_vals (work (local_step sk ft off st i r)))
  = length (w_vals (work st)).
Proof.
  unfold Exscan.local_step.
  repeat (case_decide || case_match); cbn; now rewrite ?length_insert.
Qed.

Lemma local_step_vals_other sk ft off st i r k :
  k <> i ->
  w_vals (work (local_step sk ft off st i r)) !! k = w_vals (work st) !! k.
Proof.
  intros Hne. unfold Exscan.local_step.
  repeat (case_decide || case_match); cbn;
    now rewrite ?list_lookup_insert_ne by congruence.
Qed.

(** The value the first loop writes for a row of a group. *)
Lemma local_step_val sk ft off st i r :
  (i < length (w_vals (work st)))%nat ->
  idx r <> miss_idx ->
  w_vals (work (local_step sk ft off st i r)) !! i
  = Some (oper ft (val r)
            (cget (cumulative st) (Z.to_nat (idx r + off)))).
Proof.
  intros Hlt Hi. unfold Exscan.local_step.
  rewrite decide_False by assumption.
  repeat (case_decide || case_match); cbn;
    now rewrite list_lookup_insert_eq.
Qed.

(** The slot [p] of [cumulative] after one step. *)
Lemma local_step_cum sk ft off st i r p :
  (p < length (cumulative st))%nat ->
  cget (cumulative (local_step sk ft off st i r)) p
  = if val_hits off p r
       && (sk || negb (bool_decide (mget (cumulative_mask st) p = 1)))
    then oper ft (val r) (cget (cumulative st) p)
    else cget (cumulative st) p.
Proof.
  intros Hp. unfold Exscan.local_step, val_hits.
  destruct (decide (idx r = miss_idx)) as [He|He]; cbn.
  { now rewrite bool_decide_eq_true_2. }
  rewrite bool_decide_eq_false_2 by assumption. cbn [negb andb].
  destruct (decide (Z.to_nat (idx r + off) = p)) as [Hq|Hq].
  - rewrite (bool_decide_eq_true_2 _ Hq), andb_true_r. rewrite Hq.
    destruct sk; cbn.
    + destruct (bit r); cbn; [|reflexivity].
      rewrite cget_insert, decide_True by auto. reflexivity.
    + destruct (bit r); cbn; [|reflexivity].
      destruct (decide (mget (cumulative_mask st) p = 1)) as [Hm|Hm]; cbn.
      * now rewrite bool_decide_eq_true_2.
      * rewrite bool_decide_eq_false_2 by assumption. cbn.
        rewrite cget_insert, decide_True by auto. reflexivity.
  - rewrite (bool_decide_eq_false_2 _ Hq), andb_false_r. cbn.
    destruct sk; cbn.
    + destruct (bit r); cbn; [|reflexivity].
      rewrite cget_insert, decide_False by tauto. reflexivity.
    + destruct (bit r); cbn; [|reflexivity].
      destruct (decide _); cbn; [reflexivity|].
      rewrite cget_insert, decide_False by tauto. reflexivity.
Qed.

(** *** The first loop over the rows *)

Lemma local_loop_cum_length sk ft off rs : forall i st,
  length (cumulative (local_loop sk ft off i rs st))
  = length (cumulative st).
Proof.
  induction rs as [|r rs IH]; intros i st; cbn; [reflexivity|].
  rewrite IH. apply local_step_cum_length.
Qed.

Lemma local_loop_vals_length sk ft off rs : forall i st,
  length (w_vals (work (local_loop sk ft off i rs st)))
  = length (w_vals (work st)).
Proof.
  induction rs as [|r rs IH]; intros i st; cbn; [reflexivity|].
  rewrite IH. apply local_step_vals_length.
Qed.

Lemma local_loop_vals_below sk ft off rs : forall i st k,
  (k < i)%nat ->
  w_vals (work (local_loop sk ft off i rs st)) !! k
  = w_vals (work st) !! k.
Proof.
  induction rs as [|r rs IH]; intros i st k Hk; cbn; [reflexivity|].
  rewrite IH by lia. apply local_step_vals_other. lia.
Qed.

(** A slot no valid row hits keeps its value. *)
Lemma local_loop_cum_frame sk ft off rs : forall i st p,
  (p < length (cumulative st))%nat ->
  Forall (fun r => val_hits off p r = false) rs ->
  cget (cumulative (local_loop sk ft off i rs st)) p = cget (cumulative st) p.
Proof.
  induction rs as [|r rs IH]; intros i st p Hp Hrs; cbn; [reflexivity|].
  inversion Hrs as [|? ? Hr Hrs']; subst.
  rewrite IH by (rewrite ?local_step_cum_length; assumption).
  rewrite local_step_cum by assumption. now rewrite Hr.
Qed.

(** A slot whose mask stays clear takes every valid row that hits it. *)
Lemma local_loop_cum sk ft off rs : forall i st p,
  (p < length (cumulative st))%nat ->
  sk = true
  \/ (mget (cumulative_mask st) p <> 1 /\ null_hits off p rs = false) ->
  cget (cumulative (local_loop sk ft off i rs st)) p
  = fold_left
      (fun acc r => if val_hits off p r then oper ft (val r) acc else acc)
      rs (cget (cumulative st) p).
Proof.
  induction rs as [|r rs IH]; intros i st p Hp Hsk; cbn [Exscan.local_loop fold_left];
    [reflexivity|].
  rewrite IH.
  - rewrite local_step_cum by assumption.
    destruct Hsk as [->|[Hm _]]; [now rewrite andb_true_r|].
    rewrite (bool_decide_eq_false_2 _ Hm). cbn [negb].
    now rewrite orb_true_r, andb_true_r.
  - now rewrite local_step_cum_length.
  - destruct sk; [now left|]. destruct Hsk as [?|[Hm Hn]]; [discriminate|right].
    cbn [null_hits existsb] in Hn. apply orb_false_iff in Hn as [Hh Hn].
    split; [|exact Hn].
    rewrite local_step_mask.
    destruct (negb (bool_decide (idx r = miss_idx)) && negb (bit r)) eqn:Hc;
      [|exact Hm].
    cbn in Hh. rewrite mget_insert.
    destruct (decide _) as [[Hq _]|_]; [|exact Hm].
    apply bool_decide_eq_false in Hh. contradiction.
Qed.

(** The value of the row at position [length pre] after the loop. *)
Lemma local_loop_val sk ft off pre r post st :
  (length pre < length (w_vals (work st)))%nat ->
  idx r <> miss_idx ->
  w_vals (work (local_loop sk ft off 0 (pre ++ r :: post) st)) !! length pre
  = Some (oper ft (val r)
            (cget (cumulative (local_loop sk ft off 0 pre st))
                  (Z.to_nat (idx r + off)))).
Proof.
  intros Hlt Hi. rewrite local_loop_app. cbn [Exscan.local_loop Nat.add].
  rewrite local_loop_vals_below by lia.
  apply local_step_val; [|assumption]. now rewrite local_loop_vals_length.
Qed.

(** *** The blocks of the functions *)

Lemma val_hits_block (M : Z) (r : row) (jj jj' : nat) (g : Z) :
  idx r = miss_idx \/ 0 <= idx r < M ->
  0 <= g < M ->
  val_hits (M * Z.of_nat jj) (slot M g jj') r
  = bool_decide (jj = jj') && bool_decide (idx r = g) && bit r.
Proof.
  intros Hr Hg. unfold val_hits, miss_idx in *.
  destruct Hr as [Hr|Hr].
  - rewrite (bool_decide_eq_true_2 (idx r = -1)) by assumption.
    rewrite (bool_decide_eq_false_2 (idx r = g)) by lia.
    cbn. now rewrite andb_false_r.
  - rewrite (bool_decide_eq_false_2 (idx r = -1)) by lia. cbn [negb andb].
    destruct (decide (jj = jj')) as [->|Hne].
    + rewrite (bool_decide_eq_true_2 (jj' = jj')) by reflexivity. cbn [andb].
      destruct (decide (idx r = g)) as [->|Hg'].
      * rewrite !bool_decide_eq_true_2 by reflexivity.
        now rewrite andb_true_r.
      * rewrite (bool_decide_eq_false_2 (idx r = g)) by assumption.
        rewrite bool_decide_eq_false_2 by nia.
        now rewrite andb_false_r.
    + rewrite (bool_decide_eq_false_2 (jj = jj')) by assumption.
      rewrite bool_decide_eq_false_2 by nia.
      now rewrite andb_false_r.
Qed.

Lemma fold_group_values ft (g : Z) (rs : list row) : forall a,
  fold_left
    (fun acc r =>
       if bool_decide (idx r = g) && bit r then oper ft (val r) acc else acc)
    rs a
  = running_from ft a (group_values g rs).
Proof.
  unfold Exscan.running_from, group_values.
  induction rs as [|r rs IH]; intros a; [reflexivity|].
  cbn [fold_left]. rewrite IH. clear IH.
  destruct (decide (idx r = g /\ bit r = true)) as [[Hi Hb]|Hn].
  - rewrite filter_cons_True by auto.
    rewrite (bool_decide_eq_true_2 _ Hi), Hb. reflexivity.
  - rewrite filter_cons_False by assumption.
    destruct (decide (idx r = g)) as [Hi|Hi].
    + rewrite (bool_decide_eq_true_2 _ Hi).
      destruct (bit r); [tauto|reflexivity].
    + now rewrite (bool_decide_eq_false_2 _ Hi).
Qed.

Lemma fold_val_hits_ext ft (M : Z) (rs : list row) (jj jj' : nat) (g : Z) :
  Forall (fun x => idx x = miss_idx \/ 0 <= idx x < M) rs ->
  0 <= g < M ->
  forall a,
  fold_left
    (fun acc r =>
       if val_hits (M * Z.of_nat jj) (slot M g jj') r
       then oper ft (val r) acc else acc)
    rs a
  = if decide (jj = jj') then running_from ft a (group_values g rs) else a.
Proof.
  intros Hwf Hg. induction Hwf as [|r rs Hr _ IH]; intros a.
  - now destruct (decide _).
  - cbn [fold_left]. rewrite IH. clear IH.
    rewrite (val_hits_block M r jj jj' g Hr Hg).
    destruct (decide (jj = jj')) as [He|He].
    + rewrite (bool_decide_eq_true_2 _ He). cbn [andb].
      rewrite <- !fold_group_values. reflexivity.
    + now rewrite (bool_decide_eq_false_2 _ He).
Qed.

(** The slot of group [g] in block [jj'] after the loop of the function of
    block [jj]. *)
Lemma local_loop_cum_block sk ft (M : Z) (rs : list row) (jj jj' : nat)
      (g : Z) i st :
  Forall (fun x => idx x = miss_idx \/ 0 <= idx x < M) rs ->
  0 <= g < M ->
  (slot M g jj' < length (cumulative st))%nat ->
  jj <> jj' \/ sk = true
  \/ (mget (cumulative_mask st) (slot M g jj') <> 1
      /\ saw_null g rs = false) ->
  cget (cumulative (local_loop sk ft (M * Z.of_nat jj) i rs st))
       (slot M g jj')
  = if decide (jj = jj')
    then running_from ft (cget (cumulative st) (slot M g jj'))
           (group_values g rs)
    else cget (cumulative st) (slot M g jj').
Proof.
  intros Hwf Hg Hp Hc.
  destruct (decide (jj = jj')) as [He|He].
  - rewrite local_loop_cum; [| exact Hp |].
    + rewrite (fold_val_hits_ext ft M rs jj jj' g Hwf Hg).
      now rewrite decide_True.
    + destruct Hc as [?|[?|[Hm Hn]]]; [contradiction|now left|right].
      split; [exact Hm|].
      rewrite (null_hits_block M rs jj jj' g Hwf Hg).
      now rewrite decide_True.
  - apply local_loop_cum_frame; [exact Hp|].
    eapply Forall_impl; [exact Hwf|]. intros r Hr. cbn beta in *.
    rewrite (val_hits_block M r jj jj' g Hr Hg).
    now rewrite (bool_decide_eq_false_2 _ He).
Qed.

(** The same for the mask. *)
Lemma local_loop_mask_block ft (M : Z) (rs : list row) (jj jj' : nat)
      (g : Z) i st :
  Forall (fun x => idx x = miss_idx \/ 0 <= idx x < M) rs ->
  0 <= g < M ->
  (slot M g jj' < length (cumulative_mask st))%nat ->
  mget (cumulative_mask (local_loop false ft (M * Z.of_nat jj) i rs st))
       (slot M g jj')
  = if decide (jj = jj')
    then (if saw_null g rs then 1 else mget (cumulative_mask st) (slot M g jj'))
    else mget (cumulative_mask st) (slot M g jj').
Proof.
  intros Hwf Hg Hp.
  rewrite (local_loop_mask T_zero oper) by exact Hp.
  rewrite (null_hits_block M rs jj jj' g Hwf Hg).
  now destruct (decide _).
Qed.

(** *** The first loop over the functions *)

Lemma local_pass_cum_length sk M rs fts : forall j outs cum mask,
  length (local_pass sk M rs j fts outs cum mask).1.2 = length cum.
Proof.
  induction fts as [|ft fts IH]; intros j outs cum mask; cbn; [reflexivity|].
  destruct outs as [|w outs]; cbn; [reflexivity|].
  match goal with |- context [local_pass sk M rs (S j) fts outs ?c ?m] =>
    specialize (IH (S j) outs c m);
    destruct (local_pass sk M rs (S j) fts outs c m) as [[o c'] m']
  end.
  cbn in *. rewrite IH.
  destruct (is_cumulative ft); cbn; [|reflexivity].
  apply local_loop_cum_length.
Qed.

(** The state the loop of one function leaves, or the state as it was when
    the function is not cumulative. *)
Local Abbreviation after_function sk M rs j ft cum mask w :=
  (if is_cumulative ft
   then local_loop sk ft (M * Z.of_nat j) 0 rs (mk_pass cum mask w)
   else mk_pass cum mask w).

Lemma after_function_lengths sk M rs j ft cum mask w :
  length (cumulative (after_function sk M rs j ft cum mask w)) = length cum
  /\ (sk = false ->
      length (cumulative_mask (after_function sk M rs j ft cum mask w))
      = length mask).
Proof.
  destruct (is_cumulative ft); cbn; [|auto].
  split; [apply local_loop_cum_length|].
  intros ->. apply (local_loop_mask_length T_zero oper).
Qed.

(** The slots of another block pass through the loop of a function. *)
Lemma after_function_frame sk M rs j ft cum mask w jj g :
  Forall (fun x => idx x = miss_idx \/ 0 <= idx x < M) rs ->
  0 <= g < M ->
  j <> jj ->
  ((slot M g jj < length cum)%nat ->
   cget (cumulative (after_function sk M rs j ft cum mask w)) (slot M g jj)
   = cget cum (slot M g jj))
  /\ (sk = false -> (slot M g jj < length mask)%nat ->
      mget (cumulative_mask (after_function sk M rs j ft cum mask w))
           (slot M g jj)
      = mget mask (slot M g jj)).
Proof.
  intros Hwf Hg Hne.
  destruct (is_cumulative ft); cbn; [|auto].
  split.
  - intros Hp.
    rewrite (local_loop_cum_block sk ft M rs j jj g 0 (mk_pass cum mask w)
               Hwf Hg Hp) by (left; exact Hne).
    now rewrite decide_False.
  - intros -> Hp.
    rewrite (local_loop_mask_block ft M rs j jj g 0 (mk_pass cum mask w)
               Hwf Hg Hp).
    now rewrite decide_False.
Qed.

(** The functions from [j] on leave the blocks below [j] alone. *)
Lemma local_pass_cum_frame sk M rs fts : forall j outs cum mask jj g,
  Forall (fun x => idx x = miss_idx \/ 0 <= idx x < M) rs ->
  0 <= g < M ->
  (jj < j)%nat ->
  (slot M g jj < length cum)%nat ->
  cget (local_pass sk M rs j fts outs cum mask).1.2 (slot M g jj)
  = cget cum (slot M g jj).
Proof.
  induction fts as [|f fts IH]; intros j outs cum mask jj g Hwf Hg Hlt Hp;
    [reflexivity|].
  destruct outs as [|w0 outs]; [reflexivity|].
  cbn [Exscan.local_pass].
  destruct (after_function_lengths sk M rs j f cum mask w0) as [Hcl _].
  destruct (after_function_frame sk M rs j f cum mask w0 jj g Hwf Hg
              ltac:(lia)) as [Hcf _].
  specialize (IH (S j) outs
                (cumulative (after_function sk M rs j f cum mask w0))
                (cumulative_mask (after_function sk M rs j f cum mask w0))
                jj g Hwf Hg ltac:(lia) ltac:(rewrite Hcl; exact Hp)).
  destruct (local_pass sk M rs (S j) fts outs _ _) as [[o c'] m'].
  cbn [fst snd] in *. rewrite IH. apply Hcf. exact Hp.
Qed.

(** The running values a rank sends: the slot of group [g] in the block of
    a cumulative function holds the running value of the valid rows of the
    group. *)
Lemma local_pass_cum sk M rs fts : forall j outs cum mask k ft g,
  Forall (fun x => idx x = miss_idx \/ 0 <= idx x < M) rs ->
  length outs = length fts ->
  fts !! k = Some ft ->
  0 <= g < M ->
  (slot M g (j + k) < length cum)%nat ->
  sk = true
  \/ ((slot M g (j + k) < length mask)%nat
      /\ mget mask (slot M g (j + k)) <> 1 /\ saw_null g rs = false) ->
  cget (local_pass sk M rs j fts outs cum mask).1.2 (slot M g (j + k))
  = if is_cumulative ft
    then running_from ft (cget cum (slot M g (j + k))) (group_values g rs)
    else cget cum (slot M g (j + k)).
Proof.
  induction fts as [|f fts IH];
    intros j outs cum mask k ft g Hwf Hlen Hf Hg Hp Hsk.
  { now rewrite lookup_nil in Hf. }
  destruct outs as [|w0 outs]; [discriminate|]. cbn in Hlen.
  cbn [Exscan.local_pass].
  destruct (after_function_lengths sk M rs j f cum mask w0) as [Hcl Hml].
  destruct k as [|k].
  - cbn in Hf. injection Hf as ->. rewrite Nat.add_0_r in *.
    pose proof (local_pass_cum_frame sk M rs fts (S j) outs
                  (cumulative (after_function sk M rs j ft cum mask w0))
                  (cumulative_mask (after_function sk M rs j ft cum mask w0))
                  j g Hwf Hg ltac:(lia) ltac:(rewrite Hcl; exact Hp)) as Hfr.
    destruct (local_pass sk M rs (S j) fts outs _ _) as [[o c'] m'].
    cbn [fst snd] in *. rewrite Hfr.
    destruct (is_cumulative ft); cbn; [|reflexivity].
    rewrite (local_loop_cum_block sk ft M rs j j g 0 (mk_pass cum mask w0)
               Hwf Hg Hp).
    + now rewrite decide_True.
    + right. destruct Hsk as [?|(_ & ? & ?)]; [now left|now right].
  - cbn in Hf. replace (j + S k)%nat with (S j + k)%nat in * by lia.
    destruct (after_function_frame sk M rs j f cum mask w0 (S j + k) g Hwf Hg
                ltac:(lia)) as [Hcf Hmf].
    specialize (IH (S j) outs
                  (cumulative (after_function sk M rs j f cum mask w0))
                  (cumulative_mask (after_function sk M rs j f cum mask w0))
                  k ft g Hwf ltac:(lia) Hf Hg ltac:(rewrite Hcl; exact Hp)).
    destruct (local_pass sk M rs (S j) fts outs _ _) as [[o c'] m'].
    cbn [fst snd] in *.
    rewrite IH.
    + rewrite Hcf by assumption. reflexivity.
    + destruct sk; [now left|right].
      destruct Hsk as [?|(Hpm & Hm & Hn)]; [discriminate|].
      rewrite Hml, Hmf by auto. auto.
Qed.

(** The state in which the loop of function [k] starts: the slots of its
    block are as they were before the first function. *)
Lemma local_pass_out_vals sk M rs fts : forall j outs cum mask k ft w,
  Forall (fun x => idx x = miss_idx \/ 0 <= idx x < M) rs ->
  length outs = length fts ->
  fts !! k = Some ft -> outs !! k = Some w ->
  exists cum_k mask_k,
    (local_pass sk M rs j fts outs cum mask).1.1 !! k
    = Some (work (after_function sk M rs (j + k) ft cum_k mask_k w))
    /\ length cum_k = length cum
    /\ (forall g, 0 <= g < M ->
          (slot M g (j + k) < length cum)%nat ->
          cget cum_k (slot M g (j + k)) = cget cum (slot M g (j + k)))
    /\ (sk = false ->
        length mask_k = length mask
        /\ forall g, 0 <= g < M ->
             (slot M g (j + k) < length mask)%nat ->
             mget mask_k (slot M g (j + k)) = mget mask (slot M g (j + k))).
Proof.
  induction fts as [|f fts IH]; intros j outs cum mask k ft w Hwf Hlen Hf Hw.
  { now rewrite lookup_nil in Hf. }
  destruct outs as [|w0 outs]; [discriminate|]. cbn in Hlen.
  cbn [Exscan.local_pass].
  destruct (after_function_lengths sk M rs j f cum mask w0) as [Hcl Hml].
  destruct k as [|k].
  - cbn in Hf, Hw. injection Hf as ->. injection Hw as ->.
    exists cum, mask.
    destruct (local_pass sk M rs (S j) fts outs _ _) as [[o c'] m'].
    cbn [fst snd]. rewrite Nat.add_0_r.
    split_and!; auto.
  - cbn in Hf, Hw.
    destruct (IH (S j) outs
                (cumulative (after_function sk M rs j f cum mask w0))
                (cumulative_mask (after_function sk M rs j f cum mask w0))
                k ft w Hwf ltac:(lia) Hf Hw)
      as (ck & mk & Hout & Hckl & Hck & Hmk).
    exists ck, mk.
    destruct (local_pass sk M rs (S j) fts outs _ _) as [[o c'] m'].
    cbn [fst snd] in *. replace (j + S k)%nat with (S j + k)%nat by lia.
    split_and!.
    + exact Hout.
    + congruence.
    + intros g Hg Hp.
      rewrite Hck by (rewrite ?Hcl; assumption).
      apply (after_function_frame sk M rs j f cum mask w0 (S j + k) g Hwf Hg
               ltac:(lia)). exact Hp.
    + intros ->. destruct (Hmk eq_refl) as [Hl Hgm].
      split; [rewrite Hl; auto|].
      intros g Hg Hp.
      rewrite Hgm by (rewrite ?Hml; auto).
      apply (after_function_frame false M rs j f cum mask w0 (S j + k) g Hwf
               Hg ltac:(lia)); auto.
Qed.

(** *** The exclusive scan of the running values *)

Lemma length_slice {A : Type} (off len : nat) (l : list A) :
  (off + len <= length l)%nat -> length (slice off len l) = len.
Proof. intros H. unfold slice. rewrite length_take, length_drop. lia. Qed.

Lemma lookup_slice {A : Type} (off len : nat) (l : list A) (i : nat) :
  (i < len)%nat -> slice off len l !! i = l !! (off + i)%nat.
Proof.
  intros H. unfold slice. rewrite lookup_take_lt by assumption.
  apply lookup_drop.
Qed.

Lemma length_splice {A : Type} (l : list A) (off : nat) (new : list A) :
  (off + length new <= length l)%nat ->
  length (splice l off new) = length l.
Proof.
  intros H. unfold splice.
  rewrite !length_app, length_take, length_drop. lia.
Qed.

Lemma lookup_splice {A : Type} (l : list A) (off : nat) (new : list A)
      (p : nat) :
  (off + length new <= length l)%nat ->
  splice l off new !! p
  = if decide (off <= p < off + length new)%nat
    then new !! (p - off)%nat else l !! p.
Proof.
  intros H. unfold splice.
  destruct (decide (p < off)%nat) as [Hlt|Hge].
  - rewrite lookup_app_l by (rewrite length_take; lia).
    rewrite lookup_take_lt by lia. rewrite decide_False by lia. reflexivity.
  - rewrite lookup_app_r by (rewrite length_take; lia).
    rewrite length_take. replace (off `min` length l)%nat with off by lia.
    destruct (decide (p - off < length new)%nat) as [Hin|Hout].
    + rewrite lookup_app_l by assumption.
      rewrite decide_True by lia. reflexivity.
    + rewrite lookup_app_r by lia. rewrite lookup_drop.
      rewrite decide_False by lia. f_equal. lia.
Qed.

(** A slot of the buffers combined by the scan. *)
Lemma fold_zip_slot (op : T -> T -> T) (g : nat) (rest : list (list T)) :
  forall acc,
  (g < length acc)%nat ->
  Forall (fun s => (g < length s)%nat) rest ->
  length (fold_left (zip_with op) rest acc)
  = fold_left (fun n s => (n `min` length s)%nat) rest (length acc)
  /\ fold_left (zip_with op) rest acc !! g
     = Some (fold_left op ((fun s => cget s g) <$> rest) (cget acc g)).
Proof.
  induction rest as [|s rest IH]; intros acc Hacc Hrest; cbn [fold_left].
  - split; [reflexivity|].
    destruct (lookup_lt_is_Some_2 acc g Hacc) as [v Hv]. now rewrite Hv.
  - inversion Hrest as [|? ? Hs Hrest']; subst.
    destruct (IH (zip_with op acc s)
                ltac:(rewrite length_zip_with; lia) Hrest') as [Hl Hv].
    rewrite Hl, Hv, length_zip_with. split; [reflexivity|].
    cbn [fmap list_fmap fold_left]. f_equal. f_equal.
    rewrite lookup_zip_with.
    destruct (lookup_lt_is_Some_2 acc g Hacc) as [a Ha].
    destruct (lookup_lt_is_Some_2 s g Hs) as [b Hb].
    rewrite Ha, Hb. reflexivity.
Qed.

Lemma min_fold_same (L : nat) (rest : list (list T)) :
  Forall (fun s => length s = L) rest ->
  fold_left (fun n s => (n `min` length s)%nat) rest L = L.
Proof.
  induction 1 as [|s rest Hs _ IH]; cbn [fold_left]; [reflexivity|].
  rewrite Hs, Nat.min_id. exact IH.
Qed.

Lemma MPI_Exscan_slot (op : T -> T -> T) (sends : list (list T)) (r L : nat)
      (recv : list T) (g : nat) :
  (g < L)%nat ->
  length recv = L ->
  Forall (fun s => length s = L) (take r sends) ->
  length (MPI_Exscan op sends r recv) = L
  /\ cget (MPI_Exscan op sends r recv) g
     = match take r sends with
       | [] => cget recv g
       | s0 :: rest => fold_left op ((fun s => cget s g) <$> rest) (cget s0 g)
       end.
Proof.
  intros Hg Hrecv Hs. unfold MPI_Exscan.
  destruct (take r sends) as [|s0 rest]; [auto|].
  apply Forall_cons in Hs as [Hs0 Hrest].
  destruct (fold_zip_slot op g rest s0 ltac:(lia)) as [Hl Hv].
  { eapply Forall_impl; [exact Hrest|]. cbn. intros s Hsl. lia. }
  rewrite Hl, Hv, Hs0. split; [|reflexivity].
  apply min_fold_same. exact Hrest.
Qed.

(** The functions from [j] on leave the blocks below [j] of the receive
    buffer alone. *)
Lemma exscan_values_frame (M : Z) (sends : list (list T)) (r : nat)
      (fts : list Bodo_FTypes) : forall j recv (p : nat),
  0 <= M ->
  length recv = (Z.to_nat M * (j + length fts))%nat ->
  Forall (fun s => length s = (Z.to_nat M * (j + length fts))%nat)
         (take r sends) ->
  (p < Z.to_nat M * j)%nat ->
  length (exscan_values M sends r j fts recv) = length recv
  /\ exscan_values M sends r j fts recv !! p = recv !! p.
Proof.
  induction fts as [|f fts IH]; intros j recv p HM Hrecv Hs Hp;
    cbn [Exscan.exscan_values]; [auto|].
  cbn [length] in Hrecv, Hs.
  set (off := Z.to_nat (M * Z.of_nat j)).
  set (len := Z.to_nat M).
  assert (Hoff : off = (len * j)%nat) by (subst off len; nia).
  set (new := MPI_Exscan (oper f) (slice off len <$> sends) r
                (slice off len recv)).
  assert (Hnew : length new = len).
  { apply (MPI_Exscan_slot (oper f) _ r len _ 0%nat); [subst len; nia| |].
    - apply length_slice. rewrite Hrecv. subst len. nia.
    - rewrite <- fmap_take. apply Forall_fmap.
      eapply Forall_impl; [exact Hs|]. cbn. intros s Hsl.
      apply length_slice. rewrite Hsl. subst len. nia. }
  set (recv' := if is_cumulative f then splice recv off new else recv).
  assert (Hl' : length recv' = length recv).
  { subst recv'. destruct (is_cumulative f); [|reflexivity].
    apply length_splice. rewrite Hnew, Hrecv. nia. }
  assert (Hp' : recv' !! p = recv !! p).
  { subst recv'. destruct (is_cumulative f); [|reflexivity].
    rewrite lookup_splice by (rewrite Hnew, Hrecv; nia).
    rewrite decide_False by lia. reflexivity. }
  destruct (IH (S j) recv' p HM) as [Hl Hv].
  - rewrite Hl', Hrecv. f_equal. lia.
  - eapply Forall_impl; [exact Hs|]. cbn. intros s ->. f_equal. lia.
  - nia.
  - rewrite Hl, Hv. auto.
Qed.

(** The receive buffer after the scans: the slot of group [g] in the block
    of a cumulative function combines the slots of the lower ranks, in rank
    order; on rank 0 it is as it was. *)
Lemma exscan_values_slot (M : Z) (sends : list (list T)) (r : nat)
      (fts : list Bodo_FTypes) : forall j recv k ft g,
  length recv = (Z.to_nat M * (j + length fts))%nat ->
  Forall (fun s => length s = (Z.to_nat M * (j + length fts))%nat)
         (take r sends) ->
  fts !! k = Some ft -> is_cumulative ft = true ->
  0 <= g < M ->
  cget (exscan_values M sends r j fts recv) (slot M g (j + k))
  = match take r sends with
    | [] => cget recv (slot M g (j + k))
    | s0 :: rest =>
        fold_left (oper ft)
          ((fun s => cget s (slot M g (j + k))) <$> rest)
          (cget s0 (slot M g (j + k)))
    end.
Proof.
  induction fts as [|f fts IH]; intros j recv k ft g Hrecv Hs Hf Hc Hg.
  { now rewrite lookup_nil in Hf. }
  cbn [Exscan.exscan_values]. cbn [length] in Hrecv, Hs.
  set (off := Z.to_nat (M * Z.of_nat j)).
  set (len := Z.to_nat M).
  assert (Hoff : off = (len * j)%nat) by (subst off len; nia).
  assert (Hlen : (0 < len)%nat) by (subst len; lia).
  set (new := MPI_Exscan (oper f) (slice off len <$> sends) r
                (slice off len recv)).
  assert (Hsl : Forall (fun s => length s = len)
                  (take r (slice off len <$> sends))).
  { rewrite <- fmap_take. apply Forall_fmap.
    eapply Forall_impl; [exact Hs|]. cbn. intros s Hsl.
    apply length_slice. rewrite Hsl. subst len. nia. }
  assert (Hrl : length (slice off len recv) = len).
  { apply length_slice. rewrite Hrecv. subst len. nia. }
  assert (Hnew : length new = len).
  { apply (MPI_Exscan_slot (oper f) _ r len _ 0%nat Hlen Hrl Hsl). }
  set (recv' := if is_cumulative f then splice recv off new else recv).
  assert (Hl' : length recv' = length recv).
  { subst recv'. destruct (is_cumulative f); [|reflexivity].
    apply length_splice. rewrite Hnew, Hrecv. subst len. nia. }
  destruct k as [|k].
  - cbn in Hf. injection Hf as ->. rewrite Nat.add_0_r.
    destruct (exscan_values_frame M sends r fts (S j) recv'
                (slot M g j) ltac:(lia)) as [_ Hv].
    + rewrite Hl', Hrecv. f_equal. lia.
    + eapply Forall_impl; [exact Hs|]. cbn. intros s ->. f_equal. lia.
    + nia.
    + rewrite Hv. subst recv'. rewrite Hc.
      rewrite lookup_splice by (rewrite Hnew, Hrecv; subst len; nia).
      rewrite decide_True by (rewrite Hnew; subst off len; nia).
      replace (slot M g j - off)%nat with (Z.to_nat g)
        by (subst off; nia).
      destruct (MPI_Exscan_slot (oper ft) (slice off len <$> sends) r len
                  (slice off len recv) (Z.to_nat g)
                  ltac:(subst len; lia) Hrl Hsl) as [_ Hslot].
      fold new in Hslot. rewrite Hslot.
      rewrite <- fmap_take.
      assert (Hcg : forall l : list T,
                cget (slice off len l) (Z.to_nat g) = cget l (slot M g j)).
      { intros l. rewrite lookup_slice by (subst len; lia).
        do 2 f_equal. subst off. nia. }
      destruct (take r sends) as [|s0 rest]; cbn [fmap list_fmap].
      * apply Hcg.
      * rewrite Hcg. f_equal.
        rewrite <- list_fmap_compose. apply list_fmap_ext.
        intros ? s _. cbn. apply Hcg.
  - cbn in Hf. replace (j + S k)%nat with (S j + k)%nat by lia.
    rewrite (IH (S j) recv' k ft g); [| | |exact Hf|exact Hc|exact Hg].
    + destruct (take r sends) as [|s0 rest]; [|reflexivity].
      subst recv'. destruct (is_cumulative f); [|reflexivity].
      rewrite lookup_splice by (rewrite Hnew, Hrecv; subst len; nia).
      rewrite decide_False by (rewrite Hnew; subst off len; nia).
      reflexivity.
    + rewrite Hl', Hrecv. f_equal. lia.
    + eapply Forall_impl; [exact Hs|]. cbn. intros s ->. f_equal. lia.
Qed.

(** *** The last loop *)

Lemma final_step_vals_other sk ft off cr mr w i r k :
  k <> i ->
  w_vals (final_step sk ft off cr mr w i r) !! k = w_vals w !! k.
Proof.
  intros Hne. unfold Exscan.final_step.
  repeat (case_decide || case_match); cbn;
    now rewrite ?list_lookup_insert_ne by congruence.
Qed.

Lemma final_step_val sk ft off cr mr w i r v :
  w_vals w !! i = Some v ->
  idx r <> miss_idx ->
  w_vals (final_step sk ft off cr mr w i r) !! i
  = Some (oper ft v (cget cr (Z.to_nat (idx r + off)))).
Proof.
  intros Hv Hi. unfold Exscan.final_step.
  rewrite decide_True by assumption. rewrite Hv. cbn [default].
  pose proof (lookup_lt_Some _ _ _ Hv).
  destruct (negb sk && bool_decide _); cbn;
    now rewrite list_lookup_insert_eq.
Qed.

Lemma final_loop_vals_outside sk ft off cr mr rs : forall i w k,
  (k < i \/ i + length rs <= k)%nat ->
  w_vals (final_loop sk ft off cr mr i rs w) !! k = w_vals w !! k.
Proof.
  induction rs as [|r rs IH]; intros i w k Hk; cbn; [reflexivity|].
  cbn in Hk. rewrite IH by lia. apply final_step_vals_other. lia.
Qed.

(** The value of the row at position [length pre] after the last loop. *)
Lemma final_loop_val sk ft off cr mr pre r post w v :
  w_vals w !! length pre = Some v ->
  idx r <> miss_idx ->
  w_vals (final_loop sk ft off cr mr 0 (pre ++ r :: post) w) !! length pre
  = Some (oper ft v (cget cr (Z.to_nat (idx r + off)))).
Proof.
  intros Hv Hi. rewrite (final_loop_app T_zero oper).
  cbn [Exscan.final_loop Nat.add].
  rewrite final_loop_vals_outside by lia.
  apply final_step_val; [|assumption].
  rewrite final_loop_vals_outside by lia. exact Hv.
Qed.
End ExscanValueFacts.

Section ExscanValueMain.
Import Exscan.
Local Open Scope Z_scope.
Context {T : Type}.
Variable T_zero : T.
Variable T_value_init : Bodo_FTypes -> T.
Variable oper : Bodo_FTypes -> T -> T -> T.

Local Abbreviation cget c p := (default T_zero (c !! p)).
Local Abbreviation mget m p := (default 0 (m !! p)).
Local Abbreviation slot M g jj := (Z.to_nat (g + M * Z.of_nat jj)).
Local Abbreviation init_cumulative := (@Exscan.init_cumulative T T_value_init).
Local Abbreviation local_result :=
  (@Exscan.local_result T T_zero T_value_init oper).
Local Abbreviation running := (@Exscan.running T T_value_init oper).
Local Abbreviation running_from := (@Exscan.running_from T oper).

Lemma length_init_cumulative (M : Z) (fts : list Bodo_FTypes) :
  length (init_cumulative M fts) = (Z.to_nat M * length fts)%nat.
Proof.
  unfold Exscan.init_cumulative.
  induction fts as [|f fts IH]; cbn [length]; [cbn; lia|].
  rewrite bind_cons, length_app, length_replicate, IH. lia.
Qed.

(** [cumulative] starts with [value_init] of the function in every slot of
    its block. *)
Lemma init_cumulative_slot (M : Z) (fts : list Bodo_FTypes) :
  forall k ft g,
  fts !! k = Some ft -> 0 <= g < M ->
  init_cumulative M fts !! slot M g k = Some (T_value_init ft).
Proof.
  unfold Exscan.init_cumulative.
  induction fts as [|f fts IH]; intros k ft g Hf Hg.
  { now rewrite lookup_nil in Hf. }
  rewrite bind_cons. destruct k as [|k]; cbn in Hf.
  - injection Hf as ->.
    rewrite lookup_app_l by (rewrite length_replicate; nia).
    apply lookup_replicate_2. nia.
  - rewrite lookup_app_r by (rewrite length_replicate; nia).
    rewrite length_replicate.
    replace (slot M g (S k) - Z.to_nat M)%nat with (slot M g k) by nia.
    apply IH; assumption.
Qed.

(** The value a rank computes locally for the row at position
    [length pre] of function [k]: the row's value combined with the running
    value of the valid rows of its group before it. *)
Lemma local_result_val sk (M : Z) (fts : list Bodo_FTypes)
      (p : @rank_input T) (k : nat) (ft : Bodo_FTypes)
      (pre post : list (@row T)) (x : @row T) (w0 : @work_col T) :
  wf_rank M (length fts) p ->
  fts !! k = Some ft -> is_cumulative ft = true ->
  rows p = pre ++ x :: post -> idx x <> miss_idx ->
  out_arrs p !! k = Some w0 ->
  (length pre < length (w_vals w0))%nat ->
  sk = true \/ saw_null (idx x) pre = false ->
  exists w,
    (local_result sk M fts p).1.1 !! k = Some w
    /\ w_vals w !! length pre
       = Some (oper ft (val x) (running ft (group_values (idx x) pre))).
Proof.
  intros (Hrows & Hlen & Hbits) Hf Hc Hsplit Hi Hw0 Hvl Hsk.
  assert (Hk : (k < length fts)%nat) by (eapply lookup_lt_Some; eassumption).
  assert (Hg : 0 <= idx x < M).
  { rewrite Hsplit in Hrows. apply Forall_app in Hrows as [_ Hrows].
    apply Forall_cons in Hrows as [[?|?] _]; [contradiction|assumption]. }
  assert (Hpos : (slot M (idx x) k < Z.to_nat M * length fts)%nat) by nia.
  unfold Exscan.local_result.
  destruct (local_pass_out_vals T_zero oper sk M (rows p) fts 0 (out_arrs p)
              (init_cumulative M fts)
              (if sk then []
               else replicate (Z.to_nat (M * Z.of_nat (length fts))) 0)
              k ft w0 Hrows Hlen Hf Hw0)
    as (ck & mk & Hout & Hckl & Hck & Hmk).
  rewrite Hc in Hout. cbn [Nat.add] in *.
  eexists. split; [exact Hout|].
  rewrite Hsplit.
  rewrite local_loop_val by (cbn; assumption || lia).
  f_equal. f_equal.
  assert (Hpre : Forall (fun r => idx r = miss_idx \/ 0 <= idx r < M) pre).
  { rewrite Hsplit in Hrows. now apply Forall_app in Hrows as [? _]. }
  rewrite (local_loop_cum_block T_zero oper sk ft M pre k k (idx x) 0
             (mk_pass ck mk w0) Hpre Hg).
  - rewrite decide_True by reflexivity. cbn [cumulative].
    rewrite Hck by (rewrite ?length_init_cumulative; assumption).
    rewrite (init_cumulative_slot M fts k ft (idx x) Hf Hg). reflexivity.
  - cbn [cumulative]. rewrite Hckl, length_init_cumulative. exact Hpos.
  - right. destruct sk; [now left|right].
    destruct Hsk as [?|Hn]; [discriminate|]. split; [|exact Hn].
    cbn [cumulative_mask]. destruct (Hmk eq_refl) as [_ Hm].
    rewrite Hm by (rewrite ?length_replicate; nia).
    rewrite lookup_replicate_2 by nia. cbn. lia.
Qed.

(** The running values a rank sends for a cumulative function. *)
Lemma local_result_cum sk (M : Z) (fts : list Bodo_FTypes)
      (p : @rank_input T) (k : nat) (ft : Bodo_FTypes) (g : Z) :
  wf_rank M (length fts) p ->
  fts !! k = Some ft -> is_cumulative ft = true ->
  0 <= g < M ->
  sk = true \/ saw_null g (rows p) = false ->
  length (local_result sk M fts p).1.2 = (Z.to_nat M * length fts)%nat
  /\ cget (local_result sk M fts p).1.2 (slot M g k)
     = running ft (group_values g (rows p)).
Proof.
  intros (Hrows & Hlen & Hbits) Hf Hc Hg Hsk.
  assert (Hk : (k < length fts)%nat) by (eapply lookup_lt_Some; eassumption).
  assert (Hpos : (slot M g k < Z.to_nat M * length fts)%nat) by nia.
  unfold Exscan.local_result.
  rewrite (local_pass_cum_length T_zero oper), length_init_cumulative.
  split; [reflexivity|].
  pose proof (local_pass_cum T_zero oper sk M (rows p) fts 0 (out_arrs p)
                (init_cumulative M fts)
                (if sk then []
                 else replicate (Z.to_nat (M * Z.of_nat (length fts))) 0)
                k ft g Hrows Hlen Hf Hg) as Hcum.
  cbn [Nat.add] in Hcum. rewrite Hcum.
  - rewrite Hc, (init_cumulative_slot M fts k ft g Hf Hg). reflexivity.
  - rewrite length_init_cumulative. exact Hpos.
  - destruct sk; [now left|right].
    destruct Hsk as [?|Hn]; [discriminate|].
    rewrite length_replicate, lookup_replicate_2 by nia.
    split_and!; [nia|cbn; lia|exact Hn].
Qed.
End ExscanValueMain.

(** *** Running values under the laws of a commutative monoid *)
Section RunningFacts.
Context {T : Type}.
Variable op : T -> T -> T.
Variable e : T.
Hypothesis op_assoc : forall a b c, op a (op b c) = op (op a b) c.
Hypothesis op_comm : forall a b, op a b = op b a.
Hypothesis op_unit : forall a, op a e = a.

Local Abbreviation rf a vs := (fold_left (fun acc v => op v acc) vs a).

Lemma rf_acc (vs : list T) : forall a, rf a vs = op (rf e vs) a.
Proof.
  induction vs as [|v vs IH]; intros a; cbn [fold_left].
  - now rewrite op_comm, op_unit.
  - rewrite (IH (op v a)), (IH (op v e)), op_unit. apply op_assoc.
Qed.

Lemma rf_app_e (vs ws : list T) : rf e (vs ++ ws) = op (rf e ws) (rf e vs).
Proof. rewrite fold_left_app. apply rf_acc. Qed.

Lemma scan_fold (rest : list (list T)) : forall vs0,
  fold_left op ((fun vs => rf e vs) <$> rest) (rf e vs0)
  = rf e (vs0 ++ concat rest).
Proof.
  induction rest as [|vs1 rest IH]; intros vs0; cbn [fmap list_fmap fold_left concat].
  - now rewrite app_nil_r.
  - rewrite (op_comm (rf e vs0)), <- rf_app_e, IH, app_assoc. reflexivity.
Qed.
End RunningFacts.

Lemma group_values_app {T : Type} (g : Z) (l1 l2 : list (@Exscan.row T)) :
  Exscan.group_values g (l1 ++ l2)
  = Exscan.group_values g l1 ++ Exscan.group_values g l2.
Proof. unfold Exscan.group_values. now rewrite filter_app, fmap_app. Qed.

Lemma group_values_concat {T : Type} (g : Z)
      (ls : list (list (@Exscan.row T))) :
  Exscan.group_values g (concat ls) = concat (Exscan.group_values g <$> ls).
Proof.
  induction ls as [|l ls IH]; [reflexivity|].
  cbn [concat fmap list_fmap]. now rewrite group_values_app, IH.
Qed.

Lemma saw_null_app {T : Type} (g : Z) (l1 l2 : list (@Exscan.row T)) :
  Exscan.saw_null g (l1 ++ l2)
  = Exscan.saw_null g l1 || Exscan.saw_null g l2.
Proof. unfold Exscan.saw_null. apply existsb_app. Qed.

Lemma saw_null_concat {T : Type} (g : Z) (ls : list (list (@Exscan.row T))) :
  Exscan.saw_null g (concat ls) = false ->
  Forall (fun l => Exscan.saw_null g l = false) ls.
Proof.
  induction ls as [|l ls IH]; intros H; constructor;
    cbn [concat] in H; rewrite saw_null_app in H;
    apply orb_false_iff in H as [H1 H2]; auto.
Qed.

(** Run on one rank alone ([is_parallel] false), the nullable exscan path
    gives a row of a group, for a cumulative function, the row's value
    combined with the running value of the valid rows of the same group
    before it: [oper(val, oper(v_n, ... oper(v_1, value_init)))]. This
    holds with nulls skipped, and with nulls kept as long as no earlier row
    of the group is null. *)
Theorem exscan_local_running_value {T : Type} (T_zero : T)
    (T_value_init : Bodo_FTypes -> T) (oper : Bodo_FTypes -> T -> T -> T)
    (max_row_idx : Z) (fts : list Bodo_FTypes) (skipdropna : bool)
    (ranks : list (@Exscan.rank_input T)) (r k : nat)
    (p : @Exscan.rank_input T) (ft : Bodo_FTypes)
    (pre post : list (@Exscan.row T)) (x : @Exscan.row T)
    (w0 : @Exscan.work_col T) :
  Exscan.wf_rank max_row_idx (length fts) p ->
  ranks !! r = Some p ->
  fts !! k = Some ft -> Exscan.is_cumulative ft = true ->
  Exscan.rows p = pre ++ x :: post -> Exscan.idx x <> Exscan.miss_idx ->
  Exscan.out_arrs p !! k = Some w0 ->
  (length pre < length (Exscan.w_vals w0))%nat ->
  skipdropna = true \/ Exscan.saw_null (Exscan.idx x) pre = false ->
  exists outs w,
    Exscan.mpi_exscan_computation_nullable_T T_zero T_value_init oper
      max_row_idx fts false skipdropna ranks !! r = Some outs
    /\ outs !! k = Some w
    /\ Exscan.w_vals w !! length pre
       = Some (oper ft (Exscan.val x)
                 (Exscan.running T_value_init oper ft
                    (Exscan.group_values (Exscan.idx x) pre))).
Proof.
  intros Hp Hr Hf Hc Hsplit Hi Hw0 Hvl Hsk.
  destruct (local_result_val T_zero T_value_init oper skipdropna max_row_idx
              fts p k ft pre post x w0 Hp Hf Hc Hsplit Hi Hw0 Hvl Hsk)
    as (w & Hw & Hv).
  unfold Exscan.mpi_exscan_computation_nullable_T. cbn [negb].
  rewrite !list_lookup_fmap, Hr. cbn [fmap option_fmap option_map].
  eexists _, w. split_and!; [reflexivity|exact Hw|exact Hv].
Qed.

Lemma exscan_local_running_value_witness :
  exists outs w,
    Exscan.mpi_exscan_computation_nullable_T 0%Z Exscan.example_value_init
      Exscan.example_oper 2 [cumsum] false false
      [Exscan.example_rank0; Exscan.example_rank1] !! 1%nat = Some outs
    /\ outs !! 0%nat = Some w
    /\ Exscan.w_vals w !! 1%nat = Some 4%Z.
Proof.
  destruct (exscan_local_running_value 0%Z Exscan.example_value_init
              Exscan.example_oper 2 [cumsum] false
              [Exscan.example_rank0; Exscan.example_rank1] 1 0
              Exscan.example_rank1 cumsum
              [Exscan.mk_row 0%Z 3%Z true] [] (Exscan.mk_row 1%Z 4%Z true)
              (Exscan.mk_work [0%Z; 0%Z] [true; true]))
    as (outs & w & H1 & H2 & H3).
  - repeat constructor; cbn; lia.
  - reflexivity.
  - reflexivity.
  - reflexivity.
  - reflexivity.
  - discriminate.
  - reflexivity.
  - cbn. lia.
  - right. reflexivity.
  - exists outs, w. split_and!; [exact H1|exact H2|].
    etrans; [exact H3|]. reflexivity.
Defined.

(** Run in parallel by all ranks, the nullable exscan path gives a row of
    a group, for a cumulative function whose operation is associative and
    commutative with [value_init] as its unit, the row's value combined
    with the running value of all valid rows of the same group that come
    before it: those of the lower ranks, in rank order, then the earlier
    rows of its own rank. This holds with nulls skipped, and with nulls
    kept as long as none of those earlier rows of the group is null. *)
Theorem exscan_parallel_running_value {T : Type} (T_zero : T)
    (T_value_init : Bodo_FTypes -> T) (oper : Bodo_FTypes -> T -> T -> T)
    (max_row_idx : Z) (fts : list Bodo_FTypes) (skipdropna : bool)
    (ranks : list (@Exscan.rank_input T)) (r k : nat)
    (p : @Exscan.rank_input T) (ft : Bodo_FTypes)
    (pre post : list (@Exscan.row T)) (x : @Exscan.row T)
    (w0 : @Exscan.work_col T) :
  (forall a b c, oper ft a (oper ft b c) = oper ft (oper ft a b) c) ->
  (forall a b, oper ft a b = oper ft b a) ->
  (forall a, oper ft a (T_value_init ft) = a) ->
  Forall (Exscan.wf_rank max_row_idx (length fts)) ranks ->
  ranks !! r = Some p ->
  fts !! k = Some ft -> Exscan.is_cumulative ft = true ->
  Exscan.rows p = pre ++ x :: post -> Exscan.idx x <> Exscan.miss_idx ->
  Exscan.out_arrs p !! k = Some w0 ->
  (length pre < length (Exscan.w_vals w0))%nat ->
  let before := concat (Exscan.rows <$> take r ranks) ++ pre in
  skipdropna = true \/ Exscan.saw_null (Exscan.idx x) before = false ->
  exists outs w,
    Exscan.mpi_exscan_computation_nullable_T T_zero T_value_init oper
      max_row_idx fts true skipdropna ranks !! r = Some outs
    /\ outs !! k = Some w
    /\ Exscan.w_vals w !! length pre
       = Some (oper ft (Exscan.val x)
                 (Exscan.running T_value_init oper ft
                    (Exscan.group_values (Exscan.idx x) before))).
Proof.
  intros Hassoc Hcomm Hunit Hwf Hr Hf Hc Hsplit Hi Hw0 Hvl before Hsk.
  pose proof (Forall_lookup_1 _ _ _ _ Hwf Hr) as Hp.
  assert (Hg : (0 <= Exscan.idx x < max_row_idx)%Z).
  { destruct Hp as (Hrows & _). rewrite Hsplit in Hrows.
    apply Forall_app in Hrows as [_ Hrows].
    apply Forall_cons in Hrows as [[?|?] _]; [contradiction|assumption]. }
  assert (Hskpre : skipdropna = true
                   \/ Exscan.saw_null (Exscan.idx x) pre = false).
  { destruct Hsk as [?|Hn]; [now left|right].
    subst before. rewrite saw_null_app in Hn.
    now apply orb_false_iff in Hn as [_ ?]. }
  assert (Hsklow : Forall (fun q =>
                     skipdropna = true
                     \/ Exscan.saw_null (Exscan.idx x) (Exscan.rows q) = false)
                     (take r ranks)).
  { destruct Hsk as [?|Hn]; [apply Forall_forall; now left|].
    subst before. rewrite saw_null_app in Hn.
    apply orb_false_iff in Hn as [Hn _].
    apply saw_null_concat in Hn. apply Forall_fmap in Hn.
    eapply Forall_impl; [exact Hn|]. cbn. auto. }
  destruct (local_result_val T_zero T_value_init oper skipdropna max_row_idx
              fts p k ft pre post x w0 Hp Hf Hc Hsplit Hi Hw0 Hvl Hskpre)
    as (w & Hw & Hv).
  unfold Exscan.mpi_exscan_computation_nullable_T. cbn [negb].
  rewrite list_lookup_imap, list_lookup_fmap, Hr.
  cbn [fmap option_fmap option_map].
  destruct (Exscan.local_result T_zero T_value_init oper skipdropna
              max_row_idx fts p) as [[outs c] m] eqn:Hloc.
  cbn [fst] in Hw. cbn [default].
  eexists _, _. split; [reflexivity|]. split.
  { rewrite (final_pass_out T_zero oper skipdropna max_row_idx (Exscan.rows p)
               _ _ fts 0 outs k ft w Hf Hw).
    rewrite Hc. reflexivity. }
  cbn [Nat.add]. rewrite Hsplit.
  rewrite (final_loop_val T_zero oper skipdropna ft _ _ _ pre x post w _ Hv Hi).
  f_equal.
  set (cums := (fun l : list Exscan.work_col * list T * list Z => l.1.2)
                <$> (Exscan.local_result T_zero T_value_init oper skipdropna
                       max_row_idx fts <$> ranks)).
  assert (Hcums : take r cums
                  = (fun q => (Exscan.local_result T_zero T_value_init oper
                                 skipdropna max_row_idx fts q).1.2)
                    <$> take r ranks).
  { subst cums. now rewrite <- list_fmap_compose, fmap_take. }
  assert (Hlow : Forall
            (fun q =>
               length (Exscan.local_result T_zero T_value_init oper
                         skipdropna max_row_idx fts q).1.2
               = (Z.to_nat max_row_idx * length fts)%nat
               /\ default T_zero
                    ((Exscan.local_result T_zero T_value_init oper skipdropna
                        max_row_idx fts q).1.2
                     !! Z.to_nat (Exscan.idx x + max_row_idx * Z.of_nat k))
                  = Exscan.running T_value_init oper ft
                      (Exscan.group_values (Exscan.idx x) (Exscan.rows q)))
            (take r ranks)).
  { apply Forall_forall. intros q Hq.
    apply (local_result_cum T_zero T_value_init oper skipdropna max_row_idx
             fts q k ft (Exscan.idx x)); try assumption.
    - apply elem_of_take in Hq as (n & Hn & _).
      exact (Forall_lookup_1 _ _ _ _ Hwf Hn).
    - exact (proj1 (Forall_forall _ _) Hsklow q Hq). }
  pose proof (exscan_values_slot T_zero oper max_row_idx cums r fts 0
                (Exscan.init_cumulative T_value_init max_row_idx fts)
                k ft (Exscan.idx x)) as Hscan.
  cbn [Nat.add] in Hscan. rewrite Hscan; [| | |exact Hf|exact Hc|exact Hg].
  2:{ apply length_init_cumulative. }
  2:{ rewrite Hcums. apply Forall_fmap.
      eapply Forall_impl; [exact Hlow|]. cbn. tauto. }
  clear Hscan. rewrite Hcums. subst before.
  rewrite group_values_app, group_values_concat.
  unfold Exscan.running, Exscan.running_from.
  rewrite (rf_app_e (oper ft) (T_value_init ft) Hassoc Hcomm Hunit).
  rewrite Hassoc. f_equal.
  destruct (take r ranks) as [|q0 qs]; cbn [fmap list_fmap concat].
  - rewrite (init_cumulative_slot T_value_init max_row_idx fts k ft
               (Exscan.idx x) Hf Hg). reflexivity.
  - apply Forall_cons in Hlow as [[_ Hq0] Hqs].
    rewrite Hq0. unfold Exscan.running, Exscan.running_from.
    rewrite <- (scan_fold (oper ft) (T_value_init ft) Hassoc Hcomm Hunit).
    f_equal. rewrite <- !list_fmap_compose.
    apply Forall_fmap_ext_1.
    eapply Forall_impl; [exact Hqs|]. cbn. intros q [_ Hq]. exact Hq.
Qed.

Lemma exscan_parallel_running_value_witness :
  exists outs w,
    Exscan.mpi_exscan_computation_nullable_T 0%Z Exscan.example_value_init
      Exscan.example_oper 2 [cumsum] true true
      [Exscan.example_rank0; Exscan.example_rank1] !! 1%nat = Some outs
    /\ outs !! 0%nat = Some w
    /\ Exscan.w_vals w !! 0%nat = Some 8%Z.
Proof.
  destruct (exscan_parallel_running_value 0%Z Exscan.example_value_init
              Exscan.example_oper 2 [cumsum] true
              [Exscan.example_rank0; Exscan.example_rank1] 1 0
              Exscan.example_rank1 cumsum
              [] [Exscan.mk_row 1%Z 4%Z true] (Exscan.mk_row 0%Z 3%Z true)
              (Exscan.mk_work [0%Z; 0%Z] [true; true]))
    as (outs & w & H1 & H2 & H3).
  - intros a b c. cbn. lia.
  - intros a b. cbn. lia.
  - intros a. cbn. lia.
  - repeat constructor; cbn; lia.
  - reflexivity.
  - reflexivity.
  - reflexivity.
  - reflexivity.
  - discriminate.
  - reflexivity.
  - cbn. lia.
  - left. reflexivity.
  - exists outs, w. split_and!; [exact H1|exact H2|].
    etrans; [exact H3|]. reflexivity.
Defined.

(** *** Rows of the missing group *)
Section ExscanMissingFacts.
Import Exscan.
Local Open Scope Z_scope.
Context {T : Type}.
Variable T_zero : T.
Variable oper : Bodo_FTypes -> T -> T -> T.

Local Abbreviation local_step := (@Exscan.local_step T T_zero oper).
Local Abbreviation local_loop := (@Exscan.local_loop T T_zero oper).
Local Abbreviation final_step := (@Exscan.final_step T T_zero oper).
Local Abbreviation final_loop := (@Exscan.final_loop T T_zero oper).

Lemma local_loop_vals_above sk ft off rs : forall i st k,
  (i + length rs <= k)%nat ->
  w_vals (work (local_loop sk ft off i rs st)) !! k
  = w_vals (work st) !! k.
Proof.
  induction rs as [|r rs IH]; intros i st k Hk; cbn; [reflexivity|].
  cbn in Hk. rewrite IH by lia.
  apply (local_step_vals_other T_zero oper). lia.
Qed.

Lemma local_loop_bits_above sk ft off rs : forall i st k,
  (i + length rs <= k)%nat ->
  w_bits (work (local_loop sk ft off i rs st)) !! k
  = w_bits (work st) !! k.
Proof.
  induction rs as [|r rs IH]; intros i st k Hk; cbn; [reflexivity|].
  cbn in Hk. rewrite IH by lia.
  apply (local_step_bits_other T_zero oper). lia.
Qed.

(** The first loop on a row of the missing group: the null bit is cleared,
    the value is left as it is. *)
Lemma local_loop_miss sk ft off pre r post st :
  idx r = miss_idx ->
  (length pre < length (w_bits (work st)))%nat ->
  w_bits (work (local_loop sk ft off 0 (pre ++ r :: post) st)) !! length pre
  = Some false
  /\ w_vals (work (local_loop sk ft off 0 (pre ++ r :: post) st))
       !! length pre
     = w_vals (work st) !! length pre.
Proof.
  intros Hi Hlt. split.
  - rewrite (local_loop_bit T_zero oper) by assumption.
    unfold local_bit. now rewrite decide_True.
  - rewrite (local_loop_app T_zero oper). cbn [Exscan.local_loop Nat.add].
    rewrite (local_loop_vals_below T_zero oper) by lia.
    transitivity (w_vals (work (local_loop sk ft off 0 pre st)) !! length pre).
    + unfold Exscan.local_step. now rewrite decide_True.
    + apply local_loop_vals_above. lia.
Qed.

(** The last loop leaves a row of the missing group alone. *)
Lemma final_loop_miss sk ft off cr mr pre r post w :
  idx r = miss_idx ->
  w_bits (final_loop sk ft off cr mr 0 (pre ++ r :: post) w) !! length pre
  = w_bits w !! length pre
  /\ w_vals (final_loop sk ft off cr mr 0 (pre ++ r :: post) w) !! length pre
     = w_vals w !! length pre.
Proof.
  intros Hi. rewrite (final_loop_app T_zero oper).
  cbn [Exscan.final_loop Nat.add].
  rewrite (final_loop_bits_outside T_zero oper) by lia.
  rewrite (final_loop_vals_outside T_zero oper) by lia.
  assert (Hstep : forall w', final_step sk ft off cr mr w' (length pre) r = w').
  { intros w'. unfold Exscan.final_step. rewrite decide_False; [reflexivity|].
    intros Hn. apply Hn. exact Hi. }
  rewrite Hstep.
  rewrite (final_loop_bits_outside T_zero oper) by lia.
  rewrite (final_loop_vals_outside T_zero oper) by lia.
  auto.
Qed.
End ExscanMissingFacts.

(** A row whose key is missing (group index [-1]) is never combined with
    anything: for every cumulative function the nullable exscan path,
    parallel or not, with nulls skipped or not, clears the row's output
    null bit and leaves the row's output value as the caller passed it. *)
Theorem exscan_missing_group_row {T : Type} (T_zero : T)
    (T_value_init : Bodo_FTypes -> T) (oper : Bodo_FTypes -> T -> T -> T)
    (max_row_idx : Z) (fts : list Bodo_FTypes)
    (is_parallel skipdropna : bool)
    (ranks : list (@Exscan.rank_input T)) (r k : nat)
    (p : @Exscan.rank_input T) (ft : Bodo_FTypes)
    (pre post : list (@Exscan.row T)) (x : @Exscan.row T)
    (w0 : @Exscan.work_col T) :
  Exscan.wf_rank max_row_idx (length fts) p ->
  ranks !! r = Some p ->
  fts !! k = Some ft -> Exscan.is_cumulative ft = true ->
  Exscan.rows p = pre ++ x :: post -> Exscan.idx x = Exscan.miss_idx ->
  Exscan.out_arrs p !! k = Some w0 ->
  exists outs w,
    Exscan.mpi_exscan_computation_nullable_T T_zero T_value_init oper
      max_row_idx fts is_parallel skipdropna ranks !! r = Some outs
    /\ outs !! k = Some w
    /\ Exscan.w_bits w !! length pre = Some false
    /\ Exscan.w_vals w !! length pre = Exscan.w_vals w0 !! length pre.
Proof.
  intros (Hrows & Hlen & Hbits) Hr Hf Hc Hsplit Hi Hw0.
  assert (Hbl : (length pre < length (Exscan.w_bits w0))%nat).
  { rewrite (Forall_lookup_1 _ _ _ _ Hbits Hw0), Hsplit, length_app.
    cbn. lia. }
  destruct (local_pass_out T_zero oper skipdropna max_row_idx (Exscan.rows p)
              fts 0 (Exscan.out_arrs p)
              (Exscan.init_cumulative T_value_init max_row_idx fts)
              (if skipdropna then []
               else replicate
                      (Z.to_nat (max_row_idx * Z.of_nat (length fts))) 0%Z)
              k ft w0 Hrows Hlen Hf Hw0) as (ck & mk & Hout & _).
  rewrite Hc in Hout. cbn [Nat.add] in Hout.
  rewrite Hsplit in Hout at 2.
  destruct (local_loop_miss T_zero oper skipdropna ft
              (max_row_idx * Z.of_nat k)%Z pre x post
              (Exscan.mk_pass ck mk w0) Hi Hbl) as [Hlb Hlv].
  cbn [Exscan.work] in Hlv.
  unfold Exscan.mpi_exscan_computation_nullable_T.
  fold (Exscan.local_result T_zero T_value_init oper skipdropna max_row_idx
          fts p) in Hout.
  destruct is_parallel; cbn [negb].
  - rewrite list_lookup_imap, list_lookup_fmap, Hr.
    cbn [fmap option_fmap option_map].
    destruct (Exscan.local_result T_zero T_value_init oper skipdropna
                max_row_idx fts p) as [[outs c] m] eqn:Hloc.
    cbn [fst] in Hout. cbn [default].
    eexists _, _. split; [reflexivity|]. split.
    { rewrite (final_pass_out T_zero oper skipdropna max_row_idx
                 (Exscan.rows p) _ _ fts 0 outs k ft _ Hf Hout).
      rewrite Hc. reflexivity. }
    cbn [Nat.add]. rewrite Hsplit at 1 2.
    match goal with
    | |- context [Exscan.final_loop _ _ _ _ ?off ?cr ?mr 0 _ ?w] =>
        destruct (final_loop_miss T_zero oper skipdropna ft off cr mr
                    pre x post w Hi) as [Hfb Hfv]
    end.
    rewrite Hfb, Hfv. split; [exact Hlb|exact Hlv].
  - rewrite !list_lookup_fmap, Hr. cbn [fmap option_fmap option_map].
    eexists _, _. split; [reflexivity|]. split; [exact Hout|].
    split; [exact Hlb|exact Hlv].
Qed.

Lemma exscan_missing_group_row_witness :
  exists outs w,
    Exscan.mpi_exscan_computation_nullable_T 0%Z Exscan.example_value_init
      Exscan.example_oper 2 [cumsum] true true
      [Exscan.mk_rank [Exscan.mk_row 0%Z 5%Z true;
                       Exscan.mk_row (-1)%Z 9%Z true]
                      [Exscan.mk_work [0%Z; 7%Z] [true; true]]] !! 0%nat
    = Some outs
    /\ outs !! 0%nat = Some w
    /\ Exscan.w_bits w !! 1%nat = Some false
    /\ Exscan.w_vals w !! 1%nat = Some 7%Z.
Proof.
  destruct (exscan_missing_group_row 0%Z Exscan.example_value_init
              Exscan.example_oper 2 [cumsum] true true
              [Exscan.mk_rank [Exscan.mk_row 0%Z 5%Z true;
                               Exscan.mk_row (-1)%Z 9%Z true]
                              [Exscan.mk_work [0%Z; 7%Z] [true; true]]]
              0 0
              (Exscan.mk_rank [Exscan.mk_row 0%Z 5%Z true;
                               Exscan.mk_row (-1)%Z 9%Z true]
                              [Exscan.mk_work [0%Z; 7%Z] [true; true]])
              cumsum [Exscan.mk_row 0%Z 5%Z true] []
              (Exscan.mk_row (-1)%Z 9%Z true)
              (Exscan.mk_work [0%Z; 7%Z] [true; true]))
    as (outs & w & H1 & H2 & H3 & H4).
  - split_and!; repeat constructor; cbn; lia.
  - reflexivity.
  - reflexivity.
  - reflexivity.
  - reflexivity.
  - reflexivity.
  - reflexivity.
  - exists outs, w. split_and!; [exact H1|exact H2|exact H3|].
    etrans; [exact H4|]. reflexivity.
Defined.

(* --------------------------------------------------------------------- *)
(** ** Reading back what the STRING appends wrote                         *)
(* --------------------------------------------------------------------- *)
Section StringAppendFacts.
Import Bitmap BuildBuffer.
Local Open Scope Z_scope.

Lemma memcpy_lookup dest off src n (k : nat) :
  0 <= off -> 0 <= n -> n <= Z.of_nat (length src) ->
  off + n <= Z.of_nat (length dest) ->
  memcpy dest off src n !! k
  = if decide (off <= Z.of_nat k < off + n)
    then src !! (k - Z.to_nat off)%nat else dest !! k.
Proof.
  intros Hoff Hn Hsrc Hdest. unfold memcpy.
  destruct (decide (off <= Z.of_nat k < off + n)) as [Hin|Hout].
  - rewrite lookup_app_r by (rewrite length_take; lia).
    rewrite length_take.
    rewrite lookup_app_l by (rewrite length_take; lia).
    rewrite lookup_take_lt by lia. f_equal. lia.
  - destruct (decide (Z.of_nat k < off)).
    + rewrite lookup_app_l by (rewrite length_take; lia).
      rewrite lookup_take_lt by lia. reflexivity.
    + rewrite lookup_app_r by (rewrite length_take; lia).
      rewrite lookup_app_r by (rewrite !length_take; lia).
      rewrite lookup_drop, !length_take. f_equal. lia.
Qed.

Lemma take_drop_ext {A : Type} (l1 l2 : list A) (s1 s2 len : nat) :
  (forall i, (i < len)%nat -> l1 !! (s1 + i)%nat = l2 !! (s2 + i)%nat) ->
  take len (drop s1 l1) = take len (drop s2 l2).
Proof.
  intros H. apply list_eq. intros i. rewrite !lookup_take.
  destruct (decide (i < len)%nat); [|reflexivity].
  rewrite !lookup_drop. auto.
Qed.

(** Characters below the place of a copy are left alone. *)
Lemma take_drop_memcpy_below dest off src n (s len : Z) :
  0 <= off -> 0 <= n -> n <= Z.of_nat (length src) ->
  off + n <= Z.of_nat (length dest) ->
  0 <= s -> s + len <= off ->
  take (Z.to_nat len) (drop (Z.to_nat s) (memcpy dest off src n))
  = take (Z.to_nat len) (drop (Z.to_nat s) dest).
Proof.
  intros Hoff Hn Hsrc Hdest Hs Hle. apply take_drop_ext. intros i Hi.
  rewrite memcpy_lookup by assumption.
  rewrite decide_False by lia. reflexivity.
Qed.

(** The characters a copy wrote. *)
Lemma take_drop_memcpy_inside dest off src n (s len : Z) :
  0 <= off -> 0 <= n -> n <= Z.of_nat (length src) ->
  off + n <= Z.of_nat (length dest) ->
  off <= s -> 0 <= len -> s + len <= off + n ->
  take (Z.to_nat len) (drop (Z.to_nat s) (memcpy dest off src n))
  = take (Z.to_nat len) (drop (Z.to_nat (s - off)) src).
Proof.
  intros Hoff Hn Hsrc Hdest Hs Hlen Hle. apply take_drop_ext. intros i Hi.
  rewrite memcpy_lookup by assumption.
  rewrite decide_True by lia. f_equal. lia.
Qed.

Lemma offset_at_insert (offs : list Z) (k i v : Z) :
  0 <= k -> 0 <= i -> (Z.to_nat k < length offs)%nat ->
  offset_at (<[Z.to_nat k := v]> offs) i
  = if decide (i = k) then v else offset_at offs i.
Proof.
  intros Hk Hi Hlen. unfold offset_at.
  destruct (decide (i = k)) as [->|Hne].
  - now rewrite list_lookup_insert_eq.
  - rewrite list_lookup_insert_ne by lia. reflexivity.
Qed.

(** Offsets that never decrease are ordered. *)
Lemma offsets_increase_le (offs : list Z) (n : Z) :
  offsets_increase offs n ->
  forall i j, 0 <= i <= j -> j <= n ->
  0 <= offset_at offs i /\ offset_at offs i <= offset_at offs j.
Proof.
  intros [H0 Hstep].
  assert (Hnn : forall m : nat, Z.of_nat m <= n ->
                  0 <= offset_at offs (Z.of_nat m)).
  { induction m as [|m IH]; intros Hm; [exact H0|].
    specialize (IH ltac:(lia)).
    specialize (Hstep (Z.of_nat m) ltac:(lia)).
    replace (Z.of_nat (S m)) with (Z.of_nat m + 1) by lia. lia. }
  intros i j Hij Hj. split.
  - specialize (Hnn (Z.to_nat i)). rewrite Z2Nat.id in Hnn by lia.
    apply Hnn. lia.
  - replace j with (i + Z.of_nat (Z.to_nat (j - i))) by lia.
    assert (Hd : i + Z.of_nat (Z.to_nat (j - i)) <= n) by lia.
    induction (Z.to_nat (j - i)) as [|d IH]; [rewrite Z.add_0_r; lia|].
    specialize (IH ltac:(lia)).
    specialize (Hstep (i + Z.of_nat d) ltac:(lia)).
    replace (i + Z.of_nat (S d)) with (i + Z.of_nat d + 1) by lia. lia.
Qed.

(** [str_len] is the difference of the two offsets when they are ordered
    and small. *)
Lemma str_len_diff (in_offsets : list Z) (row_ind : Z) :
  0 <= offset_at in_offsets row_ind <= offset_at in_offsets (row_ind + 1) ->
  offset_at in_offsets (row_ind + 1) < 2 ^ 63 ->
  str_len in_offsets row_ind
  = offset_at in_offsets (row_ind + 1) - offset_at in_offsets row_ind.
Proof.
  intros Hle Hlt. unfold str_len, offset_wrap, to_int64.
  rewrite (Z.mod_small (_ - _)) by lia.
  rewrite Z.mod_small by lia. lia.
Qed.

Lemma BytesForBits_succ (n : Z) : BytesForBits (n + 1) = n / 8 + 1.
Proof.
  unfold BytesForBits. rewrite Z.shiftr_div_pow2 by lia.
  change (2 ^ 3) with 8. replace (n + 1 + 7) with (n + 1 * 8) by lia.
  apply Z.div_add. lia.
Qed.

(** One row appended to a STRING column. *)
Lemma append_row_string_spec (b in_arr : string_array_info) (row : Z) :
  let size := arr_length (str_fields b) in
  let o := offset_at (data2 b) size in
  let len := str_len (data2 in_arr) row in
  0 <= size -> offsets_increase (data2 b) size ->
  size + 2 <= Z.of_nat (length (data2 b)) ->
  0 <= row ->
  0 <= offset_at (data2 in_arr) row <= offset_at (data2 in_arr) (row + 1) ->
  offset_at (data2 in_arr) (row + 1)
    <= Z.of_nat (length (data1 (str_fields in_arr))) ->
  offset_at (data2 in_arr) (row + 1) < 2 ^ 63 ->
  o + len <= Z.of_nat (length (data1 (str_fields b))) ->
  o + len < 2 ^ 64 ->
  BytesForBits (size + 1) <= Z.of_nat (length (null_bitmask (str_fields b))) ->
  let r := UnsafeAppendRow_STRING b in_arr row in
  arr_length (str_fields r) = size + 1
  /\ length (data1 (str_fields r)) = length (data1 (str_fields b))
  /\ length (data2 r) = length (data2 b)
  /\ length (null_bitmask (str_fields r))
     = length (null_bitmask (str_fields b))
  /\ offset_at (data2 r) (size + 1) = o + len
  /\ (forall i, 0 <= i <= size ->
        offset_at (data2 r) i = offset_at (data2 b) i)
  /\ offsets_increase (data2 r) (size + 1)
  /\ (forall i, 0 <= i < size ->
        string_at r i = string_at b i
        /\ GetBit (null_bitmask (str_fields r)) i
           = GetBit (null_bitmask (str_fields b)) i)
  /\ string_at r size = string_at in_arr row
  /\ GetBit (null_bitmask (str_fields r)) size
     = GetBit (null_bitmask (str_fields in_arr)) row.
Proof.
  intros size o len Hsize Hinc Hocap Hrow Hin Hinlen Hin63 Hdcap Hd64 Hbcap r.
  assert (Hlen : len = offset_at (data2 in_arr) (row + 1)
                       - offset_at (data2 in_arr) row).
  { subst len. apply str_len_diff; assumption. }
  assert (Hlen0 : 0 <= len) by lia.
  destruct (offsets_increase_le _ _ Hinc size size ltac:(lia) ltac:(lia))
    as [Ho0 _].
  fold o in Ho0.
  assert (Hoff : forall i, 0 <= i ->
            offset_at (data2 r) i
            = if decide (i = size + 1) then o + len
              else offset_at (data2 b) i).
  { intros i Hi. subst r. unfold UnsafeAppendRow_STRING. cbn [data2].
    fold size. fold o. fold len.
    rewrite offset_at_insert by lia.
    destruct (decide _); [|reflexivity].
    unfold offset_wrap. apply Z.mod_small. lia. }
  assert (Hdata : data1 (str_fields r)
                  = memcpy (data1 (str_fields b)) o
                      (drop (Z.to_nat (offset_at (data2 in_arr) row))
                            (data1 (str_fields in_arr))) len).
  { subst r. unfold UnsafeAppendRow_STRING.
    cbn [str_fields data1 set_length set_null_bitmask set_data1].
    fold size. fold len. f_equal.
    rewrite offset_at_insert by lia. rewrite decide_False by lia.
    reflexivity. }
  assert (Hsrc : len <= Z.of_nat
                   (length (drop (Z.to_nat (offset_at (data2 in_arr) row))
                                 (data1 (str_fields in_arr))))).
  { rewrite length_drop. lia. }
  assert (Hbm : null_bitmask (str_fields r)
                = SetBitTo (null_bitmask (str_fields b)) size
                    (GetBit (null_bitmask (str_fields in_arr)) row))
    by reflexivity.
  assert (Hb8 : size / 8 < Z.of_nat (length (null_bitmask (str_fields b)))).
  { rewrite BytesForBits_succ in Hbcap. lia. }
  split_and!.
  - reflexivity.
  - rewrite Hdata. apply length_memcpy; lia.
  - subst r. unfold UnsafeAppendRow_STRING. cbn [data2].
    apply length_insert.
  - rewrite Hbm. apply length_SetBitTo.
  - rewrite Hoff by lia. now rewrite decide_True.
  - intros i Hi. rewrite Hoff by lia. now rewrite decide_False by lia.
  - destruct Hinc as [H0 Hstep]. split.
    + rewrite Hoff by lia. rewrite decide_False by lia. exact H0.
    + intros i Hi. rewrite !Hoff by lia.
      destruct (decide (i = size)) as [->|Hne].
      * rewrite decide_False by lia. rewrite decide_True by lia.
        fold o. lia.
      * rewrite !decide_False by lia. apply Hstep. lia.
  - intros i Hi.
    destruct (offsets_increase_le _ _ Hinc i (i + 1) ltac:(lia) ltac:(lia))
      as [Hi0 Hi1].
    destruct (offsets_increase_le _ _ Hinc (i + 1) size ltac:(lia)
                ltac:(lia)) as [_ Hi2].
    fold o in Hi2.
    split.
    + unfold string_at. rewrite !Hoff by lia.
      rewrite !decide_False by lia. rewrite Hdata.
      apply take_drop_memcpy_below; lia.
    + rewrite Hbm, GetBit_SetBitTo by lia.
      now rewrite decide_False by lia.
  - unfold string_at. rewrite !Hoff by lia.
    rewrite decide_True by reflexivity. rewrite decide_False by lia.
    fold o. rewrite Hdata.
    replace (o + len - o) with len by lia.
    rewrite take_drop_memcpy_inside by lia.
    rewrite Z.sub_diag. cbn [Z.to_nat drop]. rewrite Hlen. reflexivity.
  - rewrite Hbm, GetBit_SetBitTo by lia. now rewrite decide_True.
Qed.

Lemma rows_chars_nonneg (in_arr : string_array_info) (rows : list Z) :
  Forall (readable_row in_arr) rows -> 0 <= rows_chars in_arr rows.
Proof.
  induction 1 as [|row rows (H0 & _ & Hle & _ & H63) _ IH]; [cbn; lia|].
  unfold rows_chars in *. cbn [foldr].
  rewrite str_len_diff by assumption. lia.
Qed.

(** Rows appended to a STRING column one at a time. *)
Lemma append_rows_string_spec (in_arr : string_array_info) (rows : list Z) :
  forall b : string_array_info,
  let size := arr_length (str_fields b) in
  let o := offset_at (data2 b) size in
  0 <= size -> offsets_increase (data2 b) size ->
  size + Z.of_nat (length rows) + 1 <= Z.of_nat (length (data2 b)) ->
  Forall (readable_row in_arr) rows ->
  o + rows_chars in_arr rows <= Z.of_nat (length (data1 (str_fields b))) ->
  o + rows_chars in_arr rows < 2 ^ 64 ->
  BytesForBits (size + Z.of_nat (length rows))
    <= Z.of_nat (length (null_bitmask (str_fields b))) ->
  let r := UnsafeAppendRows_STRING b in_arr rows in
  arr_length (str_fields r) = size + Z.of_nat (length rows)
  /\ length (data1 (str_fields r)) = length (data1 (str_fields b))
  /\ length (data2 r) = length (data2 b)
  /\ length (null_bitmask (str_fields r))
     = length (null_bitmask (str_fields b))
  /\ offset_at (data2 r) (size + Z.of_nat (length rows))
     = o + rows_chars in_arr rows
  /\ offsets_increase (data2 r) (size + Z.of_nat (length rows))
  /\ (forall i, 0 <= i < size ->
        string_at r i = string_at b i
        /\ GetBit (null_bitmask (str_fields r)) i
           = GetBit (null_bitmask (str_fields b)) i)
  /\ (forall (j : nat) row, rows !! j = Some row ->
        string_at r (size + Z.of_nat j) = string_at in_arr row
        /\ GetBit (null_bitmask (str_fields r)) (size + Z.of_nat j)
           = GetBit (null_bitmask (str_fields in_arr)) row).
Proof.
  induction rows as [|row rows IH];
    intros b size o Hsize Hinc Hocap Hrows Hdcap Hd64 Hbcap r.
  - subst r. cbn [UnsafeAppendRows_STRING fold_left length rows_chars foldr].
    unfold UnsafeAppendRows_STRING. cbn [fold_left]. fold size. fold o.
    rewrite !Z.add_0_r. split_and!; try reflexivity; try assumption.
    + auto.
    + intros j row Hj. now rewrite lookup_nil in Hj.
  - apply Forall_cons in Hrows as [Hrow Hrows].
    pose proof (rows_chars_nonneg in_arr rows Hrows) as Hnn.
    destruct Hrow as (Hr0 & Hrl & Hrle & Hrd & Hr63).
    cbn [length rows_chars foldr] in *.
    change (foldr _ 0 rows) with (rows_chars in_arr rows) in *.
    pose proof (str_len_diff (data2 in_arr) row Hrle Hr63) as Hlen.
    destruct (append_row_string_spec b in_arr row Hsize Hinc ltac:(lia) Hr0
                Hrle Hrd Hr63 ltac:(fold size; fold o; lia)
                ltac:(fold size; fold o; lia))
      as (A1 & A2 & A3 & A4 & A5 & A6 & A7 & A8 & A9 & A10).
    { etransitivity; [|exact Hbcap]. apply BytesForBits_mono. lia. }
    fold size in A1, A5, A6, A7, A8, A9, A10. fold o in A5.
    set (b1 := UnsafeAppendRow_STRING b in_arr row) in *.
    specialize (IH b1). cbn zeta in IH.
    rewrite A1, A2, A3, A4, A5 in IH.
    destruct IH as (B1 & B2 & B3 & B4 & B5 & B6 & B7 & B8);
      [lia|exact A7|lia|exact Hrows|lia|lia| |].
    { replace (size + 1 + Z.of_nat (length rows))
        with (size + Z.of_nat (S (length rows))) by lia. exact Hbcap. }
    subst r. unfold UnsafeAppendRows_STRING in *. cbn [fold_left].
    fold b1.
    replace (size + Z.of_nat (S (length rows)))
      with (size + 1 + Z.of_nat (length rows)) by lia.
    split_and!; try assumption.
    + rewrite B5. lia.
    + intros i Hi. destruct (B7 i ltac:(lia)) as [-> ->]. apply A8. exact Hi.
    + intros [|j] row' Hj; cbn in Hj.
      * injection Hj as <-. rewrite Z.add_0_r.
        destruct (B7 size ltac:(lia)) as [-> ->]. auto.
      * destruct (B8 j row' Hj) as [Hs Hb].
        replace (size + Z.of_nat (S j)) with (size + 1 + Z.of_nat j) by lia.
        auto.
Qed.

(** *** The filtered batch append, row by row *)

Lemma fold_pair_filter {A B : Type} (p : Z -> bool)
      (g : A -> B -> Z -> A * B) (l : list Z) : forall acc : A * B,
  fold_left (fun (acc : A * B) x =>
               let '(a, k) := acc in if p x then g a k x else acc) l acc
  = fold_left (fun (acc : A * B) x => g acc.1 acc.2 x)
              (filter (fun x => p x = true) l) acc.
Proof.
  induction l as [|x l IH]; intros [a k]; [reflexivity|].
  cbn [fold_left]. destruct (p x) eqn:Hp.
  - rewrite filter_cons_True by exact Hp. cbn [fold_left]. apply IH.
  - rewrite filter_cons_False by (rewrite Hp; discriminate). apply IH.
Qed.

Lemma fold_if_filter {A : Type} (p : Z -> bool) (g : A -> Z -> A)
      (l : list Z) : forall acc : A,
  fold_left (fun acc x => if p x then g acc x else acc) l acc
  = fold_left g (filter (fun x => p x = true) l) acc.
Proof.
  induction l as [|x l IH]; intros acc; [reflexivity|].
  cbn [fold_left]. destruct (p x) eqn:Hp.
  - rewrite filter_cons_True by exact Hp. cbn [fold_left]. apply IH.
  - rewrite filter_cons_False by (rewrite Hp; discriminate). apply IH.
Qed.

(** The offset loop and the character loop of the filtered append, on the
    selected rows. *)
Abbreviation offs_step in_offsets :=
  (fun (acc : list Z * Z) (row_ind : Z) =>
     (<[Z.to_nat (acc.2 + 1) :=
          offset_wrap (offset_at acc.1 acc.2 + str_len in_offsets row_ind)]>
        acc.1,
      acc.2 + 1)).
Abbreviation sbit_step in_bm :=
  (fun (acc : array_info) (i : Z) =>
     set_length (set_null_bitmask acc
                   (SetBitTo (null_bitmask acc) (arr_length acc)
                             (GetBit in_bm i)))
                (arr_length acc + 1)).
Abbreviation chars_step curr_offsets in_arr :=
  (fun (acc : list Z * Z) (row_ind : Z) =>
     (memcpy acc.1 (offset_at curr_offsets acc.2)
             (drop (Z.to_nat (offset_at (data2 in_arr) row_ind))
                   (data1 (str_fields in_arr)))
             (str_len (data2 in_arr) row_ind),
      acc.2 + 1)).

(** The offset loop leaves the offsets up to its start alone. *)
Lemma offs_loop_frame in_offsets (rows : list Z) : forall offs k,
  0 <= k ->
  (fold_left (offs_step in_offsets) rows (offs, k)).2
  = k + Z.of_nat (length rows)
  /\ forall i, 0 <= i <= k ->
       offset_at (fold_left (offs_step in_offsets) rows (offs, k)).1 i
       = offset_at offs i.
Proof.
  induction rows as [|row rows IH]; intros offs k Hk; cbn [fold_left length].
  - split; [cbn; lia|auto].
  - cbn [fst snd].
    destruct (IH (<[Z.to_nat (k + 1) :=
                      offset_wrap (offset_at offs k
                                   + str_len in_offsets row)]> offs)
                 (k + 1) ltac:(lia)) as [H1 H2].
    split; [rewrite H1; lia|].
    intros i Hi. rewrite H2 by lia.
    unfold offset_at. rewrite list_lookup_insert_ne by lia. reflexivity.
Qed.

Lemma filtered_string_rows (in_arr : string_array_info) (rows : list Z) :
  forall (b : string_array_info) (F : list Z),
  0 <= arr_length (str_fields b) ->
  (forall j : nat, (j < length rows)%nat ->
     offset_at F (arr_length (str_fields b) + Z.of_nat j)
     = offset_at
         (fold_left (offs_step (data2 in_arr)) (take j rows)
                    (data2 b, arr_length (str_fields b))).1
         (arr_length (str_fields b) + Z.of_nat j)) ->
  UnsafeAppendRows_STRING b in_arr rows
  = mk_string_array
      (fold_left (sbit_step (null_bitmask (str_fields in_arr))) rows
         (set_data1 (str_fields b)
            (fold_left (chars_step F in_arr) rows
                       (data1 (str_fields b), arr_length (str_fields b))).1))
      (fold_left (offs_step (data2 in_arr)) rows
                 (data2 b, arr_length (str_fields b))).1.
Proof.
  induction rows as [|row rows IH]; intros b F Hsize HF.
  - unfold UnsafeAppendRows_STRING. cbn.
    destruct b as [[ty dt len d bm] offs]. reflexivity.
  - unfold UnsafeAppendRows_STRING in *. cbn [fold_left fst snd].
    set (b1 := UnsafeAppendRow_STRING b in_arr row).
    assert (Hs1 : arr_length (str_fields b1) = arr_length (str_fields b) + 1)
      by reflexivity.
    assert (Ho1 : data2 b1
                  = <[Z.to_nat (arr_length (str_fields b) + 1) :=
                        offset_wrap
                          (offset_at (data2 b) (arr_length (str_fields b))
                           + str_len (data2 in_arr) row)]> (data2 b))
      by reflexivity.
    assert (HF0 : offset_at F (arr_length (str_fields b))
                  = offset_at (data2 b) (arr_length (str_fields b))).
    { specialize (HF 0%nat ltac:(cbn; lia)). cbn in HF.
      rewrite Z.add_0_r in HF. exact HF. }
    assert (Hd1 : data1 (str_fields b1)
                  = memcpy (data1 (str_fields b))
                      (offset_at F (arr_length (str_fields b)))
                      (drop (Z.to_nat (offset_at (data2 in_arr) row))
                            (data1 (str_fields in_arr)))
                      (str_len (data2 in_arr) row)).
    { subst b1. unfold UnsafeAppendRow_STRING.
      cbn [str_fields data1 set_length set_null_bitmask set_data1].
      f_equal. rewrite HF0. unfold offset_at.
      rewrite list_lookup_insert_ne by lia. reflexivity. }
    rewrite (IH b1 F).
    + rewrite Hs1, Ho1, Hd1. reflexivity.
    + rewrite Hs1. lia.
    + intros j Hj. rewrite Hs1, Ho1.
      specialize (HF (S j) ltac:(cbn; lia)).
      cbn [take fold_left fst snd] in HF.
      replace (arr_length (str_fields b) + 1 + Z.of_nat j)
        with (arr_length (str_fields b) + Z.of_nat (S j)) by lia.
      exact HF.
Qed.

(** The three loops of the filtered [UnsafeAppendBatch] on a STRING column
    (offsets, characters, null bits) write what appending the selected rows
    one at a time writes. *)
Lemma filtered_string_loops_are_row_appends (b in_arr : string_array_info)
    (append_rows : list bool) (append_rows_sum : Z) :
  0 <= arr_length (str_fields b) ->
  UnsafeAppendBatch_STRING_rows b in_arr append_rows append_rows_sum
  = UnsafeAppendRows_STRING b in_arr
      (selected_rows (str_fields in_arr) append_rows).
Proof.
  intros Hsize.
  set (p := fun row_ind : Z => default false (append_rows !! Z.to_nat row_ind)).
  set (sel := filter (fun row_ind => p row_ind = true)
                (Zseq (arr_length (str_fields in_arr)))).
  change (selected_rows (str_fields in_arr) append_rows) with sel.
  unfold UnsafeAppendBatch_STRING_rows.
  change (fun row_ind : Z => default false (append_rows !! Z.to_nat row_ind))
    with p.
  rewrite (fold_pair_filter p
             (fun offs k row_ind =>
                (<[Z.to_nat (k + 1) :=
                     offset_wrap (offset_at offs k
                                  + str_len (data2 in_arr) row_ind)]> offs,
                 k + 1))).
  fold sel.
  destruct (fold_left _ sel (data2 b, arr_length (str_fields b)))
    as [F kF] eqn:HF.
  rewrite (fold_pair_filter p
             (fun d k row_ind =>
                (memcpy d (offset_at F k)
                        (drop (Z.to_nat (offset_at (data2 in_arr) row_ind))
                              (data1 (str_fields in_arr)))
                        (str_len (data2 in_arr) row_ind),
                 k + 1))).
  fold sel.
  destruct (fold_left _ sel (data1 (str_fields b), arr_length (str_fields b)))
    as [D kD] eqn:HD.
  rewrite (fold_if_filter p
             (fun acc row_ind =>
                set_length
                  (set_null_bitmask acc
                     (SetBitTo (null_bitmask acc) (arr_length acc)
                        (GetBit (null_bitmask (str_fields in_arr)) row_ind)))
                  (arr_length acc + 1))).
  fold sel.
  rewrite (filtered_string_rows in_arr sel b F Hsize).
  - change (fold_left (chars_step F in_arr) sel
              (data1 (str_fields b), arr_length (str_fields b)))
      with (fold_left
              (fun (acc : list Z * Z) x =>
                 (memcpy acc.1 (offset_at F acc.2)
                         (drop (Z.to_nat (offset_at (data2 in_arr) x))
                               (data1 (str_fields in_arr)))
                         (str_len (data2 in_arr) x),
                  acc.2 + 1)) sel
              (data1 (str_fields b), arr_length (str_fields b))).
    rewrite HD.
    change (fold_left (offs_step (data2 in_arr)) sel
              (data2 b, arr_length (str_fields b)))
      with (fold_left
              (fun (acc : list Z * Z) x =>
                 (<[Z.to_nat (acc.2 + 1) :=
                      offset_wrap (offset_at acc.1 acc.2
                                   + str_len (data2 in_arr) x)]> acc.1,
                  acc.2 + 1)) sel
              (data2 b, arr_length (str_fields b))).
    rewrite HF. reflexivity.
  - intros j Hj.
    rewrite <- (take_drop j sel) in HF. rewrite fold_left_app in HF.
    destruct (offs_loop_frame (data2 in_arr) (take j sel) (data2 b)
                (arr_length (str_fields b)) Hsize) as [Hk _].
    destruct (fold_left _ (take j sel) (data2 b, arr_length (str_fields b)))
      as [Oj kj] eqn:Hj'.
    cbn [fst snd] in *.
    rewrite length_take in Hk.
    replace (j `min` length sel)%nat with j in Hk by lia. subst kj.
    destruct (offs_loop_frame (data2 in_arr) (drop j sel) Oj
                (arr_length (str_fields b) + Z.of_nat j) ltac:(lia))
      as [_ Hfr].
    rewrite HF in Hfr. cbn [fst] in Hfr. apply Hfr. lia.
Qed.

(** *** The unfiltered batch append *)

Lemma string_offsets_loop (in_offsets offs : list Z) (size : Z) (m : nat) :
  0 <= size ->
  size + Z.of_nat m + 1 <= Z.of_nat (length offs) ->
  let r :=
    fold_left
      (fun offs row_ind =>
         <[Z.to_nat (size + row_ind) :=
             offset_wrap (offset_at offs size
                          + offset_at in_offsets row_ind)]> offs)
      ((fun i => i + 1) <$> Zseq (Z.of_nat m)) offs in
  length r = length offs
  /\ forall i, 0 <= i ->
       offset_at r i
       = if decide (size < i <= size + Z.of_nat m)
         then offset_wrap (offset_at offs size
                           + offset_at in_offsets (i - size))
         else offset_at offs i.
Proof.
  intros Hsize. induction m as [|m IH]; intros Hcap r.
  - subst r. change (Zseq (Z.of_nat 0)) with (@nil Z). cbn.
    split; [reflexivity|]. intros i Hi. now rewrite decide_False by lia.
  - subst r. rewrite Zseq_succ, fmap_app, fold_left_app.
    cbn [fmap list_fmap fold_left].
    destruct (IH ltac:(lia)) as [Hl Hv]. clear IH.
    set (r0 := fold_left _ ((fun i => i + 1) <$> Zseq (Z.of_nat m)) offs) in *.
    split; [rewrite length_insert; exact Hl|].
    intros i Hi.
    rewrite offset_at_insert by lia.
    rewrite (Hv size) by lia. rewrite (decide_False (P := size < size <= _)) by lia.
    destruct (decide (i = size + (Z.of_nat m + 1))) as [->|Hne].
    + rewrite decide_True by lia. do 3 f_equal. lia.
    + rewrite Hv by lia.
      destruct (decide (size < i <= size + Z.of_nat m)).
      * rewrite decide_True by lia. reflexivity.
      * rewrite decide_False by lia. reflexivity.
Qed.

Lemma slow_string_prefix (a : array_info) (in_bm : list Z) (m : nat) :
  fold_left (sbit_step in_bm) (Zseq (Z.of_nat m)) a
  = set_length
      (set_null_bitmask a
         (fold_left
            (fun bm i => SetBitTo bm (arr_length a + i) (GetBit in_bm i))
            (Zseq (Z.of_nat m)) (null_bitmask a)))
      (arr_length a + Z.of_nat m).
Proof.
  induction m as [|m IH].
  - change (Zseq (Z.of_nat 0)) with (@nil Z). cbn [fold_left].
    change (Z.of_nat 0) with 0. rewrite Z.add_0_r.
    destruct a as [ty dt len d bm]. reflexivity.
  - rewrite Zseq_succ, !fold_left_app. cbn [fold_left]. rewrite IH.
    unfold set_length, set_null_bitmask.
    cbn [arr_type dtype arr_length data1 null_bitmask].
    f_equal. lia.
Qed.

Lemma append_null_bitmap_slow_STRING_eq (a in_arr : array_info) :
  0 <= arr_length in_arr ->
  append_null_bitmap_slow_STRING a in_arr = append_null_bitmap_slow a in_arr.
Proof.
  intros Hn. unfold append_null_bitmap_slow_STRING, append_null_bitmap_slow.
  pose proof (slow_string_prefix a (null_bitmask in_arr)
                (Z.to_nat (arr_length in_arr))) as H.
  rewrite Z2Nat.id in H by lia. symmetry. exact H.
Qed.

Lemma string_batch_spec (b in_arr : string_array_info) :
  let size := arr_length (str_fields b) in
  let n := arr_length (str_fields in_arr) in
  let o := offset_at (data2 b) size in
  let added := offset_at (data2 in_arr) n in
  0 <= size -> 0 <= n ->
  offsets_increase (data2 b) size ->
  size + n + 1 <= Z.of_nat (length (data2 b)) ->
  offsets_increase (data2 in_arr) n ->
  offset_at (data2 in_arr) 0 = 0 ->
  added <= Z.of_nat (length (data1 (str_fields in_arr))) ->
  o + added <= Z.of_nat (length (data1 (str_fields b))) ->
  o + added < 2 ^ 64 ->
  BytesForBits (size + n)
    <= Z.of_nat (length (null_bitmask (str_fields b))) ->
  BytesForBits n <= Z.of_nat (length (null_bitmask (str_fields in_arr))) ->
  let r := UnsafeAppendBatch_STRING b in_arr in
  arr_length (str_fields r) = size + n
  /\ offsets_increase (data2 r) (size + n)
  /\ (forall i, 0 <= i < size ->
        string_at r i = string_at b i
        /\ GetBit (null_bitmask (str_fields r)) i
           = GetBit (null_bitmask (str_fields b)) i)
  /\ (forall j, 0 <= j < n ->
        string_at r (size + j) = string_at in_arr j
        /\ GetBit (null_bitmask (str_fields r)) (size + j)
           = GetBit (null_bitmask (str_fields in_arr)) j).
Proof.
  intros size n o added Hsize Hn Hinc Hocap Hin Hin0 Hsrc Hdcap Hd64 Hbcap
         Hbin r.
  destruct (offsets_increase_le _ _ Hinc size size ltac:(lia) ltac:(lia))
    as [Ho0 _]. fold o in Ho0.
  assert (Hinle : forall j, 0 <= j <= n ->
            0 <= offset_at (data2 in_arr) j <= added).
  { intros j Hj.
    destruct (offsets_increase_le _ _ Hin j n ltac:(lia) ltac:(lia)).
    subst added. lia. }
  pose proof (Hinle n ltac:(lia)) as Hadd.
  (* the offsets *)
  destruct (string_offsets_loop (data2 in_arr) (data2 b) size (Z.to_nat n)
              Hsize ltac:(lia)) as [_ Hoffs].
  rewrite Z2Nat.id in Hoffs by lia.
  assert (Hoff : forall i, 0 <= i ->
            offset_at (data2 r) i
            = if decide (size <= i <= size + n)
              then o + offset_at (data2 in_arr) (i - size)
              else offset_at (data2 b) i).
  { intros i Hi. subst r. unfold UnsafeAppendBatch_STRING. cbn [data2].
    fold size. fold n. rewrite Hoffs by exact Hi. fold o.
    destruct (decide (i = size)) as [->|Hne].
    - rewrite decide_False by lia. rewrite decide_True by lia.
      rewrite Z.sub_diag, Hin0. fold o. lia.
    - destruct (decide (size < i <= size + n)).
      + rewrite decide_True by lia. unfold offset_wrap.
        apply Z.mod_small. specialize (Hinle (i - size) ltac:(lia)). lia.
      + rewrite decide_False by lia. reflexivity. }
  (* the characters and the null bits *)
  set (a1 := set_data1 (str_fields b)
               (memcpy (data1 (str_fields b)) o (data1 (str_fields in_arr))
                       added)).
  assert (Hfields : str_fields r
                    = if decide (Z.land size 7 = 0)
                      then append_null_bitmap_fast a1 (str_fields in_arr)
                      else append_null_bitmap_slow a1 (str_fields in_arr)).
  { subst r. unfold UnsafeAppendBatch_STRING. cbn [str_fields].
    fold size. fold n. fold o. fold added. fold a1.
    destruct (decide _); [reflexivity|].
    apply append_null_bitmap_slow_STRING_eq. exact Hn. }
  assert (Hparts :
    arr_length (str_fields r) = size + n
    /\ data1 (str_fields r)
       = memcpy (data1 (str_fields b)) o (data1 (str_fields in_arr)) added
    /\ forall j, 0 <= j < size + n ->
         GetBit (null_bitmask (str_fields r)) j
         = if decide (size <= j)
           then GetBit (null_bitmask (str_fields in_arr)) (j - size)
           else GetBit (null_bitmask (str_fields b)) j).
  { rewrite Hfields. destruct (decide (Z.land size 7 = 0)) as [Hal|Hal].
    - destruct (append_null_bitmap_fast_spec a1 (str_fields in_arr))
        as (F1 & F2 & F3); try assumption.
      split_and!; [exact F1|exact F2|exact F3].
    - destruct (append_null_bitmap_slow_spec a1 (str_fields in_arr))
        as (F1 & F2 & F3); try assumption.
      split_and!; [exact F1|exact F2|].
      intros j Hj. rewrite F3 by lia.
      change (arr_length a1) with size. fold n.
      destruct (decide (size <= j)).
      + rewrite decide_True by lia. reflexivity.
      + rewrite decide_False by lia. reflexivity. }
  destruct Hparts as (Hlen & Hdata & Hbits).
  split_and!.
  - exact Hlen.
  - destruct Hinc as [H0 Hstep]. destruct Hin as [_ Histep]. split.
    + rewrite Hoff by lia.
      destruct (decide (size <= 0 <= size + n)); [|exact H0].
      specialize (Hinle (0 - size) ltac:(lia)). lia.
    + intros i Hi. rewrite !Hoff by lia.
      destruct (decide (size <= i)) as [Hge|Hlt].
      * rewrite !decide_True by lia.
        specialize (Histep (i - size) ltac:(lia)).
        replace (i + 1 - size) with (i - size + 1) by lia. lia.
      * rewrite decide_False by lia.
        destruct (decide (i + 1 = size)) as [He|Hne].
        -- rewrite decide_True by lia.
           replace (i + 1 - size) with 0 by lia. rewrite Hin0.
           specialize (Hstep i ltac:(lia)). rewrite He in Hstep.
           fold o in Hstep. lia.
        -- rewrite decide_False by lia. apply Hstep. lia.
  - intros i Hi.
    destruct (offsets_increase_le _ _ Hinc i (i + 1) ltac:(lia) ltac:(lia))
      as [Hi0 Hi1].
    destruct (offsets_increase_le _ _ Hinc (i + 1) size ltac:(lia)
                ltac:(lia)) as [_ Hi2].
    fold o in Hi2.
    split.
    + unfold string_at. rewrite !Hoff by lia.
      rewrite (decide_False (P := size <= i <= _)) by lia.
      destruct (decide (size <= i + 1 <= size + n)) as [He|Hne].
      * assert (i + 1 = size) as Heq by lia.
        replace (i + 1 - size) with 0 by lia. rewrite Hin0, Z.add_0_r.
        rewrite Hdata. rewrite Heq in *. fold o.
        apply take_drop_memcpy_below; lia.
      * rewrite Hdata. apply take_drop_memcpy_below; lia.
    + rewrite Hbits by lia. now rewrite decide_False by lia.
  - intros j Hj.
    pose proof (Hinle j ltac:(lia)) as Hj0.
    pose proof (Hinle (j + 1) ltac:(lia)) as Hj1.
    destruct Hin as [_ Histep]. specialize (Histep j ltac:(lia)).
    split.
    + unfold string_at. rewrite !Hoff by lia.
      rewrite !decide_True by lia. rewrite Hdata.
      replace (size + j + 1 - size) with (j + 1) by lia.
      replace (size + j - size) with j by lia.
      replace (o + offset_at (data2 in_arr) (j + 1)
               - (o + offset_at (data2 in_arr) j))
        with (offset_at (data2 in_arr) (j + 1) - offset_at (data2 in_arr) j)
        by lia.
      rewrite take_drop_memcpy_inside by lia.
      do 2 f_equal. lia.
    + rewrite Hbits by lia. rewrite decide_True by lia. f_equal. lia.
Qed.
End StringAppendFacts.

(** Rows of a STRING batch appended one at a time with [UnsafeAppendRow],
    in any order and with repetitions, read back: when the buffer has room
    for the offsets, the characters and the null bits, and every appended
    row of the batch is readable, the buffer holds its old rows unchanged,
    followed by the appended rows with their characters and null bits; its
    length grew by the number of rows, and its offsets still never
    decrease. *)
Theorem string_row_appends_read_back
    (b in_arr : BuildBuffer.string_array_info) (rows : list Z) :
  let size := BuildBuffer.arr_length (BuildBuffer.str_fields b) in
  let o := BuildBuffer.offset_at (BuildBuffer.data2 b) size in
  (0 <= size)%Z ->
  BuildBuffer.offsets_increase (BuildBuffer.data2 b) size ->
  (size + Z.of_nat (length rows) + 1
   <= Z.of_nat (length (BuildBuffer.data2 b)))%Z ->
  Forall (BuildBuffer.readable_row in_arr) rows ->
  (o + BuildBuffer.rows_chars in_arr rows
   <= Z.of_nat (length (BuildBuffer.data1 (BuildBuffer.str_fields b))))%Z ->
  (o + BuildBuffer.rows_chars in_arr rows < 2 ^ 64)%Z ->
  (Bitmap.BytesForBits (size + Z.of_nat (length rows))
   <= Z.of_nat (length (BuildBuffer.null_bitmask
                          (BuildBuffer.str_fields b))))%Z ->
  let r := BuildBuffer.UnsafeAppendRows_STRING b in_arr rows in
  BuildBuffer.arr_length (BuildBuffer.str_fields r)
  = (size + Z.of_nat (length rows))%Z
  /\ BuildBuffer.offsets_increase (BuildBuffer.data2 r)
       (size + Z.of_nat (length rows))
  /\ (forall i, (0 <= i < size)%Z ->
        BuildBuffer.string_at r i = BuildBuffer.string_at b i
        /\ Bitmap.GetBit
             (BuildBuffer.null_bitmask (BuildBuffer.str_fields r)) i
           = Bitmap.GetBit
               (BuildBuffer.null_bitmask (BuildBuffer.str_fields b)) i)
  /\ (forall (j : nat) row, rows !! j = Some row ->
        BuildBuffer.string_at r (size + Z.of_nat j)
        = BuildBuffer.string_at in_arr row
        /\ Bitmap.GetBit
             (BuildBuffer.null_bitmask (BuildBuffer.str_fields r))
             (size + Z.of_nat j)
           = Bitmap.GetBit
               (BuildBuffer.null_bitmask (BuildBuffer.str_fields in_arr))
               row).
Proof.
  intros size o Hsize Hinc Hocap Hrows Hdcap Hd64 Hbcap r.
  destruct (append_rows_string_spec in_arr rows b Hsize Hinc Hocap Hrows
              Hdcap Hd64 Hbcap) as (H1 & _ & _ & _ & _ & H6 & H7 & H8).
  split_and!; assumption.
Qed.

Lemma string_row_appends_read_back_witness :
  let r := BuildBuffer.UnsafeAppendRows_STRING
             BuildBuffer.example_string_buffer
             BuildBuffer.example_string_batch [2; 0]%Z in
  BuildBuffer.arr_length (BuildBuffer.str_fields r) = 4%Z
  /\ BuildBuffer.string_at r 0 = [97; 98]%Z
  /\ BuildBuffer.string_at r 2 = [113]%Z
  /\ BuildBuffer.string_at r 3 = [120; 121; 122]%Z.
Proof.
  pose proof (string_row_appends_read_back
                BuildBuffer.example_string_buffer
                BuildBuffer.example_string_batch [2; 0]%Z) as H.
  cbn zeta in H.
  destruct H as (H1 & _ & H3 & H4).
  - vm_compute. congruence.
  - split; [vm_compute; congruence|].
    intros i Hi. cbn in Hi. assert (i = 0 \/ i = 1)%Z as [-> | ->] by lia;
      vm_compute; congruence.
  - vm_compute. congruence.
  - repeat constructor; vm_compute; congruence.
  - vm_compute. congruence.
  - vm_compute. reflexivity.
  - vm_compute. congruence.
  - split_and!.
    + exact H1.
    + destruct (H3 0%Z ltac:(vm_compute; split; congruence)) as [-> _].
      reflexivity.
    + destruct (H4 0%nat 2%Z eq_refl) as [Hs _].
      etrans; [exact Hs|]. reflexivity.
    + destruct (H4 1%nat 0%Z eq_refl) as [Hs _].
      etrans; [exact Hs|]. reflexivity.
Defined.

(** The filtered [UnsafeAppendBatch] on a STRING column, called with
    [append_rows_sum] the number of rows that [append_rows] selects, with the
    room for the offsets, the characters and the null bits of these rows
    reserved, and with every selected row of the batch readable, leaves the
    buffer that appending the selected rows one at a time with
    [UnsafeAppendRow], in row order, leaves; its length grows by
    [append_rows_sum]. *)
Theorem string_filtered_append_is_row_appends
    (b in_arr : BuildBuffer.string_array_info) (append_rows : list bool)
    (append_rows_sum : Z) :
  let size := BuildBuffer.arr_length (BuildBuffer.str_fields b) in
  let o := BuildBuffer.offset_at (BuildBuffer.data2 b) size in
  let selected :=
    BuildBuffer.selected_rows (BuildBuffer.str_fields in_arr) append_rows in
  (0 <= size)%Z ->
  append_rows_sum = Z.of_nat (length selected) ->
  BuildBuffer.offsets_increase (BuildBuffer.data2 b) size ->
  (size + 1 + append_rows_sum
   <= Z.of_nat (length (BuildBuffer.data2 b)))%Z ->
  Forall (BuildBuffer.readable_row in_arr) selected ->
  (o + BuildBuffer.rows_chars in_arr selected
   <= Z.of_nat (length (BuildBuffer.data1 (BuildBuffer.str_fields b))))%Z ->
  (o + BuildBuffer.rows_chars in_arr selected < 2 ^ 64)%Z ->
  (Bitmap.BytesForBits (size + append_rows_sum)
   <= Z.of_nat (length (BuildBuffer.null_bitmask
                          (BuildBuffer.str_fields b))))%Z ->
  let r :=
    BuildBuffer.UnsafeAppendBatch_STRING_rows b in_arr append_rows
      append_rows_sum in
  r = BuildBuffer.UnsafeAppendRows_STRING b in_arr selected
  /\ BuildBuffer.arr_length (BuildBuffer.str_fields r)
     = (size + append_rows_sum)%Z.
Proof.
  intros size o selected Hsize Hsum Hinc Hocap Hrows Hdcap Hd64 Hbcap r.
  subst r size o selected. subst append_rows_sum.
  rewrite filtered_string_loops_are_row_appends by exact Hsize.
  split; [reflexivity|].
  pose proof (append_rows_string_spec in_arr
                (BuildBuffer.selected_rows (BuildBuffer.str_fields in_arr)
                   append_rows) b Hsize Hinc) as H.
  cbn zeta in H. destruct H as (H1 & _); [lia|assumption..|].
  exact H1.
Qed.

Lemma string_filtered_append_is_row_appends_witness :
  BuildBuffer.UnsafeAppendBatch_STRING_rows
    BuildBuffer.example_string_buffer BuildBuffer.example_string_batch
    [true; false; true] 2
  = BuildBuffer.UnsafeAppendRows_STRING
      BuildBuffer.example_string_buffer BuildBuffer.example_string_batch
      [0; 2]%Z.
Proof.
  apply (string_filtered_append_is_row_appends
           BuildBuffer.example_string_buffer BuildBuffer.example_string_batch
           [true; false; true] 2).
  - vm_compute. congruence.
  - reflexivity.
  - split; [vm_compute; congruence|].
    intros i Hi. cbn in Hi. assert (i = 0 \/ i = 1)%Z as [-> | ->] by lia;
      vm_compute; congruence.
  - vm_compute. congruence.
  - repeat constructor; vm_compute; congruence.
  - vm_compute. congruence.
  - vm_compute. reflexivity.
  - vm_compute. congruence.
Defined.

(** After the unfiltered [UnsafeAppendBatch] on a STRING column the buffer
    holds its old rows unchanged, followed by the rows of the batch with
    their characters and null bits, and its offsets still never decrease.
    This needs room in the buffer, offsets of the batch that never decrease
    and, since the characters are copied from the start of the batch's
    [data1], a batch whose first offset is 0. *)
Theorem string_append_reads_back
    (b in_arr : BuildBuffer.string_array_info) :
  let size := BuildBuffer.arr_length (BuildBuffer.str_fields b) in
  let n := BuildBuffer.arr_length (BuildBuffer.str_fields in_arr) in
  let o := BuildBuffer.offset_at (BuildBuffer.data2 b) size in
  let added := BuildBuffer.offset_at (BuildBuffer.data2 in_arr) n in
  (0 <= size)%Z -> (0 <= n)%Z ->
  BuildBuffer.offsets_increase (BuildBuffer.data2 b) size ->
  (size + n + 1 <= Z.of_nat (length (BuildBuffer.data2 b)))%Z ->
  BuildBuffer.offsets_increase (BuildBuffer.data2 in_arr) n ->
  BuildBuffer.offset_at (BuildBuffer.data2 in_arr) 0 = 0%Z ->
  (n + 1 <= Z.of_nat (length (BuildBuffer.data2 in_arr)))%Z ->
  (added
   <= Z.of_nat (length (BuildBuffer.data1 (BuildBuffer.str_fields in_arr))))%Z ->
  (o + added
   <= Z.of_nat (length (BuildBuffer.data1 (BuildBuffer.str_fields b))))%Z ->
  (o + added < 2 ^ 64)%Z ->
  (Bitmap.BytesForBits (size + n)
   <= Z.of_nat (length (BuildBuffer.null_bitmask
                          (BuildBuffer.str_fields b))))%Z ->
  (Bitmap.BytesForBits n
   <= Z.of_nat (length (BuildBuffer.null_bitmask
                          (BuildBuffer.str_fields in_arr))))%Z ->
  let r := BuildBuffer.UnsafeAppendBatch_STRING b in_arr in
  BuildBuffer.arr_length (BuildBuffer.str_fields r) = (size + n)%Z
  /\ BuildBuffer.offsets_increase (BuildBuffer.data2 r) (size + n)
  /\ (forall i, (0 <= i < size)%Z ->
        BuildBuffer.string_at r i = BuildBuffer.string_at b i
        /\ Bitmap.GetBit
             (BuildBuffer.null_bitmask (BuildBuffer.str_fields r)) i
           = Bitmap.GetBit
               (BuildBuffer.null_bitmask (BuildBuffer.str_fields b)) i)
  /\ (forall j, (0 <= j < n)%Z ->
        BuildBuffer.string_at r (size + j) = BuildBuffer.string_at in_arr j
        /\ Bitmap.GetBit
             (BuildBuffer.null_bitmask (BuildBuffer.str_fields r)) (size + j)
           = Bitmap.GetBit
               (BuildBuffer.null_bitmask (BuildBuffer.str_fields in_arr)) j).
Proof.
  intros size n o added Hsize Hn Hinc Hocap Hin Hin0 _ Hsrc Hdcap Hd64 Hbcap
         Hbin.
  apply (string_batch_spec b in_arr); assumption.
Qed.

Lemma string_append_reads_back_witness :
  let r := BuildBuffer.UnsafeAppendBatch_STRING
             BuildBuffer.example_string_buffer
             BuildBuffer.example_string_batch in
  BuildBuffer.arr_length (BuildBuffer.str_fields r) = 5%Z
  /\ BuildBuffer.string_at r 0 = [97; 98]%Z
  /\ BuildBuffer.string_at r 2 = [120; 121; 122]%Z
  /\ Bitmap.GetBit (BuildBuffer.null_bitmask (BuildBuffer.str_fields r)) 3
     = false.
Proof.
  pose proof (string_append_reads_back BuildBuffer.example_string_buffer
                BuildBuffer.example_string_batch) as H.
  cbn zeta in H.
  destruct H as (H1 & _ & H3 & H4).
  - vm_compute. congruence.
  - vm_compute. congruence.
  - split; [vm_compute; congruence|].
    intros i Hi. cbn in Hi. assert (i = 0 \/ i = 1)%Z as [-> | ->] by lia;
      vm_compute; congruence.
  - vm_compute. congruence.
  - split; [vm_compute; congruence|].
    intros i Hi. cbn in Hi. assert (i = 0 \/ i = 1 \/ i = 2)%Z as [-> | [-> | ->]] by lia;
      vm_compute; congruence.
  - reflexivity.
  - vm_compute. congruence.
  - vm_compute. congruence.
  - vm_compute. congruence.
  - vm_compute. reflexivity.
  - vm_compute. congruence.
  - vm_compute. congruence.
  - split_and!.
    + exact H1.
    + destruct (H3 0%Z ltac:(vm_compute; split; congruence)) as [-> _].
      reflexivity.
    + destruct (H4 0%Z ltac:(vm_compute; split; congruence)) as [Hs _].
      etrans; [exact Hs|]. reflexivity.
    + destruct (H4 1%Z ltac:(vm_compute; split; congruence)) as [_ Hb].
      etrans; [exact Hb|]. reflexivity.
Defined.

(* --------------------------------------------------------------------- *)
(** ** Reading back what the boolean append wrote                         *)
(* --------------------------------------------------------------------- *)
Section BoolAppendFacts.
Import Bitmap BuildBuffer.
Local Open Scope Z_scope.

(** An array with its bit-packed values in the place of the null bitmap. *)
Abbreviation values_as_bitmap a := (set_null_bitmask a (data1 a)).
Abbreviation bool_step in_arr :=
  (fun (acc : array_info) (row_ind : Z) =>
     set_length
       (set_null_bitmask
          (set_data1 acc
             (SetBitTo (data1 acc) (arr_length acc)
                       (GetBit (data1 in_arr) row_ind)))
          (SetBitTo (null_bitmask acc) (arr_length acc)
                    (GetBit (null_bitmask in_arr) row_ind)))
       (arr_length acc + 1)).
Abbreviation one_bit_step in_bm :=
  (fun (acc : array_info) (i : Z) =>
     set_length (set_null_bitmask acc
                   (SetBitTo (null_bitmask acc) (arr_length acc)
                             (GetBit in_bm i)))
                (arr_length acc + 1)).

(** The row loop of the boolean append is the bit-by-bit loop of the null
    bitmap, run on the values and on the null bits. *)
Lemma bool_loop_split (in_arr : array_info) (rows : list Z) :
  forall a : array_info,
  let r := fold_left (bool_step in_arr) rows a in
  arr_length r = arr_length a + Z.of_nat (length rows)
  /\ data1 r
     = null_bitmask (fold_left (one_bit_step (data1 in_arr)) rows
                               (values_as_bitmap a))
  /\ null_bitmask r
     = null_bitmask (fold_left (one_bit_step (null_bitmask in_arr)) rows a).
Proof.
  induction rows as [|row rows IH]; intros a r.
  - subst r. cbn. split_and!; [lia|reflexivity|reflexivity].
  - subst r. cbn [fold_left length].
    destruct (IH (bool_step in_arr a row)) as (H1 & H2 & H3).
    rewrite H1, H2, H3. clear IH H1 H2 H3.
    split_and!.
    + cbn. lia.
    + match goal with
      | |- null_bitmask (fold_left ?f rows ?x)
           = null_bitmask (fold_left _ rows ?y) =>
          assert (E : x = set_data1 y
                            (SetBitTo (data1 a) (arr_length a)
                                      (GetBit (data1 in_arr) row)))
            by reflexivity;
          rewrite E;
          rewrite (bit_loop_set_data1 (data1 in_arr) rows y)
      end.
      reflexivity.
    + match goal with
      | |- null_bitmask (fold_left ?f rows ?x)
           = null_bitmask (fold_left _ rows ?y) =>
          assert (E : x = set_data1 y
                            (SetBitTo (data1 a) (arr_length a)
                                      (GetBit (data1 in_arr) row)))
            by reflexivity;
          rewrite E;
          rewrite (bit_loop_set_data1 (null_bitmask in_arr) rows y)
      end.
      reflexivity.
Qed.
End BoolAppendFacts.

(** After the unfiltered [UnsafeAppendBatch] on a boolean column, whose
    values are bits, the buffer holds its old rows followed by the rows of
    the batch, on the byte-copy path as on the bit-by-bit path: the size
    grew by the length of the batch, the value bit and the null bit of every
    old row are what they were, and those of row [size + r] are those of
    row [r] of the batch. *)
Theorem bool_append_reads_back (b : BuildBuffer.ArrayBuildBuffer)
    (in_arr : BuildBuffer.array_info) :
  let n := BuildBuffer.arr_length in_arr in
  let old := BuildBuffer.data_array b in
  (0 <= BuildBuffer.size b)%Z -> (0 <= n)%Z ->
  (Bitmap.BytesForBits (BuildBuffer.size b + n)
   <= Z.of_nat (length (BuildBuffer.data1 old)))%Z ->
  (Bitmap.BytesForBits (BuildBuffer.size b + n)
   <= Z.of_nat (length (BuildBuffer.null_bitmask old)))%Z ->
  (Bitmap.BytesForBits n <= Z.of_nat (length (BuildBuffer.data1 in_arr)))%Z ->
  (Bitmap.BytesForBits n
   <= Z.of_nat (length (BuildBuffer.null_bitmask in_arr)))%Z ->
  let r := BuildBuffer.UnsafeAppendBatch_BOOL b in_arr in
  let new := BuildBuffer.data_array r in
  BuildBuffer.size r = (BuildBuffer.size b + n)%Z
  /\ BuildBuffer.capacity r = BuildBuffer.capacity b
  /\ (forall j, (0 <= j < BuildBuffer.size b + n)%Z ->
        Bitmap.GetBit (BuildBuffer.data1 new) j
        = (if decide (j < BuildBuffer.size b)%Z
           then Bitmap.GetBit (BuildBuffer.data1 old) j
           else Bitmap.GetBit (BuildBuffer.data1 in_arr)
                  (j - BuildBuffer.size b))
        /\ Bitmap.GetBit (BuildBuffer.null_bitmask new) j
           = if decide (j < BuildBuffer.size b)%Z
             then Bitmap.GetBit (BuildBuffer.null_bitmask old) j
             else Bitmap.GetBit (BuildBuffer.null_bitmask in_arr)
                    (j - BuildBuffer.size b)).
Proof.
  intros n old H0 Hn Hdcap Hbcap Hdin Hbin r new.
  subst r new old n. unfold BuildBuffer.UnsafeAppendBatch_BOOL.
  unfold BuildBuffer.size in *.
  set (a := BuildBuffer.data_array b) in *.
  set (av := BuildBuffer.set_null_bitmask a (BuildBuffer.data1 a)).
  set (iv := BuildBuffer.set_null_bitmask in_arr (BuildBuffer.data1 in_arr)).
  destruct (decide (Z.land (BuildBuffer.arr_length a) 7 = 0%Z)) as [Hal|Hal].
  - destruct (append_null_bitmap_fast_spec av iv H0 Hn Hal Hdcap Hdin)
      as (_ & _ & Fd).
    destruct (append_null_bitmap_fast_spec a in_arr H0 Hn Hal Hbcap Hbin)
      as (_ & _ & Fb).
    cbn [BuildBuffer.with_array BuildBuffer.data_array BuildBuffer.capacity
         BuildBuffer.set_length BuildBuffer.set_null_bitmask
         BuildBuffer.set_data1 BuildBuffer.arr_length BuildBuffer.data1
         BuildBuffer.null_bitmask].
    split_and!; [reflexivity|reflexivity|].
    intros j Hj. split.
    + specialize (Fd j Hj). cbn in Fd. cbn. rewrite Fd.
      destruct (decide (j < BuildBuffer.arr_length a)%Z).
      * rewrite decide_False by lia. reflexivity.
      * rewrite decide_True by lia. reflexivity.
    + specialize (Fb j Hj). cbn in Fb. cbn. rewrite Fb.
      destruct (decide (j < BuildBuffer.arr_length a)%Z).
      * rewrite decide_False by lia. reflexivity.
      * rewrite decide_True by lia. reflexivity.
  - destruct (bool_loop_split in_arr (Zseq (BuildBuffer.arr_length in_arr)) a)
      as (L1 & L2 & L3).
    destruct (append_null_bitmap_slow_spec av iv H0 Hn Hdcap) as (_ & _ & Fd).
    destruct (append_null_bitmap_slow_spec a in_arr H0 Hn Hbcap)
      as (_ & _ & Fb).
    cbn [BuildBuffer.with_array BuildBuffer.data_array BuildBuffer.capacity].
    rewrite L1, L2, L3, length_Zseq, Z2Nat.id by lia.
    split_and!; [reflexivity|reflexivity|].
    intros j Hj. split.
    + specialize (Fd j ltac:(lia)).
      etrans; [exact Fd|]. cbn.
      destruct (decide (j < BuildBuffer.arr_length a)%Z).
      * rewrite decide_False by lia. reflexivity.
      * rewrite decide_True by lia. reflexivity.
    + specialize (Fb j ltac:(lia)).
      etrans; [exact Fb|].
      destruct (decide (j < BuildBuffer.arr_length a)%Z).
      * rewrite decide_False by lia. reflexivity.
      * rewrite decide_True by lia. reflexivity.
Qed.

Lemma bool_append_reads_back_witness :
  let r := BuildBuffer.UnsafeAppendBatch_BOOL
             BuildBuffer.example_bool_buffer BuildBuffer.example_bool_batch in
  BuildBuffer.size r = 6%Z
  /\ Bitmap.GetBit (BuildBuffer.data1 (BuildBuffer.data_array r)) 4 = true
  /\ Bitmap.GetBit (BuildBuffer.null_bitmask (BuildBuffer.data_array r)) 5
     = false.
Proof.
  pose proof (bool_append_reads_back BuildBuffer.example_bool_buffer
                BuildBuffer.example_bool_batch) as H.
  cbn zeta in H.
  destruct H as (H1 & _ & H2); [vm_compute; congruence..|].
  split_and!; [exact H1| |].
  - destruct (H2 4%Z ltac:(vm_compute; split; congruence)) as [Hd _].
    etrans; [exact Hd|]. reflexivity.
  - destruct (H2 5%Z ltac:(vm_compute; split; congruence)) as [_ Hb].
    etrans; [exact Hb|]. reflexivity.
Defined.
